(** * CPU kernels of intel-extension-for-pytorch: pixel shuffle, average
    pooling and the convolution fusion guard

    A shallow embedding of
    - [PixelShuffle.cpp]  (kernels, dispatch, autograd wrappers),
    - [AveragePool.cpp]   (forward and backward kernels, entry points),
    - [graph_rewrite.cpp] (the guard of the convolution+elu fusion),
    followed by the properties proved about them.

    Conventions of the embedding.
    - [int64_t] and [int] values are integers of [Z]. Signed overflow is
      undefined in C++, so there is no wrap-around to write out; every
      quantity the kernels compute is bounded by the element count of an
      existing tensor. [/] and [%] are C++ truncating division, [Z.quot] and
      [Z.rem]; a division whose divisor is zero is a fault, not a value.
    - A tensor is its size list, the layout tag [suggest_memory_format]
      reports, its element type and its dense storage in the physical order
      of that layout. Storage cells are values of one carrier type [A]; the
      arithmetic of each element type is a parameter ([Arith]).
    - [at::Tensor] is a handle on shared storage: a kernel that writes its
      output argument is a function returning the written tensor.
    - TORCH_CHECK failures, dispatch failures and faults are values of
      [result]. *)

From Stdlib Require Import ZArith String PrimFloat Uint63.
From stdpp Require Import base numbers list strings gmap.

Local Open Scope Z_scope.

(** ** Errors *)

Inductive ScalarType :=
| Byte | Char | Short | Int | Long | Half | Float | Double
| ComplexHalf | ComplexFloat | ComplexDouble | Bool
| QInt8 | QUInt8 | QInt32 | BFloat16.

Global Instance ScalarType_eq_dec : EqDecision ScalarType.
Proof. solve_decision. Defined.

Inductive MemoryFormat := Contiguous | Preserve | ChannelsLast | ChannelsLast3d.

Global Instance MemoryFormat_eq_dec : EqDecision MemoryFormat.
Proof. solve_decision. Defined.

(** What a call can end with instead of a value. [c10_Error msg args] is the
    exception of a failed TORCH_CHECK: the literal text of the message and
    the values spliced into it. *)
Inductive error :=
| c10_Error (msg : string) (args : list Z)
| c10_NotImplemented (name : string) (ty : ScalarType)
| c10_IndexError (d : Z)
| UndefinedBehavior (what : string).

Inductive result (T : Type) : Type :=
| Ok (v : T)
| Err (e : error).
Arguments Ok {T} v.
Arguments Err {T} e.

Global Instance result_ret : MRet result := λ T v, Ok v.
Global Instance result_bind : MBind result :=
  λ T U f m, match m with Ok v => f v | Err e => Err e end.
Global Instance result_fmap : FMap result :=
  λ T U f m, match m with Ok v => Ok (f v) | Err e => Err e end.

Definition is_Ok {T} (r : result T) : bool :=
  match r with Ok _ => true | Err _ => false end.

Definition TORCH_CHECK (cond : bool) (msg : string) (args : list Z) : result unit :=
  if cond then Ok () else Err (c10_Error msg args).

(** [a / b] on [int64_t]. *)
Definition div64 (a b : Z) : result Z :=
  if bool_decide (b = 0) then Err (UndefinedBehavior "integer division by zero")
  else Ok (a `quot` b).

(** [a % b] on [int64_t]. *)
Definition rem64 (a b : Z) : result Z :=
  if bool_decide (b = 0) then Err (UndefinedBehavior "integer remainder by zero")
  else Ok (a `rem` b).

(** ** The host library: tensors, indexing, parallel loops *)

Module ATen.

(** Modelled from the spec: the dense tensor type of the host library (§3,
    §6), consumed not owned. [sizes] is the shape, [suggest_memory_format]
    the physical layout tag, [scalar_type] the element numeric kind and
    [data_ptr] the storage, one cell per element, in the order the layout
    tag prescribes. *)
Record Tensor (A : Type) := mkTensor {
  sizes : list Z;
  suggest_memory_format : MemoryFormat;
  scalar_type : ScalarType;
  data_ptr : list A
}.
Arguments mkTensor {A} _ _ _ _.
Arguments sizes {A} _.
Arguments suggest_memory_format {A} _.
Arguments scalar_type {A} _.
Arguments data_ptr {A} _.

Definition with_data {A} (t : Tensor A) (d : list A) : Tensor A :=
  mkTensor (sizes t) (suggest_memory_format t) (scalar_type t) d.

Definition prod_sizes (l : list Z) : Z := foldr Z.mul 1 l.

Definition numel {A} (t : Tensor A) : Z := prod_sizes (sizes t).

Definition dim {A} (t : Tensor A) : Z := Z.of_nat (length (sizes t)).

(** [t.size(d)], negative [d] counting from the last dimension. *)
Definition size {A} (t : Tensor A) (d : Z) : result Z :=
  let d' := if bool_decide (d < 0) then d + dim t else d in
  if bool_decide (0 ≤ d' < dim t)
  then Ok (sizes t !!! Z.to_nat d')
  else Err (c10_IndexError d).

(** The invariants every [at::Tensor] handed to the kernels satisfies: the
    storage holds one cell per element, no size is negative, and the layout
    tag is ChannelsLast only for a tensor of four non-empty dimensions
    (ChannelsLast3d: five). *)
Definition well_formed {A} (t : Tensor A) : Prop :=
  length (data_ptr t) = Z.to_nat (numel t) ∧
  Forall (λ s, 0 ≤ s) (sizes t) ∧
  match suggest_memory_format t with
  | Contiguous => True
  | ChannelsLast => length (sizes t) = 4%nat ∧ Forall (λ s, 0 < s) (sizes t)
  | ChannelsLast3d => length (sizes t) = 5%nat ∧ Forall (λ s, 0 < s) (sizes t)
  | Preserve => False
  end.

(** Modelled from the spec: the index enumerator of §4.1
    ([at::native::data_index_init]). The extents are listed from the
    slowest- to the fastest-varying; the result is the offset left over
    after all extents were divided out, and the coordinate tuple. *)
Fixpoint data_index_init (offset : Z) (extents : list Z) : Z * list Z :=
  match extents with
  | [] => (offset, [])
  | X :: rest =>
      let '(offset', xs) := data_index_init offset rest in
      (offset' `quot` X, offset' `rem` X :: xs)
  end.

(** Modelled from the spec: the step of the index enumerator
    ([at::native::data_index_step]): the fastest digit is incremented, a
    digit that reaches its extent resets to zero and carries. The boolean
    is the carry out of the slowest digit handled. *)
Fixpoint data_index_step (xs extents : list Z) : bool * list Z :=
  match xs, extents with
  | x :: xs', X :: rest =>
      let '(carry, ys) := data_index_step xs' rest in
      if carry
      then let x' := if bool_decide (x + 1 = X) then 0 else x + 1 in
           (bool_decide (x' = 0), x' :: ys)
      else (false, x :: ys)
  | _, _ => (true, [])
  end.

Section Loops.
Context {St : Type}.

(** [for (i = b; n iterations; i++) st = body(i, st)] *)
Fixpoint for_loop (n : nat) (i : Z) (body : Z → St → St) (st : St) : St :=
  match n with
  | O => st
  | S n' => for_loop n' (i + 1) body (body i st)
  end.

(** [for (const auto i : c10::irange(b, e))] *)
Definition irange (b e : Z) (body : Z → St → St) (st : St) : St :=
  for_loop (Z.to_nat (e - b)) b body st.

(** [for (d = b; d < e; d += step)], [step > 0]. *)
Fixpoint strided_loop (n : nat) (d step : Z) (body : Z → St → St) (st : St) : St :=
  match n with
  | O => st
  | S n' => strided_loop n' (d + step) step body (body d st)
  end.

(** The loop every kernel runs over its chunk [begin, end): the
    coordinates are initialised from [begin] and stepped once per
    iteration (also on the iterations that [continue]). *)
Fixpoint index_loop (extents : list Z) (body : Z → list Z → St → St)
    (n : nat) (i : Z) (xs : list Z) (st : St) : St :=
  match n with
  | O => st
  | S n' =>
      index_loop extents body n' (i + 1) (data_index_step xs extents).2
        (body i xs st)
  end.

Definition indexed_chunk (extents : list Z) (body : Z → list Z → St → St)
    (begin end_ : Z) (st : St) : St :=
  index_loop extents body (Z.to_nat (end_ - begin)) begin
    (data_index_init begin extents).2 st.
End Loops.

Definition divup (x y : Z) : Z := (x + y - 1) `quot` y.

(** What the kernels cannot choose: the number of worker threads of the
    pool, the lane count of each [Vectorized<T>], whether gradient mode is
    on, and the content of freshly allocated storage. *)
Class Runtime (A : Type) := {
  num_threads : positive;
  vec_size : ScalarType → positive;
  bvec_is_two_fvec : vec_size BFloat16 = (2 * vec_size Float)%positive;
  GradMode_is_enabled : bool;
  uninitialized : nat → A
}.

Section Host.
Context {A : Type} `{!Inhabited A, !Runtime A}.

(** Modelled from the spec: the parallel-for primitive of §6,
    [parallel_for(start, end, grain, body)]: nothing runs on an empty
    range; otherwise thread [tid] receives the contiguous sub-range
    [begin + tid * chunk, min(end, begin + (tid + 1) * chunk)). The
    chunks write disjoint cells, and are run here in the order of their
    thread number. *)
Definition parallel_for {St} (begin end_ : Z) (f : Z → Z → St → St) (st : St) : St :=
  if bool_decide (end_ ≤ begin) then st
  else
    let chunk_size := divup (end_ - begin) (Z.pos num_threads) in
    foldl (λ st tid,
             let begin_tid := begin + Z.of_nat tid * chunk_size in
             if bool_decide (begin_tid < end_)
             then f begin_tid (Z.min end_ (chunk_size + begin_tid)) st
             else st)
          st (seq 0 (Pos.to_nat num_threads)).

(** [at::empty(sizes, options.memory_format(fmt))]: storage of the right
    length and unspecified content. A ChannelsLast tensor has rank 4. *)
Definition empty (sz : list Z) (fmt : MemoryFormat) (ty : ScalarType)
    : result (Tensor A) :=
  _ ← TORCH_CHECK (bool_decide (fmt ≠ ChannelsLast ∨ length sz = 4%nat))
        "required rank 4 tensor to use channels_last format" [];
  _ ← TORCH_CHECK (bool_decide (fmt ≠ ChannelsLast3d ∨ length sz = 5%nat))
        "required rank 5 tensor to use channels_last_3d format" [];
  Ok (mkTensor sz fmt ty (uninitialized <$> seq 0 (Z.to_nat (prod_sizes sz)))).

(** [t.resize_(sizes, fmt)] on the zero-element tensor [at::empty({0})]. *)
Definition resize_ (t : Tensor A) (sz : list Z) (fmt : MemoryFormat)
    : result (Tensor A) :=
  empty sz fmt (scalar_type t).

(** One cell read, [p[i]]. *)
Definition load (p : list A) (i : Z) : A := p !!! Z.to_nat i.

(** One cell written, [p[i] = v]. *)
Definition store (p : list A) (i : Z) (v : A) : list A := <[Z.to_nat i := v]> p.

(** Modelled from the spec: the vectorized-lane type of §6. A
    [Vectorized<T>] is the list of its lanes; [loadu] reads and [store]
    writes that many consecutive cells. *)
Definition Vec_broadcast (x : A) (lanes : positive) : list A :=
  replicate (Pos.to_nat lanes) x.

Definition Vec_loadu (p : list A) (off : Z) (lanes : positive) : list A :=
  (λ k : nat, load p (off + Z.of_nat k)) <$> seq 0 (Pos.to_nat lanes).

Definition Vec_store (v : list A) (p : list A) (off : Z) : list A :=
  list_inserts (Z.to_nat off) v p.

(** [t.zero_()] with the zero of the element type. *)
Definition zero_ (z : A) (t : Tensor A) : Tensor A :=
  with_data t (replicate (length (data_ptr t)) z).
End Host.

(** The arithmetic of the element types on the cells: [zero t] is [T(0)],
    [add t] is [+] in [T], [div t a n] is [a / n] for an [int64_t] [n]
    converted to [T], and [cast s t] is [static_cast] from [S] to [T].

    [div] is a total function: it has a value also where the code would
    divide an integer by zero, which C++ leaves undefined. The kernels
    are therefore the code only on runs whose quotients all have a
    non-zero divisor; the theorems on them are stated on configurations
    where this holds, and say so. *)
Class Arith (A : Type) := {
  zero : ScalarType → A;
  add : ScalarType → A → A → A;
  div : ScalarType → A → Z → A;
  cast : ScalarType → ScalarType → A → A
}.

(** Modelled from the spec: the standard floor/ceil pooling-output-shape
    formula of §3 ([at::native::pooling_output_shape] with its helper
    [div_rtn], division rounding toward negative infinity). In ceil mode
    the last window must start inside the input or its left padding. *)
Definition div_rtn (x y : Z) : Z :=
  let q := x `quot` y in
  let r := x `rem` y in
  if bool_decide (r ≠ 0) && negb (eqb (bool_decide (r < 0)) (bool_decide (y < 0)))
  then q - 1 else q.

Definition pooling_output_shape_pad_lr
    (inputSize kernelSize pad_l pad_r stride dilation : Z) (ceil_mode : bool) : Z :=
  let outputSize :=
    div_rtn (inputSize + pad_l + pad_r - dilation * (kernelSize - 1) - 1 +
             (if ceil_mode then stride - 1 else 0)) stride + 1 in
  if ceil_mode && bool_decide (inputSize + pad_l ≤ (outputSize - 1) * stride)
  then outputSize - 1 else outputSize.

Definition pooling_output_shape
    (inputSize kernelSize pad stride dilation : Z) (ceil_mode : bool) : result Z :=
  _ ← TORCH_CHECK (bool_decide (stride ≠ 0)) "stride should not be zero" [];
  Ok (pooling_output_shape_pad_lr inputSize kernelSize pad pad stride dilation ceil_mode).

(** [safe_downcast<int, int64_t>] *)
Definition safe_downcast_int (v : Z) : result Z :=
  _ ← TORCH_CHECK (bool_decide (-2147483648 ≤ v ≤ 2147483647)) "integer out of range" [];
  Ok v.

Section ShapeChecks.
Context {A : Type}.

(** Modelled from the spec: the shape validation of the dispatch layer
    (§4.4, [at::native::pool2d_shape_check]): positive kernel, stride and
    dilation; a 3-D or 4-D input whose non-batch dimensions are not
    empty (4-D for a channels-last input); padding at most half the
    kernel; an output of at least one element per plane. *)
Definition pool2d_shape_check (input : Tensor A)
    (kH kW dH dW padH padW dilationH dilationW : Z)
    (nInputPlane inputHeight inputWidth outputHeight outputWidth : Z)
    (memory_format : MemoryFormat) : result unit :=
  let ndim := dim input in
  _ ← TORCH_CHECK (bool_decide (0 < kW ∧ 0 < kH))
        "kernel size should be greater than zero, but got kH: {} kW: {}" [kH; kW];
  _ ← TORCH_CHECK (bool_decide (0 < dW ∧ 0 < dH))
        "stride should be greater than zero, but got dH: {} dW: {}" [dH; dW];
  _ ← TORCH_CHECK (bool_decide (0 < dilationH ∧ 0 < dilationW))
        "dilation should be greater than zero, but got dilationH: {} dilationW: {}"
        [dilationH; dilationW];
  let nonzero d := bool_decide (sizes input !! d ≠ Some 0 ∧ is_Some (sizes input !! d)) in
  let valid_dims := nonzero 1%nat && nonzero 2%nat in
  _ ← (if bool_decide (memory_format = ChannelsLast)
       then TORCH_CHECK (bool_decide (ndim = 4) && valid_dims && nonzero 3%nat)
              "Expected 4D (batch mode) tensor expected for input with channels_last layout with optional 0 dim batch size for input, but got: {}"
              (sizes input)
       else TORCH_CHECK ((bool_decide (ndim = 3) && nonzero 0%nat && valid_dims) ||
                         (bool_decide (ndim = 4) && valid_dims && nonzero 3%nat))
              "Expected 3D or 4D (batch mode) tensor with optional 0 dim batch size for input, but got: {}"
              (sizes input));
  _ ← TORCH_CHECK (bool_decide (padW ≤ kW `quot` 2 ∧ padH ≤ kH `quot` 2))
        "pad should be smaller than or equal to half of kernel size, but got padW = {}, padH = {}, kW = {}, kH = {}"
        [padW; padH; kW; kH];
  TORCH_CHECK (bool_decide (1 ≤ outputWidth ∧ 1 ≤ outputHeight))
    "Given input size: ({}x{}x{}). Calculated output size: ({}x{}x{}). Output size is too small"
    [nInputPlane; inputHeight; inputWidth; nInputPlane; outputHeight; outputWidth].

(** [check_dim_size(t, dim, dim_size, size)] *)
Definition check_dim_size (t : Tensor A) (ndim dim_size sz : Z) : result unit :=
  TORCH_CHECK (bool_decide (dim t = ndim ∧ sizes t !! Z.to_nat dim_size = Some sz))
    "Expected a tensor of dimension {} and tensor.size[{}] == {} but got: dimension {} and tensor.size[{}] = ..."
    [ndim; dim_size; sz; dim t; dim_size].

(** Modelled from the spec: the backward shape validation
    ([at::native::avg_pool2d_backward_shape_check]): the forward checks,
    and a gradient with the rank of the input and the plane count and
    spatial size of the forward output. *)
Definition avg_pool2d_backward_shape_check (input gradOutput : Tensor A)
    (nbatch kH kW dH dW padH padW : Z)
    (nInputPlane inputHeight inputWidth outputHeight outputWidth : Z)
    (memory_format : MemoryFormat) : result unit :=
  _ ← pool2d_shape_check input kH kW dH dW padH padW 1 1
        nInputPlane inputHeight inputWidth outputHeight outputWidth memory_format;
  let ndim := dim input in
  let nOutputPlane := nInputPlane in
  _ ← check_dim_size gradOutput ndim (ndim - 3) nOutputPlane;
  _ ← check_dim_size gradOutput ndim (ndim - 2) outputHeight;
  check_dim_size gradOutput ndim (ndim - 1) outputWidth.
End ShapeChecks.

(** ** Layouts

    The physical order of a layout is a permutation of the logical
    coordinate order (N, C, H, W): ChannelsLast stores (N, H, W, C). *)
Definition to_physical {T} (fmt : MemoryFormat) (l : list T) : list T :=
  match fmt, l with
  | ChannelsLast, [n; c; h; w] => [n; h; w; c]
  | ChannelsLast3d, [n; c; d; h; w] => [n; d; h; w; c]
  | _, _ => l
  end.

Definition to_logical {T} (fmt : MemoryFormat) (l : list T) : list T :=
  match fmt, l with
  | ChannelsLast, [n; h; w; c] => [n; c; h; w]
  | ChannelsLast3d, [n; d; h; w; c] => [n; c; d; h; w]
  | _, _ => l
  end.

(** Offset of a coordinate tuple in a dense row-major array of the given
    extents (Horner form, slowest digit first). *)
Definition ravel_from (acc : Z) (xs extents : list Z) : Z :=
  foldl (λ acc p, acc * p.2 + p.1) acc (zip xs extents).

Definition ravel (xs extents : list Z) : Z := ravel_from 0 xs extents.

Section Elements.
Context {A : Type} `{!Inhabited A}.

(** Storage offset of the element at logical coordinates [xs]. *)
Definition offset_of (t : Tensor A) (xs : list Z) : Z :=
  ravel (to_physical (suggest_memory_format t) xs)
        (to_physical (suggest_memory_format t) (sizes t)).

(** The element at logical coordinates [xs]. *)
Definition element (t : Tensor A) (xs : list Z) : A :=
  load (data_ptr t) (offset_of t xs).

(** Logical coordinates of the cell at storage offset [p] of a tensor
    of shape [sz] dense in [fmt]. *)
Definition coords_of (fmt : MemoryFormat) (sz : list Z) (p : Z) : list Z :=
  to_logical fmt (data_index_init p (to_physical fmt sz)).2.

Definition is_contiguous (t : Tensor A) (fmt : MemoryFormat) : bool :=
  bool_decide (suggest_memory_format t = fmt).

(** Modelled from the spec: the contiguous-memory view request under a
    named layout (§6), [t.contiguous(fmt)]: the tensor itself when it is
    dense in [fmt] already, a repacked copy with the same elements
    otherwise. *)
Definition contiguous (t : Tensor A) (fmt : MemoryFormat) : result (Tensor A) :=
  if is_contiguous t fmt then Ok t
  else
    _ ← TORCH_CHECK (bool_decide (fmt ≠ ChannelsLast ∨ length (sizes t) = 4%nat))
          "required rank 4 tensor to use channels_last format" [];
    _ ← TORCH_CHECK (bool_decide (fmt ≠ ChannelsLast3d ∨ length (sizes t) = 5%nat))
          "required rank 5 tensor to use channels_last_3d format" [];
    Ok (mkTensor (sizes t) fmt (scalar_type t)
          ((λ p : nat, element t (coords_of fmt (sizes t) (Z.of_nat p)))
             <$> seq 0 (Z.to_nat (numel t)))).

(** Modelled from the spec: the generic copy-into operation (§6),
    [dst.copy_(src)] for tensors of one shape: [dst] keeps its layout
    and receives the elements of [src]. *)
Definition copy_ (dst src : Tensor A) : result (Tensor A) :=
  src' ← contiguous src (suggest_memory_format dst);
  Ok (with_data dst (data_ptr src')).
End Elements.

(** ** Boxed values ([c10::IValue]) and the autograd context *)

Inductive IValue :=
| INone
| IInt (z : Z)
| IDouble (d : float)
| IBool (b : bool)
| IIntList (l : list Z).

Global Instance IValue_inhabited : Inhabited IValue := populate INone.

Definition isDouble (v : IValue) : bool :=
  match v with IDouble _ => true | _ => false end.

Definition toDouble (v : IValue) : result float :=
  match v with
  | IDouble d => Ok d
  | _ => Err (c10_Error "isDouble() INTERNAL ASSERT FAILED" [])
  end.

Definition toInt (v : IValue) : result Z :=
  match v with
  | IInt z => Ok z
  | _ => Err (c10_Error "isInt() INTERNAL ASSERT FAILED" [])
  end.

Definition toIntList (v : IValue) : result (list Z) :=
  match v with
  | IIntList l => Ok l
  | _ => Err (c10_Error "isIntList() INTERNAL ASSERT FAILED" [])
  end.

(** Modelled from the spec: the autograd context of §6, a key-value store
    scoped to one forward/backward pair. *)
Record AutogradContext := mkContext { saved_data : gmap string IValue }.

(** [buf'] has the length of [buf], and each of its cells
    [idx o ih iw d] with coordinates in bounds holds [F o ih iw d] of what
    the cell held in [buf]. *)
Definition cells_rel {A} `{!Inhabited A} (inb : Z → Z → Z → Z → Prop)
    (idx : Z → Z → Z → Z → Z) (F : Z → Z → Z → Z → A → A)
    (buf buf' : list A) : Prop :=
  length buf' = length buf ∧
  ∀ o ih iw d, inb o ih iw d →
    load buf' (idx o ih iw d) = F o ih iw d (load buf (idx o ih iw d)).

(** The element types the floating dispatch covers. *)
Definition floating (ty : ScalarType) : Prop := ty = Float ∨ ty = Double.

(** The element types the pooling dispatch covers. *)
Definition pooling_type (ty : ScalarType) : Prop :=
  ty = Float ∨ ty = Double ∨ ty = Long ∨ ty = BFloat16.

(** The two layouts the kernels have a path for. *)
Definition packed_or_channels_last (fmt : MemoryFormat) : Prop :=
  fmt = Contiguous ∨ fmt = ChannelsLast.

(** The values of [int]. *)
Definition int_range (v : Z) : Prop := -2147483648 ≤ v ≤ 2147483647.

(** [f] keeps the length of the buffer and every cell outside [lo, hi). *)
Definition confined {A} (lo hi : Z) (f : list A → list A) : Prop :=
  ∀ o, length (f o) = length o ∧
       ∀ q : nat, Z.of_nat q < lo ∨ hi ≤ Z.of_nat q → f o !! q = o !! q.

(** [o'] is [o] with the content [v] of each cell [base + d],
    [0 ≤ d < size], replaced by [upd d v], and every other cell kept. *)
Definition block_update {A} `{!Inhabited A} (base size : Z) (upd : Z → A → A)
    (o o' : list A) : Prop :=
  length o' = length o ∧
  (∀ d, 0 ≤ d < size → load o' (base + d) = upd d (load o (base + d))) ∧
  (∀ q, 0 ≤ q → q < base ∨ base + size ≤ q → load o' q = load o q).

(** Modelled from the spec: the dispatch macros of the host library select
    the kernel instantiation by element type. AT_DISPATCH_FLOATING_TYPES
    covers the two floating types, 64-bit and 32-bit; the _AND2 form adds
    the two types it names; any other type raises
    ["name" not implemented for 'type']. *)
Definition AT_DISPATCH_FLOATING_TYPES {T} (ty : ScalarType) (name : string)
    (body : ScalarType → result T) : result T :=
  match ty with
  | Double | Float => body ty
  | _ => Err (c10_NotImplemented name ty)
  end.

Definition AT_DISPATCH_FLOATING_TYPES_AND2 {T} (t1 t2 ty : ScalarType)
    (name : string) (body : ScalarType → result T) : result T :=
  match ty with
  | Double | Float => body ty
  | _ => if bool_decide (ty = t1 ∨ ty = t2) then body ty
         else Err (c10_NotImplemented name ty)
  end.

End ATen.

(** ** PixelShuffle.cpp *)

Module PixelShuffle.
Import ATen.

Section Kernels.
Context {A : Type} `{!Inhabited A, !Runtime A}.

Definition cpu_pixel_shuffle (output input : Tensor A) (upscale_factor : Z)
    : result (Tensor A) :=
  let input_data := data_ptr input in
  let output_data := data_ptr output in
  (* [(B1...Bn), C, H, W] => [N, C, H, W] *)
  channels ← size input (-3);
  height ← size input (-2);
  width ← size input (-1);
  sub_channels ← div64 channels (upscale_factor * upscale_factor);
  let numel := numel input in
  nbatch ← div64 numel (channels * height * width);
  let S := upscale_factor in
  (* input strides *)
  let stride_n := channels * height * width in
  let stride_c := S * S * height * width in
  let stride_s1 := S * height * width in
  let stride_s2 := height * width in
  let stride_h := width in
  let stride_w := 1 in
  (* input tensor shape of [n, c, s1, s2, h, w]
     output tensor shape of [n, c, h, s1, w, s2] *)
  Ok (with_data output
        (parallel_for 0 numel
           (indexed_chunk [nbatch; sub_channels; height; S; width; S]
              (λ i xs output_data,
                 match xs with
                 | [n; c; h; s1; w; s2] =>
                     let input_offset :=
                       n * stride_n + c * stride_c + s1 * stride_s1 +
                       s2 * stride_s2 + h * stride_h + w * stride_w in
                     store output_data i (load input_data input_offset)
                 | _ => output_data
                 end))
           output_data)).

Definition cpu_pixel_shuffle_channels_last (output input : Tensor A)
    (upscale_factor : Z) : result (Tensor A) :=
  _ ← TORCH_CHECK (bool_decide (dim input = 4))
        "pixel shuffle with channels last format supports tensors with 4 dims" [];
  let input_data := data_ptr input in
  let output_data := data_ptr output in
  nbatch ← size input 0;
  channels ← size input 1;
  height ← size input 2;
  width ← size input 3;
  sub_channels ← div64 channels (upscale_factor * upscale_factor);
  let numel := numel input in
  let S := upscale_factor in
  (* input strides *)
  let stride_n := height * width * channels in
  let stride_h := width * channels in
  let stride_w := channels in
  let stride_c := S * S in
  let stride_s1 := S in
  let stride_s2 := 1 in
  (* input tensor shape of [n, h, w, c, s1, s2]
     output tensor shape of [n, h, s1, w, s2, c] *)
  Ok (with_data output
        (parallel_for 0 numel
           (indexed_chunk [nbatch; height; S; width; S; sub_channels]
              (λ i xs output_data,
                 match xs with
                 | [n; h; s1; w; s2; c] =>
                     let input_offset :=
                       n * stride_n + h * stride_h + w * stride_w +
                       c * stride_c + s1 * stride_s1 + s2 * stride_s2 in
                     store output_data i (load input_data input_offset)
                 | _ => output_data
                 end))
           output_data)).

Definition cpu_pixel_shuffle_backward (grad_input grad_output : Tensor A)
    (upscale_factor : Z) : result (Tensor A) :=
  let grad_input_data := data_ptr grad_input in
  let grad_output_data := data_ptr grad_output in
  (* [(B1...Bn), C, H, W] => [N, C, H, W] *)
  channels ← size grad_input (-3);
  height ← size grad_input (-2);
  width ← size grad_input (-1);
  sub_channels ← div64 channels (upscale_factor * upscale_factor);
  let numel := numel grad_input in
  nbatch ← div64 numel (channels * height * width);
  let S := upscale_factor in
  (* grad_output strides *)
  let stride_n := channels * height * width in
  let stride_c := height * S * width * S in
  let stride_h := S * width * S in
  let stride_s1 := width * S in
  let stride_w := S in
  let stride_s2 := 1 in
  (* grad_output tensor shape of [n, c, h, s1, w, s2]
     grad_input tensor shape of [n, c, s1, s2, h, w] *)
  Ok (with_data grad_input
        (parallel_for 0 numel
           (indexed_chunk [nbatch; sub_channels; S; S; height; width]
              (λ i xs grad_input_data,
                 match xs with
                 | [n; c; s1; s2; h; w] =>
                     let output_offset :=
                       n * stride_n + c * stride_c + h * stride_h +
                       s1 * stride_s1 + w * stride_w + s2 * stride_s2 in
                     store grad_input_data i (load grad_output_data output_offset)
                 | _ => grad_input_data
                 end))
           grad_input_data)).

Definition cpu_pixel_shuffle_backward_channels_last
    (grad_input grad_output : Tensor A) (upscale_factor : Z)
    : result (Tensor A) :=
  _ ← TORCH_CHECK (bool_decide (dim grad_output = 4))
        "pixel shuffle with channels last format supports tensors with 4 dims" [];
  let grad_input_data := data_ptr grad_input in
  let grad_output_data := data_ptr grad_output in
  nbatch ← size grad_input 0;
  channels ← size grad_input 1;
  height ← size grad_input 2;
  width ← size grad_input 3;
  sub_channels ← div64 channels (upscale_factor * upscale_factor);
  let numel := numel grad_input in
  let S := upscale_factor in
  (* grad_output strides *)
  let stride_n := height * width * channels in
  let stride_h := S * width * S * sub_channels in
  let stride_s1 := width * S * sub_channels in
  let stride_w := S * sub_channels in
  let stride_s2 := sub_channels in
  let stride_c := 1 in
  (* grad_output tensor shape of [n, h, s1, w, s2, c]
     grad_input tensor shape of [n, h, w, c, s1, s2] *)
  Ok (with_data grad_input
        (parallel_for 0 numel
           (indexed_chunk [nbatch; height; width; sub_channels; S; S]
              (λ i xs grad_input_data,
                 match xs with
                 | [n; h; w; c; s1; s2] =>
                     let output_offset :=
                       n * stride_n + h * stride_h + s1 * stride_s1 +
                       w * stride_w + s2 * stride_s2 + c * stride_c in
                     store grad_input_data i (load grad_output_data output_offset)
                 | _ => grad_input_data
                 end))
           grad_input_data)).

Definition unsupported_memory_format {T} : result T :=
  Err (c10_Error "Unsupported memory format. Supports only ChannelsLast, Contiguous" []).

Definition pixel_shuffle_kernel (output input : Tensor A) (upscale_factor : Z)
    : result (Tensor A) :=
  match suggest_memory_format input with
  | Contiguous =>
      AT_DISPATCH_FLOATING_TYPES (scalar_type input) "pixel_shuffle"
        (λ scalar_t, cpu_pixel_shuffle output input upscale_factor)
  | ChannelsLast =>
      AT_DISPATCH_FLOATING_TYPES (scalar_type input) "pixel_shuffle_channels_last"
        (λ scalar_t, cpu_pixel_shuffle_channels_last output input upscale_factor)
  | _ => unsupported_memory_format
  end.

Definition pixel_shuffle_backward_kernel (grad_input grad_output : Tensor A)
    (upscale_factor : Z) : result (Tensor A) :=
  match suggest_memory_format grad_output with
  | Contiguous =>
      AT_DISPATCH_FLOATING_TYPES (scalar_type grad_output) "pixel_shuffle_backward"
        (λ scalar_t, cpu_pixel_shuffle_backward grad_input grad_output upscale_factor)
  | ChannelsLast =>
      AT_DISPATCH_FLOATING_TYPES (scalar_type grad_output)
        "pixel_shuffle_backward_channels_last"
        (λ scalar_t,
           cpu_pixel_shuffle_backward_channels_last grad_input grad_output
             upscale_factor)
  | _ => unsupported_memory_format
  end.

Definition pixel_unshuffle_kernel (output input : Tensor A) (downscale_factor : Z)
    : result (Tensor A) :=
  match suggest_memory_format input with
  | Contiguous =>
      (* input tensor shape of [N, C, Hr, Wr]
         output tensor shape of [N, Crr, H, W] *)
      AT_DISPATCH_FLOATING_TYPES (scalar_type input) "pixel_unshuffle"
        (λ scalar_t, cpu_pixel_shuffle_backward output input downscale_factor)
  | ChannelsLast =>
      (* input tensor shape of [N, Hr, Wr, C]
         output tensor shape of [N, H, W, Crr] *)
      AT_DISPATCH_FLOATING_TYPES (scalar_type input) "pixel_unshuffle_channels_last"
        (λ scalar_t,
           cpu_pixel_shuffle_backward_channels_last output input downscale_factor)
  | _ => unsupported_memory_format
  end.

Definition pixel_unshuffle_backward_kernel (grad_input grad_output : Tensor A)
    (downscale_factor : Z) : result (Tensor A) :=
  match suggest_memory_format grad_output with
  | Contiguous =>
      (* grad_output tensor shape of [N, Crr, H, W]
         grad_input tensor shape of [N, C, Hr, Wr] *)
      AT_DISPATCH_FLOATING_TYPES (scalar_type grad_output) "pixel_unshuffle_backward"
        (λ scalar_t, cpu_pixel_shuffle grad_input grad_output downscale_factor)
  | ChannelsLast =>
      (* grad_output tensor shape of [N, H, W, Crr]
         grad_input tensor shape of [N, Hr, Wr, C] *)
      AT_DISPATCH_FLOATING_TYPES (scalar_type grad_output)
        "pixel_unshuffle_backward_channels_last"
        (λ scalar_t,
           cpu_pixel_shuffle_channels_last grad_input grad_output downscale_factor)
  | _ => unsupported_memory_format
  end.

(** [std::vector<int64_t> output_sizes(sizes.begin(), sizes.end() - 3)] *)
Definition leading_sizes (self : Tensor A) : list Z :=
  take (length (sizes self) - 3) (sizes self).

Definition pixel_shuffle_cpu (self : Tensor A) (upscale_factor : Z)
    : result (Tensor A) :=
  (* Format: (B1, ..., Bn), C, H, W *)
  c ← size self (-3);
  h ← size self (-2);
  w ← size self (-1);
  c' ← div64 c upscale_factor;
  c'' ← div64 c' upscale_factor;
  let output_sizes :=
    leading_sizes self ++ [c''; h * upscale_factor; w * upscale_factor] in
  output ← empty [0] Contiguous (scalar_type self);
  let memory_format := suggest_memory_format self in
  output ← resize_ output output_sizes memory_format;
  input ← contiguous self memory_format;
  pixel_shuffle_kernel output input upscale_factor.

Definition pixel_shuffle_backward_cpu (grad_output : Tensor A)
    (input_sizes : list Z) (upscale_factor : Z) : result (Tensor A) :=
  grad_input ← empty [0] Contiguous (scalar_type grad_output);
  let memory_format := suggest_memory_format grad_output in
  grad_input ← resize_ grad_input input_sizes memory_format;
  grad_output_ ← contiguous grad_output memory_format;
  pixel_shuffle_backward_kernel grad_input grad_output_ upscale_factor.

Definition pixel_unshuffle_cpu (self : Tensor A) (downscale_factor : Z)
    : result (Tensor A) :=
  (* Format: (B1, ..., Bn), C, H, W *)
  c ← size self (-3);
  h ← size self (-2);
  w ← size self (-1);
  h' ← div64 h downscale_factor;
  w' ← div64 w downscale_factor;
  let output_sizes :=
    leading_sizes self ++ [c * downscale_factor * downscale_factor; h'; w'] in
  output ← empty [0] Contiguous (scalar_type self);
  let memory_format := suggest_memory_format self in
  output ← resize_ output output_sizes memory_format;
  input ← contiguous self memory_format;
  pixel_unshuffle_kernel output input downscale_factor.

Definition pixel_unshuffle_backward_cpu (grad_output : Tensor A)
    (input_sizes : list Z) (downscale_factor : Z) : result (Tensor A) :=
  grad_input ← empty [0] Contiguous (scalar_type grad_output);
  let memory_format := suggest_memory_format grad_output in
  grad_input ← resize_ grad_input input_sizes memory_format;
  grad_output_ ← contiguous grad_output memory_format;
  pixel_unshuffle_backward_kernel grad_input grad_output_ downscale_factor.

(** *** The differentiable wrappers, [PixelShuffleOp] and [PixelUnshuffleOp] *)

Definition PixelShuffleOp__forward (self : Tensor A) (upscale_factor : Z)
    : result (Tensor A) :=
  pixel_shuffle_cpu self upscale_factor.

Definition PixelShuffleOp_forward (ctx : AutogradContext) (self : Tensor A)
    (upscale_factor : Z) : result (AutogradContext * Tensor A) :=
  let ctx := mkContext (<["upscale_factor" := IInt upscale_factor]> (saved_data ctx)) in
  let ctx := mkContext (<["input_sizes" := IIntList (sizes self)]> (saved_data ctx)) in
  out ← PixelShuffleOp__forward self upscale_factor;
  Ok (ctx, out).

Definition PixelShuffleOp_backward (ctx : AutogradContext)
    (grad_outputs : list (Tensor A)) : result (list (option (Tensor A))) :=
  match grad_outputs !! 0%nat with
  | None => Err (UndefinedBehavior "grad_outputs[0] out of range")
  | Some grad_output =>
      upscale_factor ← toInt (saved_data ctx !!! "upscale_factor");
      input_sizes ← toIntList (saved_data ctx !!! "input_sizes");
      gi ← pixel_shuffle_backward_cpu grad_output input_sizes upscale_factor;
      Ok [Some gi; None]
  end.

Definition PixelUnshuffleOp__forward (self : Tensor A) (downscale_factor : Z)
    : result (Tensor A) :=
  pixel_unshuffle_cpu self downscale_factor.

Definition PixelUnshuffleOp_forward (ctx : AutogradContext) (self : Tensor A)
    (downscale_factor : Z) : result (AutogradContext * Tensor A) :=
  let ctx := mkContext (<["downscale_factor" := IInt downscale_factor]> (saved_data ctx)) in
  let ctx := mkContext (<["input_sizes" := IIntList (sizes self)]> (saved_data ctx)) in
  out ← PixelUnshuffleOp__forward self downscale_factor;
  Ok (ctx, out).

Definition PixelUnshuffleOp_backward (ctx : AutogradContext)
    (grad_outputs : list (Tensor A)) : result (list (option (Tensor A))) :=
  match grad_outputs !! 0%nat with
  | None => Err (UndefinedBehavior "grad_outputs[0] out of range")
  | Some grad_output =>
      downscale_factor ← toInt (saved_data ctx !!! "downscale_factor");
      input_sizes ← toIntList (saved_data ctx !!! "input_sizes");
      gi ← pixel_unshuffle_backward_cpu grad_output input_sizes downscale_factor;
      Ok [Some gi; None]
  end.

(** [Function::apply]: a fresh context, filled by [forward] and kept on
    the tape for the paired [backward]. *)
Definition PixelShuffleOp_apply (self : Tensor A) (upscale_factor : Z)
    : result (AutogradContext * Tensor A) :=
  PixelShuffleOp_forward (mkContext ∅) self upscale_factor.

Definition PixelUnshuffleOp_apply (self : Tensor A) (downscale_factor : Z)
    : result (AutogradContext * Tensor A) :=
  PixelUnshuffleOp_forward (mkContext ∅) self downscale_factor.

(** *** The registered operators *)

(** [upscale_factor * upscale_factor] is formed in [Z]: it is the
    [int64_t] product of the code for a factor whose square is below
    [2^63], as is every factor whose square divides a channel count. *)
Definition pixel_shuffle (self : Tensor A) (upscale_factor : Z)
    : result (Tensor A) :=
  _ ← TORCH_CHECK (bool_decide (3 ≤ dim self))
        "pixel_shuffle expects input to have at least 3 dimensions, but got input with {} dimension(s)"
        [dim self];
  _ ← TORCH_CHECK (bool_decide (0 < upscale_factor))
        "pixel_shuffle expects a positive upscale_factor, but got {}"
        [upscale_factor];
  c ← size self (-3);
  let upscale_factor_squared := upscale_factor * upscale_factor in
  r ← rem64 c upscale_factor_squared;
  _ ← TORCH_CHECK (bool_decide (r = 0))
        "pixel_shuffle expects its input's 'channel' dimension to be divisible by the square of upscale_factor, but input.size(-3)={} is not divisible by {}"
        [c; upscale_factor_squared];
  if GradMode_is_enabled
  then snd <$> PixelShuffleOp_apply self upscale_factor
  else PixelShuffleOp__forward self upscale_factor.

Definition pixel_unshuffle (self : Tensor A) (downscale_factor : Z)
    : result (Tensor A) :=
  _ ← TORCH_CHECK (bool_decide (3 ≤ dim self))
        "pixel_unshuffle expects input to have at least 3 dimensions, but got input with {} dimension(s)"
        [dim self];
  _ ← TORCH_CHECK (bool_decide (0 < downscale_factor))
        "pixel_unshuffle expects a positive downscale_factor, but got {}"
        [downscale_factor];
  h ← size self (-2);
  w ← size self (-1);
  rh ← rem64 h downscale_factor;
  _ ← TORCH_CHECK (bool_decide (rh = 0))
        "pixel_unshuffle expects height to be divisible by downscale_factor, but input.size(-2)={} is not divisible by {}"
        [h; downscale_factor];
  rw ← rem64 w downscale_factor;
  _ ← TORCH_CHECK (bool_decide (rw = 0))
        "pixel_unshuffle expects width to be divisible by downscale_factor, but input.size(-1)={} is not divisible by {}"
        [w; downscale_factor];
  if GradMode_is_enabled
  then snd <$> PixelUnshuffleOp_apply self downscale_factor
  else PixelUnshuffleOp__forward self downscale_factor.
End Kernels.

End PixelShuffle.

(** ** AveragePool.cpp *)

Module AveragePool.
Import ATen.

(** The pooling window of the output position [(oh, ow)]: its bounds
    clamped to the input, and the size of the window clamped to the padded
    input only. Every kernel computes it with the same eight statements.

    The sums, differences and the product are formed in [Z]. They are the
    [int64_t] values of the code when kernel, stride and padding are in
    the range of [int] and the output position is one of the pooled
    shape: each extent then lies between [-2^31] and the kernel, and
    [pool_size] below [2^62]. *)
Record window := mkWindow {
  ih0 : Z; ih1 : Z; iw0 : Z; iw1 : Z; pool_size : Z
}.

Definition pooling_window (oh ow : Z) (kW kH dW dH padW padH : Z)
    (input_height input_width : Z) : window :=
  let ih0 := oh * dH - padH in
  let iw0 := ow * dW - padW in
  let ih1 := Z.min (ih0 + kH) (input_height + padH) in
  let iw1 := Z.min (iw0 + kW) (input_width + padW) in
  let pool_size := (ih1 - ih0) * (iw1 - iw0) in
  let ih0 := Z.max ih0 0 in
  let iw0 := Z.max iw0 0 in
  let ih1 := Z.min ih1 input_height in
  let iw1 := Z.min iw1 input_width in
  mkWindow ih0 ih1 iw0 iw1 pool_size.

(** [if (ih0 >= ih1 || iw0 >= iw1)] *)
Definition window_empty (w : window) : bool :=
  bool_decide (ih1 w ≤ ih0 w) || bool_decide (iw1 w ≤ iw0 w).

Definition divide_factor (w : window) (count_include_pad : bool)
    (divisor_override : option Z) : Z :=
  match divisor_override with
  | Some d => d
  | None =>
      if count_include_pad then pool_size w
      else (ih1 w - ih0 w) * (iw1 w - iw0 w)
  end.

Section Kernels.
Context {A : Type} `{!Inhabited A, !Runtime A, !Arith A}.

(** The two loops of a vectorized pass over [size] cells: whole vectors
    first, then the remaining cells one by one. *)
Definition vec_pass {St} (lanes : positive) (size : Z)
    (vbody sbody : Z → St → St) (st : St) : St :=
  let len := size - size `rem` Z.pos lanes in
  let st := strided_loop (Z.to_nat (len `quot` Z.pos lanes)) 0 (Z.pos lanes) vbody st in
  irange len size sbody st.

(** [channels = ndim == 3 ? t.size(0) : t.size(0) * t.size(1)] *)
Definition flattened_channels (t : Tensor A) : result Z :=
  if bool_decide (dim t = 3) then size t 0
  else s0 ← size t 0; s1 ← size t 1; Ok (s0 * s1).

Definition cpu_avg_pool (scalar_t accscalar_t : ScalarType)
    (output_ input_ : Tensor A) (kW kH dW dH padW padH : Z)
    (count_include_pad : bool) (divisor_override : option Z)
    : result (Tensor A) :=
  input ← contiguous input_ Contiguous;
  output ← contiguous output_ Contiguous;
  let input_data := data_ptr input in
  let output_data := data_ptr output in
  let numel := numel output in
  (* treat batch size and channels as one dimension *)
  channels ← flattened_channels input;
  input_height ← size input (-2);
  input_width ← size input (-1);
  output_height ← size output (-2);
  output_width ← size output (-1);
  (* parallel on dim N, C, H, W *)
  let output_data :=
    parallel_for 0 numel
      (indexed_chunk [channels; output_height; output_width]
         (λ i xs output_data,
            match xs with
            | [c; oh; ow] =>
                let output_data := store output_data i (zero scalar_t) in
                (* local pointers *)
                let input_ptr := c * input_height * input_width in
                (* compute the mean of the input image... *)
                let w := pooling_window oh ow kW kH dW dH padW padH
                           input_height input_width in
                if window_empty w then output_data
                else
                  let divide_factor :=
                    divide_factor w count_include_pad divisor_override in
                  let sum :=
                    irange (ih0 w) (ih1 w)
                      (λ ih, irange (iw0 w) (iw1 w)
                         (λ iw sum,
                            add accscalar_t sum
                              (cast scalar_t accscalar_t
                                 (load input_data (input_ptr + (ih * input_width + iw))))))
                      (zero accscalar_t) in
                  store output_data i
                    (add scalar_t (load output_data i)
                       (cast accscalar_t scalar_t (div accscalar_t sum divide_factor)))
            | _ => output_data
            end))
      output_data in
  let output := with_data output output_data in
  if negb (is_contiguous output_ Contiguous) then copy_ output_ output
  else Ok output.

Definition cpu_avg_pool_channels_last_generic (scalar_t : ScalarType)
    (output_ input_ : Tensor A) (kW kH dW dH padW padH : Z)
    (count_include_pad : bool) (divisor_override : option Z)
    : result (Tensor A) :=
  _ ← TORCH_CHECK (bool_decide (dim input_ = 4))
        "average pooling with channels last format supports tensors with 4 dims" [];
  let memory_format := ChannelsLast in
  input ← contiguous input_ memory_format;
  output ← contiguous output_ memory_format;
  let input_data := data_ptr input in
  let output_data := data_ptr output in
  nbatch ← size input 0;
  channels ← size input 1;
  input_height ← size input 2;
  input_width ← size input 3;
  output_height ← size output 2;
  output_width ← size output 3;
  let Vec_size := vec_size scalar_t in
  (* parallel on dim N, H, W *)
  let output_data :=
    parallel_for 0 (nbatch * output_height * output_width)
      (indexed_chunk [nbatch; output_height; output_width]
         (λ i xs output_data,
            match xs with
            | [n; oh; ow] =>
                let size := channels in
                (* compute the mean of the input image... *)
                let w := pooling_window oh ow kW kH dW dH padW padH
                           input_height input_width in
                let divide_factor :=
                  divide_factor w count_include_pad divisor_override in
                let out := i * channels in
                (* Pass I: zero the out lane *)
                let output_data :=
                  vec_pass Vec_size size
                    (λ d1 output_data,
                       Vec_store (Vec_broadcast (zero scalar_t) Vec_size)
                         output_data (out + d1))
                    (λ d1 output_data, store output_data (out + d1) (zero scalar_t))
                    output_data in
                if window_empty w then output_data
                else
                  (* Pass II: compute local sum *)
                  let output_data :=
                    irange (ih0 w) (ih1 w)
                      (λ ih, irange (iw0 w) (iw1 w)
                         (λ iw output_data,
                            let in_ := n * input_height * input_width * channels +
                                       ih * input_width * channels + iw * channels in
                            vec_pass Vec_size size
                              (λ d2 output_data,
                                 Vec_store
                                   (zip_with (add scalar_t)
                                      (Vec_loadu output_data (out + d2) Vec_size)
                                      (Vec_loadu input_data (in_ + d2) Vec_size))
                                   output_data (out + d2))
                              (λ d2 output_data,
                                 store output_data (out + d2)
                                   (add scalar_t (load output_data (out + d2))
                                      (load input_data (in_ + d2))))
                              output_data))
                      output_data in
                  (* Pass III: compute local average *)
                  vec_pass Vec_size size
                    (λ d3 output_data,
                       Vec_store
                         ((λ x, div scalar_t x divide_factor) <$>
                            Vec_loadu output_data (out + d3) Vec_size)
                         output_data (out + d3))
                    (λ d3 output_data,
                       store output_data (out + d3)
                         (div scalar_t (load output_data (out + d3)) divide_factor))
                    output_data
            | _ => output_data
            end))
      output_data in
  let output := with_data output output_data in
  if negb (is_contiguous output_ memory_format) then copy_ output_ output
  else Ok output.

(** The specialization for BFloat16: the sum is accumulated in a float
    buffer of one cell per channel, allocated once per chunk. *)
Definition cpu_avg_pool_channels_last_BFloat16
    (output_ input_ : Tensor A) (kW kH dW dH padW padH : Z)
    (count_include_pad : bool) (divisor_override : option Z)
    : result (Tensor A) :=
  _ ← TORCH_CHECK (bool_decide (dim input_ = 4))
        "average pooling with channels last format supports tensors with 4 dims" [];
  let memory_format := ChannelsLast in
  input ← contiguous input_ memory_format;
  output ← contiguous output_ memory_format;
  let input_data := data_ptr input in
  let output_data := data_ptr output in
  nbatch ← size input 0;
  channels ← size input 1;
  input_height ← size input 2;
  input_width ← size input 3;
  output_height ← size output 2;
  output_width ← size output 3;
  let bVec_size := vec_size BFloat16 in
  let fVec_size := vec_size Float in
  (* parallel on dim N, H, W *)
  let output_data :=
    parallel_for 0 (nbatch * output_height * output_width)
      (λ begin end_ output_data,
         (* temp buffer for sum, use float as accumulation type *)
         let sum_arr := uninitialized <$> seq 0 (Z.to_nat channels) in
         (indexed_chunk [nbatch; output_height; output_width]
            (λ i xs (st : list A * list A),
               let '(output_data, sum) := st in
               match xs with
               | [n; oh; ow] =>
                   let size := channels in
                   (* compute the mean of the input image... *)
                   let w := pooling_window oh ow kW kH dW dH padW padH
                              input_height input_width in
                   let divide_factor :=
                     divide_factor w count_include_pad divisor_override in
                   let out := i * channels in
                   (* Pass I: zero the out lane *)
                   let sum :=
                     vec_pass fVec_size size
                       (λ d1 sum,
                          Vec_store (Vec_broadcast (zero Float) fVec_size) sum d1)
                       (λ d1 sum, store sum d1 (zero Float))
                       sum in
                   if window_empty w then
                     (* the kernel window is out of range: zero the
                        output buffer here *)
                     (irange 0 size
                        (λ k output_data, store output_data (out + k) (zero BFloat16))
                        output_data,
                      sum)
                   else
                     (* Pass II: compute local sum *)
                     let sum :=
                       irange (ih0 w) (ih1 w)
                         (λ ih, irange (iw0 w) (iw1 w)
                            (λ iw sum,
                               let in_ := n * input_height * input_width * channels +
                                          ih * input_width * channels + iw * channels in
                               vec_pass bVec_size size
                                 (λ d2 sum,
                                    let data_bvec := Vec_loadu input_data (in_ + d2) bVec_size in
                                    (* convert_bfloat16_float *)
                                    let data_fvec0 :=
                                      cast BFloat16 Float <$> take (Pos.to_nat fVec_size) data_bvec in
                                    let data_fvec1 :=
                                      cast BFloat16 Float <$> drop (Pos.to_nat fVec_size) data_bvec in
                                    let sum_fvec0 :=
                                      zip_with (add Float) (Vec_loadu sum d2 fVec_size) data_fvec0 in
                                    let sum_fvec1 :=
                                      zip_with (add Float)
                                        (Vec_loadu sum (d2 + Z.pos fVec_size) fVec_size)
                                        data_fvec1 in
                                    let sum := Vec_store sum_fvec0 sum d2 in
                                    Vec_store sum_fvec1 sum (d2 + Z.pos fVec_size))
                                 (λ d2 sum,
                                    store sum d2
                                      (add Float (load sum d2)
                                         (cast BFloat16 Float (load input_data (in_ + d2)))))
                                 sum))
                         sum in
                     (* Pass III: compute local average *)
                     (vec_pass bVec_size size
                        (λ d3 output_data,
                           let out_fvec0 :=
                             (λ x, div Float x divide_factor) <$> Vec_loadu sum d3 fVec_size in
                           let out_fvec1 :=
                             (λ x, div Float x divide_factor) <$>
                               Vec_loadu sum (d3 + Z.pos fVec_size) fVec_size in
                           (* convert_float_bfloat16 *)
                           let out_bvec := cast Float BFloat16 <$> (out_fvec0 ++ out_fvec1) in
                           Vec_store out_bvec output_data (out + d3))
                        (λ d3 output_data,
                           store output_data (out + d3)
                             (cast Float BFloat16 (div Float (load sum d3) divide_factor)))
                        output_data,
                      sum)
               | _ => (output_data, sum)
               end)
            begin end_ (output_data, sum_arr)).1)
      output_data in
  let output := with_data output output_data in
  if negb (is_contiguous output_ memory_format) then copy_ output_ output
  else Ok output.

(** [cpu_avg_pool_channels_last<scalar_t>]: the explicit specialization
    is chosen for BFloat16. *)
Definition cpu_avg_pool_channels_last (scalar_t : ScalarType)
    (output_ input_ : Tensor A) (kW kH dW dH padW padH : Z)
    (count_include_pad : bool) (divisor_override : option Z)
    : result (Tensor A) :=
  if bool_decide (scalar_t = BFloat16)
  then cpu_avg_pool_channels_last_BFloat16 output_ input_ kW kH dW dH padW padH
         count_include_pad divisor_override
  else cpu_avg_pool_channels_last_generic scalar_t output_ input_ kW kH dW dH padW padH
         count_include_pad divisor_override.

Definition cpu_avg_pool_backward (scalar_t : ScalarType)
    (grad_input_ grad_output_ : Tensor A) (kW kH dW dH padW padH : Z)
    (count_include_pad : bool) (divisor_override : option Z)
    : result (Tensor A) :=
  grad_output ← contiguous grad_output_ Contiguous;
  grad_input ← contiguous grad_input_ Contiguous;
  let grad_output_data := data_ptr grad_output in
  let grad_input_data := data_ptr grad_input in
  (* treat batch size and channels as one dimension *)
  channels ← flattened_channels grad_output;
  input_height ← size grad_input (-2);
  input_width ← size grad_input (-1);
  output_height ← size grad_output (-2);
  output_width ← size grad_output (-1);
  (* parallel on dim of N, C *)
  let grad_input_data :=
    parallel_for 0 channels
      (λ begin end_,
         irange begin end_
           (λ c,
              let grad_input_ptr := c * input_height * input_width in
              let grad_output_ptr := c * output_height * output_width in
              irange 0 output_height
                (λ oh, irange 0 output_width
                   (λ ow grad_input_data,
                      let w := pooling_window oh ow kW kH dW dH padW padH
                                 input_height input_width in
                      let divide_factor :=
                        divide_factor w count_include_pad divisor_override in
                      let grad_delta :=
                        div scalar_t
                          (load grad_output_data (grad_output_ptr + (oh * output_width + ow)))
                          divide_factor in
                      irange (ih0 w) (ih1 w)
                        (λ ih, irange (iw0 w) (iw1 w)
                           (λ iw grad_input_data,
                              let p := grad_input_ptr + (ih * input_width + iw) in
                              store grad_input_data p
                                (add scalar_t (load grad_input_data p) grad_delta)))
                        grad_input_data))))
      grad_input_data in
  let grad_input := with_data grad_input grad_input_data in
  if negb (is_contiguous grad_input_ Contiguous) then copy_ grad_input_ grad_input
  else Ok grad_input.

Definition cpu_avg_pool_backward_channels_last (scalar_t : ScalarType)
    (grad_input_ grad_output_ : Tensor A) (kW kH dW dH padW padH : Z)
    (count_include_pad : bool) (divisor_override : option Z)
    : result (Tensor A) :=
  let memory_format := ChannelsLast in
  grad_input ← contiguous grad_input_ memory_format;
  grad_output ← contiguous grad_output_ memory_format;
  let grad_input_data := data_ptr grad_input in
  let grad_output_data := data_ptr grad_output in
  nbatch ← size grad_input 0;
  channels ← size grad_input 1;
  input_height ← size grad_input 2;
  input_width ← size grad_input 3;
  output_height ← size grad_output 2;
  output_width ← size grad_output 3;
  let Vec_size := vec_size scalar_t in
  (* parallel on dim N *)
  let grad_input_data :=
    parallel_for 0 nbatch
      (λ begin end_,
         irange begin end_
           (λ n,
              let grad_input_ptr := n * input_height * input_width * channels in
              let grad_output_ptr := n * output_height * output_width * channels in
              irange 0 output_height
                (λ oh, irange 0 output_width
                   (λ ow grad_input_data,
                      let w := pooling_window oh ow kW kH dW dH padW padH
                                 input_height input_width in
                      let divide_factor :=
                        divide_factor w count_include_pad divisor_override in
                      let gout := grad_output_ptr + oh * output_width * channels +
                                  ow * channels in
                      let size := channels in
                      irange (ih0 w) (ih1 w)
                        (λ ih, irange (iw0 w) (iw1 w)
                           (λ iw grad_input_data,
                              let gin := grad_input_ptr + ih * input_width * channels +
                                         iw * channels in
                              vec_pass Vec_size size
                                (λ d grad_input_data,
                                   Vec_store
                                     (zip_with (add scalar_t)
                                        (Vec_loadu grad_input_data (gin + d) Vec_size)
                                        ((λ x, div scalar_t x divide_factor) <$>
                                           Vec_loadu grad_output_data (gout + d) Vec_size))
                                     grad_input_data (gin + d))
                                (λ d grad_input_data,
                                   store grad_input_data (gin + d)
                                     (add scalar_t (load grad_input_data (gin + d))
                                        (div scalar_t (load grad_output_data (gout + d))
                                           divide_factor)))
                                grad_input_data))
                        grad_input_data))))
      grad_input_data in
  let grad_input := with_data grad_input grad_input_data in
  if negb (is_contiguous grad_input_ memory_format) then copy_ grad_input_ grad_input
  else Ok grad_input.

Definition unsupported_memory_format {T} : result T :=
  Err (c10_Error "Unsupported memory format. Supports only ChannelsLast, Contiguous" []).

Definition avg_pool2d_kernel_impl (output input : Tensor A)
    (kW kH dW dH padW padH : Z) (count_include_pad : bool)
    (divisor_override : option Z) : result (Tensor A) :=
  match suggest_memory_format input with
  | Contiguous =>
      AT_DISPATCH_FLOATING_TYPES_AND2 Long BFloat16 (scalar_type input) "avg_pool2d"
        (λ scalar_t,
           if bool_decide (scalar_type input = BFloat16)
           then cpu_avg_pool BFloat16 (* accscalar_t *) Float output input
                  kW kH dW dH padW padH count_include_pad divisor_override
           else cpu_avg_pool scalar_t scalar_t output input
                  kW kH dW dH padW padH count_include_pad divisor_override)
  | ChannelsLast =>
      AT_DISPATCH_FLOATING_TYPES_AND2 Long BFloat16 (scalar_type input)
        "avg_pool2d_channels_last"
        (λ scalar_t,
           cpu_avg_pool_channels_last scalar_t output input
             kW kH dW dH padW padH count_include_pad divisor_override)
  | _ => unsupported_memory_format
  end.

Definition avg_pool2d_backward_kernel_impl (grad_input grad_output : Tensor A)
    (kW kH dW dH padW padH : Z) (count_include_pad : bool)
    (divisor_override : option Z) : result (Tensor A) :=
  match suggest_memory_format grad_output with
  | Contiguous =>
      AT_DISPATCH_FLOATING_TYPES_AND2 Long BFloat16 (scalar_type grad_output)
        "avg_pool2d_backward"
        (λ scalar_t,
           cpu_avg_pool_backward scalar_t grad_input grad_output
             kW kH dW dH padW padH count_include_pad divisor_override)
  | ChannelsLast =>
      AT_DISPATCH_FLOATING_TYPES_AND2 Long BFloat16 (scalar_type grad_output)
        "avg_pool2d_backward_channels_last"
        (λ scalar_t,
           cpu_avg_pool_backward_channels_last scalar_t grad_input grad_output
             kW kH dW dH padW padH count_include_pad divisor_override)
  | _ => unsupported_memory_format
  end.

(** [v[i]] on an [IntArrayRef] whose length was checked. *)
Definition at_ (v : list Z) (i : nat) : result Z :=
  match v !! i with
  | Some x => Ok x
  | None => Err (UndefinedBehavior "IntArrayRef index out of range")
  end.

Definition divisor_nonzero (divisor_override : option Z) : bool :=
  match divisor_override with
  | Some d => bool_decide (d ≠ 0)
  | None => true
  end.

Definition avg_pool2d_out_cpu (input : Tensor A)
    (kernel_size stride padding : list Z) (ceil_mode count_include_pad : bool)
    (divisor_override : option Z) : result (Tensor A) :=
  _ ← TORCH_CHECK (bool_decide (length kernel_size = 1%nat ∨ length kernel_size = 2%nat))
        "avg_pool2d: kernel_size must either be a single int, or a tuple of two ints" [];
  kH ← at_ kernel_size 0;
  kW ← (if bool_decide (length kernel_size = 1%nat) then Ok kH else at_ kernel_size 1);
  _ ← TORCH_CHECK (bool_decide (stride = [] ∨ length stride = 1%nat ∨ length stride = 2%nat))
        "avg_pool2d: stride must either be omitted, a single int, or a tuple of two ints" [];
  dH ← (if bool_decide (stride = []) then Ok kH else at_ stride 0);
  dW ← (if bool_decide (stride = []) then Ok kW
        else if bool_decide (length stride = 1%nat) then Ok dH else at_ stride 1);
  _ ← TORCH_CHECK (bool_decide (length padding = 1%nat ∨ length padding = 2%nat))
        "avg_pool2d: padding must either be a single int, or a tuple of two ints" [];
  padH ← at_ padding 0;
  padW ← (if bool_decide (length padding = 1%nat) then Ok padH else at_ padding 1);
  _ ← TORCH_CHECK (divisor_nonzero divisor_override) "divisor must be not zero" [];
  nbatch ← (if bool_decide (dim input = 4) then size input (-4) else Ok 1);
  nInputPlane ← size input (-3);
  inputHeight ← size input (-2);
  inputWidth ← size input (-1);
  outputHeight ← pooling_output_shape inputHeight kH padH dH 1 ceil_mode;
  outputWidth ← pooling_output_shape inputWidth kW padW dW 1 ceil_mode;
  let memory_format := suggest_memory_format input in
  _ ← pool2d_shape_check input kH kW dH dW padH padW 1 1
        nInputPlane inputHeight inputWidth outputHeight outputWidth memory_format;
  (* resize output *)
  output ← (if bool_decide (dim input = 3)
            then empty [nInputPlane; outputHeight; outputWidth] Contiguous
                   (scalar_type input)
            else empty [nbatch; nInputPlane; outputHeight; outputWidth] memory_format
                   (scalar_type input));
  avg_pool2d_kernel_impl output input kW kH dW dH padW padH
    count_include_pad divisor_override.

Definition avg_pool2d_backward_out_cpu (gradOutput input : Tensor A)
    (kernel_size stride padding : list Z) (ceil_mode count_include_pad : bool)
    (divisor_override : option Z) : result (Tensor A) :=
  _ ← TORCH_CHECK (bool_decide (length kernel_size = 1%nat ∨ length kernel_size = 2%nat))
        "avg_pool2d: kernel_size must either be a single int, or a tuple of two ints" [];
  kH ← at_ kernel_size 0 ≫= safe_downcast_int;
  kW ← (if bool_decide (length kernel_size = 1%nat) then Ok kH
        else at_ kernel_size 1 ≫= safe_downcast_int);
  _ ← TORCH_CHECK (bool_decide (stride = [] ∨ length stride = 1%nat ∨ length stride = 2%nat))
        "avg_pool2d: stride must either be omitted, a single int, or a tuple of two ints" [];
  dH ← (if bool_decide (stride = []) then Ok kH
        else at_ stride 0 ≫= safe_downcast_int);
  dW ← (if bool_decide (stride = []) then Ok kW
        else if bool_decide (length stride = 1%nat) then Ok dH
        else at_ stride 1 ≫= safe_downcast_int);
  _ ← TORCH_CHECK (bool_decide (length padding = 1%nat ∨ length padding = 2%nat))
        "avg_pool2d: padding must either be a single int, or a tuple of two ints" [];
  padH ← at_ padding 0 ≫= safe_downcast_int;
  padW ← (if bool_decide (length padding = 1%nat) then Ok padH
          else at_ padding 1 ≫= safe_downcast_int);
  _ ← TORCH_CHECK (divisor_nonzero divisor_override) "divisor must be not zero" [];
  (* sizes *)
  nbatch ← (if bool_decide (dim input = 4) then size input (-4) else Ok 1);
  nInputPlane ← size input (-3);
  inputHeight ← size input (-2);
  inputWidth ← size input (-1);
  outputWidth ← pooling_output_shape inputWidth kW padW dW 1 ceil_mode;
  outputHeight ← pooling_output_shape inputHeight kH padH dH 1 ceil_mode;
  let memory_format := suggest_memory_format input in
  _ ← avg_pool2d_backward_shape_check input gradOutput nbatch kH kW dH dW padH padW
        nInputPlane inputHeight inputWidth outputHeight outputWidth memory_format;
  (* resize output *)
  gradInput ← zero_ (zero (scalar_type input)) <$>
                empty (sizes input) memory_format (scalar_type input);
  _ ← TORCH_CHECK (bool_decide (scalar_type input = scalar_type gradOutput))
        "expected dtype {} for `gradOutput` but got dtype {}" [];
  avg_pool2d_backward_kernel_impl gradInput gradOutput kW kH dW dH padW padH
    count_include_pad divisor_override.
End Kernels.

(** *** What the cells hold

    The value the forward kernels store for one output position, and the
    value the backward pass is specified to leave at one input position,
    written as functions of the position. *)
Section Cells.
Context {A : Type} `{!Inhabited A, !Arith A}.

(** The sum over the window, accumulated in [accscalar_t] row by row
    from the cells [cell ih iw] of one input plane. *)
Definition window_sum (scalar_t accscalar_t : ScalarType) (cell : Z → Z → A)
    (w : window) : A :=
  irange (ih0 w) (ih1 w)
    (λ ih, irange (iw0 w) (iw1 w)
       (λ iw sum, add accscalar_t sum (cast scalar_t accscalar_t (cell ih iw))))
    (zero accscalar_t).

Definition avg_pool_cell (scalar_t accscalar_t : ScalarType) (cell : Z → Z → A)
    (w : window) (count_include_pad : bool) (divisor_override : option Z) : A :=
  if window_empty w then zero scalar_t
  else add scalar_t (zero scalar_t)
         (cast accscalar_t scalar_t
            (div accscalar_t (window_sum scalar_t accscalar_t cell w)
               (divide_factor w count_include_pad divisor_override))).

(** The value the channels-last kernels leave at one output position:
    the cells of the window are added to zero in the element type and
    the sum is divided; for BFloat16 cells the sum is formed and divided
    in [float] and converted back. *)
Definition avg_pool_cell_channels_last (scalar_t : ScalarType) (cell : Z → Z → A)
    (w : window) (count_include_pad : bool) (divisor_override : option Z) : A :=
  if window_empty w then zero scalar_t
  else if bool_decide (scalar_t = BFloat16)
       then cast Float BFloat16
              (div Float (window_sum BFloat16 Float cell w)
                 (divide_factor w count_include_pad divisor_override))
       else div scalar_t
              (irange (ih0 w) (ih1 w)
                 (λ ih, irange (iw0 w) (iw1 w)
                    (λ iw sum, add scalar_t sum (cell ih iw)))
                 (zero scalar_t))
              (divide_factor w count_include_pad divisor_override).

Definition window_contains (w : window) (ih iw : Z) : bool :=
  bool_decide (ih0 w ≤ ih < ih1 w ∧ iw0 w ≤ iw < iw1 w).

(** The output positions in the order the kernels visit them. *)
Definition raster (output_height output_width : Z) : list (Z * Z) :=
  oh ← seqZ 0 output_height; ow ← seqZ 0 output_width; [(oh, ow)].

(** The gradient of one input position as §8 states it: the sum, over
    every output window containing the position, of
    [grad_output[window] / divisor[window]], starting from zero; the
    windows are taken in raster order and the sum is formed in the
    arithmetic of the element type. *)
Definition grad_input_sum (scalar_t : ScalarType) (grad_output : Z → Z → A)
    (kW kH dW dH padW padH : Z) (count_include_pad : bool)
    (divisor_override : option Z)
    (input_height input_width output_height output_width : Z) (ih iw : Z) : A :=
  let window_of (p : Z * Z) :=
    pooling_window p.1 p.2 kW kH dW dH padW padH input_height input_width in
  foldl (λ acc p,
           add scalar_t acc
             (div scalar_t (grad_output p.1 p.2)
                (divide_factor (window_of p) count_include_pad divisor_override)))
        (zero scalar_t)
        (filter (λ p, window_contains (window_of p) ih iw = true)
           (raster output_height output_width)).
End Cells.

End AveragePool.

(** ** graph_rewrite.cpp: the guard of the convolution+elu fusion *)

Module GraphRewrite.
Import ATen.

(** Modelled from the spec: the graph IR of §6, as far as the guard looks
    at it. A value is named by a number; [constant_of] gives the boxed
    constant of the values a [prim::Constant] node produces. A node has a
    kind, inputs and one output. *)
Definition Value := positive.

Record Node := mkNode {
  kind : string;
  inputs : list Value;
  output : Value
}.

Record Graph := mkGraph {
  nodes : list Node;
  constant_of : gmap Value IValue
}.

(** A match binds the values of the pattern to values of the graph. *)
Record Match := mkMatch {
  values_map : gmap Value Value
}.

Definition out_of_range {T} : result T :=
  Err (c10_Error "unordered_map::at: key not found" []).

(** [getIValue(name, match_vmap, vmap)]: the pattern value called [name],
    the graph value it is bound to, and its constant if it has one. *)
Definition getIValue (g : Graph) (name : string)
    (match_vmap : gmap Value Value) (vmap : gmap string Value)
    : result (option IValue) :=
  match vmap !! name with
  | None => out_of_range
  | Some pv =>
      match match_vmap !! pv with
      | None => out_of_range
      | Some v => Ok (constant_of g !! v)
      end
  end.

(** [optional::value()] *)
Definition value {T} (o : option T) : result T :=
  match o with
  | Some x => Ok x
  | None => Err (c10_Error "bad optional access" [])
  end.

Definition filter_conv2d_elu (g : Graph) (m : Match) (vmap : gmap string Value)
    : result bool :=
  let match_vmap := values_map m in
  input_scale_value ← getIValue g "input_scale" match_vmap vmap ≫= value;
  no_input_scale ←
    (if isDouble input_scale_value
     then d ← toDouble input_scale_value; Ok (PrimFloat.eqb d 1%float)
     else z ← toInt input_scale_value; Ok (bool_decide (z = 1)));
  Ok no_input_scale.

(** Modelled from the spec: one step of the rewriter of §4.5 on one
    match, match → guard-check → structural-replace: the replacement is
    made when the guard accepts the match, and the graph is left as it
    is when the guard rejects it. [replace] is the structural replacement
    of the matched subgraph by the fused pattern. *)
Definition rewrite_match (filter : Graph → Match → gmap string Value → result bool)
    (replace : Graph → Match → Graph)
    (g : Graph) (m : Match) (vmap : gmap string Value) : result Graph :=
  accept ← filter g m vmap;
  Ok (if (accept : bool) then replace g m else g).

(** The operator names [fuseConvWithEltwise] registers patterns for, each
    in its copying and its in-place form, and the fused operator that
    replaces [convolution_run] followed by them. *)
Definition relu_operators : list string := ["relu"; "relu_"].
Definition sigmoid_operators : list string := ["sigmoid"; "sigmoid_"].
Definition hardtanh_operators : list string := ["hardtanh"; "hardtanh_"].
Definition elu_operators : list string := ["elu"; "elu_"].
Definition mul_operators : list string := ["mul"; "mul_"].
Definition silu_operators : list string := ["silu"; "silu_"].

End GraphRewrite.

(** ** Concrete runtimes and arithmetics *)

Module Instances.
Import ATen.

(** Four threads, four lanes for every type but BFloat16 (eight), gradient
    mode on, and fresh storage filled with the cell's address negated. *)
Definition runtime_Z : Runtime Z := {|
  num_threads := 4;
  vec_size := λ t, match t with BFloat16 => 8 | _ => 4 end%positive;
  bvec_is_two_fvec := eq_refl;
  GradMode_is_enabled := true;
  uninitialized := λ k, - Z.of_nat k - 1
|}.

(** The arithmetic of [int64_t] cells ([at::kLong]), with the sums and
    quotients of [Z]: exact as long as the values stay within [int64_t]
    and no quotient is by zero. *)
Definition arith_Long : Arith Z := {|
  zero := λ _, 0;
  add := λ _, Z.add;
  div := λ _, Z.quot;
  cast := λ _ _ x, x
|}.

Definition float_of_Z (n : Z) : float :=
  if bool_decide (n < 0)
  then PrimFloat.opp (PrimFloat.of_uint63 (Uint63.of_Z (- n)))
  else PrimFloat.of_uint63 (Uint63.of_Z n).

Definition runtime_double : Runtime float := {|
  num_threads := 3;
  vec_size := λ t, match t with BFloat16 => 8 | _ => 4 end%positive;
  bvec_is_two_fvec := eq_refl;
  GradMode_is_enabled := false;
  uninitialized := λ _, PrimFloat.nan
|}.

(** The arithmetic of [double] cells ([at::kDouble]), IEEE 754 binary64. *)
Definition arith_Double : Arith float := {|
  zero := λ _, 0%float;
  add := λ _, PrimFloat.add;
  div := λ _ a n, PrimFloat.div a (float_of_Z n);
  cast := λ _ _ x, x
|}.

Global Instance float_inhabited : Inhabited float := populate 0%float.

End Instances.

(** ** Proof automation *)

(** Two runs of checks that begin with the same check continue alike. *)
Ltac same_prefix :=
  repeat match goal with
         | |- (?m ≫= _) = (?m ≫= _) => destruct m; cbn [mbind result_bind]; [|reflexivity]
         end.

(** The tests on the length of a list that is given with its elements. *)
Ltac decide_lengths :=
  cbn [length lookup list_lookup];
  repeat match goal with
         | |- context [bool_decide ?P] =>
             first [ change (bool_decide P) with true
                   | change (bool_decide P) with false ]
         end;
  cbv iota.

(** Side conditions on tensors and arguments that are given in full. *)
Ltac concrete :=
  lazymatch goal with
  | |- ATen.well_formed _ =>
      unfold ATen.well_formed;
      split_and!;
      [ reflexivity
      | repeat constructor; lia
      | first [ exact I | split; [reflexivity | repeat constructor; lia] ] ]
  | |- Forall _ _ => repeat constructor; unfold ATen.int_range; lia
  | |- Forall2 _ _ _ => repeat constructor; lia
  | |- ATen.floating _ =>
      unfold ATen.floating; first [ by left | by right ]
  | |- ATen.pooling_type _ =>
      unfold ATen.pooling_type;
      first [ by left | by right; left | by right; right; left | by right; right; right ]
  | |- ATen.packed_or_channels_last _ =>
      unfold ATen.packed_or_channels_last; first [ by left | by right ]
  | |- _ => first [ reflexivity | done | lia | simpl; lia | by vm_compute ]
  end.


(** * Properties *)

Import ATen.
Local Open Scope Z_scope.

(** ** The index enumerator *)

Section IndexEnumerator.

Lemma quot_rem_succ (q X : Z) :
  0 ≤ q → 0 < X →
  (q + 1) `rem` X = (if bool_decide (q `rem` X + 1 = X) then 0 else q `rem` X + 1) ∧
  (q + 1) `quot` X =
    (if bool_decide (q `rem` X + 1 = X) then q `quot` X + 1 else q `quot` X).
Proof.
  intros Hq HX.
  rewrite !Z.rem_mod_nonneg, !Z.quot_div_nonneg by lia.
  pose proof (Z.div_mod q X ltac:(lia)) as Hdm.
  pose proof (Z.mod_pos_bound q X HX) as Hb.
  case_bool_decide as Hc.
  - assert (q + 1 = X * (q `div` X + 1) + 0) as E by lia.
    split.
    + symmetry. eapply Z.mod_unique_pos; [|exact E]. lia.
    + symmetry. eapply Z.div_unique_pos; [|exact E]. lia.
  - assert (q + 1 = X * (q `div` X) + (q `mod` X + 1)) as E by lia.
    split.
    + symmetry. eapply Z.mod_unique_pos; [|exact E]. lia.
    + symmetry. eapply Z.div_unique_pos; [|exact E]. lia.
Qed.

Lemma data_index_init_length (i : Z) (Xs : list Z) :
  length (data_index_init i Xs).2 = length Xs.
Proof.
  induction Xs as [|X Xs IH]; [done|]. simpl.
  destruct (data_index_init i Xs) as [q xs]. simpl in *. by rewrite IH.
Qed.

Lemma data_index_init_bounds (i : Z) (Xs : list Z) :
  0 ≤ i → Forall (λ X, 0 < X) Xs →
  0 ≤ (data_index_init i Xs).1 ∧
  Forall2 (λ x X, 0 ≤ x < X) (data_index_init i Xs).2 Xs.
Proof.
  intros Hi HXs. induction HXs as [|X Xs HX HXs IH]; simpl; [by auto|].
  destruct (data_index_init i Xs) as [q xs]. simpl in *.
  destruct IH as [Hq Hxs]. split.
  - apply Z.quot_pos; lia.
  - constructor; [|done]. apply Z.rem_bound_pos; lia.
Qed.

(** One step of the odometer takes the coordinates of [i] to those of
    [i + 1]; the carry is what was added to the left-over offset. *)
Lemma data_index_step_init (i : Z) (Xs : list Z) :
  0 ≤ i → Forall (λ X, 0 < X) Xs →
  data_index_init (i + 1) Xs =
    ((data_index_init i Xs).1 +
       (if (data_index_step (data_index_init i Xs).2 Xs).1 then 1 else 0),
     (data_index_step (data_index_init i Xs).2 Xs).2).
Proof.
  intros Hi HXs. induction HXs as [|X Xs HX HXs IH]; simpl; [done|].
  pose proof (data_index_init_bounds i Xs Hi HXs) as [Hq _].
  destruct (data_index_init i Xs) as [q xs]. simpl in *.
  rewrite IH. clear IH.
  destruct (data_index_step xs Xs) as [carry ys]. simpl.
  destruct carry; simpl.
  - destruct (quot_rem_succ q X Hq HX) as [-> ->].
    pose proof (Z.rem_bound_pos q X Hq HX).
    case_bool_decide as Hc; [done|].
    rewrite bool_decide_eq_false_2 by lia. by rewrite Z.add_0_r.
  - by rewrite !Z.add_0_r.
Qed.

Lemma data_index_step_coords (i : Z) (Xs : list Z) :
  0 ≤ i → Forall (λ X, 0 < X) Xs →
  (data_index_step (data_index_init i Xs).2 Xs).2 = (data_index_init (i + 1) Xs).2.
Proof. intros Hi HXs. by rewrite (data_index_step_init i Xs Hi HXs). Qed.

Lemma ravel_from_init (i : Z) (Xs : list Z) :
  0 ≤ i → Forall (λ X, 0 < X) Xs →
  ravel_from (data_index_init i Xs).1 (data_index_init i Xs).2 Xs = i.
Proof.
  intros Hi HXs. induction HXs as [|X Xs HX HXs IH]; simpl; [done|].
  destruct (data_index_init i Xs) as [q xs]. simpl in *.
  unfold ravel_from in *. simpl.
  replace (q `quot` X * X + q `rem` X) with q; [done|].
  pose proof (Z.quot_rem' q X). lia.
Qed.

Lemma init_ravel_from (q : Z) (xs Xs : list Z) :
  0 ≤ q → Forall2 (λ x X, 0 ≤ x < X) xs Xs →
  data_index_init (ravel_from q xs Xs) Xs = (q, xs).
Proof.
  intros Hq H. revert q Hq.
  induction H as [|x X xs Xs Hx H IH]; intros q Hq; [done|].
  unfold ravel_from in *. simpl.
  rewrite IH by nia. f_equal.
  - rewrite Z.quot_div_nonneg by nia. symmetry.
    apply (Z.div_unique_pos _ _ _ x); lia.
  - f_equal. rewrite Z.rem_mod_nonneg by nia. symmetry.
    apply (Z.mod_unique_pos _ _ q); lia.
Qed.

Lemma ravel_from_bounds (q : Z) (xs Xs : list Z) :
  0 ≤ q → Forall2 (λ x X, 0 ≤ x < X) xs Xs →
  q * prod_sizes Xs ≤ ravel_from q xs Xs < (q + 1) * prod_sizes Xs.
Proof.
  intros Hq H. revert q Hq.
  induction H as [|x X xs Xs Hx H IH]; intros q Hq.
  - unfold ravel_from, prod_sizes. simpl. lia.
  - unfold ravel_from, prod_sizes in *. simpl.
    specialize (IH (q * X + x) ltac:(nia)).
    assert (0 ≤ foldr Z.mul 1 Xs) as Hp.
    { clear -H. induction H; simpl; [lia|]. nia. }
    nia.
Qed.

Lemma prod_sizes_pos (Xs : list Z) :
  Forall (λ X, 0 < X) Xs → 0 < prod_sizes Xs.
Proof. unfold prod_sizes. induction 1; simpl; [lia|nia]. Qed.

Lemma prod_sizes_nonneg (Xs : list Z) :
  Forall (λ X, 0 ≤ X) Xs → 0 ≤ prod_sizes Xs.
Proof. unfold prod_sizes. induction 1; simpl; [lia|nia]. Qed.

Lemma prod_sizes_app (Xs Ys : list Z) :
  prod_sizes (Xs ++ Ys) = prod_sizes Xs * prod_sizes Ys.
Proof. unfold prod_sizes. induction Xs; simpl; lia. Qed.

(** Inside the index space nothing is left over. *)
Lemma data_index_init_inside (i : Z) (Xs : list Z) :
  0 ≤ i < prod_sizes Xs → Forall (λ X, 0 < X) Xs →
  (data_index_init i Xs).1 = 0.
Proof.
  intros Hi HXs.
  pose proof (data_index_init_bounds i Xs ltac:(lia) HXs) as [Hq Hb].
  pose proof (ravel_from_init i Xs ltac:(lia) HXs) as Hr.
  pose proof (ravel_from_bounds _ _ _ Hq Hb) as Hrb.
  rewrite Hr in Hrb. pose proof (prod_sizes_pos Xs HXs). nia.
Qed.
End IndexEnumerator.

(** ** Loops *)

Section LoopFacts.
Context {St : Type}.

Lemma for_loop_app (n m : nat) (i : Z) (body : Z → St → St) (st : St) :
  for_loop (n + m) i body st = for_loop m (i + Z.of_nat n) body (for_loop n i body st).
Proof.
  revert i st. induction n as [|n IH]; intros i st; simpl.
  - by rewrite Z.add_0_r.
  - rewrite IH. f_equal. lia.
Qed.

Lemma for_loop_ext (n : nat) (i : Z) (body body' : Z → St → St) (st : St) :
  (∀ j st, i ≤ j < i + Z.of_nat n → body j st = body' j st) →
  for_loop n i body st = for_loop n i body' st.
Proof.
  revert i st. induction n as [|n IH]; intros i st Hb; simpl; [done|].
  rewrite Hb by lia. apply IH. intros. apply Hb. lia.
Qed.

(** A loop invariant rule for counted loops. *)
Lemma for_loop_ind (P : Z → St → Prop) (n : nat) (i : Z) (body : Z → St → St) (st : St) :
  P i st →
  (∀ j st, i ≤ j < i + Z.of_nat n → P j st → P (j + 1) (body j st)) →
  P (i + Z.of_nat n) (for_loop n i body st).
Proof.
  revert i st. induction n as [|n IH]; intros i st H0 Hstep; simpl.
  - by rewrite Z.add_0_r.
  - replace (i + Z.of_nat (S n)) with ((i + 1) + Z.of_nat n) by lia.
    apply IH; [apply Hstep; [lia|done]|].
    intros. apply Hstep; [lia|done].
Qed.

Lemma index_loop_for_loop (Xs : list Z) (body : Z → list Z → St → St)
    (n : nat) (i : Z) (st : St) :
  0 ≤ i → Forall (λ X, 0 < X) Xs →
  index_loop Xs body n i (data_index_init i Xs).2 st =
  for_loop n i (λ j, body j (data_index_init j Xs).2) st.
Proof.
  intros Hi HXs. revert i st Hi.
  induction n as [|n IH]; intros i st Hi; simpl; [done|].
  rewrite data_index_step_coords by done. apply IH. lia.
Qed.

Lemma indexed_chunk_for_loop (Xs : list Z) (body : Z → list Z → St → St)
    (b e : Z) (st : St) :
  0 ≤ b → Forall (λ X, 0 < X) Xs →
  indexed_chunk Xs body b e st =
  for_loop (Z.to_nat (e - b)) b (λ j, body j (data_index_init j Xs).2) st.
Proof. intros. by apply index_loop_for_loop. Qed.
End LoopFacts.


(** ** The parallel loop *)

Section ParallelFor.
Context {A : Type} `{!Inhabited A, !Runtime A} {St : Type}.

Lemma divup_covers (n T : Z) : 0 < n → 0 < T → 0 < divup n T ∧ n ≤ T * divup n T.
Proof.
  intros Hn HT. unfold divup. rewrite Z.quot_div_nonneg by lia.
  pose proof (Z.div_mod (n + T - 1) T ltac:(lia)).
  pose proof (Z.mod_pos_bound (n + T - 1) T HT).
  split; [|lia]. apply Z.div_str_pos. lia.
Qed.

(** Whatever the number of threads, the chunks of [parallel_for] run the
    iterations of the whole range, each once and in order. *)
Lemma parallel_for_for_loop (b e : Z) (f : Z → Z → St → St)
    (body : Z → St → St) (st : St) :
  (∀ b' e' st, b ≤ b' → b' < e' → e' ≤ e →
     f b' e' st = for_loop (Z.to_nat (e' - b')) b' body st) →
  parallel_for b e f st = for_loop (Z.to_nat (e - b)) b body st.
Proof.
  intros Hf. unfold parallel_for. case_bool_decide as Hbe.
  { by replace (Z.to_nat (e - b)) with 0%nat by lia. }
  destruct (divup_covers (e - b) (Z.pos num_threads)) as [Hc Hcov]; [lia..|].
  set (chunk := divup (e - b) (Z.pos num_threads)) in *.
  assert (∀ m k st',
    st' = for_loop (Z.to_nat (Z.min (e - b) (Z.of_nat k * chunk))) b body st →
    foldl (λ st tid,
             if bool_decide (b + Z.of_nat tid * chunk < e)
             then f (b + Z.of_nat tid * chunk)
                    (Z.min e (chunk + (b + Z.of_nat tid * chunk))) st
             else st) st' (seq k m) =
    for_loop (Z.to_nat (Z.min (e - b) (Z.of_nat (k + m) * chunk))) b body st) as Hind.
  { induction m as [|m IH]; intros k st' ->; simpl.
    - by rewrite Nat.add_0_r.
    - assert (Z.of_nat (S k) * chunk = Z.of_nat k * chunk + chunk) as Hk by lia.
      assert (0 ≤ Z.of_nat k * chunk) as Hk0 by nia.
      rewrite (IH (S k)).
      + do 3 f_equal. lia.
      + rewrite Hk. case_bool_decide as Hlt.
        * rewrite Hf by lia.
          replace (Z.to_nat (Z.min (e - b) (Z.of_nat k * chunk + chunk)))
            with (Z.to_nat (Z.min (e - b) (Z.of_nat k * chunk)) +
                  Z.to_nat (Z.min e (chunk + (b + Z.of_nat k * chunk)) -
                            (b + Z.of_nat k * chunk)))%nat by lia.
          rewrite for_loop_app. f_equal. lia.
        * f_equal. lia. }
  rewrite (Hind _ 0%nat st).
  - f_equal. simpl. rewrite positive_nat_Z. lia.
  - simpl. by rewrite Z.min_r by lia.
Qed.
End ParallelFor.

(** ** Gathers: every output cell is written once *)

Section Gather.
Context {A : Type} `{!Inhabited A, !Runtime A}.

Lemma for_loop_store (g : Z → A) (out : list A) :
  for_loop (length out) 0 (λ i o, store o i (g i)) out =
  (λ k : nat, g (Z.of_nat k)) <$> seq 0 (length out).
Proof.
  pose proof (for_loop_ind
    (λ j o, 0 ≤ j ∧
            o = ((λ k : nat, g (Z.of_nat k)) <$> seq 0 (Z.to_nat j)) ++
                drop (Z.to_nat j) out)
    (length out) 0 (λ i o, store o i (g i)) out) as Hinv.
  destruct Hinv as [_ ->].
  - split; [lia|]. by rewrite drop_0.
  - intros j o Hj [_ ->]. split; [lia|].
    unfold store.
    replace (Z.to_nat (j + 1)) with (S (Z.to_nat j)) by lia.
    rewrite seq_S, fmap_app, <- app_assoc. simpl.
    rewrite insert_app_r_alt; rewrite length_fmap, length_seq; [|lia].
    rewrite Nat.sub_diag. rewrite Z2Nat.id by lia.
    f_equal.
    destruct (drop (Z.to_nat j) out) as [|a l] eqn:Hd.
    { apply (f_equal length) in Hd. rewrite length_drop in Hd. simpl in Hd. lia. }
    simpl. f_equal.
    replace (S (Z.to_nat j)) with (Z.to_nat j + 1)%nat by lia.
    by rewrite <- drop_drop, Hd.
  - rewrite Z.add_0_l, Nat2Z.id, drop_all, app_nil_r. done.
Qed.

(** A kernel whose iteration [i] stores a value computed from the
    coordinates of [i] produces the list of those values. *)
Lemma parallel_gather (Xs : list Z) (body : Z → list Z → list A → list A)
    (v : list Z → A) (out : list A) :
  (∀ i xs o, length xs = length Xs → body i xs o = store o i (v xs)) →
  (out ≠ [] → Forall (λ X, 0 < X) Xs) →
  parallel_for 0 (Z.of_nat (length out)) (indexed_chunk Xs body) out =
  (λ k : nat, v (data_index_init (Z.of_nat k) Xs).2) <$> seq 0 (length out).
Proof.
  intros Hbody HXs.
  rewrite (parallel_for_for_loop _ _ _
             (λ i o, store o i (v (data_index_init i Xs).2))).
  - rewrite Z.sub_0_r, Nat2Z.id. apply for_loop_store.
  - intros b' e' st Hb' Hlt He'.
    assert (out ≠ []) as Hne by (destruct out; simpl in *; [lia|done]).
    rewrite indexed_chunk_for_loop by auto.
    apply for_loop_ext. intros j st' _.
    apply Hbody, data_index_init_length.
Qed.
End Gather.

(** ** Tensor shapes *)

Section Shapes.
Context {A : Type}.

Lemma size_last3 (t : Tensor A) (lead : list Z) (c h w : Z) :
  sizes t = lead ++ [c; h; w] →
  size t (-3) = Ok c ∧ size t (-2) = Ok h ∧ size t (-1) = Ok w.
Proof.
  intros Hs. unfold size, dim. rewrite Hs, length_app. simpl.
  rewrite !bool_decide_eq_true_2 by lia.
  replace (Z.to_nat (-3 + Z.of_nat (length lead + 3))) with (length lead + 0)%nat by lia.
  replace (Z.to_nat (-2 + Z.of_nat (length lead + 3))) with (length lead + 1)%nat by lia.
  replace (Z.to_nat (-1 + Z.of_nat (length lead + 3))) with (length lead + 2)%nat by lia.
  rewrite !lookup_total_app_r by lia.
  replace (length lead + 0 - length lead)%nat with 0%nat by lia.
  replace (length lead + 1 - length lead)%nat with 1%nat by lia.
  replace (length lead + 2 - length lead)%nat with 2%nat by lia.
  done.
Qed.

Lemma size_4d (t : Tensor A) (n c h w : Z) :
  sizes t = [n; c; h; w] →
  size t 0 = Ok n ∧ size t 1 = Ok c ∧ size t 2 = Ok h ∧ size t 3 = Ok w ∧
  size t (-3) = Ok c ∧ size t (-2) = Ok h ∧ size t (-1) = Ok w ∧
  size t (-4) = Ok n.
Proof. intros Hs. unfold size, dim. rewrite Hs. done. Qed.

Lemma leading_sizes_app (t : Tensor A) (lead : list Z) (c h w : Z) :
  sizes t = lead ++ [c; h; w] → PixelShuffle.leading_sizes t = lead.
Proof.
  intros Hs. unfold PixelShuffle.leading_sizes. rewrite Hs, length_app. simpl.
  replace (length lead + 3 - 3)%nat with (length lead) by lia.
  by rewrite take_app_length.
Qed.

Lemma rank3_inv (t : Tensor A) :
  3 ≤ dim t → ∃ lead c h w, sizes t = lead ++ [c; h; w].
Proof.
  unfold dim. intros Hd.
  exists (take (length (sizes t) - 3) (sizes t)).
  pose proof (take_drop (length (sizes t) - 3) (sizes t)) as Htd.
  assert (length (drop (length (sizes t) - 3) (sizes t)) = 3%nat) as Hl.
  { rewrite length_drop. lia. }
  destruct (drop _ _) as [|c [|h [|w [|? ?]]]]; simpl in Hl; try lia.
  exists c, h, w. by rewrite Htd.
Qed.
End Shapes.


(** ** The pixel shuffle kernels as index permutations *)

Section PixelShuffleKernels.
Context {A : Type} `{!Inhabited A, !Runtime A}.
Import PixelShuffle.

Lemma parallel_gather_length (Xs : list Z) (body : Z → list Z → list A → list A)
    (v : list Z → A) (out : list A) :
  (∀ i xs o, length xs = length Xs → body i xs o = store o i (v xs)) →
  (out ≠ [] → Forall (λ X, 0 < X) Xs) →
  length (parallel_for 0 (Z.of_nat (length out)) (indexed_chunk Xs body) out) =
  length out.
Proof.
  intros Hb HX. rewrite (parallel_gather Xs body v out Hb HX).
  by rewrite length_fmap, length_seq.
Qed.

Lemma parallel_gather_lookup (Xs : list Z) (body : Z → list Z → list A → list A)
    (v : list Z → A) (out : list A) (xs : list Z) :
  (∀ i xs o, length xs = length Xs → body i xs o = store o i (v xs)) →
  Forall (λ X, 0 < X) Xs →
  Forall2 (λ x X, 0 ≤ x < X) xs Xs →
  Z.of_nat (length out) = prod_sizes Xs →
  parallel_for 0 (Z.of_nat (length out)) (indexed_chunk Xs body) out
    !! Z.to_nat (ravel xs Xs) = Some (v xs).
Proof.
  intros Hb HX Hxs Hlen. rewrite (parallel_gather Xs body v out Hb) by done.
  pose proof (ravel_from_bounds 0 xs Xs ltac:(lia) Hxs) as Hr.
  rewrite list_lookup_fmap, lookup_seq_lt by (unfold ravel; lia).
  simpl. rewrite Z2Nat.id by (unfold ravel; lia).
  unfold ravel. by rewrite init_ravel_from by (done || lia).
Qed.

Lemma prod_sizes_last3 (lead : list Z) (c h w : Z) :
  prod_sizes (lead ++ [c; h; w]) = prod_sizes lead * (c * h * w).
Proof. rewrite prod_sizes_app. unfold prod_sizes. simpl. lia. Qed.

(** The kernel reads its input as [n, c, s1, s2, h, w] and writes its
    output as [n, c, h, s1, w, s2]. *)
Lemma cpu_pixel_shuffle_spec (output input : Tensor A) (S : Z)
    (lead : list Z) (sub H W : Z) :
  sizes input = lead ++ [sub * S * S; H; W] →
  Forall (λ s, 0 ≤ s) lead → 0 < sub → 0 < H → 0 < W → 0 < S →
  length (data_ptr output) = Z.to_nat (numel input) →
  ∃ out,
    cpu_pixel_shuffle output input S = Ok (with_data output out) ∧
    length out = Z.to_nat (numel input) ∧
    ∀ n c h s1 w s2,
      0 ≤ n < prod_sizes lead → 0 ≤ c < sub → 0 ≤ h < H → 0 ≤ s1 < S →
      0 ≤ w < W → 0 ≤ s2 < S →
      out !! Z.to_nat (ravel [n; c; h; s1; w; s2] [prod_sizes lead; sub; H; S; W; S]) =
      Some (load (data_ptr input)
              (ravel [n; c; s1; s2; h; w] [prod_sizes lead; sub; S; S; H; W])).
Proof.
  intros Hsz Hlead Hsub HH HW HS Hlen.
  pose proof (prod_sizes_nonneg lead Hlead) as HN.
  destruct (size_last3 input _ _ _ _ Hsz) as (Hc & Hh & Hw).
  unfold cpu_pixel_shuffle. rewrite Hc, Hh, Hw. simpl.
  unfold div64. rewrite !bool_decide_eq_false_2 by nia. simpl.
  assert (numel input = prod_sizes lead * (sub * S * S * H * W)) as Hnumel.
  { unfold numel. rewrite Hsz, prod_sizes_last3. lia. }
  assert ((sub * S * S) `quot` (S * S) = sub) as ->.
  { replace (sub * S * S) with (sub * (S * S)) by lia. apply Z.quot_mul. nia. }
  assert (numel input `quot` (sub * S * S * H * W) = prod_sizes lead) as ->.
  { rewrite Hnumel. apply Z.quot_mul. nia. }
  eexists. split; [reflexivity|].
  assert (numel input = Z.of_nat (length (data_ptr output))) as Hn.
  { rewrite Hlen, Z2Nat.id; [done|]. rewrite Hnumel. nia. }
  rewrite Hn.
  set (v := λ xs : list Z,
         match xs with
         | [n; c; h; s1; w; s2] =>
             load (data_ptr input)
               (n * (sub * S * S * H * W) + c * (S * S * H * W) + s1 * (S * H * W) +
                s2 * (H * W) + h * W + w * 1)
         | _ => inhabitant
         end).
  assert (∀ (i : Z) (xs : list Z) (o : list A),
            length xs = 6%nat →
            match xs with
            | [n; c; h; s1; w; s2] =>
                store o i
                  (load (data_ptr input)
                     (n * (sub * S * S * H * W) + c * (S * S * H * W) +
                      s1 * (S * H * W) + s2 * (H * W) + h * W + w * 1))
            | _ => o
            end = store o i (v xs)) as Hbody.
  { intros i xs o Hl. by destruct xs as [|? [|? [|? [|? [|? [|? [|? ?]]]]]]]. }
  split.
  - rewrite (parallel_gather_length _ _ v); [lia|exact Hbody|].
    intros Hne. assert (0 < prod_sizes lead).
    { destruct (data_ptr output); [done|]. simpl in Hn. nia. }
    repeat constructor; lia.
  - intros n c h s1 w s2 Hn' Hc' Hh' Hs1 Hw' Hs2.
    rewrite (parallel_gather_lookup _ _ v); [|exact Hbody|..].
    + simpl. do 2 f_equal. unfold ravel, ravel_from. simpl. lia.
    + repeat constructor; lia.
    + repeat constructor; lia.
    + rewrite <- Hn, Hnumel. unfold prod_sizes. simpl. lia.
Qed.

(** The inverse kernel reads [n, c, h, s1, w, s2] and writes
    [n, c, s1, s2, h, w]. *)
Lemma cpu_pixel_shuffle_backward_spec (grad_input grad_output : Tensor A) (S : Z)
    (lead : list Z) (sub H W : Z) :
  sizes grad_input = lead ++ [sub * S * S; H; W] →
  Forall (λ s, 0 ≤ s) lead → 0 < sub → 0 < H → 0 < W → 0 < S →
  length (data_ptr grad_input) = Z.to_nat (numel grad_input) →
  ∃ out,
    cpu_pixel_shuffle_backward grad_input grad_output S =
      Ok (with_data grad_input out) ∧
    length out = Z.to_nat (numel grad_input) ∧
    ∀ n c h s1 w s2,
      0 ≤ n < prod_sizes lead → 0 ≤ c < sub → 0 ≤ h < H → 0 ≤ s1 < S →
      0 ≤ w < W → 0 ≤ s2 < S →
      out !! Z.to_nat (ravel [n; c; s1; s2; h; w] [prod_sizes lead; sub; S; S; H; W]) =
      Some (load (data_ptr grad_output)
              (ravel [n; c; h; s1; w; s2] [prod_sizes lead; sub; H; S; W; S])).
Proof.
  intros Hsz Hlead Hsub HH HW HS Hlen.
  pose proof (prod_sizes_nonneg lead Hlead) as HN.
  destruct (size_last3 grad_input _ _ _ _ Hsz) as (Hc & Hh & Hw).
  unfold cpu_pixel_shuffle_backward. rewrite Hc, Hh, Hw. simpl.
  unfold div64. rewrite !bool_decide_eq_false_2 by nia. simpl.
  assert (numel grad_input = prod_sizes lead * (sub * S * S * H * W)) as Hnumel.
  { unfold numel. rewrite Hsz, prod_sizes_last3. lia. }
  assert ((sub * S * S) `quot` (S * S) = sub) as ->.
  { replace (sub * S * S) with (sub * (S * S)) by lia. apply Z.quot_mul. nia. }
  assert (numel grad_input `quot` (sub * S * S * H * W) = prod_sizes lead) as ->.
  { rewrite Hnumel. apply Z.quot_mul. nia. }
  eexists. split; [reflexivity|].
  assert (numel grad_input = Z.of_nat (length (data_ptr grad_input))) as Hn.
  { rewrite Hlen, Z2Nat.id; [done|]. rewrite Hnumel. nia. }
  rewrite Hn.
  set (v := λ xs : list Z,
         match xs with
         | [n; c; s1; s2; h; w] =>
             load (data_ptr grad_output)
               (n * (sub * S * S * H * W) + c * (H * S * W * S) + h * (S * W * S) +
                s1 * (W * S) + w * S + s2 * 1)
         | _ => inhabitant
         end).
  assert (∀ (i : Z) (xs : list Z) (o : list A),
            length xs = 6%nat →
            match xs with
            | [n; c; s1; s2; h; w] =>
                store o i
                  (load (data_ptr grad_output)
                     (n * (sub * S * S * H * W) + c * (H * S * W * S) +
                      h * (S * W * S) + s1 * (W * S) + w * S + s2 * 1))
            | _ => o
            end = store o i (v xs)) as Hbody.
  { intros i xs o Hl. by destruct xs as [|? [|? [|? [|? [|? [|? [|? ?]]]]]]]. }
  split.
  - rewrite (parallel_gather_length _ _ v); [lia|exact Hbody|].
    intros Hne. assert (0 < prod_sizes lead).
    { destruct (data_ptr grad_input); [done|]. simpl in Hn. nia. }
    repeat constructor; lia.
  - intros n c h s1 w s2 Hn' Hc' Hh' Hs1 Hw' Hs2.
    rewrite (parallel_gather_lookup _ _ v); [|exact Hbody|..].
    + simpl. do 2 f_equal. unfold ravel, ravel_from. simpl. lia.
    + repeat constructor; lia.
    + repeat constructor; lia.
    + rewrite <- Hn, Hnumel. unfold prod_sizes. simpl. lia.
Qed.

Lemma prod_sizes_4 (n c h w : Z) : prod_sizes [n; c; h; w] = n * c * h * w.
Proof. unfold prod_sizes. simpl. lia. Qed.

(** Channels last: the kernel reads [n, h, w, c, s1, s2] and writes
    [n, h, s1, w, s2, c]. *)
Lemma cpu_pixel_shuffle_channels_last_spec (output input : Tensor A) (S : Z)
    (N sub H W : Z) :
  sizes input = [N; sub * S * S; H; W] →
  0 < N → 0 < sub → 0 < H → 0 < W → 0 < S →
  length (data_ptr output) = Z.to_nat (numel input) →
  ∃ out,
    cpu_pixel_shuffle_channels_last output input S = Ok (with_data output out) ∧
    length out = Z.to_nat (numel input) ∧
    ∀ n c h s1 w s2,
      0 ≤ n < N → 0 ≤ c < sub → 0 ≤ h < H → 0 ≤ s1 < S →
      0 ≤ w < W → 0 ≤ s2 < S →
      out !! Z.to_nat (ravel [n; h; s1; w; s2; c] [N; H; S; W; S; sub]) =
      Some (load (data_ptr input)
              (ravel [n; h; w; c; s1; s2] [N; H; W; sub; S; S])).
Proof.
  intros Hsz HN Hsub HH HW HS Hlen.
  destruct (size_4d input _ _ _ _ Hsz) as (Hn0 & Hc & Hh & Hw & _).
  unfold cpu_pixel_shuffle_channels_last.
  unfold dim. rewrite Hsz. simpl. rewrite Hn0, Hc, Hh, Hw. simpl.
  unfold div64. rewrite !bool_decide_eq_false_2 by nia. simpl.
  assert (numel input = N * (sub * S * S) * H * W) as Hnumel.
  { unfold numel. by rewrite Hsz, prod_sizes_4. }
  assert ((sub * S * S) `quot` (S * S) = sub) as ->.
  { replace (sub * S * S) with (sub * (S * S)) by lia. apply Z.quot_mul. nia. }
  eexists. split; [reflexivity|].
  assert (numel input = Z.of_nat (length (data_ptr output))) as Hn.
  { rewrite Hlen, Z2Nat.id; [done|]. rewrite Hnumel. nia. }
  rewrite Hn.
  set (v := λ xs : list Z,
         match xs with
         | [n; h; s1; w; s2; c] =>
             load (data_ptr input)
               (n * (H * W * (sub * S * S)) + h * (W * (sub * S * S)) +
                w * (sub * S * S) + c * (S * S) + s1 * S + s2 * 1)
         | _ => inhabitant
         end).
  assert (∀ (i : Z) (xs : list Z) (o : list A),
            length xs = 6%nat →
            match xs with
            | [n; h; s1; w; s2; c] =>
                store o i
                  (load (data_ptr input)
                     (n * (H * W * (sub * S * S)) + h * (W * (sub * S * S)) +
                      w * (sub * S * S) + c * (S * S) + s1 * S + s2 * 1))
            | _ => o
            end = store o i (v xs)) as Hbody.
  { intros i xs o Hl. by destruct xs as [|? [|? [|? [|? [|? [|? [|? ?]]]]]]]. }
  split.
  - rewrite (parallel_gather_length _ _ v); [lia|exact Hbody|].
    intros _. repeat constructor; lia.
  - intros n c h s1 w s2 Hn' Hc' Hh' Hs1 Hw' Hs2.
    rewrite (parallel_gather_lookup _ _ v); [|exact Hbody|..].
    + simpl. do 2 f_equal. unfold ravel, ravel_from. simpl. lia.
    + repeat constructor; lia.
    + repeat constructor; lia.
    + rewrite <- Hn, Hnumel. unfold prod_sizes. simpl. lia.
Qed.

(** Channels last: the inverse kernel reads [n, h, s1, w, s2, c] and
    writes [n, h, w, c, s1, s2]. *)
Lemma cpu_pixel_shuffle_backward_channels_last_spec
    (grad_input grad_output : Tensor A) (S : Z) (N sub H W : Z) :
  sizes grad_input = [N; sub * S * S; H; W] →
  dim grad_output = 4 →
  0 < N → 0 < sub → 0 < H → 0 < W → 0 < S →
  length (data_ptr grad_input) = Z.to_nat (numel grad_input) →
  ∃ out,
    cpu_pixel_shuffle_backward_channels_last grad_input grad_output S =
      Ok (with_data grad_input out) ∧
    length out = Z.to_nat (numel grad_input) ∧
    ∀ n c h s1 w s2,
      0 ≤ n < N → 0 ≤ c < sub → 0 ≤ h < H → 0 ≤ s1 < S →
      0 ≤ w < W → 0 ≤ s2 < S →
      out !! Z.to_nat (ravel [n; h; w; c; s1; s2] [N; H; W; sub; S; S]) =
      Some (load (data_ptr grad_output)
              (ravel [n; h; s1; w; s2; c] [N; H; S; W; S; sub])).
Proof.
  intros Hsz Hdim HN Hsub HH HW HS Hlen.
  destruct (size_4d grad_input _ _ _ _ Hsz) as (Hn0 & Hc & Hh & Hw & _).
  unfold cpu_pixel_shuffle_backward_channels_last.
  rewrite Hdim. simpl. rewrite Hn0, Hc, Hh, Hw. simpl.
  unfold div64. rewrite !bool_decide_eq_false_2 by nia. simpl.
  assert (numel grad_input = N * (sub * S * S) * H * W) as Hnumel.
  { unfold numel. by rewrite Hsz, prod_sizes_4. }
  assert ((sub * S * S) `quot` (S * S) = sub) as ->.
  { replace (sub * S * S) with (sub * (S * S)) by lia. apply Z.quot_mul. nia. }
  eexists. split; [reflexivity|].
  assert (numel grad_input = Z.of_nat (length (data_ptr grad_input))) as Hn.
  { rewrite Hlen, Z2Nat.id; [done|]. rewrite Hnumel. nia. }
  rewrite Hn.
  set (v := λ xs : list Z,
         match xs with
         | [n; h; w; c; s1; s2] =>
             load (data_ptr grad_output)
               (n * (H * W * (sub * S * S)) + h * (S * W * S * sub) +
                s1 * (W * S * sub) + w * (S * sub) + s2 * sub + c * 1)
         | _ => inhabitant
         end).
  assert (∀ (i : Z) (xs : list Z) (o : list A),
            length xs = 6%nat →
            match xs with
            | [n; h; w; c; s1; s2] =>
                store o i
                  (load (data_ptr grad_output)
                     (n * (H * W * (sub * S * S)) + h * (S * W * S * sub) +
                      s1 * (W * S * sub) + w * (S * sub) + s2 * sub + c * 1))
            | _ => o
            end = store o i (v xs)) as Hbody.
  { intros i xs o Hl. by destruct xs as [|? [|? [|? [|? [|? [|? [|? ?]]]]]]]. }
  split.
  - rewrite (parallel_gather_length _ _ v); [lia|exact Hbody|].
    intros _. repeat constructor; lia.
  - intros n c h s1 w s2 Hn' Hc' Hh' Hs1 Hw' Hs2.
    rewrite (parallel_gather_lookup _ _ v); [|exact Hbody|..].
    + simpl. do 2 f_equal. unfold ravel, ravel_from. simpl. lia.
    + repeat constructor; lia.
    + repeat constructor; lia.
    + rewrite <- Hn, Hnumel. unfold prod_sizes. simpl. lia.
Qed.
End PixelShuffleKernels.


(** ** Pixel shuffle: the operators *)

Section PixelShuffleOps.
Context {A : Type} `{!Inhabited A, !Runtime A}.
Import PixelShuffle.

Lemma dispatch_floating {T} (ty : ScalarType) (name : string)
    (body : ScalarType → result T) :
  floating ty → AT_DISPATCH_FLOATING_TYPES ty name body = body ty.
Proof. by intros [-> | ->]. Qed.

Lemma empty_ok (sz : list Z) (fmt : MemoryFormat) (ty : ScalarType) :
  (fmt = ChannelsLast → length sz = 4%nat) →
  (fmt = ChannelsLast3d → length sz = 5%nat) →
  empty (A:=A) sz fmt ty =
    Ok (mkTensor sz fmt ty (uninitialized <$> seq 0 (Z.to_nat (prod_sizes sz)))).
Proof.
  intros H4 H5. unfold empty, TORCH_CHECK.
  rewrite (bool_decide_eq_true_2 (fmt ≠ ChannelsLast ∨ _)).
  2: { destruct (decide (fmt = ChannelsLast)); [right|left]; auto. }
  rewrite (bool_decide_eq_true_2 (fmt ≠ ChannelsLast3d ∨ _)).
  2: { destruct (decide (fmt = ChannelsLast3d)); [right|left]; auto. }
  done.
Qed.

Lemma contiguous_same (t : Tensor A) :
  contiguous t (suggest_memory_format t) = Ok t.
Proof. unfold contiguous, is_contiguous. by rewrite bool_decide_eq_true_2. Qed.

Lemma quot_quot_square (sub F : Z) :
  0 < F → 0 ≤ sub → ((sub * F * F) `quot` F) `quot` F = sub.
Proof.
  intros. rewrite Z.quot_mul by lia. apply Z.quot_mul. lia.
Qed.

(** What [pixel_shuffle_cpu] returns on a supported input: the shape, and
    the cells in terms of the cells of the input. *)
Lemma pixel_shuffle_cpu_packed (x : Tensor A) (F : Z) (lead : list Z) (sub H W : Z) :
  well_formed x → floating (scalar_type x) →
  suggest_memory_format x = Contiguous →
  sizes x = lead ++ [sub * F * F; H; W] →
  0 < sub → 0 < H → 0 < W → 0 < F →
  ∃ out,
    pixel_shuffle_cpu x F =
      Ok (mkTensor (lead ++ [sub; H * F; W * F]) Contiguous (scalar_type x) out) ∧
    length out = Z.to_nat (numel x) ∧
    ∀ n c h s1 w s2,
      0 ≤ n < prod_sizes lead → 0 ≤ c < sub → 0 ≤ h < H → 0 ≤ s1 < F →
      0 ≤ w < W → 0 ≤ s2 < F →
      out !! Z.to_nat (ravel [n; c; h; s1; w; s2] [prod_sizes lead; sub; H; F; W; F]) =
      Some (load (data_ptr x)
              (ravel [n; c; s1; s2; h; w] [prod_sizes lead; sub; F; F; H; W])).
Proof.
  intros (Hlen & Hnn & _) Hty Hfmt Hsz Hsub HH HW HF.
  assert (Forall (λ s, 0 ≤ s) lead) as Hlead.
  { rewrite Hsz in Hnn. by apply Forall_app in Hnn as [? _]. }
  destruct (size_last3 x _ _ _ _ Hsz) as (Hc & Hh & Hw).
  unfold pixel_shuffle_cpu. rewrite Hc, Hh, Hw. simpl.
  unfold div64. rewrite !bool_decide_eq_false_2 by lia. simpl.
  rewrite quot_quot_square by lia.
  rewrite (leading_sizes_app x _ _ _ _ Hsz).
  unfold resize_. cbn [scalar_type]. rewrite contiguous_same.
  rewrite Hfmt, empty_ok by done. cbn [mbind result_bind].
  unfold pixel_shuffle_kernel. rewrite Hfmt, dispatch_floating by done.
  edestruct (cpu_pixel_shuffle_spec
    (mkTensor (lead ++ [sub; H * F; W * F]) Contiguous (scalar_type x)
       (uninitialized <$> seq 0 (Z.to_nat (prod_sizes (lead ++ [sub; H * F; W * F])))))
    x F lead sub H W) as (out & -> & Hl & Hout); try done.
  { simpl. rewrite length_fmap, length_seq. f_equal.
    unfold numel. rewrite Hsz, !prod_sizes_last3. lia. }
  exists out. done.
Qed.

Lemma pixel_shuffle_cpu_channels_last (x : Tensor A) (F : Z) (N sub H W : Z) :
  well_formed x → floating (scalar_type x) →
  suggest_memory_format x = ChannelsLast →
  sizes x = [N; sub * F * F; H; W] →
  0 < sub → 0 < F →
  ∃ out,
    pixel_shuffle_cpu x F =
      Ok (mkTensor [N; sub; H * F; W * F] ChannelsLast (scalar_type x) out) ∧
    length out = Z.to_nat (numel x) ∧
    ∀ n c h s1 w s2,
      0 ≤ n < N → 0 ≤ c < sub → 0 ≤ h < H → 0 ≤ s1 < F →
      0 ≤ w < W → 0 ≤ s2 < F →
      out !! Z.to_nat (ravel [n; h; s1; w; s2; c] [N; H; F; W; F; sub]) =
      Some (load (data_ptr x)
              (ravel [n; h; w; c; s1; s2] [N; H; W; sub; F; F])).
Proof.
  intros (Hlen & Hnn & Hcl) Hty Hfmt Hsz Hsub HF.
  rewrite Hfmt, Hsz in Hcl. destruct Hcl as [_ Hpos].
  assert (0 < N ∧ 0 < H ∧ 0 < W) as (HN & HH & HW).
  { by repeat (apply Forall_cons in Hpos as [? Hpos]). }
  destruct (size_last3 x [N] _ _ _ Hsz) as (Hc & Hh & Hw).
  unfold pixel_shuffle_cpu. rewrite Hc, Hh, Hw. simpl.
  unfold div64. rewrite !bool_decide_eq_false_2 by lia. simpl.
  rewrite quot_quot_square by lia.
  rewrite (leading_sizes_app x [N] _ _ _ Hsz). cbn [app].
  unfold resize_. cbn [scalar_type]. rewrite contiguous_same.
  rewrite Hfmt, empty_ok by done. cbn [mbind result_bind].
  unfold pixel_shuffle_kernel. rewrite Hfmt, dispatch_floating by done.
  edestruct (cpu_pixel_shuffle_channels_last_spec
    (mkTensor [N; sub; H * F; W * F] ChannelsLast (scalar_type x)
       (uninitialized <$> seq 0 (Z.to_nat (prod_sizes [N; sub; H * F; W * F]))))
    x F N sub H W) as (out & -> & Hl & Hout); try done.
  { simpl. rewrite length_fmap, length_seq. f_equal.
    unfold numel. rewrite Hsz, !prod_sizes_4. lia. }
  exists out. done.
Qed.

Lemma pixel_unshuffle_cpu_packed (x : Tensor A) (F : Z) (lead : list Z) (C H W : Z) :
  well_formed x → floating (scalar_type x) →
  suggest_memory_format x = Contiguous →
  sizes x = lead ++ [C; H * F; W * F] →
  0 < C → 0 < H → 0 < W → 0 < F →
  ∃ out,
    pixel_unshuffle_cpu x F =
      Ok (mkTensor (lead ++ [C * F * F; H; W]) Contiguous (scalar_type x) out) ∧
    length out = Z.to_nat (numel x) ∧
    ∀ n c h s1 w s2,
      0 ≤ n < prod_sizes lead → 0 ≤ c < C → 0 ≤ h < H → 0 ≤ s1 < F →
      0 ≤ w < W → 0 ≤ s2 < F →
      out !! Z.to_nat (ravel [n; c; s1; s2; h; w] [prod_sizes lead; C; F; F; H; W]) =
      Some (load (data_ptr x)
              (ravel [n; c; h; s1; w; s2] [prod_sizes lead; C; H; F; W; F])).
Proof.
  intros (Hlen & Hnn & _) Hty Hfmt Hsz HC HH HW HF.
  assert (Forall (λ s, 0 ≤ s) lead) as Hlead.
  { rewrite Hsz in Hnn. by apply Forall_app in Hnn as [? _]. }
  destruct (size_last3 x _ _ _ _ Hsz) as (Hc & Hh & Hw).
  unfold pixel_unshuffle_cpu. rewrite Hc, Hh, Hw. simpl.
  unfold div64. rewrite !bool_decide_eq_false_2 by lia. simpl.
  rewrite !Z.quot_mul by lia.
  rewrite (leading_sizes_app x _ _ _ _ Hsz).
  unfold resize_. cbn [scalar_type]. rewrite contiguous_same.
  rewrite Hfmt, empty_ok by done. cbn [mbind result_bind].
  unfold pixel_unshuffle_kernel. rewrite Hfmt, dispatch_floating by done.
  assert (numel x = prod_sizes (lead ++ [C * F * F; H; W])) as Hnum.
  { unfold numel. rewrite Hsz, !prod_sizes_last3. lia. }
  edestruct (cpu_pixel_shuffle_backward_spec
    (mkTensor (lead ++ [C * F * F; H; W]) Contiguous (scalar_type x)
       (uninitialized <$> seq 0 (Z.to_nat (prod_sizes (lead ++ [C * F * F; H; W])))))
    x F lead C H W) as (out & -> & Hl & Hout); try done.
  { simpl. by rewrite length_fmap, length_seq. }
  exists out. split; [done|]. split; [|done].
  rewrite Hl. unfold numel at 1. simpl. by rewrite Hnum.
Qed.

Lemma pixel_unshuffle_cpu_channels_last (x : Tensor A) (F : Z) (N C H W : Z) :
  well_formed x → floating (scalar_type x) →
  suggest_memory_format x = ChannelsLast →
  sizes x = [N; C; H * F; W * F] →
  0 < H → 0 < W → 0 < F →
  ∃ out,
    pixel_unshuffle_cpu x F =
      Ok (mkTensor [N; C * F * F; H; W] ChannelsLast (scalar_type x) out) ∧
    length out = Z.to_nat (numel x) ∧
    ∀ n c h s1 w s2,
      0 ≤ n < N → 0 ≤ c < C → 0 ≤ h < H → 0 ≤ s1 < F →
      0 ≤ w < W → 0 ≤ s2 < F →
      out !! Z.to_nat (ravel [n; h; w; c; s1; s2] [N; H; W; C; F; F]) =
      Some (load (data_ptr x)
              (ravel [n; h; s1; w; s2; c] [N; H; F; W; F; C])).
Proof.
  intros (Hlen & Hnn & Hcl) Hty Hfmt Hsz HH HW HF.
  rewrite Hfmt, Hsz in Hcl. destruct Hcl as [_ Hpos].
  assert (0 < N ∧ 0 < C) as (HN & HC).
  { by repeat (apply Forall_cons in Hpos as [? Hpos]). }
  destruct (size_last3 x [N] _ _ _ Hsz) as (Hc & Hh & Hw).
  unfold pixel_unshuffle_cpu. rewrite Hc, Hh, Hw. simpl.
  unfold div64. rewrite !bool_decide_eq_false_2 by lia. simpl.
  rewrite !Z.quot_mul by lia.
  rewrite (leading_sizes_app x [N] _ _ _ Hsz). cbn [app].
  unfold resize_. cbn [scalar_type]. rewrite contiguous_same.
  rewrite Hfmt, empty_ok by done. cbn [mbind result_bind].
  unfold pixel_unshuffle_kernel. rewrite Hfmt, dispatch_floating by done.
  assert (numel x = prod_sizes [N; C * F * F; H; W]) as Hnum.
  { unfold numel. rewrite Hsz, !prod_sizes_4. lia. }
  edestruct (cpu_pixel_shuffle_backward_channels_last_spec
    (mkTensor [N; C * F * F; H; W] ChannelsLast (scalar_type x)
       (uninitialized <$> seq 0 (Z.to_nat (prod_sizes [N; C * F * F; H; W]))))
    x F N C H W) as (out & -> & Hl & Hout); try done.
  { unfold dim. by rewrite Hsz. }
  { simpl. by rewrite length_fmap, length_seq. }
  exists out. split; [done|]. split; [|done].
  rewrite Hl. unfold numel at 1. simpl. by rewrite Hnum.
Qed.
End PixelShuffleOps.


Section PixelShuffleRoundTrip.
Context {A : Type} `{!Inhabited A, !Runtime A}.
Import PixelShuffle.

Lemma pixel_shuffle_checked (x : Tensor A) (F : Z) (lead : list Z) (C H W : Z) :
  sizes x = lead ++ [C; H; W] → 0 < F → C `rem` (F * F) = 0 →
  pixel_shuffle x F = pixel_shuffle_cpu x F.
Proof.
  intros Hsz HF Hrem.
  destruct (size_last3 x _ _ _ _ Hsz) as (Hc & Hh & Hw).
  unfold pixel_shuffle, TORCH_CHECK, rem64.
  rewrite (bool_decide_eq_true_2 (3 ≤ dim x)).
  2: { unfold dim. rewrite Hsz, length_app. simpl. lia. }
  rewrite (bool_decide_eq_true_2 (0 < F)) by done.
  cbn [mbind result_bind]. rewrite Hc. cbn [mbind result_bind].
  rewrite bool_decide_eq_false_2 by nia. cbn [mbind result_bind].
  rewrite bool_decide_eq_true_2 by done.
  unfold PixelShuffleOp_apply, PixelShuffleOp_forward, PixelShuffleOp__forward.
  destruct GradMode_is_enabled; [|done].
  by destruct (pixel_shuffle_cpu x F).
Qed.

Lemma pixel_unshuffle_checked (x : Tensor A) (F : Z) (lead : list Z) (C H W : Z) :
  sizes x = lead ++ [C; H; W] → 0 < F → H `rem` F = 0 → W `rem` F = 0 →
  pixel_unshuffle x F = pixel_unshuffle_cpu x F.
Proof.
  intros Hsz HF HremH HremW.
  destruct (size_last3 x _ _ _ _ Hsz) as (Hc & Hh & Hw).
  unfold pixel_unshuffle, TORCH_CHECK, rem64.
  rewrite (bool_decide_eq_true_2 (3 ≤ dim x)).
  2: { unfold dim. rewrite Hsz, length_app. simpl. lia. }
  rewrite (bool_decide_eq_true_2 (0 < F)) by done.
  cbn [mbind result_bind]. rewrite Hh, Hw. cbn [mbind result_bind].
  rewrite !bool_decide_eq_false_2 by nia. cbn [mbind result_bind].
  rewrite HremH, HremW. simpl.
  unfold PixelUnshuffleOp_apply, PixelUnshuffleOp_forward, PixelUnshuffleOp__forward.
  destruct GradMode_is_enabled; [|done].
  by destruct (pixel_unshuffle_cpu x F).
Qed.

Lemma rem_zero_multiple (C D : Z) :
  0 < C → 0 < D → C `rem` D = 0 → ∃ sub, 0 < sub ∧ C = sub * D.
Proof.
  intros HC HD Hr. exists (C `quot` D).
  pose proof (Z.quot_rem' C D) as E. rewrite Hr in E.
  split; [|lia]. pose proof (Z.quot_pos C D ltac:(lia) HD). nia.
Qed.

Lemma coords6 (X1 X2 X3 X4 X5 X6 k : Z) :
  0 < X1 → 0 < X2 → 0 < X3 → 0 < X4 → 0 < X5 → 0 < X6 →
  0 ≤ k < prod_sizes [X1; X2; X3; X4; X5; X6] →
  ∃ a b c d e f,
    0 ≤ a < X1 ∧ 0 ≤ b < X2 ∧ 0 ≤ c < X3 ∧ 0 ≤ d < X4 ∧ 0 ≤ e < X5 ∧ 0 ≤ f < X6 ∧
    k = ravel [a; b; c; d; e; f] [X1; X2; X3; X4; X5; X6].
Proof.
  intros H1 H2 H3 H4 H5 H6 Hk.
  set (Xs := [X1; X2; X3; X4; X5; X6]) in *.
  assert (Forall (λ X, 0 < X) Xs) as HXs by (repeat constructor; lia).
  pose proof (data_index_init_bounds k Xs ltac:(lia) HXs) as [_ Hb].
  pose proof (ravel_from_init k Xs ltac:(lia) HXs) as Hr.
  rewrite (data_index_init_inside k Xs Hk HXs) in Hr.
  pose proof (Forall2_length _ _ _ Hb) as Hl.
  destruct (data_index_init k Xs).2 as [|a [|b [|c [|d [|e [|f [|? ?]]]]]]];
    try done.
  exists a, b, c, d, e, f.
  unfold Xs in Hb.
  do 6 (apply Forall2_cons in Hb as [? Hb]).
  split_and!; try lia. symmetry. exact Hr.
Qed.

Lemma prod_sizes_6 (a b c d e f : Z) :
  prod_sizes [a; b; c; d; e; f] = a * (b * c * d * e * f).
Proof. unfold prod_sizes. simpl. lia. Qed.

Lemma load_lookup (l : list A) (i : Z) (v : A) :
  l !! Z.to_nat i = Some v → load l i = v.
Proof. intros Hl. unfold load. by apply list_lookup_total_correct. Qed.

(** Unshuffling a shuffled tensor gives the tensor back: shape, layout,
    element type and every cell. *)
Lemma pixel_unshuffle_pixel_shuffle (x : Tensor A) (F : Z) (lead : list Z) (C H W : Z) :
  well_formed x →
  floating (scalar_type x) →
  suggest_memory_format x = Contiguous ∨ suggest_memory_format x = ChannelsLast →
  sizes x = lead ++ [C; H; W] →
  0 < F → C `rem` (F * F) = 0 →
  C ≠ 0 → H ≠ 0 → W ≠ 0 →
  pixel_shuffle x F ≫= (λ z, pixel_unshuffle z F) = Ok x.
Proof.
  intros Hwf Hty Hfmt Hsz HF Hrem HC0 HH0 HW0.
  pose proof Hwf as (Hlen & Hnn & Hcl).
  assert (0 ≤ C ∧ 0 ≤ H ∧ 0 ≤ W ∧ Forall (λ s, 0 ≤ s) lead) as (? & ? & ? & Hlead).
  { rewrite Hsz in Hnn. apply Forall_app in Hnn as [? Hnn].
    by repeat (apply Forall_cons in Hnn as [? Hnn]). }
  destruct (rem_zero_multiple C (F * F)) as (sub & Hsub & HCsub); [lia..|].
  assert (C = sub * F * F) as -> by lia.
  rewrite (pixel_shuffle_checked x F lead _ H W) by done.
  destruct x as [szx fmtx tyx datax]. simpl in *. subst szx.
  assert (numel (mkTensor (lead ++ [sub * F * F; H; W]) fmtx tyx datax) =
          prod_sizes lead * (sub * F * F * H * W)) as Hnum.
  { unfold numel. simpl. by rewrite prod_sizes_last3. }
  destruct Hfmt as [-> | ->].
  - (* packed *)
    edestruct (pixel_shuffle_cpu_packed
                 (mkTensor (lead ++ [sub * F * F; H; W]) Contiguous tyx datax)
                 F lead sub H W)
      as (out & -> & Hl & Hout); try done; try lia.
    cbn [mbind result_bind scalar_type].
    rewrite (pixel_unshuffle_checked _ F lead sub (H * F) (W * F));
      try done; try (apply Z.rem_mul; lia).
    edestruct (pixel_unshuffle_cpu_packed
                 (mkTensor (lead ++ [sub; H * F; W * F]) Contiguous tyx out)
                 F lead sub H W)
      as (out' & -> & Hl' & Hout'); try done; try lia.
    { split_and!; simpl; [|  |done].
      - rewrite Hl. f_equal. unfold numel. simpl. rewrite !prod_sizes_last3. lia.
      - apply Forall_app. split; [done|]. repeat constructor; nia. }
    simpl. f_equal. f_equal.
    assert (numel (mkTensor (lead ++ [sub; H * F; W * F]) Contiguous tyx out) =
            prod_sizes lead * (sub * F * F * H * W)) as Hnum'.
    { unfold numel. simpl. rewrite prod_sizes_last3. lia. }
    rewrite Hnum' in Hl'. rewrite Hnum in Hl, Hlen.
    apply list_eq. intros i.
    destruct (decide (i < length datax)%nat) as [Hi|Hi].
    2: { rewrite !lookup_ge_None_2; [done|lia..]. }
    assert (0 < prod_sizes lead) as HN.
    { pose proof (prod_sizes_nonneg lead Hlead). nia. }
    destruct (coords6 (prod_sizes lead) sub F F H W (Z.of_nat i))
      as (n & c & s1 & s2 & h & w & ? & ? & ? & ? & ? & ? & Hi');
      try lia.
    { rewrite prod_sizes_6.
      replace (sub * F * F * H * W) with (sub * F * F * H * W) in Hlen by lia.
      first [ replace (sub * F * F * H * W) with (sub * F * F * H * W) by lia; lia
            | replace (H * W * sub * F * F) with (sub * F * F * H * W) by lia; lia ]. }
    rewrite <- (Nat2Z.id i), Hi'.
    rewrite Hout' by done.
    erewrite (load_lookup out); [|by apply Hout].
    simpl. unfold load. symmetry. apply list_lookup_lookup_total_lt. lia.
  - (* channels last *)
    destruct Hcl as [Hl4 Hpos].
    rewrite length_app in Hl4.
    destruct lead as [|N [|? ?]]; simpl in Hl4; try lia. simpl in *.
    assert (0 < N) as HN by (by apply Forall_cons in Hpos as [? _]).
    edestruct (pixel_shuffle_cpu_channels_last
                 (mkTensor [N; sub * F * F; H; W] ChannelsLast tyx datax)
                 F N sub H W)
      as (out & -> & Hl & Hout); try done; try lia.
    cbn [mbind result_bind scalar_type].
    rewrite (pixel_unshuffle_checked _ F [N] sub (H * F) (W * F));
      try done; try (apply Z.rem_mul; lia).
    edestruct (pixel_unshuffle_cpu_channels_last
                 (mkTensor [N; sub; H * F; W * F] ChannelsLast tyx out)
                 F N sub H W)
      as (out' & -> & Hl' & Hout'); try done; try lia.
    { split_and!; simpl; try done.
      - rewrite Hl. f_equal. unfold numel, prod_sizes. simpl. lia.
      - repeat constructor; nia.
      - split; [done|]. repeat constructor; nia. }
    simpl. f_equal. f_equal.
    assert (numel (mkTensor [N; sub; H * F; W * F] ChannelsLast tyx out) =
            N * (sub * F * F * H * W)) as Hnum'.
    { unfold numel, prod_sizes. simpl. lia. }
    rewrite Hnum' in Hl'. unfold prod_sizes in Hnum. simpl in Hnum.
    rewrite Hnum in Hl, Hlen.
    apply list_eq. intros i.
    destruct (decide (i < length datax)%nat) as [Hi|Hi].
    2: { rewrite !lookup_ge_None_2; [done|lia..]. }
    destruct (coords6 N H W sub F F (Z.of_nat i))
      as (n & h & w & c & s1 & s2 & ? & ? & ? & ? & ? & ? & Hi');
      try lia.
    { rewrite prod_sizes_6.
      replace (sub * F * F * H * W) with (sub * F * F * H * W) in Hlen by lia.
      first [ replace (sub * F * F * H * W) with (sub * F * F * H * W) by lia; lia
            | replace (H * W * sub * F * F) with (sub * F * F * H * W) by lia; lia ]. }
    rewrite <- (Nat2Z.id i), Hi'.
    rewrite Hout' by done.
    erewrite (load_lookup out); [|by apply Hout].
    simpl. unfold load. symmetry. apply list_lookup_lookup_total_lt. lia.
Qed.
End PixelShuffleRoundTrip.


(** ** Pixel shuffle: shapes, dispatch and the backward pairing *)

Section PixelShuffleShapes.
Context {A : Type} `{!Inhabited A, !Runtime A}.
Import PixelShuffle.

Lemma pixel_shuffle_shape (x : Tensor A) (F : Z) (lead : list Z) (C H W : Z) :
  well_formed x →
  floating (scalar_type x) →
  suggest_memory_format x = Contiguous ∨ suggest_memory_format x = ChannelsLast →
  sizes x = lead ++ [C; H; W] →
  0 < F → C `rem` (F * F) = 0 →
  C ≠ 0 → H ≠ 0 → W ≠ 0 →
  ∃ z, pixel_shuffle x F = Ok z ∧
       sizes z = lead ++ [C `quot` (F * F); H * F; W * F] ∧
       suggest_memory_format z = suggest_memory_format x ∧
       scalar_type z = scalar_type x ∧
       well_formed z.
Proof.
  intros Hwf Hty Hfmt Hsz HF Hrem HC0 HH0 HW0.
  pose proof Hwf as (Hlen & Hnn & Hcl).
  assert (0 ≤ C ∧ 0 ≤ H ∧ 0 ≤ W ∧ Forall (λ s, 0 ≤ s) lead) as (? & ? & ? & Hlead).
  { rewrite Hsz in Hnn. apply Forall_app in Hnn as [? Hnn].
    by repeat (apply Forall_cons in Hnn as [? Hnn]). }
  destruct (rem_zero_multiple C (F * F)) as (sub & Hsub & HCsub); [lia..|].
  assert (C = sub * F * F) as -> by lia.
  replace ((sub * F * F) `quot` (F * F)) with sub.
  2: { replace (sub * F * F) with (sub * (F * F)) by lia. rewrite Z.quot_mul; lia. }
  rewrite (pixel_shuffle_checked x F lead _ H W) by done.
  destruct Hfmt as [Hf | Hf].
  - destruct (pixel_shuffle_cpu_packed x F lead sub H W)
      as (out & -> & Hl & _); try done; try lia.
    eexists. split; [done|]. simpl. split_and!; try done.
    unfold well_formed. simpl. split_and!; try done.
    + rewrite Hl. f_equal. unfold numel. simpl.
      rewrite Hsz, !prod_sizes_last3. lia.
    + apply Forall_app. split; [done|]. repeat constructor; nia.
  - rewrite Hf in Hcl. destruct Hcl as [Hl4 Hpos].
    rewrite Hsz, length_app in Hl4.
    destruct lead as [|N [|? ?]]; simpl in Hl4; try lia.
    rewrite Hsz in Hpos.
    assert (0 < N) as HN by (by apply Forall_cons in Hpos as [? _]).
    destruct (pixel_shuffle_cpu_channels_last x F N sub H W)
      as (out & -> & Hl & _); try done; try lia.
    eexists. split; [done|]. simpl. split_and!; try done.
    unfold well_formed. simpl. split_and!; try done.
    + rewrite Hl. f_equal. unfold numel. simpl.
      rewrite Hsz. unfold prod_sizes. simpl. lia.
    + repeat constructor; nia.
    + repeat constructor; nia.
Qed.

Lemma pixel_unshuffle_shape (x : Tensor A) (F : Z) (lead : list Z) (C H W : Z) :
  well_formed x →
  floating (scalar_type x) →
  suggest_memory_format x = Contiguous ∨ suggest_memory_format x = ChannelsLast →
  sizes x = lead ++ [C; H; W] →
  0 < F → H `rem` F = 0 → W `rem` F = 0 →
  C ≠ 0 → H ≠ 0 → W ≠ 0 →
  ∃ z, pixel_unshuffle x F = Ok z ∧
       sizes z = lead ++ [C * F * F; H `quot` F; W `quot` F] ∧
       suggest_memory_format z = suggest_memory_format x ∧
       scalar_type z = scalar_type x ∧
       well_formed z.
Proof.
  intros Hwf Hty Hfmt Hsz HF HremH HremW HC0 HH0 HW0.
  pose proof Hwf as (Hlen & Hnn & Hcl).
  assert (0 ≤ C ∧ 0 ≤ H ∧ 0 ≤ W ∧ Forall (λ s, 0 ≤ s) lead) as (? & ? & ? & Hlead).
  { rewrite Hsz in Hnn. apply Forall_app in Hnn as [? Hnn].
    by repeat (apply Forall_cons in Hnn as [? Hnn]). }
  rewrite (pixel_unshuffle_checked x F lead C H W) by done.
  destruct (rem_zero_multiple H F) as (H' & HH' & ->); [lia..|].
  destruct (rem_zero_multiple W F) as (W' & HW' & ->); [lia..|].
  rewrite !Z.quot_mul by lia.
  destruct Hfmt as [Hf | Hf].
  - destruct (pixel_unshuffle_cpu_packed x F lead C H' W')
      as (out & -> & Hl & _); try done; try lia.
    eexists. split; [done|]. simpl. split_and!; try done.
    unfold well_formed. simpl. split_and!; try done.
    + rewrite Hl. f_equal. unfold numel. simpl.
      rewrite Hsz, !prod_sizes_last3. lia.
    + apply Forall_app. split; [done|]. repeat constructor; nia.
  - rewrite Hf in Hcl. destruct Hcl as [Hl4 Hpos].
    rewrite Hsz, length_app in Hl4.
    destruct lead as [|N [|? ?]]; simpl in Hl4; try lia.
    rewrite Hsz in Hpos.
    assert (0 < N) as HN by (by apply Forall_cons in Hpos as [? _]).
    destruct (pixel_unshuffle_cpu_channels_last x F N C H' W')
      as (out & -> & Hl & _); try done; try lia.
    eexists. split; [done|]. simpl. split_and!; try done.
    unfold well_formed. simpl. split_and!; try done.
    + rewrite Hl. f_equal. unfold numel. simpl.
      rewrite Hsz. unfold prod_sizes. simpl. lia.
    + repeat constructor; nia.
    + repeat constructor; nia.
Qed.

(** The element types the four kernels are instantiated for. *)
Lemma dispatch_not_floating {T} (ty : ScalarType) (name : string)
    (body : ScalarType → result T) :
  ¬ floating ty →
  AT_DISPATCH_FLOATING_TYPES ty name body = Err (c10_NotImplemented name ty).
Proof. unfold floating. destruct ty; naive_solver. Qed.

Lemma bind_not_ok {T U} (m : result T) (f : T → result U) :
  (∀ v, m = Ok v → is_Ok (f v) = false) → is_Ok (m ≫= f) = false.
Proof. destruct m; simpl; auto. Qed.

Lemma contiguous_dtype (t t' : Tensor A) (fmt : MemoryFormat) :
  contiguous t fmt = Ok t' →
  scalar_type t' = scalar_type t ∧ suggest_memory_format t' = fmt.
Proof.
  unfold contiguous, is_contiguous, TORCH_CHECK.
  case_bool_decide as Hf; [by intros [= <-]|].
  repeat case_bool_decide; simpl; try done. by intros [= <-].
Qed.

Lemma kernels_reject_dtype (out x : Tensor A) (F : Z) :
  ¬ floating (scalar_type x) →
  is_Ok (pixel_shuffle_kernel out x F) = false ∧
  is_Ok (pixel_unshuffle_kernel out x F) = false ∧
  is_Ok (pixel_shuffle_backward_kernel out x F) = false ∧
  is_Ok (pixel_unshuffle_backward_kernel out x F) = false.
Proof.
  intros Hty.
  unfold pixel_shuffle_kernel, pixel_unshuffle_kernel,
    pixel_shuffle_backward_kernel, pixel_unshuffle_backward_kernel.
  destruct (suggest_memory_format x); rewrite ?dispatch_not_floating by done; done.
Qed.
End PixelShuffleShapes.


(** ** Invariant rules for the chunked loops *)

Section LoopRules.
Context {A : Type} `{!Inhabited A, !Runtime A} {St : Type}.

Lemma for_loop_snoc (n : nat) (i : Z) (body : Z → St → St) (st : St) :
  for_loop (S n) i body st = body (i + Z.of_nat n) (for_loop n i body st).
Proof.
  replace (S n) with (n + 1)%nat by lia. by rewrite for_loop_app.
Qed.

Lemma irange_ind (P : Z → St → Prop) (b e : Z) (body : Z → St → St) (st : St) :
  b ≤ e →
  P b st →
  (∀ j st, b ≤ j < e → P j st → P (j + 1) (body j st)) →
  P e (irange b e body st).
Proof.
  intros Hbe H0 Hstep. unfold irange.
  replace e with (b + Z.of_nat (Z.to_nat (e - b))) at 1 by lia.
  apply for_loop_ind; [done|]. intros. apply Hstep; [lia|done].
Qed.

Lemma irange_empty (b e : Z) (body : Z → St → St) (st : St) :
  e ≤ b → irange b e body st = st.
Proof. intros. unfold irange. by replace (Z.to_nat (e - b)) with 0%nat by lia. Qed.

Lemma indexed_chunk_ind (P : Z → St → Prop) (Xs : list Z)
    (body : Z → list Z → St → St) (b e : Z) (st : St) :
  0 ≤ b → b ≤ e → Forall (λ X, 0 < X) Xs →
  P b st →
  (∀ j st, b ≤ j < e → P j st → P (j + 1) (body j (data_index_init j Xs).2 st)) →
  P e (indexed_chunk Xs body b e st).
Proof.
  intros Hb Hbe HXs H0 Hstep. rewrite indexed_chunk_for_loop by done.
  by apply (irange_ind P b e (λ j, body j (data_index_init j Xs).2)).
Qed.

(** An invariant that every chunk carries from its first to its last
    iteration is carried by the parallel loop over the whole range. *)
Lemma parallel_for_ind (P : Z → St → Prop) (b e : Z) (f : Z → Z → St → St) (st : St) :
  b ≤ e →
  P b st →
  (∀ b' e' st, b ≤ b' → b' < e' → e' ≤ e → P b' st → P e' (f b' e' st)) →
  P e (parallel_for b e f st).
Proof.
  intros Hbe H0 Hf. unfold parallel_for. case_bool_decide as Hc.
  { by replace e with b by lia. }
  destruct (divup_covers (e - b) (Z.pos num_threads)) as [Hch Hcov]; [lia..|].
  set (chunk := divup (e - b) (Z.pos num_threads)) in *.
  assert (∀ m k st',
    P (b + Z.min (e - b) (Z.of_nat k * chunk)) st' →
    P (b + Z.min (e - b) (Z.of_nat (k + m) * chunk))
      (foldl (λ st tid,
                if bool_decide (b + Z.of_nat tid * chunk < e)
                then f (b + Z.of_nat tid * chunk)
                       (Z.min e (chunk + (b + Z.of_nat tid * chunk))) st
                else st) st' (seq k m))) as Hind.
  { induction m as [|m IH]; intros k st' HP; simpl.
    - by rewrite Nat.add_0_r.
    - assert (Z.of_nat (S k) * chunk = Z.of_nat k * chunk + chunk) as Hk by lia.
      assert (0 ≤ Z.of_nat k * chunk) as Hk0 by nia.
      replace (k + S m)%nat with (S k + m)%nat by lia.
      apply IH. rewrite Hk. case_bool_decide as Hlt.
      + replace (b + Z.min (e - b) (Z.of_nat k * chunk + chunk))
          with (Z.min e (chunk + (b + Z.of_nat k * chunk))) by lia.
        apply Hf; try lia.
        replace (b + Z.of_nat k * chunk)
          with (b + Z.min (e - b) (Z.of_nat k * chunk)) by lia.
        exact HP.
      + assert (b + Z.min (e - b) (Z.of_nat k * chunk + chunk) =
                b + Z.min (e - b) (Z.of_nat k * chunk)) as E.
        { clear -Hlt Hch Hk0. lia. }
        rewrite E. exact HP. }
  specialize (Hind (Pos.to_nat num_threads) 0%nat st).
  simpl in Hind. rewrite positive_nat_Z in Hind.
  replace (b + Z.min (e - b) (Z.pos num_threads * chunk)) with e in Hind by lia.
  apply Hind.
  replace (b + Z.min (e - b) (Z.of_nat 0 * chunk)) with b by lia. exact H0.
Qed.
End LoopRules.

(** ** Stores *)

Section Stores.
Context {A : Type} `{!Inhabited A}.

Lemma store_length (o : list A) (i : Z) (v : A) : length (store o i v) = length o.
Proof. apply length_insert. Qed.

Lemma store_lookup_eq (o : list A) (i : Z) (v : A) :
  0 ≤ i < Z.of_nat (length o) → store o i v !! Z.to_nat i = Some v.
Proof. intros. apply list_lookup_insert_eq. lia. Qed.

Lemma store_lookup_ne (o : list A) (i : Z) (v : A) (q : nat) :
  q ≠ Z.to_nat i → store o i v !! q = o !! q.
Proof. intros. by apply list_lookup_insert_ne. Qed.

Lemma load_store_eq (o : list A) (i : Z) (v : A) :
  0 ≤ i < Z.of_nat (length o) → load (store o i v) i = v.
Proof. intros. by apply load_lookup, store_lookup_eq. Qed.

Lemma store_store (o : list A) (i : Z) (v v' : A) :
  store (store o i v) i v' = store o i v'.
Proof. apply list_insert_insert_eq. Qed.
End Stores.


(** ** Average pooling, forward, packed layout *)

Section PoolForwardPacked.
Context {A : Type} `{!Inhabited A, !Runtime A, !Arith A}.
Import AveragePool.

(** A kernel whose iteration [i] leaves in cell [i] a value computed
    from the coordinates of [i], and touches nothing else. *)
Lemma parallel_write (Xs : list Z) (body : Z → list Z → list A → list A)
    (v : list Z → A) (out : list A) :
  (∀ i xs o, 0 ≤ i < Z.of_nat (length out) → length o = length out →
             length xs = length Xs → body i xs o = store o i (v xs)) →
  (out ≠ [] → Forall (λ X, 0 < X) Xs) →
  parallel_for 0 (Z.of_nat (length out)) (indexed_chunk Xs body) out =
  (λ k : nat, v (data_index_init (Z.of_nat k) Xs).2) <$> seq 0 (length out).
Proof.
  intros Hbody HXs.
  set (g := λ k : nat, v (data_index_init (Z.of_nat k) Xs).2).
  pose proof (parallel_for_ind
    (λ j o, 0 ≤ j ∧ o = (g <$> seq 0 (Z.to_nat j)) ++ drop (Z.to_nat j) out)
    0 (Z.of_nat (length out)) (indexed_chunk Xs body) out) as Hinv.
  destruct Hinv as [_ ->].
  - lia.
  - split; [lia|]. by rewrite drop_0.
  - intros b' e' st Hb' Hlt He' HP.
    assert (out ≠ []) as Hne by (destruct out; simpl in *; [lia|done]).
    apply indexed_chunk_ind; [lia|lia|auto|done|].
    intros j o Hj [_ ->]. split; [lia|].
    rewrite Hbody; [|lia| |by rewrite data_index_init_length].
    2: { rewrite length_app, length_fmap, length_seq, length_drop. lia. }
    assert (v (data_index_init j Xs).2 = g (Z.to_nat j)) as ->.
    { unfold g. by rewrite Z2Nat.id by lia. }
    unfold store.
    replace (Z.to_nat (j + 1)) with (S (Z.to_nat j)) by lia.
    rewrite seq_S, fmap_app, <- app_assoc. simpl.
    rewrite insert_app_r_alt; rewrite length_fmap, length_seq; [|lia].
    rewrite Nat.sub_diag.
    f_equal.
    destruct (drop (Z.to_nat j) out) as [|a l] eqn:Hd.
    { apply (f_equal length) in Hd. rewrite length_drop in Hd. simpl in Hd. lia. }
    simpl. f_equal.
    replace (S (Z.to_nat j)) with (Z.to_nat j + 1)%nat by lia.
    by rewrite <- drop_drop, Hd.
  - rewrite Nat2Z.id, drop_all, app_nil_r. done.
Qed.

Lemma parallel_write_lookup (Xs : list Z) (body : Z → list Z → list A → list A)
    (v : list Z → A) (out : list A) (xs : list Z) :
  (∀ i xs o, 0 ≤ i < Z.of_nat (length out) → length o = length out →
             length xs = length Xs → body i xs o = store o i (v xs)) →
  Forall (λ X, 0 < X) Xs →
  Forall2 (λ x X, 0 ≤ x < X) xs Xs →
  Z.of_nat (length out) = prod_sizes Xs →
  parallel_for 0 (Z.of_nat (length out)) (indexed_chunk Xs body) out
    !! Z.to_nat (ravel xs Xs) = Some (v xs).
Proof.
  intros Hb HX Hxs Hlen. rewrite (parallel_write Xs body v out Hb) by done.
  pose proof (ravel_from_bounds 0 xs Xs ltac:(lia) Hxs) as Hr.
  rewrite list_lookup_fmap, lookup_seq_lt by (unfold ravel; lia).
  simpl. rewrite Z2Nat.id by (unfold ravel; lia).
  unfold ravel. by rewrite init_ravel_from by (done || lia).
Qed.

Lemma is_contiguous_true (t : Tensor A) (fmt : MemoryFormat) :
  suggest_memory_format t = fmt → is_contiguous t fmt = true.
Proof. intros. unfold is_contiguous. by rewrite bool_decide_eq_true_2. Qed.

Lemma contiguous_id (t : Tensor A) (fmt : MemoryFormat) :
  suggest_memory_format t = fmt → contiguous t fmt = Ok t.
Proof. intros <-. apply contiguous_same. Qed.

(** Every cell of the output holds the average of its window, and an
    empty window gives zero, whatever the output held before. *)
Lemma cpu_avg_pool_spec (scalar_t accscalar_t : ScalarType)
    (output_ input_ : Tensor A) (kW kH dW dH padW padH : Z)
    (count_include_pad : bool) (divisor_override : option Z)
    (channels IH IW OH OW : Z) :
  suggest_memory_format input_ = Contiguous →
  suggest_memory_format output_ = Contiguous →
  flattened_channels input_ = Ok channels →
  size input_ (-2) = Ok IH → size input_ (-1) = Ok IW →
  size output_ (-2) = Ok OH → size output_ (-1) = Ok OW →
  0 ≤ channels → 0 ≤ OH → 0 ≤ OW →
  numel output_ = channels * OH * OW →
  length (data_ptr output_) = Z.to_nat (numel output_) →
  ∃ out,
    cpu_avg_pool scalar_t accscalar_t output_ input_ kW kH dW dH padW padH
      count_include_pad divisor_override = Ok (with_data output_ out) ∧
    length out = length (data_ptr output_) ∧
    ∀ c oh ow,
      0 ≤ c < channels → 0 ≤ oh < OH → 0 ≤ ow < OW →
      out !! Z.to_nat (ravel [c; oh; ow] [channels; OH; OW]) =
      Some (avg_pool_cell scalar_t accscalar_t
              (λ ih iw, load (data_ptr input_) (c * IH * IW + (ih * IW + iw)))
              (pooling_window oh ow kW kH dW dH padW padH IH IW)
              count_include_pad divisor_override).
Proof.
  intros Hfi Hfo Hch HIH HIW HOH HOW Hc0 HOH0 HOW0 Hnumel Hlen.
  unfold cpu_avg_pool.
  rewrite (contiguous_id input_), (contiguous_id output_) by done.
  cbn [mbind result_bind]. rewrite Hch, HIH, HIW, HOH, HOW.
  cbn [mbind result_bind]. rewrite (is_contiguous_true output_) by done.
  cbn [negb].
  set (v := λ xs : list Z,
         match xs with
         | [c; oh; ow] =>
             avg_pool_cell scalar_t accscalar_t
               (λ ih iw, load (data_ptr input_) (c * IH * IW + (ih * IW + iw)))
               (pooling_window oh ow kW kH dW dH padW padH IH IW)
               count_include_pad divisor_override
         | _ => inhabitant
         end).
  set (body := λ (i : Z) (xs : list Z) (output_data : list A), _).
  assert (∀ i xs o, 0 ≤ i < Z.of_nat (length (data_ptr output_)) →
            length o = length (data_ptr output_) →
            length xs = 3%nat → body i xs o = store o i (v xs)) as Hbody.
  { intros i xs o Hi Hlo Hl.
    destruct xs as [|c [|oh [|ow [|? ?]]]]; try done.
    unfold body, v, avg_pool_cell.
    destruct (window_empty _); [done|].
    rewrite load_store_eq by lia. by rewrite store_store. }
  assert (numel output_ = Z.of_nat (length (data_ptr output_))) as Hn by lia.
  rewrite Hn.
  eexists. split; [reflexivity|]. split.
  - rewrite (parallel_write _ body v); [by rewrite length_fmap, length_seq|done|].
    intros Hne. assert (0 < channels * OH * OW).
    { destruct (data_ptr output_); [done|]. simpl in Hn. lia. }
    repeat constructor; nia.
  - intros c oh ow Hc Hoh How.
    rewrite (parallel_write_lookup _ body v); [done|done|..].
    + repeat constructor; lia.
    + repeat constructor; lia.
    + rewrite <- Hn, Hnumel. unfold prod_sizes. simpl. lia.
Qed.
End PoolForwardPacked.


(** ** Writes confined to a block of cells *)

Section Confined.
Context {A : Type} `{!Inhabited A}.

Lemma confined_id (lo hi : Z) : confined lo hi (λ o : list A, o).
Proof. by intros o. Qed.

Lemma confined_compose (lo hi : Z) (f g : list A → list A) :
  confined lo hi f → confined lo hi g → confined lo hi (λ o, g (f o)).
Proof.
  intros Hf Hg o. destruct (Hf o) as [Hl1 Hq1], (Hg (f o)) as [Hl2 Hq2].
  split; [congruence|]. intros q Hq. by rewrite Hq2, Hq1.
Qed.

Lemma confined_store (lo hi i : Z) (v : list A → A) :
  lo ≤ i < hi → 0 ≤ i → confined lo hi (λ o, store o i (v o)).
Proof.
  intros Hi Hi0 o. split; [apply store_length|].
  intros q Hq. apply store_lookup_ne. lia.
Qed.

Lemma confined_Vec_store (lo hi p : Z) (n : nat) (v : list A → list A) :
  (∀ o, length (v o) = n) → 0 ≤ p → lo ≤ p → p + Z.of_nat n ≤ hi →
  confined lo hi (λ o, Vec_store (v o) o p).
Proof.
  intros Hv Hp Hlo Hhi o. unfold Vec_store. split; [apply length_inserts|].
  intros q [Hq|Hq].
  - apply list_lookup_inserts_lt. lia.
  - apply list_lookup_inserts_ge. rewrite Hv. lia.
Qed.

Lemma confined_for_loop (lo hi : Z) (n : nat) (i : Z) (body : Z → list A → list A) :
  (∀ j, i ≤ j < i + Z.of_nat n → confined lo hi (body j)) →
  confined lo hi (for_loop n i body).
Proof.
  revert i. induction n as [|n IH]; intros i Hb; simpl; [apply confined_id|].
  apply (confined_compose lo hi (body i) (for_loop n (i + 1) body)).
  - apply Hb. lia.
  - apply IH. intros. apply Hb. lia.
Qed.

Lemma confined_irange (lo hi b e : Z) (body : Z → list A → list A) :
  (∀ j, b ≤ j < e → confined lo hi (body j)) →
  confined lo hi (irange b e body).
Proof. intros Hb. apply confined_for_loop. intros. apply Hb. lia. Qed.

Lemma confined_strided_loop (lo hi : Z) (n : nat) (d step : Z)
    (body : Z → list A → list A) :
  (∀ k : nat, (k < n)%nat → confined lo hi (body (d + Z.of_nat k * step))) →
  confined lo hi (strided_loop n d step body).
Proof.
  revert d. induction n as [|n IH]; intros d Hb; simpl; [apply confined_id|].
  apply (confined_compose lo hi (body d) (strided_loop n (d + step) step body)).
  - specialize (Hb 0%nat ltac:(lia)). by rewrite Z.mul_0_l, Z.add_0_r in Hb.
  - apply IH. intros k Hk. specialize (Hb (S k) ltac:(lia)).
    by replace (d + step + Z.of_nat k * step) with (d + Z.of_nat (S k) * step) by lia.
Qed.

(** The whole-vector part of a pass stays below [size]. *)
Lemma vec_pass_bounds (lanes : positive) (size : Z) :
  0 ≤ size →
  let len := size - size `rem` Z.pos lanes in
  0 ≤ len ≤ size ∧ Z.of_nat (Z.to_nat (len `quot` Z.pos lanes)) * Z.pos lanes = len.
Proof.
  intros Hs len. subst len.
  pose proof (Z.rem_bound_pos size (Z.pos lanes) Hs ltac:(lia)) as Hr.
  pose proof (Z.quot_rem' size (Z.pos lanes)) as Hqr.
  assert (size - size `rem` Z.pos lanes = (size `quot` Z.pos lanes) * Z.pos lanes) as -> by lia.
  pose proof (Z.quot_pos size (Z.pos lanes) Hs ltac:(lia)) as Hq.
  rewrite Z.quot_mul by lia. split; [nia|]. lia.
Qed.

Lemma confined_vec_pass (lo hi : Z) (lanes : positive) (size : Z)
    (vbody sbody : Z → list A → list A) :
  0 ≤ size →
  (∀ d, 0 ≤ d → d + Z.pos lanes ≤ size → confined lo hi (vbody d)) →
  (∀ d, 0 ≤ d < size → confined lo hi (sbody d)) →
  confined lo hi (AveragePool.vec_pass lanes size vbody sbody).
Proof.
  intros Hs Hv Hsb. unfold AveragePool.vec_pass.
  destruct (vec_pass_bounds lanes size Hs) as [Hlen Hcnt].
  apply (confined_compose lo hi
           (strided_loop _ 0 (Z.pos lanes) vbody) (irange _ size sbody)).
  - apply confined_strided_loop. intros k Hk. apply Hv; [lia|]. nia.
  - apply confined_irange. intros j Hj. apply Hsb. lia.
Qed.

Lemma confined_if (lo hi : Z) (b : bool) (f g : list A → list A) :
  confined lo hi f → confined lo hi g →
  confined lo hi (λ o, if b then f o else g o).
Proof. by destruct b. Qed.

Lemma confined_vec_pass_after (lo hi : Z) (lanes : positive) (size : Z)
    (vbody sbody : Z → list A → list A) (X : list A → list A) :
  0 ≤ size →
  (∀ d, 0 ≤ d → d + Z.pos lanes ≤ size → confined lo hi (vbody d)) →
  (∀ d, 0 ≤ d < size → confined lo hi (sbody d)) →
  confined lo hi X →
  confined lo hi (λ o, AveragePool.vec_pass lanes size vbody sbody (X o)).
Proof.
  intros. apply (confined_compose lo hi X); [done|].
  by apply confined_vec_pass.
Qed.

Lemma confined_irange_after (lo hi b e : Z) (body : Z → list A → list A)
    (X : list A → list A) :
  (∀ j, b ≤ j < e → confined lo hi (body j)) →
  confined lo hi X →
  confined lo hi (λ o, irange b e body (X o)).
Proof.
  intros. apply (confined_compose lo hi X); [done|]. by apply confined_irange.
Qed.

(** Filling a block: after the pass every cell of the block holds [z]. *)
Lemma strided_loop_ind {St} (P : nat → St → Prop) (n : nat) (d step : Z)
    (body : Z → St → St) (st : St) :
  P 0%nat st →
  (∀ (k : nat) st, (k < n)%nat → P k st → P (S k) (body (d + Z.of_nat k * step) st)) →
  P n (strided_loop n d step body st).
Proof.
  revert d st P. induction n as [|n IH]; intros d st P H0 Hstep; simpl; [done|].
  apply (IH (d + step) (body d st) (λ k, P (S k))).
  - specialize (Hstep 0%nat st ltac:(lia) H0).
    by rewrite Z.mul_0_l, Z.add_0_r in Hstep.
  - intros k st' Hk HP.
    replace (d + step + Z.of_nat k * step) with (d + Z.of_nat (S k) * step) by lia.
    apply Hstep; [lia|done].
Qed.

Lemma vec_pass_fill (lanes : positive) (size base : Z) (z : A) (o : list A) :
  0 ≤ size → 0 ≤ base → base + size ≤ Z.of_nat (length o) →
  ∀ d, 0 ≤ d < size →
    AveragePool.vec_pass lanes size
      (λ d o, Vec_store (Vec_broadcast z lanes) o (base + d))
      (λ d o, store o (base + d) z) o
    !! Z.to_nat (base + d) = Some z.
Proof.
  intros Hs Hb Hlen. unfold AveragePool.vec_pass.
  destruct (vec_pass_bounds lanes size Hs) as [Hl Hcnt].
  set (len := size - size `rem` Z.pos lanes) in *.
  set (n := Z.to_nat (len `quot` Z.pos lanes)) in *.
  pose proof (strided_loop_ind
    (λ k o', length o' = length o ∧
             ∀ d, 0 ≤ d < Z.of_nat k * Z.pos lanes →
                  o' !! Z.to_nat (base + d) = Some z)
    n 0 (Z.pos lanes)
    (λ d o, Vec_store (Vec_broadcast z lanes) o (base + d)) o) as H1.
  destruct H1 as [Hl1 Hz1].
  { split; [done|]. intros. lia. }
  { intros k o' Hk [Hlo Hz]. unfold Vec_store, Vec_broadcast.
    split; [by rewrite length_inserts|].
    intros d Hd.
    destruct (decide (d < Z.of_nat k * Z.pos lanes)) as [Hlt|Hge].
    - rewrite list_lookup_inserts_lt by lia. apply Hz. lia.
    - rewrite list_lookup_inserts; rewrite ?length_replicate; [|nia|nia].
      apply lookup_replicate_2. nia. }
  pose proof (irange_ind
    (λ j o', length o' = length o ∧
             ∀ d, 0 ≤ d < j → o' !! Z.to_nat (base + d) = Some z)
    len size (λ d o, store o (base + d) z)
    (strided_loop n 0 (Z.pos lanes)
       (λ d o, Vec_store (Vec_broadcast z lanes) o (base + d)) o)) as H2.
  destruct H2 as [_ Hz2]; [lia| |  |done].
  { split; [done|]. intros d Hd. apply Hz1. lia. }
  { intros j o' Hj [Hlo Hz]. split; [by rewrite store_length|].
    intros d Hd. destruct (decide (d = j)) as [->|Hne].
    - apply store_lookup_eq. lia.
    - rewrite store_lookup_ne by lia. apply Hz. lia. }
Qed.

Lemma irange_fill (size base : Z) (z : A) (o : list A) :
  0 ≤ size → 0 ≤ base → base + size ≤ Z.of_nat (length o) →
  ∀ d, 0 ≤ d < size →
    irange 0 size (λ k o, store o (base + k) z) o !! Z.to_nat (base + d) = Some z.
Proof.
  intros Hs Hb Hlen.
  pose proof (irange_ind
    (λ j o', length o' = length o ∧
             ∀ d, 0 ≤ d < j → o' !! Z.to_nat (base + d) = Some z)
    0 size (λ k o, store o (base + k) z) o) as H2.
  destruct H2 as [_ Hz2]; [lia| | |done].
  { split; [done|]. intros. lia. }
  { intros j o' Hj [Hlo Hz]. split; [by rewrite store_length|].
    intros d Hd. destruct (decide (d = j)) as [->|Hne].
    - apply store_lookup_eq. lia.
    - rewrite store_lookup_ne by lia. apply Hz. lia. }
Qed.
End Confined.


(** ** Average pooling, forward, channels last: empty windows *)

Section PoolForwardChannelsLast.
Context {A : Type} `{!Inhabited A, !Runtime A, !Arith A}.
Import AveragePool.

Lemma Vec_loadu_length (p : list A) (off : Z) (lanes : positive) :
  length (Vec_loadu p off lanes) = Pos.to_nat lanes.
Proof. unfold Vec_loadu. by rewrite length_fmap, length_seq. Qed.

Lemma coords3 (X1 X2 X3 j : Z) :
  0 < X1 → 0 < X2 → 0 < X3 → 0 ≤ j < X1 * X2 * X3 →
  ∃ a b c, (data_index_init j [X1; X2; X3]).2 = [a; b; c] ∧
           0 ≤ a < X1 ∧ 0 ≤ b < X2 ∧ 0 ≤ c < X3 ∧
           j = ravel [a; b; c] [X1; X2; X3].
Proof.
  intros H1 H2 H3 Hj.
  set (Xs := [X1; X2; X3]) in *.
  assert (Forall (λ X, 0 < X) Xs) as HXs by (repeat constructor; lia).
  assert (0 ≤ j < prod_sizes Xs) as Hj' by (unfold prod_sizes; simpl; lia).
  pose proof (data_index_init_bounds j Xs ltac:(lia) HXs) as [_ Hb].
  pose proof (ravel_from_init j Xs ltac:(lia) HXs) as Hr.
  rewrite (data_index_init_inside j Xs Hj' HXs) in Hr.
  pose proof (Forall2_length _ _ _ Hb) as Hl.
  destruct (data_index_init j Xs).2 as [|a [|b [|c [|? ?]]]]; try done.
  exists a, b, c. unfold Xs in Hb.
  do 3 (apply Forall2_cons in Hb as [? Hb]).
  split_and!; try lia; [done|]. symmetry. exact Hr.
Qed.

Lemma ravel3_inj (X1 X2 X3 a b c a' b' c' : Z) :
  0 ≤ a < X1 → 0 ≤ b < X2 → 0 ≤ c < X3 →
  0 ≤ a' < X1 → 0 ≤ b' < X2 → 0 ≤ c' < X3 →
  ravel [a; b; c] [X1; X2; X3] = ravel [a'; b'; c'] [X1; X2; X3] →
  a = a' ∧ b = b' ∧ c = c'.
Proof.
  intros. 
  assert (data_index_init (ravel [a; b; c] [X1; X2; X3]) [X1; X2; X3] = (0, [a; b; c])) as E1.
  { apply init_ravel_from; [lia|]. repeat constructor; lia. }
  assert (data_index_init (ravel [a'; b'; c'] [X1; X2; X3]) [X1; X2; X3] = (0, [a'; b'; c'])) as E2.
  { apply init_ravel_from; [lia|]. repeat constructor; lia. }
  rewrite H5, E2 in E1. by injection E1 as -> -> ->.
Qed.

Lemma ravel4_split (a b c d X1 X2 X3 X4 : Z) :
  ravel [a; b; c; d] [X1; X2; X3; X4] = ravel [a; b; c] [X1; X2; X3] * X4 + d.
Proof. unfold ravel, ravel_from. simpl. lia. Qed.

(** The invariant of the channels-last kernels: the blocks of the
    positions already visited whose window is empty hold zero. *)
Lemma block_step (N OH OW C : Z) (empty : Z → Z → bool) (z : A)
    (step : list A → list A) (o : list A) (j n0 oh0 ow0 : Z) :
  0 < N → 0 < OH → 0 < OW → 0 ≤ C →
  0 ≤ j < N * OH * OW →
  0 ≤ n0 < N → 0 ≤ oh0 < OH → 0 ≤ ow0 < OW →
  j = ravel [n0; oh0; ow0] [N; OH; OW] →
  length o = Z.to_nat (N * OH * OW * C) →
  confined (j * C) (j * C + C) step →
  (empty oh0 ow0 = true →
     ∀ c, 0 ≤ c < C → step o !! Z.to_nat (j * C + c) = Some z) →
  (∀ n oh ow c, 0 ≤ n < N → 0 ≤ oh < OH → 0 ≤ ow < OW → 0 ≤ c < C →
     ravel [n; oh; ow] [N; OH; OW] < j → empty oh ow = true →
     o !! Z.to_nat (ravel [n; oh; ow; c] [N; OH; OW; C]) = Some z) →
  length (step o) = Z.to_nat (N * OH * OW * C) ∧
  (∀ n oh ow c, 0 ≤ n < N → 0 ≤ oh < OH → 0 ≤ ow < OW → 0 ≤ c < C →
     ravel [n; oh; ow] [N; OH; OW] < j + 1 → empty oh ow = true →
     step o !! Z.to_nat (ravel [n; oh; ow; c] [N; OH; OW; C]) = Some z).
Proof.
  intros HN HOH HOW HC Hj Hn0 Hoh0 How0 Hjr Hlen Hconf Hfill IH.
  destruct (Hconf o) as [Hl Hframe]. split; [congruence|].
  intros n oh ow c Hn Hoh How Hc Hlt Hemp.
  rewrite ravel4_split.
  destruct (decide (ravel [n; oh; ow] [N; OH; OW] = j)) as [Heq|Hne].
  - rewrite Heq. rewrite Hjr in Heq.
    apply ravel3_inj in Heq as (-> & -> & ->); try done.
    by apply Hfill.
  - rewrite Hframe.
    + rewrite <- ravel4_split. apply IH; try done. lia.
    + left. pose proof (ravel_from_bounds 0 [n; oh; ow] [N; OH; OW] ltac:(lia)
                          ltac:(repeat constructor; lia)) as Hb.
      unfold ravel in *. nia.
Qed.

Lemma prod3_pos (a b c : Z) :
  0 ≤ a → 0 ≤ b → 0 ≤ c → 0 < a * b * c → 0 < a ∧ 0 < b ∧ 0 < c.
Proof. intros. nia. Qed.

Lemma cpu_avg_pool_channels_last_generic_empty (scalar_t : ScalarType)
    (output_ input_ : Tensor A) (kW kH dW dH padW padH : Z)
    (count_include_pad : bool) (divisor_override : option Z)
    (N C IH IW OH OW : Z) :
  suggest_memory_format input_ = ChannelsLast →
  suggest_memory_format output_ = ChannelsLast →
  sizes input_ = [N; C; IH; IW] → sizes output_ = [N; C; OH; OW] →
  0 ≤ N → 0 ≤ C → 0 ≤ OH → 0 ≤ OW →
  length (data_ptr output_) = Z.to_nat (N * OH * OW * C) →
  ∃ out,
    cpu_avg_pool_channels_last_generic scalar_t output_ input_
      kW kH dW dH padW padH count_include_pad divisor_override =
      Ok (with_data output_ out) ∧
    length out = length (data_ptr output_) ∧
    ∀ n oh ow c, 0 ≤ n < N → 0 ≤ oh < OH → 0 ≤ ow < OW → 0 ≤ c < C →
      window_empty (pooling_window oh ow kW kH dW dH padW padH IH IW) = true →
      out !! Z.to_nat (ravel [n; oh; ow; c] [N; OH; OW; C]) = Some (zero scalar_t).
Proof.
  intros Hfi Hfo Hsi Hso HN HC HOH HOW Hlen.
  destruct (size_4d input_ _ _ _ _ Hsi) as (Hi0 & Hi1 & Hi2 & Hi3 & _).
  destruct (size_4d output_ _ _ _ _ Hso) as (_ & _ & Ho2 & Ho3 & _).
  unfold cpu_avg_pool_channels_last_generic, dim.
  rewrite Hsi. cbn [length TORCH_CHECK]. rewrite bool_decide_eq_true_2 by done.
  cbn [mbind result_bind].
  rewrite (contiguous_id input_), (contiguous_id output_) by done.
  cbn [mbind result_bind]. rewrite Hi0, Hi1, Hi2, Hi3, Ho2, Ho3.
  cbn [mbind result_bind]. rewrite (is_contiguous_true output_) by done.
  cbn [negb].
  set (body := λ (i : Z) (xs : list Z) (output_data : list A), _).
  eexists. split; [reflexivity|].
  set (empty := λ oh ow,
         window_empty (pooling_window oh ow kW kH dW dH padW padH IH IW)).
  pose proof (parallel_for_ind
    (λ j o, length o = Z.to_nat (N * OH * OW * C) ∧
            ∀ n oh ow c, 0 ≤ n < N → 0 ≤ oh < OH → 0 ≤ ow < OW → 0 ≤ c < C →
              ravel [n; oh; ow] [N; OH; OW] < j → empty oh ow = true →
              o !! Z.to_nat (ravel [n; oh; ow; c] [N; OH; OW; C]) =
              Some (zero scalar_t))
    0 (N * OH * OW) (indexed_chunk [N; OH; OW] body) (data_ptr output_)) as Hinv.
  destruct Hinv as [Hl Hz].
  - nia.
  - split; [done|]. intros n oh ow c ? ? ? ? Hr.
    pose proof (ravel_from_bounds 0 [n; oh; ow] [N; OH; OW] ltac:(lia)
                  ltac:(repeat constructor; lia)). unfold ravel in Hr. lia.
  - intros b' e' st Hb' Hlt He' HP.
    destruct (prod3_pos N OH OW) as (HN' & HOH' & HOW'); [lia..|].
    apply indexed_chunk_ind; [lia|lia|repeat constructor; lia|done|].
    intros j o Hj [Hlo IHj].
    destruct (coords3 N OH OW j) as (n0 & oh0 & ow0 & -> & ? & ? & ? & Hjr);
      [lia..|].
    apply (block_step N OH OW C empty (zero scalar_t) (body j [n0; oh0; ow0]) o j n0 oh0 ow0);
      try done; try lia.
    + (* the iteration writes its own block only *)
      unfold body. cbv zeta.
      assert (confined (j * C) (j * C + C)
                (AveragePool.vec_pass (vec_size scalar_t) C
                   (λ d1 output_data,
                      Vec_store (Vec_broadcast (zero scalar_t) (vec_size scalar_t))
                        output_data (j * C + d1))
                   (λ d1 output_data, store output_data (j * C + d1) (zero scalar_t))))
        as HpassI.
      { apply confined_vec_pass; [lia| |].
        - intros d ? ?.
          apply confined_Vec_store with (n := Pos.to_nat (vec_size scalar_t));
            [intros; apply length_replicate|nia|lia|lia].
        - intros d ?. apply confined_store; nia. }
      apply confined_if; [exact HpassI|].
      apply confined_vec_pass_after; [lia| | |].
      * intros d ? ?.
        apply confined_Vec_store with (n := Pos.to_nat (vec_size scalar_t));
          [|nia|lia|lia].
        intros. by rewrite length_fmap, Vec_loadu_length.
      * intros d ?. apply confined_store; nia.
      * apply confined_irange_after; [|exact HpassI].
        intros ih _. apply confined_irange. intros iw _.
        apply confined_vec_pass; [lia| |].
        -- intros d ? ?.
           apply confined_Vec_store with (n := Pos.to_nat (vec_size scalar_t));
             [|nia|lia|lia].
           intros. rewrite length_zip_with, !Vec_loadu_length. lia.
        -- intros d ?. apply confined_store; nia.
    + (* an empty window leaves the zeroed block *)
      intros Hemp c Hc. unfold body. unfold empty in Hemp. rewrite Hemp.
      apply vec_pass_fill; try lia.
      * nia.
      * rewrite Hlo. nia.
  - split; [by rewrite Hl|].
    intros n oh ow c ? ? ? ? Hemp. apply Hz; try done.
    pose proof (ravel_from_bounds 0 [n; oh; ow] [N; OH; OW] ltac:(lia)
                  ltac:(repeat constructor; lia)) as Hb.
    unfold ravel, prod_sizes in *. simpl in Hb. lia.
Qed.

Lemma cpu_avg_pool_channels_last_BFloat16_empty
    (output_ input_ : Tensor A) (kW kH dW dH padW padH : Z)
    (count_include_pad : bool) (divisor_override : option Z)
    (N C IH IW OH OW : Z) :
  suggest_memory_format input_ = ChannelsLast →
  suggest_memory_format output_ = ChannelsLast →
  sizes input_ = [N; C; IH; IW] → sizes output_ = [N; C; OH; OW] →
  0 ≤ N → 0 ≤ C → 0 ≤ OH → 0 ≤ OW →
  length (data_ptr output_) = Z.to_nat (N * OH * OW * C) →
  ∃ out,
    cpu_avg_pool_channels_last_BFloat16 output_ input_
      kW kH dW dH padW padH count_include_pad divisor_override =
      Ok (with_data output_ out) ∧
    length out = length (data_ptr output_) ∧
    ∀ n oh ow c, 0 ≤ n < N → 0 ≤ oh < OH → 0 ≤ ow < OW → 0 ≤ c < C →
      window_empty (pooling_window oh ow kW kH dW dH padW padH IH IW) = true →
      out !! Z.to_nat (ravel [n; oh; ow; c] [N; OH; OW; C]) = Some (zero BFloat16).
Proof.
  intros Hfi Hfo Hsi Hso HN HC HOH HOW Hlen.
  destruct (size_4d input_ _ _ _ _ Hsi) as (Hi0 & Hi1 & Hi2 & Hi3 & _).
  destruct (size_4d output_ _ _ _ _ Hso) as (_ & _ & Ho2 & Ho3 & _).
  unfold cpu_avg_pool_channels_last_BFloat16, dim.
  rewrite Hsi. cbn [length TORCH_CHECK]. rewrite bool_decide_eq_true_2 by done.
  cbn [mbind result_bind].
  rewrite (contiguous_id input_), (contiguous_id output_) by done.
  cbn [mbind result_bind]. rewrite Hi0, Hi1, Hi2, Hi3, Ho2, Ho3.
  cbn [mbind result_bind]. rewrite (is_contiguous_true output_) by done.
  cbn [negb].
  set (body := λ (i : Z) (xs : list Z) (st : list A * list A), _).
  set (sum_arr := uninitialized <$> seq 0 (Z.to_nat C)).
  eexists. split; [reflexivity|].
  set (empty := λ oh ow,
         window_empty (pooling_window oh ow kW kH dW dH padW padH IH IW)).
  pose proof (parallel_for_ind
    (λ j o, length o = Z.to_nat (N * OH * OW * C) ∧
            ∀ n oh ow c, 0 ≤ n < N → 0 ≤ oh < OH → 0 ≤ ow < OW → 0 ≤ c < C →
              ravel [n; oh; ow] [N; OH; OW] < j → empty oh ow = true →
              o !! Z.to_nat (ravel [n; oh; ow; c] [N; OH; OW; C]) =
              Some (zero BFloat16))
    0 (N * OH * OW)
    (λ begin end_ output_data,
       (indexed_chunk [N; OH; OW] body begin end_ (output_data, sum_arr)).1)
    (data_ptr output_)) as Hinv.
  destruct Hinv as [Hl Hz].
  - nia.
  - split; [done|]. intros n oh ow c ? ? ? ? Hr.
    pose proof (ravel_from_bounds 0 [n; oh; ow] [N; OH; OW] ltac:(lia)
                  ltac:(repeat constructor; lia)). unfold ravel in Hr. lia.
  - intros b' e' st Hb' Hlt He' HP.
    destruct (prod3_pos N OH OW) as (HN' & HOH' & HOW'); [lia..|].
    apply (indexed_chunk_ind
             (λ j (st : list A * list A),
                length st.1 = Z.to_nat (N * OH * OW * C) ∧
                ∀ n oh ow c, 0 ≤ n < N → 0 ≤ oh < OH → 0 ≤ ow < OW → 0 ≤ c < C →
                  ravel [n; oh; ow] [N; OH; OW] < j → empty oh ow = true →
                  st.1 !! Z.to_nat (ravel [n; oh; ow; c] [N; OH; OW; C]) =
                  Some (zero BFloat16)));
      [lia|lia|repeat constructor; lia|done|].
    intros j [o sum] Hj [Hlo IHj]. cbn [fst] in Hlo, IHj.
    destruct (coords3 N OH OW j) as (n0 & oh0 & ow0 & -> & ? & ? & ? & Hjr);
      [lia..|].
    apply (block_step N OH OW C empty (zero BFloat16)
             (λ o, (body j [n0; oh0; ow0] (o, sum)).1) o j n0 oh0 ow0);
      try done; try lia.
    + (* the iteration writes its own block only *)
      unfold body. cbv zeta. cbv beta iota.
      destruct (window_empty _); cbn [fst].
      * apply confined_irange. intros k ?. apply confined_store; nia.
      * apply confined_vec_pass; [lia| |].
        -- intros d ? ?.
           apply confined_Vec_store with (n := Pos.to_nat (vec_size BFloat16));
             [|nia|lia|lia].
           intros. rewrite length_fmap, length_app, !length_fmap, !Vec_loadu_length.
           rewrite bvec_is_two_fvec. lia.
        -- intros d ?. apply confined_store; nia.
    + (* an empty window has its block zeroed explicitly *)
      intros Hemp c Hc. unfold body. cbv zeta. cbv beta iota.
      unfold empty in Hemp. rewrite Hemp. cbn [fst].
      apply irange_fill; try lia.
      * nia.
      * rewrite Hlo. nia.
  - split; [by rewrite Hl|].
    intros n oh ow c ? ? ? ? Hemp. apply Hz; try done.
    pose proof (ravel_from_bounds 0 [n; oh; ow] [N; OH; OW] ltac:(lia)
                  ltac:(repeat constructor; lia)) as Hb.
    unfold ravel, prod_sizes in *. simpl in Hb. lia.
Qed.
End PoolForwardChannelsLast.


(** ** Scatter-add loops, cell by cell *)

Section Cellwise.
Context {A : Type} `{!Inhabited A}.

Lemma irange_snoc {St} (b e : Z) (body : Z → St → St) (st : St) :
  b ≤ e → irange b (e + 1) body st = body e (irange b e body st).
Proof.
  intros Hbe. unfold irange.
  replace (Z.to_nat (e + 1 - b)) with (S (Z.to_nat (e - b))) by lia.
  rewrite for_loop_snoc. f_equal. lia.
Qed.

Lemma irange_ext {St} (b e : Z) (body body' : Z → St → St) (st : St) :
  (∀ j st, b ≤ j < e → body j st = body' j st) →
  irange b e body st = irange b e body' st.
Proof. intros Hb. apply for_loop_ext. intros. apply Hb. lia. Qed.

(** A loop whose body changes a value only at the iteration [x]. *)
Lemma irange_hit {T} (b e x : Z) (P : Prop) `{!Decision P} (f : T → T) (v : T) :
  irange b e (λ j v, if bool_decide (x = j ∧ P) then f v else v) v =
  if bool_decide (b ≤ x < e ∧ P) then f v else v.
Proof.
  destruct (decide (b ≤ e)) as [Hbe|Hbe].
  2: { rewrite irange_empty by lia. by rewrite bool_decide_eq_false_2 by lia. }
  pose proof (irange_ind
    (λ j r, r = if bool_decide (b ≤ x < j ∧ P) then f v else v)
    b e (λ j v, if bool_decide (x = j ∧ P) then f v else v) v Hbe) as Hinv.
  apply Hinv.
  - by rewrite bool_decide_eq_false_2 by lia.
  - intros j r Hj ->.
    destruct (decide P) as [HP|HP].
    2: { by rewrite !bool_decide_eq_false_2 by tauto. }
    destruct (decide (x = j)) as [->|Hne].
    + rewrite (bool_decide_eq_true_2 (j = j ∧ P)) by done.
      rewrite (bool_decide_eq_false_2 (b ≤ j < j ∧ P)) by lia.
      by rewrite bool_decide_eq_true_2 by (split; [lia|done]).
    + rewrite (bool_decide_eq_false_2 (x = j ∧ P)) by tauto.
      destruct (decide (b ≤ x < j)).
      * by rewrite !bool_decide_eq_true_2 by (split; [lia|done]).
      * by rewrite !bool_decide_eq_false_2 by lia.
Qed.

Context (inb : Z → Z → Z → Z → Prop) (idx : Z → Z → Z → Z → Z).

Lemma cells_rel_refl (buf : list A) :
  cells_rel inb idx (λ _ _ _ _ v, v) buf buf.
Proof. by split. Qed.

(** The cells after a loop hold the loop of what each iteration does to
    a cell. *)
Lemma irange_cells (b e : Z) (body : Z → list A → list A)
    (F : Z → Z → Z → Z → Z → A → A) (buf : list A) :
  (∀ j cur, b ≤ j < e → length cur = length buf →
     cells_rel inb idx (F j) cur (body j cur)) →
  cells_rel inb idx (λ o ih iw d v, irange b e (λ j, F j o ih iw d) v)
    buf (irange b e body buf).
Proof.
  intros Hbody.
  destruct (decide (b ≤ e)) as [Hbe|Hbe].
  2: { rewrite irange_empty by lia. split; [done|].
       intros. by rewrite irange_empty by lia. }
  apply (irange_ind
           (λ j cur, cells_rel inb idx
                       (λ o ih iw d v, irange b j (λ j, F j o ih iw d) v) buf cur)
           b e body buf Hbe).
  - split; [done|]. intros. by rewrite irange_empty by lia.
  - intros j cur Hj [Hl Hc].
    destruct (Hbody j cur Hj Hl) as [Hl' Hc'].
    split; [congruence|]. intros o ih iw d Hin.
    rewrite irange_snoc by lia. by rewrite Hc', Hc.
Qed.

Lemma cells_rel_ext (F G : Z → Z → Z → Z → A → A) (buf buf' : list A) :
  (∀ o ih iw d v, inb o ih iw d → F o ih iw d v = G o ih iw d v) →
  cells_rel inb idx F buf buf' → cells_rel inb idx G buf buf'.
Proof.
  intros HFG [Hl Hc]. split; [done|]. intros. rewrite Hc by done. by apply HFG.
Qed.
End Cellwise.

Section ScatterAdd.
Context {A : Type} `{!Inhabited A}.
Import AveragePool.

Lemma irange_single {T} (b e x : Z) (G : Z → T → T) (v : T) :
  (∀ j v, b ≤ j < e → j ≠ x → G j v = v) →
  irange b e G v = if bool_decide (b ≤ x < e) then G x v else v.
Proof.
  intros HG.
  destruct (decide (b ≤ e)) as [Hbe|Hbe].
  2: { rewrite irange_empty by lia. by rewrite bool_decide_eq_false_2 by lia. }
  assert (∀ j, b ≤ j ≤ e →
            irange b j G v = if bool_decide (b ≤ x < j) then G x v else v) as Hall.
  { intros j Hj.
    replace j with (b + Z.of_nat (Z.to_nat (j - b))) by lia.
    assert (Z.of_nat (Z.to_nat (j - b)) ≤ e - b) as Hn by lia.
    induction (Z.to_nat (j - b)) as [|n IH].
    - rewrite irange_empty by lia. by rewrite bool_decide_eq_false_2 by lia.
    - replace (b + Z.of_nat (S n)) with (b + Z.of_nat n + 1) by lia.
      rewrite irange_snoc by lia. rewrite IH by lia.
      destruct (decide (x = b + Z.of_nat n)) as [->|Hne].
      + rewrite bool_decide_eq_false_2 by lia.
        by rewrite bool_decide_eq_true_2 by lia.
      + rewrite HG by lia.
        destruct (decide (b ≤ x < b + Z.of_nat n)).
        * by rewrite !bool_decide_eq_true_2 by lia.
        * by rewrite !bool_decide_eq_false_2 by lia. }
  apply Hall. lia.
Qed.

Lemma irange_noop {T} (b e : Z) (G : Z → T → T) (v : T) :
  (∀ j v, b ≤ j < e → G j v = v) → irange b e G v = v.
Proof.
  intros HG. rewrite (irange_single b e (b - 1)).
  - by rewrite bool_decide_eq_false_2 by lia.
  - intros. by apply HG.
Qed.

Context (combine : A → A → A).
Context (O IH IW C OH OW : Z).
Context (idx : Z → Z → Z → Z → Z).
Context (win : Z → Z → window).
Context (δ : Z → Z → Z → Z → A).
Context (U : Z → Z → Z → Z → Z → list A → list A).
Context (L : nat).

Let inb (o ih iw d : Z) : Prop :=
  0 ≤ o < O ∧ 0 ≤ ih < IH ∧ 0 ≤ iw < IW ∧ 0 ≤ d < C.

Hypothesis win_clamped : ∀ oh ow,
  0 ≤ ih0 (win oh ow) ∧ ih1 (win oh ow) ≤ IH ∧
  0 ≤ iw0 (win oh ow) ∧ iw1 (win oh ow) ≤ IW.

(** One step at the input position [(ih, iw)] of plane [o], for the
    window of [(oh, ow)]: the cells of that position receive their
    share, every other cell is kept. *)
Hypothesis U_cells : ∀ o oh ow ih iw (cur : list A),
  0 ≤ o < O → 0 ≤ ih < IH → 0 ≤ iw < IW → length cur = L →
  cells_rel inb idx
    (λ o' ih' iw' d' v,
       if bool_decide (iw' = iw ∧ (ih' = ih ∧ o' = o))
       then combine v (δ o oh ow d') else v)
    cur (U o oh ow ih iw cur).

Lemma scatter_add_cells (buf : list A) :
  length buf = L →
  cells_rel inb idx
    (λ o ih iw d v,
       irange 0 OH
         (λ oh, irange 0 OW
            (λ ow acc,
               if window_contains (win oh ow) ih iw
               then combine acc (δ o oh ow d) else acc)) v)
    buf
    (irange 0 O
       (λ o, irange 0 OH
          (λ oh, irange 0 OW
             (λ ow gi,
                irange (ih0 (win oh ow)) (ih1 (win oh ow))
                  (λ ih, irange (iw0 (win oh ow)) (iw1 (win oh ow))
                     (λ iw gi, U o oh ow ih iw gi))
                  gi)))
       buf).
Proof.
  intros HL.
  eapply cells_rel_ext; [|apply (irange_cells inb idx 0 O _
    (λ o o' ih' iw' d' v,
       irange 0 OH
         (λ oh, irange 0 OW
            (λ ow acc,
               if bool_decide (o' = o ∧ window_contains (win oh ow) ih' iw' = true)
               then combine acc (δ o oh ow d') else acc)) v))].
  - (* only the plane of the cell contributes *)
    intros o' ih' iw' d' v (Ho & _).
    rewrite (irange_single 0 O o').
    + rewrite bool_decide_eq_true_2 by lia.
      apply irange_ext. intros oh v1 _. apply irange_ext. intros ow v2 _.
      destruct (window_contains _ _ _).
      * by rewrite bool_decide_eq_true_2.
      * by rewrite bool_decide_eq_false_2 by (intros [_ ?]; done).
    + intros o v1 _ Hne. apply irange_noop. intros oh v2 _.
      apply irange_noop. intros ow v3 _.
      by rewrite bool_decide_eq_false_2 by (intros [? _]; done).
  - intros o cur Ho Hlc.
    eapply cells_rel_ext; [|apply (irange_cells inb idx 0 OH _
      (λ oh o' ih' iw' d' v,
         irange 0 OW
           (λ ow acc,
              if bool_decide (o' = o ∧ window_contains (win oh ow) ih' iw' = true)
              then combine acc (δ o oh ow d') else acc) v))]; [done|].
    intros oh cur1 _ Hl1.
    eapply cells_rel_ext; [|apply (irange_cells inb idx 0 OW _
      (λ ow o' ih' iw' d' v,
         if bool_decide (o' = o ∧ window_contains (win oh ow) ih' iw' = true)
         then combine v (δ o oh ow d') else v))]; [done|].
    intros ow cur2 _ Hl2.
    destruct (win_clamped oh ow) as (Hc1 & Hc2 & Hc3 & Hc4).
    eapply cells_rel_ext; [|apply (irange_cells inb idx _ _ _
      (λ ih o' ih' iw' d' v,
         if bool_decide (ih' = ih ∧
                         (iw0 (win oh ow) ≤ iw' < iw1 (win oh ow) ∧ o' = o))
         then combine v (δ o oh ow d') else v))].
    + intros o' ih' iw' d' v _.
      cbv beta.
      rewrite (irange_hit _ _ ih' _ (λ v, combine v (δ o oh ow d'))).
      unfold window_contains.
      destruct (decide (o' = o ∧
                        ih0 (win oh ow) ≤ ih' < ih1 (win oh ow) ∧
                        iw0 (win oh ow) ≤ iw' < iw1 (win oh ow))) as [Hy|Hn].
      * rewrite bool_decide_eq_true_2 by tauto.
        rewrite (bool_decide_eq_true_2 (o' = o ∧ _)); [done|].
        split; [tauto|]. apply bool_decide_eq_true_2. tauto.
      * rewrite bool_decide_eq_false_2 by tauto.
        rewrite (bool_decide_eq_false_2 (o' = o ∧ _)); [done|].
        intros [? Hb]. apply bool_decide_eq_true_1 in Hb. tauto.
    + intros ih cur3 Hih Hl3.
      eapply cells_rel_ext; [|apply (irange_cells inb idx _ _ _
        (λ iw o' ih' iw' d' v,
           if bool_decide (iw' = iw ∧ (ih' = ih ∧ o' = o))
           then combine v (δ o oh ow d') else v))].
      * intros o' ih' iw' d' v _.
        cbv beta.
        rewrite (irange_hit _ _ iw' _ (λ v, combine v (δ o oh ow d'))).
        destruct (decide (ih' = ih ∧
                          (iw0 (win oh ow) ≤ iw' < iw1 (win oh ow) ∧ o' = o)))
          as [Hy|Hn].
        -- by rewrite !bool_decide_eq_true_2 by tauto.
        -- by rewrite !bool_decide_eq_false_2 by tauto.
      * intros iw cur4 Hiw Hl4.
        apply U_cells; lia.
Qed.
End ScatterAdd.


(** ** Average pooling, backward *)

Section PoolBackward.
Context {A : Type} `{!Inhabited A, !Runtime A, !Arith A}.
Import AveragePool.

Lemma for_loop_foldl {St} (n : nat) (i : Z) (body : Z → St → St) (st : St) :
  for_loop n i body st = foldl (λ st j, body j st) st (seqZ i (Z.of_nat n)).
Proof.
  revert i st. induction n as [|n IH]; intros i st; [done|].
  rewrite seqZ_cons by lia. simpl. rewrite IH.
  do 2 f_equal; lia.
Qed.

Lemma irange_foldl {St} (e : Z) (body : Z → St → St) (st : St) :
  irange 0 e body st = foldl (λ st j, body j st) st (seqZ 0 e).
Proof.
  unfold irange. rewrite for_loop_foldl.
  destruct (decide (0 ≤ e)).
  - do 2 f_equal. lia.
  - replace (Z.to_nat (e - 0)) with 0%nat by lia.
    by rewrite !seqZ_nil by lia.
Qed.

Lemma foldl_ext {St X} (f g : St → X → St) (st : St) (l : list X) :
  (∀ st x, f st x = g st x) → foldl f st l = foldl g st l.
Proof.
  intros Hfg. revert st. induction l as [|x l IH]; intros st; [done|].
  simpl. by rewrite Hfg, IH.
Qed.

Lemma foldl_bind {St X Y} (f : St → Y → St) (g : X → list Y) (st : St) (l : list X) :
  foldl f st (l ≫= g) = foldl (λ st x, foldl f st (g x)) st l.
Proof.
  revert st. induction l as [|x l IH]; intros st; [done|].
  rewrite bind_cons, foldl_app. apply IH.
Qed.

Lemma foldl_filter {St X} (f : St → X → St) (P : X → Prop)
    `{!∀ x, Decision (P x)} (st : St) (l : list X) :
  foldl f st (filter P l) = foldl (λ st x, if decide (P x) then f st x else st) st l.
Proof.
  revert st. induction l as [|x l IH]; intros st; [done|].
  rewrite filter_cons. simpl. destruct (decide (P x)); simpl; apply IH.
Qed.

Lemma filter_bind {X Y} (P : Y → Prop) `{!∀ y, Decision (P y)}
    (g : X → list Y) (l : list X) :
  filter P (l ≫= g) = l ≫= (λ x, filter P (g x)).
Proof.
  induction l as [|x l IH]; [done|].
  by rewrite !bind_cons, filter_app, IH.
Qed.

(** The loops of the kernel over the windows accumulate the sum of §8. *)
Lemma window_loops_sum (scalar_t : ScalarType) (g : Z → Z → A)
    (kW kH dW dH padW padH : Z) (count_include_pad : bool)
    (divisor_override : option Z) (IH IW OH OW ih iw : Z) :
  irange 0 OH
    (λ oh, irange 0 OW
       (λ ow acc,
          let w := pooling_window oh ow kW kH dW dH padW padH IH IW in
          if window_contains w ih iw
          then add scalar_t acc
                 (div scalar_t (g oh ow)
                    (divide_factor w count_include_pad divisor_override))
          else acc))
    (zero scalar_t) =
  grad_input_sum scalar_t g kW kH dW dH padW padH count_include_pad
    divisor_override IH IW OH OW ih iw.
Proof.
  unfold grad_input_sum, raster.
  rewrite filter_bind, foldl_bind, irange_foldl.
  apply foldl_ext. intros acc oh.
  rewrite filter_bind, foldl_bind, irange_foldl.
  apply foldl_ext. intros acc' ow.
  rewrite filter_cons, filter_nil. cbn [fst snd].
  destruct (window_contains _ _ _); simpl; done.
Qed.

Lemma pooling_window_clamped (oh ow kW kH dW dH padW padH IH IW : Z) :
  let w := pooling_window oh ow kW kH dW dH padW padH IH IW in
  0 ≤ ih0 w ∧ ih1 w ≤ IH ∧ 0 ≤ iw0 w ∧ iw1 w ≤ IW.
Proof. unfold pooling_window. simpl. lia. Qed.

Lemma load_store_ne (o : list A) (i q : Z) (v : A) :
  0 ≤ i → 0 ≤ q → q ≠ i → load (store o i v) q = load o q.
Proof.
  intros. unfold load, store. apply list_lookup_total_insert_ne. lia.
Qed.

Lemma plane_index_inj (O IH IW o ih iw o' ih' iw' : Z) :
  0 ≤ o < O → 0 ≤ ih < IH → 0 ≤ iw < IW →
  0 ≤ o' < O → 0 ≤ ih' < IH → 0 ≤ iw' < IW →
  o * IH * IW + (ih * IW + iw) = o' * IH * IW + (ih' * IW + iw') →
  o = o' ∧ ih = ih' ∧ iw = iw'.
Proof.
  intros ? ? ? ? ? ? E.
  apply (ravel3_inj O IH IW); try done.
  unfold ravel, ravel_from. simpl. lia.
Qed.

Lemma plane_index_bounds (O IH IW o ih iw : Z) :
  0 ≤ o < O → 0 ≤ ih < IH → 0 ≤ iw < IW →
  0 ≤ o * IH * IW + (ih * IW + iw) < O * IH * IW.
Proof.
  intros.
  pose proof (ravel_from_bounds 0 [o; ih; iw] [O; IH; IW] ltac:(lia)
                ltac:(repeat constructor; lia)) as Hb.
  unfold ravel_from, prod_sizes in Hb. simpl in Hb. lia.
Qed.

(** Packed layout: the plane of channel [c] starts at [c * IH * IW];
    each of its cells ends with what it held plus the shares of the
    windows that contain it, added in raster order. *)
Lemma cpu_avg_pool_backward_spec (scalar_t : ScalarType)
    (grad_input_ grad_output_ : Tensor A) (kW kH dW dH padW padH : Z)
    (count_include_pad : bool) (divisor_override : option Z)
    (grad_input : Tensor A) (channels IH IW OH OW : Z) :
  contiguous grad_input_ Contiguous = Ok grad_input →
  suggest_memory_format grad_output_ = Contiguous →
  flattened_channels grad_output_ = Ok channels →
  size grad_input (-2) = Ok IH → size grad_input (-1) = Ok IW →
  size grad_output_ (-2) = Ok OH → size grad_output_ (-1) = Ok OW →
  length (data_ptr grad_input) = Z.to_nat (channels * IH * IW) →
  ∃ gi,
    cpu_avg_pool_backward scalar_t grad_input_ grad_output_
      kW kH dW dH padW padH count_include_pad divisor_override =
      (if is_contiguous grad_input_ Contiguous
       then Ok (with_data grad_input gi)
       else copy_ grad_input_ (with_data grad_input gi)) ∧
    length gi = length (data_ptr grad_input) ∧
    ∀ c ih iw, 0 ≤ c < channels → 0 ≤ ih < IH → 0 ≤ iw < IW →
      load gi (c * IH * IW + (ih * IW + iw)) =
      irange 0 OH
        (λ oh, irange 0 OW
           (λ ow acc,
              let w := pooling_window oh ow kW kH dW dH padW padH IH IW in
              if window_contains w ih iw
              then add scalar_t acc
                     (div scalar_t
                        (load (data_ptr grad_output_)
                           (c * OH * OW + (oh * OW + ow)))
                        (divide_factor w count_include_pad divisor_override))
              else acc))
        (load (data_ptr grad_input) (c * IH * IW + (ih * IW + iw))).
Proof.
  intros Hfi Hfo Hch HIH HIW HOH HOW Hlen.
  unfold cpu_avg_pool_backward.
  rewrite (contiguous_id grad_output_), Hfi by done.
  cbn [mbind result_bind]. rewrite Hch, HIH, HIW, HOH, HOW.
  cbn [mbind result_bind].
  eexists. split; [destruct (is_contiguous grad_input_ Contiguous); reflexivity|].
  match goal with
  | |- context [parallel_for 0 channels ?f ?st] =>
      rewrite (parallel_for_for_loop 0 channels f
                 (λ c, irange 0 OH
                    (λ oh, irange 0 OW
                       (λ ow grad_input_data,
                          let w := pooling_window oh ow kW kH dW dH padW padH IH IW in
                          irange (ih0 w) (ih1 w)
                            (λ ih, irange (iw0 w) (iw1 w)
                               (λ iw grad_input_data,
                                  store grad_input_data
                                    (c * IH * IW + (ih * IW + iw))
                                    (add scalar_t
                                       (load grad_input_data
                                          (c * IH * IW + (ih * IW + iw)))
                                       (div scalar_t
                                          (load (data_ptr grad_output_)
                                             (c * OH * OW + (oh * OW + ow)))
                                          (divide_factor w count_include_pad
                                             divisor_override)))))
                            grad_input_data))) st)
  end.
  2: { intros b' e' st Hb' Hlt He'. reflexivity. }
  pose proof (scatter_add_cells (add scalar_t) channels IH IW 1 OH OW
    (λ o ih iw d, o * IH * IW + (ih * IW + iw) + d)
    (λ oh ow, pooling_window oh ow kW kH dW dH padW padH IH IW)
    (λ o oh ow d,
       div scalar_t (load (data_ptr grad_output_) (o * OH * OW + (oh * OW + ow)))
         (divide_factor (pooling_window oh ow kW kH dW dH padW padH IH IW)
            count_include_pad divisor_override))
    (λ o oh ow ih iw gi,
       store gi (o * IH * IW + (ih * IW + iw))
         (add scalar_t (load gi (o * IH * IW + (ih * IW + iw)))
            (div scalar_t (load (data_ptr grad_output_) (o * OH * OW + (oh * OW + ow)))
               (divide_factor (pooling_window oh ow kW kH dW dH padW padH IH IW)
                  count_include_pad divisor_override))))
    (length (data_ptr grad_input))) as Hsc.
  destruct (Hsc (λ oh ow, pooling_window_clamped oh ow kW kH dW dH padW padH IH IW))
    with (buf := data_ptr grad_input) as [Hl Hcells]; [|done|].
  - (* one store per input position *)
    intros o oh ow ih iw cur Ho Hih Hiw Hlc.
    pose proof (plane_index_bounds channels IH IW o ih iw Ho Hih Hiw) as Hp.
    split; [apply store_length|].
    intros o' ih' iw' d' (Ho' & Hih' & Hiw' & Hd').
    assert (d' = 0) as -> by lia. rewrite Z.add_0_r.
    pose proof (plane_index_bounds channels IH IW o' ih' iw' Ho' Hih' Hiw') as Hp'.
    case_bool_decide as Hc.
    + destruct Hc as (-> & -> & ->). apply load_store_eq. lia.
    + apply load_store_ne; [lia|lia|].
      intros E. apply plane_index_inj with (O := channels) in E as (-> & -> & ->);
        try done. by apply Hc.
  - split.
    + replace (Z.to_nat (channels - 0)) with (Z.to_nat (channels - 0)) by done.
      exact Hl.
    + intros c ih iw Hc Hih Hiw.
      specialize (Hcells c ih iw 0 ltac:(repeat split; lia)).
      rewrite Z.add_0_r in Hcells. exact Hcells.
Qed.
End PoolBackward.


Section PoolBackwardChannelsLast.
Context {A : Type} `{!Inhabited A, !Runtime A, !Arith A}.
Import AveragePool.

Lemma load_Vec_store (v o : list A) (p q : Z) :
  0 ≤ p → p ≤ q < p + Z.of_nat (length v) → q < Z.of_nat (length o) →
  load (Vec_store v o p) q = v !!! Z.to_nat (q - p).
Proof.
  intros. unfold load, Vec_store.
  rewrite list_lookup_total_inserts by lia. f_equal. lia.
Qed.

Lemma load_Vec_store_ne (v o : list A) (p q : Z) :
  0 ≤ p → 0 ≤ q → q < p ∨ p + Z.of_nat (length v) ≤ q →
  load (Vec_store v o p) q = load o q.
Proof.
  intros ? ? [?|?]; unfold load, Vec_store.
  - apply list_lookup_total_inserts_lt. lia.
  - apply list_lookup_total_inserts_ge. lia.
Qed.

Lemma Vec_loadu_lookup (p : list A) (off : Z) (lanes : positive) (k : nat) :
  (k < Pos.to_nat lanes)%nat →
  Vec_loadu p off lanes !!! k = load p (off + Z.of_nat k).
Proof.
  intros. unfold Vec_loadu. apply list_lookup_total_correct.
  by rewrite list_lookup_fmap, lookup_seq_lt.
Qed.

Lemma zip_with_lookup_total (f : A → A → A) (l k : list A) (i : nat) :
  (i < length l)%nat → (i < length k)%nat →
  zip_with f l k !!! i = f (l !!! i) (k !!! i).
Proof.
  intros Hl Hk. apply list_lookup_total_correct.
  rewrite lookup_zip_with.
  rewrite (list_lookup_lookup_total_lt l i Hl), (list_lookup_lookup_total_lt k i Hk).
  done.
Qed.

(** A vectorized read-modify-write pass over the cells
    [base, base + size) updates each of them once. *)
Lemma vec_pass_update (lanes : positive) (size base : Z) (f : A → A → A)
    (x : Z → A) (X : Z → list A) (o : list A) :
  0 ≤ size → 0 ≤ base → base + size ≤ Z.of_nat (length o) →
  (∀ d, length (X d) = Pos.to_nat lanes) →
  (∀ d (k : nat), (k < Pos.to_nat lanes)%nat → X d !!! k = x (d + Z.of_nat k)) →
  let o' :=
    vec_pass lanes size
      (λ d o, Vec_store (zip_with f (Vec_loadu o (base + d) lanes) (X d)) o (base + d))
      (λ d o, store o (base + d) (f (load o (base + d)) (x d))) o in
  length o' = length o ∧
  (∀ d, 0 ≤ d < size → load o' (base + d) = f (load o (base + d)) (x d)) ∧
  (∀ q, 0 ≤ q → q < base ∨ base + size ≤ q → load o' q = load o q).
Proof.
  intros Hs Hb Hlen HXl HX. unfold vec_pass.
  destruct (vec_pass_bounds lanes size Hs) as [Hl Hcnt].
  set (len := size - size `rem` Z.pos lanes) in *.
  set (n := Z.to_nat (len `quot` Z.pos lanes)) in *.
  set (vb := λ d o, Vec_store (zip_with f (Vec_loadu o (base + d) lanes) (X d)) o (base + d)).
  set (sb := λ d o, store o (base + d) (f (load o (base + d)) (x d))).
  pose proof (strided_loop_ind
    (λ k o', length o' = length o ∧
             (∀ d, 0 ≤ d < Z.of_nat k * Z.pos lanes →
                   load o' (base + d) = f (load o (base + d)) (x d)) ∧
             (∀ q, 0 ≤ q → q < base ∨ base + Z.of_nat k * Z.pos lanes ≤ q →
                   load o' q = load o q))
    n 0 (Z.pos lanes) vb o) as H1.
  destruct H1 as (Hl1 & Hu1 & Hf1).
  { split_and!; [done|intros; lia|done]. }
  { intros k o' Hk (Hlo & Hu & Hf).
    assert (length (zip_with f (Vec_loadu o' (base + (0 + Z.of_nat k * Z.pos lanes)) lanes)
                      (X (0 + Z.of_nat k * Z.pos lanes))) = Pos.to_nat lanes) as Hzl.
    { rewrite length_zip_with, Vec_loadu_length, HXl. lia. }
    unfold vb. split_and!.
    - unfold Vec_store. by rewrite length_inserts.
    - intros d Hd.
      destruct (decide (d < Z.of_nat k * Z.pos lanes)) as [Hlt|Hge].
      + rewrite load_Vec_store_ne by lia. apply Hu. lia.
      + rewrite load_Vec_store by (rewrite ?Hzl; nia).
        rewrite zip_with_lookup_total by (rewrite ?Vec_loadu_length, ?HXl; lia).
        rewrite Vec_loadu_lookup, HX by lia.
        rewrite Hf by lia. do 2 f_equal; lia.
    - intros q Hq Hout. rewrite load_Vec_store_ne by (rewrite ?Hzl; lia).
      apply Hf; lia. }
  pose proof (irange_ind
    (λ j o', length o' = length o ∧
             (∀ d, 0 ≤ d < j → load o' (base + d) = f (load o (base + d)) (x d)) ∧
             (∀ q, 0 ≤ q → q < base ∨ base + j ≤ q → load o' q = load o q))
    len size sb (strided_loop n 0 (Z.pos lanes) vb o)) as H2.
  destruct H2 as (Hl2 & Hu2 & Hf2); [lia| | |].
  { split_and!; [done| |].
    - intros d Hd. apply Hu1. lia.
    - intros q Hq Hout. apply Hf1; lia. }
  { intros j o' Hj (Hlo & Hu & Hf). unfold sb. split_and!.
    - by rewrite store_length.
    - intros d Hd. destruct (decide (d = j)) as [->|Hne].
      + rewrite load_store_eq by lia. by rewrite Hf by lia.
      + rewrite load_store_ne by lia. apply Hu. lia.
    - intros q Hq Hout. rewrite load_store_ne by lia. apply Hf; lia. }
  split_and!; [done|done|]. intros q Hq Hout. apply Hf2; lia.
Qed.

Lemma cl_index_bounds (N IH IW C n ih iw d : Z) :
  0 ≤ n < N → 0 ≤ ih < IH → 0 ≤ iw < IW → 0 ≤ d < C →
  0 ≤ n * IH * IW * C + ih * IW * C + iw * C + d < N * IH * IW * C.
Proof.
  intros.
  pose proof (ravel_from_bounds 0 [n; ih; iw; d] [N; IH; IW; C] ltac:(lia)
                ltac:(repeat constructor; lia)) as Hb.
  unfold ravel_from, prod_sizes in Hb. simpl in Hb. lia.
Qed.

Lemma cl_index_inj (N IH IW C n ih iw d n' ih' iw' d' : Z) :
  0 ≤ n < N → 0 ≤ ih < IH → 0 ≤ iw < IW → 0 ≤ d < C →
  0 ≤ n' < N → 0 ≤ ih' < IH → 0 ≤ iw' < IW → 0 ≤ d' < C →
  n * IH * IW * C + ih * IW * C + iw * C + d =
  n' * IH * IW * C + ih' * IW * C + iw' * C + d' →
  n = n' ∧ ih = ih' ∧ iw = iw' ∧ d = d'.
Proof.
  intros ? ? ? ? ? ? ? ? E.
  assert (data_index_init (ravel [n; ih; iw; d] [N; IH; IW; C]) [N; IH; IW; C] =
          (0, [n; ih; iw; d])) as E1.
  { apply init_ravel_from; [lia|]. repeat constructor; lia. }
  assert (data_index_init (ravel [n'; ih'; iw'; d'] [N; IH; IW; C]) [N; IH; IW; C] =
          (0, [n'; ih'; iw'; d'])) as E2.
  { apply init_ravel_from; [lia|]. repeat constructor; lia. }
  assert (ravel [n; ih; iw; d] [N; IH; IW; C] =
          ravel [n'; ih'; iw'; d'] [N; IH; IW; C]) as Er.
  { unfold ravel, ravel_from. simpl. lia. }
  rewrite Er, E2 in E1. by injection E1 as -> -> -> ->.
Qed.

(** Channels last: the cells of position [(n, ih, iw)] are the [C]
    cells from [n * IH * IW * C + ih * IW * C + iw * C]. *)
Lemma cpu_avg_pool_backward_channels_last_spec (scalar_t : ScalarType)
    (grad_input_ grad_output_ : Tensor A) (kW kH dW dH padW padH : Z)
    (count_include_pad : bool) (divisor_override : option Z)
    (grad_input : Tensor A) (N C IH IW N' C' OH OW : Z) :
  contiguous grad_input_ ChannelsLast = Ok grad_input →
  suggest_memory_format grad_output_ = ChannelsLast →
  sizes grad_input = [N; C; IH; IW] →
  sizes grad_output_ = [N'; C'; OH; OW] →
  0 ≤ C →
  length (data_ptr grad_input) = Z.to_nat (N * IH * IW * C) →
  ∃ gi,
    cpu_avg_pool_backward_channels_last scalar_t grad_input_ grad_output_
      kW kH dW dH padW padH count_include_pad divisor_override =
      (if is_contiguous grad_input_ ChannelsLast
       then Ok (with_data grad_input gi)
       else copy_ grad_input_ (with_data grad_input gi)) ∧
    length gi = length (data_ptr grad_input) ∧
    ∀ n ih iw d, 0 ≤ n < N → 0 ≤ ih < IH → 0 ≤ iw < IW → 0 ≤ d < C →
      load gi (n * IH * IW * C + ih * IW * C + iw * C + d) =
      irange 0 OH
        (λ oh, irange 0 OW
           (λ ow acc,
              let w := pooling_window oh ow kW kH dW dH padW padH IH IW in
              if window_contains w ih iw
              then add scalar_t acc
                     (div scalar_t
                        (load (data_ptr grad_output_)
                           (n * OH * OW * C + oh * OW * C + ow * C + d))
                        (divide_factor w count_include_pad divisor_override))
              else acc))
        (load (data_ptr grad_input) (n * IH * IW * C + ih * IW * C + iw * C + d)).
Proof.
  intros Hfi Hfo Hsi Hso HC0 Hlen.
  destruct (size_4d grad_input _ _ _ _ Hsi) as (Hi0 & Hi1 & Hi2 & Hi3 & _).
  destruct (size_4d grad_output_ _ _ _ _ Hso) as (_ & _ & Ho2 & Ho3 & _).
  unfold cpu_avg_pool_backward_channels_last.
  rewrite (contiguous_id grad_output_), Hfi by done.
  cbn [mbind result_bind]. rewrite Hi0, Hi1, Hi2, Hi3, Ho2, Ho3.
  cbn [mbind result_bind].
  eexists. split; [destruct (is_contiguous grad_input_ ChannelsLast); reflexivity|].
  set (δ := λ n oh ow d,
         div scalar_t
           (load (data_ptr grad_output_) (n * OH * OW * C + oh * OW * C + ow * C + d))
           (divide_factor (pooling_window oh ow kW kH dW dH padW padH IH IW)
              count_include_pad divisor_override)).
  set (U := λ n oh ow ih iw (gi : list A),
         vec_pass (vec_size scalar_t) C
           (λ d gi,
              Vec_store
                (zip_with (add scalar_t)
                   (Vec_loadu gi (n * IH * IW * C + ih * IW * C + iw * C + d)
                      (vec_size scalar_t))
                   ((λ x, div scalar_t x
                            (divide_factor
                               (pooling_window oh ow kW kH dW dH padW padH IH IW)
                               count_include_pad divisor_override)) <$>
                      Vec_loadu (data_ptr grad_output_)
                        (n * OH * OW * C + oh * OW * C + ow * C + d)
                        (vec_size scalar_t)))
                gi (n * IH * IW * C + ih * IW * C + iw * C + d))
           (λ d gi,
              store gi (n * IH * IW * C + ih * IW * C + iw * C + d)
                (add scalar_t
                   (load gi (n * IH * IW * C + ih * IW * C + iw * C + d))
                   (div scalar_t
                      (load (data_ptr grad_output_)
                         (n * OH * OW * C + oh * OW * C + ow * C + d))
                      (divide_factor
                         (pooling_window oh ow kW kH dW dH padW padH IH IW)
                         count_include_pad divisor_override))))
           gi).
  match goal with
  | |- context [parallel_for 0 N ?f ?st] =>
      rewrite (parallel_for_for_loop 0 N f
                 (λ n, irange 0 OH
                    (λ oh, irange 0 OW
                       (λ ow gi,
                          let w := pooling_window oh ow kW kH dW dH padW padH IH IW in
                          irange (ih0 w) (ih1 w)
                            (λ ih, irange (iw0 w) (iw1 w)
                               (λ iw gi, U n oh ow ih iw gi))
                            gi))) st)
  end.
  2: { intros b' e' st Hb' Hlt He'. reflexivity. }
  pose proof (scatter_add_cells (add scalar_t) N IH IW C OH OW
    (λ n ih iw d, n * IH * IW * C + ih * IW * C + iw * C + d)
    (λ oh ow, pooling_window oh ow kW kH dW dH padW padH IH IW)
    δ U (length (data_ptr grad_input))) as Hsc.
  destruct (Hsc (λ oh ow, pooling_window_clamped oh ow kW kH dW dH padW padH IH IW))
    with (buf := data_ptr grad_input) as [Hl Hcells]; [|done|].
  - (* one vectorized update per input position *)
    intros n oh ow ih iw cur Hn Hih Hiw Hlc.
    destruct (decide (0 < C)) as [HC|HC].
    2: { split.
         - unfold U. apply confined_vec_pass with (lo := 0) (hi := 0).
           + lia.
           + intros. lia.
           + intros. lia. 
         - intros n' ih' iw' d' (_ & _ & _ & ?). lia. }
    pose proof (cl_index_bounds N IH IW C n ih iw 0 Hn Hih Hiw ltac:(lia)) as Hb0.
    pose proof (cl_index_bounds N IH IW C n ih iw (C - 1) Hn Hih Hiw ltac:(lia)) as Hb1.
    destruct (vec_pass_update (vec_size scalar_t) C
                (n * IH * IW * C + ih * IW * C + iw * C) (add scalar_t)
                (λ d, δ n oh ow d)
                (λ d, (λ x, div scalar_t x
                              (divide_factor
                                 (pooling_window oh ow kW kH dW dH padW padH IH IW)
                                 count_include_pad divisor_override)) <$>
                        Vec_loadu (data_ptr grad_output_)
                          (n * OH * OW * C + oh * OW * C + ow * C + d)
                          (vec_size scalar_t))
                cur) as (Hl' & Hu & Hf); [lia|lia|lia| | |].
    { intros. by rewrite length_fmap, Vec_loadu_length. }
    { intros d k Hk. unfold δ.
      apply list_lookup_total_correct. rewrite list_lookup_fmap.
      unfold Vec_loadu. rewrite list_lookup_fmap, lookup_seq_lt by lia.
      simpl. do 3 f_equal. lia. }
    split.
    + exact Hl'.
    + intros n' ih' iw' d' (Hn' & Hih' & Hiw' & Hd').
      pose proof (cl_index_bounds N IH IW C n' ih' iw' d' Hn' Hih' Hiw' Hd') as Hb'.
      case_bool_decide as Hc.
      * destruct Hc as (-> & -> & ->).
        specialize (Hu d' Hd').
        rewrite <- Hu. unfold U. reflexivity.
      * rewrite <- (Hf (n' * IH * IW * C + ih' * IW * C + iw' * C + d')); [done|lia|].
        destruct (decide (n' * IH * IW * C + ih' * IW * C + iw' * C + d' <
                          n * IH * IW * C + ih * IW * C + iw * C)); [by left|].
        destruct (decide (n * IH * IW * C + ih * IW * C + iw * C + C ≤
                          n' * IH * IW * C + ih' * IW * C + iw' * C + d')); [by right|].
        exfalso. apply Hc.
        assert (n' * IH * IW * C + ih' * IW * C + iw' * C + d' =
                n * IH * IW * C + ih * IW * C + iw * C +
                (n' * IH * IW * C + ih' * IW * C + iw' * C + d' -
                 (n * IH * IW * C + ih * IW * C + iw * C))) as E by lia.
        apply cl_index_inj with (N := N) in E as (-> & -> & -> & _); try done; lia.
  - split; [exact Hl|].
    intros n ih iw d Hn Hih Hiw Hd.
    exact (Hcells n ih iw d ltac:(repeat split; lia)).
Qed.
End PoolBackwardChannelsLast.


(** ** Layouts: repacking keeps the elements *)

Section Layouts.
Context {A : Type} `{!Inhabited A}.

Lemma offset_of_packed (t : Tensor A) (N C H W n c h w : Z) :
  sizes t = [N; C; H; W] → suggest_memory_format t = Contiguous →
  offset_of t [n; c; h; w] = (n * C + c) * H * W + (h * W + w).
Proof.
  intros Hs Hf. unfold offset_of. rewrite Hs, Hf.
  unfold ravel, ravel_from. simpl. lia.
Qed.

Lemma offset_of_channels_last (t : Tensor A) (N C H W n c h w : Z) :
  sizes t = [N; C; H; W] → suggest_memory_format t = ChannelsLast →
  offset_of t [n; c; h; w] = n * H * W * C + h * W * C + w * C + c.
Proof.
  intros Hs Hf. unfold offset_of. rewrite Hs, Hf.
  unfold ravel, ravel_from. simpl. lia.
Qed.

Lemma offset_of_packed3 (t : Tensor A) (C H W c h w : Z) :
  sizes t = [C; H; W] → suggest_memory_format t = Contiguous →
  offset_of t [c; h; w] = c * H * W + (h * W + w).
Proof.
  intros Hs Hf. unfold offset_of. rewrite Hs, Hf.
  unfold ravel, ravel_from. simpl. lia.
Qed.

Lemma offset_of_bounds (t : Tensor A) (N C H W n c h w : Z) :
  sizes t = [N; C; H; W] → packed_or_channels_last (suggest_memory_format t) →
  0 ≤ n < N → 0 ≤ c < C → 0 ≤ h < H → 0 ≤ w < W →
  0 ≤ offset_of t [n; c; h; w] < numel t.
Proof.
  intros Hs Hf Hn Hc Hh Hw. unfold offset_of, numel. rewrite Hs.
  destruct Hf as [-> | ->]; simpl.
  - pose proof (ravel_from_bounds 0 [n; c; h; w] [N; C; H; W] ltac:(lia)
                  ltac:(repeat constructor; lia)) as Hb.
    unfold ravel, prod_sizes in *. simpl in *. lia.
  - pose proof (ravel_from_bounds 0 [n; h; w; c] [N; H; W; C] ltac:(lia)
                  ltac:(repeat constructor; lia)) as Hb.
    unfold ravel, prod_sizes in *. simpl in *. lia.
Qed.

Lemma coords_of_offset (fmt : MemoryFormat) (t : Tensor A) (N C H W n c h w : Z) :
  sizes t = [N; C; H; W] → suggest_memory_format t = fmt →
  packed_or_channels_last fmt →
  0 ≤ n < N → 0 ≤ c < C → 0 ≤ h < H → 0 ≤ w < W →
  coords_of fmt [N; C; H; W] (offset_of t [n; c; h; w]) = [n; c; h; w].
Proof.
  intros Hs Hf Hpc Hn Hc Hh Hw. unfold coords_of, offset_of. rewrite Hs, Hf.
  destruct Hpc as [-> | ->]; simpl to_physical.
  - unfold ravel. rewrite init_ravel_from; [done|lia|repeat constructor; lia].
  - unfold ravel. rewrite init_ravel_from; [done|lia|repeat constructor; lia].
Qed.

(** [t.contiguous(fmt)] has the shape, the element type and the elements
    of [t], in the layout [fmt]. *)
Lemma contiguous_elements (t : Tensor A) (fmt : MemoryFormat) (N C H W : Z) :
  sizes t = [N; C; H; W] →
  packed_or_channels_last (suggest_memory_format t) →
  packed_or_channels_last fmt →
  length (data_ptr t) = Z.to_nat (numel t) →
  ∃ t', contiguous t fmt = Ok t' ∧
        sizes t' = sizes t ∧ suggest_memory_format t' = fmt ∧
        scalar_type t' = scalar_type t ∧
        length (data_ptr t') = Z.to_nat (numel t) ∧
        ∀ n c h w, 0 ≤ n < N → 0 ≤ c < C → 0 ≤ h < H → 0 ≤ w < W →
          element t' [n; c; h; w] = element t [n; c; h; w].
Proof.
  intros Hs Hft Hf Hlen. unfold contiguous, is_contiguous.
  case_bool_decide as Hsame.
  { exists t. by split_and!. }
  unfold TORCH_CHECK.
  rewrite (bool_decide_eq_true_2 (fmt ≠ ChannelsLast ∨ _)) by (right; by rewrite Hs).
  rewrite (bool_decide_eq_true_2 (fmt ≠ ChannelsLast3d ∨ _)).
  2: { left. by destruct Hf as [-> | ->]. }
  cbn [mbind result_bind].
  eexists. split; [reflexivity|]. cbn [sizes suggest_memory_format scalar_type data_ptr].
  split_and!; try done.
  { by rewrite length_fmap, length_seq. }
  intros n c h w Hn Hc Hh Hw.
  set (t' := mkTensor (sizes t) fmt (scalar_type t) _).
  pose proof (offset_of_bounds t' N C H W n c h w Hs Hf Hn Hc Hh Hw) as Hb.
  unfold element at 1. unfold load. cbn [data_ptr t'].
  erewrite list_lookup_total_correct.
  2: { rewrite list_lookup_fmap, lookup_seq_lt; [reflexivity|].
       unfold numel in Hb. cbn [sizes t'] in Hb. unfold numel. lia. }
  cbn [Nat.add]. rewrite Z2Nat.id by lia. rewrite Hs.
  by rewrite (coords_of_offset fmt t' N C H W).
Qed.

Lemma element_with_data (t : Tensor A) (d : list A) (xs : list Z) :
  element (with_data t d) xs = load d (offset_of t xs).
Proof. done. Qed.

(** [dst.copy_(src)] gives [dst] the elements of [src]. *)
Lemma copy_elements (dst src : Tensor A) (N C H W : Z) :
  sizes dst = [N; C; H; W] → sizes src = [N; C; H; W] →
  packed_or_channels_last (suggest_memory_format dst) →
  packed_or_channels_last (suggest_memory_format src) →
  length (data_ptr src) = Z.to_nat (numel src) →
  ∃ t', copy_ dst src = Ok t' ∧
        sizes t' = sizes dst ∧
        suggest_memory_format t' = suggest_memory_format dst ∧
        scalar_type t' = scalar_type dst ∧
        length (data_ptr t') = Z.to_nat (numel dst) ∧
        ∀ n c h w, 0 ≤ n < N → 0 ≤ c < C → 0 ≤ h < H → 0 ≤ w < W →
          element t' [n; c; h; w] = element src [n; c; h; w].
Proof.
  intros Hd Hs Hfd Hfs Hlen. unfold copy_.
  destruct (contiguous_elements src (suggest_memory_format dst) N C H W)
    as (s' & -> & Hs1 & Hs2 & Hs3 & Hs4 & Hs5); try done.
  cbn [mbind result_bind]. eexists. split; [reflexivity|].
  split_and!; try done.
  { cbn [with_data data_ptr]. rewrite Hs4. unfold numel. by rewrite Hd, Hs. }
  intros n c h w Hn Hc Hh Hw.
  rewrite <- Hs5 by done. rewrite element_with_data.
  unfold element. f_equal. unfold offset_of. by rewrite Hs1, Hs2, Hd, Hs.
Qed.
End Layouts.


(** ** The backward pass of the pooling, in logical coordinates *)

Section BackwardElements.
Import AveragePool.
Context {A : Type} `{!Inhabited A, !Runtime A, !Arith A}.

Lemma dispatch_pooling {T} (ty : ScalarType) (name : string)
    (body : ScalarType → result T) :
  pooling_type ty → AT_DISPATCH_FLOATING_TYPES_AND2 Long BFloat16 ty name body = body ty.
Proof. by intros [-> | [-> | [-> | ->]]]. Qed.

Lemma dispatch_not_pooling {T} (ty : ScalarType) (name : string)
    (body : ScalarType → result T) :
  ¬ pooling_type ty →
  AT_DISPATCH_FLOATING_TYPES_AND2 Long BFloat16 ty name body =
    Err (c10_NotImplemented name ty).
Proof. unfold pooling_type. destruct ty; naive_solver. Qed.

Lemma numel_4d (t : Tensor A) (N C H W : Z) :
  sizes t = [N; C; H; W] → numel t = N * C * H * W.
Proof. intros Hs. unfold numel, prod_sizes. rewrite Hs. simpl. lia. Qed.

(** The kernels compute in a copy of [grad_input] dense in their own
    layout and copy the result back when [grad_input] is not: either
    way the result has the layout of [grad_input] and the cells the
    kernel left in the copy. *)
Lemma repacked_result (grad_input gi0 : Tensor A) (fmt : MemoryFormat)
    (gi : list A) (N C H W : Z) :
  sizes grad_input = [N; C; H; W] →
  packed_or_channels_last (suggest_memory_format grad_input) →
  packed_or_channels_last fmt →
  contiguous grad_input fmt = Ok gi0 →
  sizes gi0 = sizes grad_input → suggest_memory_format gi0 = fmt →
  scalar_type gi0 = scalar_type grad_input →
  length gi = Z.to_nat (numel grad_input) →
  ∃ t', (if is_contiguous grad_input fmt then Ok (with_data gi0 gi)
         else copy_ grad_input (with_data gi0 gi)) = Ok t' ∧
        sizes t' = sizes grad_input ∧
        suggest_memory_format t' = suggest_memory_format grad_input ∧
        scalar_type t' = scalar_type grad_input ∧
        length (data_ptr t') = Z.to_nat (numel grad_input) ∧
        ∀ n c h w, 0 ≤ n < N → 0 ≤ c < C → 0 ≤ h < H → 0 ≤ w < W →
          element t' [n; c; h; w] = load gi (offset_of gi0 [n; c; h; w]).
Proof.
  intros Hs Hfi Hf Hc Hs0 Hf0 Hd0 Hlen.
  unfold is_contiguous. case_bool_decide as Hsame.
  - eexists. split; [reflexivity|]. cbn [with_data sizes suggest_memory_format scalar_type data_ptr].
    split_and!; try done. by rewrite Hf0.
  - assert (sizes (with_data gi0 gi) = [N; C; H; W]) as Hws
      by (cbn [with_data sizes]; congruence).
    assert (packed_or_channels_last (suggest_memory_format (with_data gi0 gi))) as Hwf
      by (cbn [with_data suggest_memory_format]; by rewrite Hf0).
    assert (length (data_ptr (with_data gi0 gi)) = Z.to_nat (numel (with_data gi0 gi)))
      as Hwl.
    { unfold numel, with_data. cbn [sizes data_ptr]. by rewrite Hs0. }
    destruct (copy_elements grad_input (with_data gi0 gi) N C H W Hs Hws Hfi Hwf Hwl)
      as (t' & -> & Ht1 & Ht2 & Ht3 & Ht4 & Ht5).
    exists t'. split_and!; try done.
Qed.

(** The backward kernels, in both layouts and whatever the layout of
    [grad_input]: each element of [grad_input] ends with what it held
    plus the shares of the windows that contain its position. *)
Lemma avg_pool2d_backward_kernel_impl_4d (grad_input grad_output : Tensor A)
    (kW kH dW dH padW padH : Z) (count_include_pad : bool)
    (divisor_override : option Z) (N C IH IW OH OW : Z) :
  sizes grad_input = [N; C; IH; IW] → sizes grad_output = [N; C; OH; OW] →
  packed_or_channels_last (suggest_memory_format grad_input) →
  packed_or_channels_last (suggest_memory_format grad_output) →
  length (data_ptr grad_input) = Z.to_nat (numel grad_input) →
  pooling_type (scalar_type grad_output) → 0 ≤ C →
  ∃ gi,
    avg_pool2d_backward_kernel_impl grad_input grad_output
      kW kH dW dH padW padH count_include_pad divisor_override = Ok gi ∧
    sizes gi = sizes grad_input ∧
    suggest_memory_format gi = suggest_memory_format grad_input ∧
    scalar_type gi = scalar_type grad_input ∧
    length (data_ptr gi) = Z.to_nat (numel grad_input) ∧
    ∀ n c ih iw, 0 ≤ n < N → 0 ≤ c < C → 0 ≤ ih < IH → 0 ≤ iw < IW →
      element gi [n; c; ih; iw] =
      irange 0 OH
        (λ oh, irange 0 OW
           (λ ow acc,
              let w := pooling_window oh ow kW kH dW dH padW padH IH IW in
              if window_contains w ih iw
              then add (scalar_type grad_output) acc
                     (div (scalar_type grad_output)
                        (element grad_output [n; c; oh; ow])
                        (divide_factor w count_include_pad divisor_override))
              else acc))
        (element grad_input [n; c; ih; iw]).
Proof.
  intros Hsi Hso Hfi Hfo Hlen Hty HC.
  pose proof (numel_4d grad_input _ _ _ _ Hsi) as Hnum.
  destruct (size_4d grad_output _ _ _ _ Hso) as (Ho0 & Ho1 & _ & _ & _ & Ho2 & Ho3 & _).
  unfold avg_pool2d_backward_kernel_impl.
  destruct Hfo as [Hfo | Hfo]; rewrite Hfo; rewrite dispatch_pooling by done.
  - destruct (contiguous_elements grad_input Contiguous N C IH IW)
      as (gi0 & Hc & Hs0 & Hf0 & Hd0 & Hl0 & He0); try done; [by left|].
    destruct (size_4d gi0 N C IH IW) as (_ & _ & _ & _ & _ & Hi2 & Hi3 & _);
      [by rewrite Hs0|].
    destruct (cpu_avg_pool_backward_spec (scalar_type grad_output)
                grad_input grad_output kW kH dW dH padW padH
                count_include_pad divisor_override gi0 (N * C) IH IW OH OW)
      as (gi & -> & Hgl & Hcells); try done.
    { unfold flattened_channels, dim. rewrite Hso. simpl.
      by rewrite Ho0, Ho1. }
    { rewrite Hl0. f_equal. lia. }
    destruct (repacked_result grad_input gi0 Contiguous gi N C IH IW)
      as (t' & -> & Ht1 & Ht2 & Ht3 & Ht4 & Ht5); try done; [by left|congruence|].
    exists t'. split_and!; try done.
    intros n c ih iw Hn Hc' Hih Hiw.
    rewrite Ht5 by done.
    rewrite (offset_of_packed gi0 N C IH IW) by (done || by rewrite Hs0).
    rewrite Hcells by nia.
    rewrite <- He0 by done. unfold element.
    rewrite (offset_of_packed gi0 N C IH IW) by (done || by rewrite Hs0).
    apply irange_ext. intros oh acc Hoh. apply irange_ext. intros ow acc' How.
    cbv zeta.
    by rewrite (offset_of_packed grad_output N C OH OW).
  - destruct (contiguous_elements grad_input ChannelsLast N C IH IW)
      as (gi0 & Hc & Hs0 & Hf0 & Hd0 & Hl0 & He0); try done; [by right|].
    destruct (cpu_avg_pool_backward_channels_last_spec (scalar_type grad_output)
                grad_input grad_output kW kH dW dH padW padH
                count_include_pad divisor_override gi0 N C IH IW N C OH OW)
      as (gi & -> & Hgl & Hcells); try done.
    { by rewrite Hs0. }
    { rewrite Hl0. f_equal. lia. }
    destruct (repacked_result grad_input gi0 ChannelsLast gi N C IH IW)
      as (t' & -> & Ht1 & Ht2 & Ht3 & Ht4 & Ht5); try done; [by right|congruence|].
    exists t'. split_and!; try done.
    intros n c ih iw Hn Hc' Hih Hiw.
    rewrite Ht5 by done.
    rewrite (offset_of_channels_last gi0 N C IH IW) by (done || by rewrite Hs0).
    rewrite Hcells by done.
    rewrite <- He0 by done. unfold element.
    rewrite (offset_of_channels_last gi0 N C IH IW) by (done || by rewrite Hs0).
    apply irange_ext. intros oh acc Hoh. apply irange_ext. intros ow acc' How.
    cbv zeta.
    by rewrite (offset_of_channels_last grad_output N C OH OW).
Qed.
End BackwardElements.


Section BackwardEntry.
Import AveragePool.
Context {A : Type} `{!Inhabited A, !Runtime A, !Arith A}.

Lemma avg_pool2d_backward_kernel_impl_3d (grad_input grad_output : Tensor A)
    (kW kH dW dH padW padH : Z) (count_include_pad : bool)
    (divisor_override : option Z) (C IH IW OH OW : Z) :
  sizes grad_input = [C; IH; IW] → sizes grad_output = [C; OH; OW] →
  suggest_memory_format grad_input = Contiguous →
  suggest_memory_format grad_output = Contiguous →
  length (data_ptr grad_input) = Z.to_nat (numel grad_input) →
  pooling_type (scalar_type grad_output) →
  ∃ gi,
    avg_pool2d_backward_kernel_impl grad_input grad_output
      kW kH dW dH padW padH count_include_pad divisor_override = Ok gi ∧
    sizes gi = sizes grad_input ∧
    suggest_memory_format gi = suggest_memory_format grad_input ∧
    scalar_type gi = scalar_type grad_input ∧
    length (data_ptr gi) = Z.to_nat (numel grad_input) ∧
    ∀ c ih iw, 0 ≤ c < C → 0 ≤ ih < IH → 0 ≤ iw < IW →
      element gi [c; ih; iw] =
      irange 0 OH
        (λ oh, irange 0 OW
           (λ ow acc,
              let w := pooling_window oh ow kW kH dW dH padW padH IH IW in
              if window_contains w ih iw
              then add (scalar_type grad_output) acc
                     (div (scalar_type grad_output)
                        (element grad_output [c; oh; ow])
                        (divide_factor w count_include_pad divisor_override))
              else acc))
        (element grad_input [c; ih; iw]).
Proof.
  intros Hsi Hso Hfi Hfo Hlen Hty.
  destruct (size_last3 grad_input [] C IH IW Hsi) as (_ & Hi2 & Hi3).
  destruct (size_last3 grad_output [] C OH OW Hso) as (_ & Ho2 & Ho3).
  unfold avg_pool2d_backward_kernel_impl.
  rewrite Hfo, dispatch_pooling by done.
  destruct (cpu_avg_pool_backward_spec (scalar_type grad_output)
              grad_input grad_output kW kH dW dH padW padH
              count_include_pad divisor_override grad_input C IH IW OH OW)
    as (gi & -> & Hgl & Hcells); try done.
  { by apply contiguous_id. }
  { unfold flattened_channels, dim, size, dim. by rewrite Hso. }
  { rewrite Hlen. unfold numel, prod_sizes. rewrite Hsi. simpl. f_equal. lia. }
  rewrite is_contiguous_true by done.
  eexists. split; [reflexivity|].
  cbn [with_data sizes suggest_memory_format scalar_type data_ptr].
  split_and!; try done; [congruence|].
  intros c ih iw Hc Hih Hiw.
  rewrite element_with_data. unfold element.
  rewrite (offset_of_packed3 grad_input C IH IW) by done.
  rewrite Hcells by done.
  apply irange_ext. intros oh acc Hoh. apply irange_ext. intros ow acc' How.
  cbv zeta.
  by rewrite (offset_of_packed3 grad_output C OH OW).
Qed.

Lemma safe_downcast_int_ok (v : Z) : int_range v → safe_downcast_int v = Ok v.
Proof.
  intros Hv. unfold safe_downcast_int, TORCH_CHECK.
  by rewrite bool_decide_eq_true_2.
Qed.

Lemma pooling_output_shape_ok (inputSize kernelSize pad stride : Z) (ceil_mode : bool) :
  stride ≠ 0 →
  pooling_output_shape inputSize kernelSize pad stride 1 ceil_mode =
    Ok (pooling_output_shape_pad_lr inputSize kernelSize pad pad stride 1 ceil_mode).
Proof.
  intros Hs. unfold pooling_output_shape, TORCH_CHECK.
  by rewrite bool_decide_eq_true_2.
Qed.

(** The shape validation passes on a 3-D or 4-D input with no empty
    non-batch dimension, a positive kernel and stride, a padding of at
    most half the kernel and an output of at least one cell. *)
Lemma pool2d_shape_check_ok (input : Tensor A) (lead : list Z)
    (kH kW dH dW padH padW C IH IW OH OW : Z) :
  sizes input = lead ++ [C; IH; IW] → (length lead ≤ 1)%nat →
  (suggest_memory_format input = ChannelsLast → length lead = 1%nat) →
  0 < kH → 0 < kW → 0 < dH → 0 < dW →
  padH ≤ kH `quot` 2 → padW ≤ kW `quot` 2 →
  C ≠ 0 → IH ≠ 0 → IW ≠ 0 → 1 ≤ OH → 1 ≤ OW →
  pool2d_shape_check input kH kW dH dW padH padW 1 1 C IH IW OH OW
    (suggest_memory_format input) = Ok ().
Proof.
  intros Hs Hl Hcl HkH HkW HdH HdW HpH HpW HC HIH HIW HOH HOW.
  unfold pool2d_shape_check, TORCH_CHECK, dim. rewrite Hs.
  rewrite (bool_decide_eq_true_2 (0 < kW ∧ 0 < kH)) by lia.
  rewrite (bool_decide_eq_true_2 (0 < dW ∧ 0 < dH)) by lia.
  rewrite (bool_decide_eq_true_2 (0 < 1 ∧ 0 < 1)) by lia.
  rewrite (bool_decide_eq_true_2 (padW ≤ kW `quot` 2 ∧ padH ≤ kH `quot` 2)) by lia.
  rewrite (bool_decide_eq_true_2 (1 ≤ OW ∧ 1 ≤ OH)) by lia.
  cbn [mbind result_bind].
  assert (∀ x : Z, x ≠ 0 → bool_decide (Some x ≠ Some 0 ∧ is_Some (Some x)) = true)
    as Hnz.
  { intros x Hx. apply bool_decide_eq_true_2. split; [congruence|by eexists]. }
  destruct lead as [|N [|]]; simpl in Hl; [| |lia].
  - cbn [app length lookup list_lookup].
    rewrite (bool_decide_eq_false_2 (suggest_memory_format input = ChannelsLast)).
    2: { intros Hf. specialize (Hcl Hf). done. }
    by rewrite !Hnz by done.
  - cbn [app length lookup list_lookup].
    rewrite !Hnz by done.
    rewrite (bool_decide_eq_false_2 (Z.of_nat 4 = 3)) by done.
    rewrite (bool_decide_eq_true_2 (Z.of_nat 4 = 4)) by done.
    by destruct (bool_decide _).
Qed.

Lemma check_dim_size_ok (t : Tensor A) (ndim dim_size sz : Z) :
  dim t = ndim → sizes t !! Z.to_nat dim_size = Some sz →
  check_dim_size t ndim dim_size sz = Ok ().
Proof.
  intros Hd Hs. unfold check_dim_size, TORCH_CHECK.
  by rewrite bool_decide_eq_true_2.
Qed.

Lemma avg_pool2d_backward_shape_check_ok (input gradOutput : Tensor A)
    (lead : list Z) (nbatch kH kW dH dW padH padW C IH IW OH OW : Z) :
  sizes input = lead ++ [C; IH; IW] → (length lead ≤ 1)%nat →
  (suggest_memory_format input = ChannelsLast → length lead = 1%nat) →
  sizes gradOutput = lead ++ [C; OH; OW] →
  0 < kH → 0 < kW → 0 < dH → 0 < dW →
  padH ≤ kH `quot` 2 → padW ≤ kW `quot` 2 →
  C ≠ 0 → IH ≠ 0 → IW ≠ 0 → 1 ≤ OH → 1 ≤ OW →
  avg_pool2d_backward_shape_check input gradOutput nbatch kH kW dH dW padH padW
    C IH IW OH OW (suggest_memory_format input) = Ok ().
Proof.
  intros Hs Hl Hcl Hg HkH HkW HdH HdW HpH HpW HC HIH HIW HOH HOW.
  unfold avg_pool2d_backward_shape_check.
  rewrite (pool2d_shape_check_ok input lead) by done.
  cbn [mbind result_bind].
  assert (dim gradOutput = dim input) as Hd.
  { unfold dim. by rewrite Hs, Hg, !length_app. }
  assert (dim input = Z.of_nat (length lead) + 3) as Hdi.
  { unfold dim. rewrite Hs, length_app. simpl. lia. }
  assert (∀ k : nat, (k < 3)%nat →
            sizes gradOutput !! Z.to_nat (dim input - 3 + Z.of_nat k) =
            [C; OH; OW] !! k) as Hlk.
  { intros k Hk. rewrite Hg, Hdi, lookup_app_r by lia. f_equal. lia. }
  pose proof (Hlk 0%nat ltac:(lia)) as H0.
  pose proof (Hlk 1%nat ltac:(lia)) as H1.
  pose proof (Hlk 2%nat ltac:(lia)) as H2.
  replace (dim input - 3 + Z.of_nat 0) with (dim input - 3) in H0 by lia.
  replace (dim input - 3 + Z.of_nat 1) with (dim input - 2) in H1 by lia.
  replace (dim input - 3 + Z.of_nat 2) with (dim input - 1) in H2 by lia.
  by rewrite !check_dim_size_ok.
Qed.

Lemma load_replicate (n : nat) (z : A) (i : Z) :
  0 ≤ i < Z.of_nat n → load (replicate n z) i = z.
Proof.
  intros Hi. unfold load. apply list_lookup_total_correct.
  apply lookup_replicate_2. lia.
Qed.

End BackwardEntry.


Section BackwardChecked.
Import AveragePool.
Context {A : Type} `{!Inhabited A, !Runtime A, !Arith A}.

Lemma well_formed_low_rank (t : Tensor A) (lead : list Z) (C H W : Z) :
  well_formed t → sizes t = lead ++ [C; H; W] → (length lead ≤ 1)%nat →
  packed_or_channels_last (suggest_memory_format t) ∧
  (suggest_memory_format t = ChannelsLast → length lead = 1%nat) ∧
  (length lead = 0%nat → suggest_memory_format t = Contiguous).
Proof.
  intros (_ & _ & Hf) Hs Hl. rewrite Hs, length_app in Hf. simpl in Hf.
  unfold packed_or_channels_last.
  destruct (suggest_memory_format t); try done.
  - split_and!; [by left|done|done].
  - split_and!; [by right|lia|lia].
  - lia.
Qed.

Lemma element_zero_ (t : Tensor A) (z : A) (xs : list Z) :
  0 ≤ offset_of t xs < Z.of_nat (length (data_ptr t)) →
  element (zero_ z t) xs = z.
Proof.
  intros Hb. unfold zero_. rewrite element_with_data. by apply load_replicate.
Qed.

(** On arguments that pass every check, the backward entry point is the
    kernel run on a zeroed tensor of the shape and layout of the input. *)
Lemma avg_pool2d_backward_out_cpu_checked (gradOutput input : Tensor A)
    (kH kW dH dW padH padW : Z) (ceil_mode count_include_pad : bool)
    (divisor_override : option Z) (lead : list Z) (C IH IW : Z) :
  let OH := pooling_output_shape_pad_lr IH kH padH padH dH 1 ceil_mode in
  let OW := pooling_output_shape_pad_lr IW kW padW padW dW 1 ceil_mode in
  well_formed input → well_formed gradOutput →
  (length lead ≤ 1)%nat →
  sizes input = lead ++ [C; IH; IW] → sizes gradOutput = lead ++ [C; OH; OW] →
  scalar_type gradOutput = scalar_type input →
  Forall int_range [kH; kW; dH; dW; padH; padW] →
  0 < kH → 0 < kW → 0 < dH → 0 < dW →
  padH ≤ kH `quot` 2 → padW ≤ kW `quot` 2 →
  0 < C → 0 < IH → 0 < IW → 1 ≤ OH → 1 ≤ OW →
  divisor_nonzero divisor_override = true →
  avg_pool2d_backward_out_cpu gradOutput input [kH; kW] [dH; dW] [padH; padW]
    ceil_mode count_include_pad divisor_override =
  avg_pool2d_backward_kernel_impl
    (zero_ (zero (scalar_type input))
       (mkTensor (sizes input) (suggest_memory_format input) (scalar_type input)
          (uninitialized <$> seq 0 (Z.to_nat (prod_sizes (sizes input))))))
    gradOutput kW kH dW dH padW padH count_include_pad divisor_override.
Proof.
  intros OH OW Hwi Hwg Hl Hsi Hsg Hty Hints HkH HkW HdH HdW HpH HpW HC HIH HIW HOH HOW Hdiv.
  destruct (well_formed_low_rank input lead C IH IW Hwi Hsi Hl) as (Hfi & Hcl & Hpk).
  apply Forall_cons in Hints as [HikH Hints]. apply Forall_cons in Hints as [HikW Hints].
  apply Forall_cons in Hints as [HidH Hints]. apply Forall_cons in Hints as [HidW Hints].
  apply Forall_cons in Hints as [HipH Hints]. apply Forall_cons in Hints as [HipW _].
  destruct (size_last3 input lead C IH IW Hsi) as (Hs3 & Hs2 & Hs1).
  unfold avg_pool2d_backward_out_cpu, at_, TORCH_CHECK.
  cbn [length lookup list_lookup mbind result_bind].
  rewrite !safe_downcast_int_ok by done.
  change (bool_decide (2%nat = 1%nat ∨ 2%nat = 2%nat)) with true.
  change (bool_decide (2%nat = 1%nat)) with false.
  change (bool_decide ([dH; dW] = [] ∨ 2%nat = 1%nat ∨ 2%nat = 2%nat)) with true.
  change (bool_decide ([dH; dW] = [])) with false.
  cbn [mbind result_bind]. rewrite Hdiv. cbn [mbind result_bind].
  rewrite Hs3, Hs2, Hs1.
  assert (∃ nbatch, (if bool_decide (dim input = 4) then size input (-4) else Ok 1)
                    = Ok nbatch) as [nbatch ->].
  { case_bool_decide as Hd; [|by eexists].
    unfold size. cbv zeta. rewrite (bool_decide_eq_true_2 (-4 < 0)) by lia.
    rewrite bool_decide_eq_true_2 by lia. by eexists. }
  cbn [mbind result_bind].
  rewrite !pooling_output_shape_ok by lia.
  cbn [mbind result_bind]. fold OH OW.
  rewrite (avg_pool2d_backward_shape_check_ok input gradOutput lead) by (done || lia).
  cbn [mbind result_bind].
  rewrite empty_ok.
  2: { intros Hf. rewrite Hsi, length_app, (Hcl Hf). done. }
  2: { intros Hf. destruct Hfi as [Hfi | Hfi]; congruence. }
  cbn [fmap result_fmap mbind result_bind].
  rewrite bool_decide_eq_true_2 by done.
  reflexivity.
Qed.

Lemma zeroed_empty_facts (sz : list Z) (fmt : MemoryFormat) (ty : ScalarType) (z : A) :
  let t := zero_ z (mkTensor sz fmt ty (uninitialized <$> seq 0 (Z.to_nat (prod_sizes sz)))) in
  sizes t = sz ∧ suggest_memory_format t = fmt ∧ scalar_type t = ty ∧
  length (data_ptr t) = Z.to_nat (numel t) ∧
  ∀ xs, 0 ≤ offset_of t xs < numel t → element t xs = z.
Proof.
  intros t. split_and!; try done.
  { unfold t, zero_, with_data, numel. cbn [sizes data_ptr].
    by rewrite length_replicate, length_fmap, length_seq. }
  intros xs Hb. unfold element.
  change (data_ptr t) with (replicate (length (uninitialized <$> seq 0 (Z.to_nat (prod_sizes sz)))) z).
  apply load_replicate. rewrite length_fmap, length_seq.
  change (numel t) with (prod_sizes sz) in Hb. lia.
Qed.
End BackwardChecked.


(** ** The forward pass of the pooling, in logical coordinates *)

Section ForwardElements.
Import AveragePool.
Context {A : Type} `{!Inhabited A, !Runtime A, !Arith A}.

Lemma kernel_impl_packed (output input : Tensor A)
    (kW kH dW dH padW padH : Z) (count_include_pad : bool)
    (divisor_override : option Z) :
  suggest_memory_format input = Contiguous →
  pooling_type (scalar_type input) →
  avg_pool2d_kernel_impl output input kW kH dW dH padW padH
    count_include_pad divisor_override =
  cpu_avg_pool (scalar_type input)
    (if bool_decide (scalar_type input = BFloat16) then Float else scalar_type input)
    output input kW kH dW dH padW padH count_include_pad divisor_override.
Proof.
  intros Hf Hty. unfold avg_pool2d_kernel_impl.
  rewrite Hf, dispatch_pooling by done.
  case_bool_decide as Hb; [by rewrite Hb|done].
Qed.

(** Packed layout, batched input: every element of the output is the
    average over its window of the elements of its plane of the input,
    and zero when the window is empty. The sum is formed in [float] for
    BFloat16 cells and in the element type otherwise. *)
Lemma avg_pool2d_kernel_impl_packed_4d (output input : Tensor A)
    (kW kH dW dH padW padH : Z) (count_include_pad : bool)
    (divisor_override : option Z) (N C IH IW OH OW : Z) :
  sizes input = [N; C; IH; IW] → sizes output = [N; C; OH; OW] →
  suggest_memory_format input = Contiguous →
  suggest_memory_format output = Contiguous →
  pooling_type (scalar_type input) →
  0 ≤ N → 0 ≤ C → 0 ≤ OH → 0 ≤ OW →
  length (data_ptr output) = Z.to_nat (numel output) →
  ∃ out,
    avg_pool2d_kernel_impl output input kW kH dW dH padW padH
      count_include_pad divisor_override = Ok out ∧
    sizes out = sizes output ∧
    suggest_memory_format out = suggest_memory_format output ∧
    scalar_type out = scalar_type output ∧
    length (data_ptr out) = Z.to_nat (numel output) ∧
    ∀ n c oh ow, 0 ≤ n < N → 0 ≤ c < C → 0 ≤ oh < OH → 0 ≤ ow < OW →
      element out [n; c; oh; ow] =
      avg_pool_cell (scalar_type input)
        (if bool_decide (scalar_type input = BFloat16) then Float else scalar_type input)
        (λ ih iw, element input [n; c; ih; iw])
        (pooling_window oh ow kW kH dW dH padW padH IH IW)
        count_include_pad divisor_override.
Proof.
  intros Hsi Hso Hfi Hfo Hty HN HC HOH HOW Hlen.
  rewrite kernel_impl_packed by done.
  destruct (size_4d input _ _ _ _ Hsi) as (Hi0 & Hi1 & _ & _ & _ & Hi2 & Hi3 & _).
  destruct (size_4d output _ _ _ _ Hso) as (_ & _ & _ & _ & _ & Ho2 & Ho3 & _).
  pose proof (numel_4d output _ _ _ _ Hso) as Hnum.
  destruct (cpu_avg_pool_spec (scalar_type input)
              (if bool_decide (scalar_type input = BFloat16) then Float
               else scalar_type input)
              output input kW kH dW dH padW padH count_include_pad divisor_override
              (N * C) IH IW OH OW)
    as (out & -> & Hol & Hcells); try done; try nia.
  { unfold flattened_channels, dim. rewrite Hsi. simpl. by rewrite Hi0, Hi1. }
  eexists. split; [reflexivity|].
  cbn [with_data sizes suggest_memory_format scalar_type data_ptr].
  split_and!; try done; [congruence|].
  intros n c oh ow Hn Hc Hoh How.
  rewrite element_with_data, (offset_of_packed output N C OH OW) by done.
  erewrite load_lookup.
  2: { rewrite <- (Hcells (n * C + c) oh ow) by nia. f_equal. f_equal.
       unfold ravel, ravel_from. simpl. lia. }
  unfold avg_pool_cell, window_sum.
  destruct (window_empty _); [done|]. do 3 f_equal.
  apply irange_ext. intros ih acc Hih. apply irange_ext. intros iw acc' Hiw.
  unfold element. by rewrite (offset_of_packed input N C IH IW).
Qed.

(** The same for an input without batch dimension. *)
Lemma avg_pool2d_kernel_impl_packed_3d (output input : Tensor A)
    (kW kH dW dH padW padH : Z) (count_include_pad : bool)
    (divisor_override : option Z) (C IH IW OH OW : Z) :
  sizes input = [C; IH; IW] → sizes output = [C; OH; OW] →
  suggest_memory_format input = Contiguous →
  suggest_memory_format output = Contiguous →
  pooling_type (scalar_type input) →
  0 ≤ C → 0 ≤ OH → 0 ≤ OW →
  length (data_ptr output) = Z.to_nat (numel output) →
  ∃ out,
    avg_pool2d_kernel_impl output input kW kH dW dH padW padH
      count_include_pad divisor_override = Ok out ∧
    sizes out = sizes output ∧
    suggest_memory_format out = suggest_memory_format output ∧
    scalar_type out = scalar_type output ∧
    length (data_ptr out) = Z.to_nat (numel output) ∧
    ∀ c oh ow, 0 ≤ c < C → 0 ≤ oh < OH → 0 ≤ ow < OW →
      element out [c; oh; ow] =
      avg_pool_cell (scalar_type input)
        (if bool_decide (scalar_type input = BFloat16) then Float else scalar_type input)
        (λ ih iw, element input [c; ih; iw])
        (pooling_window oh ow kW kH dW dH padW padH IH IW)
        count_include_pad divisor_override.
Proof.
  intros Hsi Hso Hfi Hfo Hty HC HOH HOW Hlen.
  rewrite kernel_impl_packed by done.
  destruct (size_last3 input [] C IH IW Hsi) as (_ & Hi2 & Hi3).
  destruct (size_last3 output [] C OH OW Hso) as (_ & Ho2 & Ho3).
  assert (numel output = C * OH * OW) as Hnum.
  { unfold numel, prod_sizes. rewrite Hso. simpl. lia. }
  destruct (cpu_avg_pool_spec (scalar_type input)
              (if bool_decide (scalar_type input = BFloat16) then Float
               else scalar_type input)
              output input kW kH dW dH padW padH count_include_pad divisor_override
              C IH IW OH OW)
    as (out & -> & Hol & Hcells); try done.
  { unfold flattened_channels, dim, size, dim. by rewrite Hsi. }
  eexists. split; [reflexivity|].
  cbn [with_data sizes suggest_memory_format scalar_type data_ptr].
  split_and!; try done; [congruence|].
  intros c oh ow Hc Hoh How.
  rewrite element_with_data, (offset_of_packed3 output C OH OW) by done.
  erewrite load_lookup.
  2: { rewrite <- (Hcells c oh ow) by done. f_equal. f_equal.
       unfold ravel, ravel_from. simpl. lia. }
  unfold avg_pool_cell, window_sum.
  destruct (window_empty _); [done|]. do 3 f_equal.
  apply irange_ext. intros ih acc Hih. apply irange_ext. intros iw acc' Hiw.
  unfold element. by rewrite (offset_of_packed3 input C IH IW).
Qed.

(** Channels-last layout, generic and BFloat16 kernels: an element whose
    window is empty is set to zero. *)
Lemma avg_pool2d_kernel_impl_channels_last_empty (output input : Tensor A)
    (kW kH dW dH padW padH : Z) (count_include_pad : bool)
    (divisor_override : option Z) (N C IH IW OH OW : Z) :
  sizes input = [N; C; IH; IW] → sizes output = [N; C; OH; OW] →
  suggest_memory_format input = ChannelsLast →
  suggest_memory_format output = ChannelsLast →
  pooling_type (scalar_type input) →
  0 ≤ N → 0 ≤ C → 0 ≤ OH → 0 ≤ OW →
  length (data_ptr output) = Z.to_nat (numel output) →
  ∃ out,
    avg_pool2d_kernel_impl output input kW kH dW dH padW padH
      count_include_pad divisor_override = Ok out ∧
    sizes out = sizes output ∧
    suggest_memory_format out = suggest_memory_format output ∧
    scalar_type out = scalar_type output ∧
    length (data_ptr out) = Z.to_nat (numel output) ∧
    ∀ n c oh ow, 0 ≤ n < N → 0 ≤ c < C → 0 ≤ oh < OH → 0 ≤ ow < OW →
      window_empty (pooling_window oh ow kW kH dW dH padW padH IH IW) = true →
      element out [n; c; oh; ow] = zero (scalar_type input).
Proof.
  intros Hsi Hso Hfi Hfo Hty HN HC HOH HOW Hlen.
  pose proof (numel_4d output _ _ _ _ Hso) as Hnum.
  assert (length (data_ptr output) = Z.to_nat (N * OH * OW * C)) as Hlen'.
  { rewrite Hlen, Hnum. f_equal. lia. }
  unfold avg_pool2d_kernel_impl.
  rewrite Hfi, dispatch_pooling by done.
  unfold cpu_avg_pool_channels_last.
  assert (∃ out,
    (if bool_decide (scalar_type input = BFloat16)
     then cpu_avg_pool_channels_last_BFloat16 output input kW kH dW dH padW padH
            count_include_pad divisor_override
     else cpu_avg_pool_channels_last_generic (scalar_type input) output input
            kW kH dW dH padW padH count_include_pad divisor_override) =
      Ok (with_data output out) ∧
    length out = length (data_ptr output) ∧
    ∀ n oh ow c, 0 ≤ n < N → 0 ≤ oh < OH → 0 ≤ ow < OW → 0 ≤ c < C →
      window_empty (pooling_window oh ow kW kH dW dH padW padH IH IW) = true →
      out !! Z.to_nat (ravel [n; oh; ow; c] [N; OH; OW; C]) =
        Some (zero (scalar_type input))) as (out & -> & Hol & Hcells).
  { case_bool_decide as Hb.
    - rewrite Hb. by apply cpu_avg_pool_channels_last_BFloat16_empty.
    - by apply cpu_avg_pool_channels_last_generic_empty. }
  eexists. split; [reflexivity|].
  cbn [with_data sizes suggest_memory_format scalar_type data_ptr].
  split_and!; try done; [congruence|].
  intros n c oh ow Hn Hc Hoh How Hempty.
  rewrite element_with_data, (offset_of_channels_last output N C OH OW) by done.
  apply load_lookup.
  rewrite <- (Hcells n oh ow c) by done. f_equal. f_equal.
  unfold ravel, ravel_from. simpl. lia.
Qed.
End ForwardElements.


(** ** The argument lists of the pooling entry points *)

Section ArgumentLists.
Import AveragePool.
Context {A : Type} `{!Inhabited A, !Runtime A, !Arith A}.


(** A single kernel size stands for both dimensions. *)
Lemma avg_pool2d_out_cpu_kernel_single (input : Tensor A) (k : Z)
    (stride padding : list Z) (ceil_mode count_include_pad : bool)
    (divisor_override : option Z) :
  avg_pool2d_out_cpu input [k] stride padding ceil_mode count_include_pad
    divisor_override =
  avg_pool2d_out_cpu input [k; k] stride padding ceil_mode count_include_pad
    divisor_override.
Proof.
  unfold avg_pool2d_out_cpu, at_, TORCH_CHECK. decide_lengths.
  cbn [mbind result_bind]. reflexivity.
Qed.


(** A single stride stands for both dimensions. *)
Lemma avg_pool2d_out_cpu_stride_single (input : Tensor A) (kernel_size : list Z)
    (s : Z) (padding : list Z) (ceil_mode count_include_pad : bool)
    (divisor_override : option Z) :
  avg_pool2d_out_cpu input kernel_size [s] padding ceil_mode count_include_pad
    divisor_override =
  avg_pool2d_out_cpu input kernel_size [s; s] padding ceil_mode count_include_pad
    divisor_override.
Proof.
  unfold avg_pool2d_out_cpu, at_, TORCH_CHECK. decide_lengths.
  same_prefix. cbn [mbind result_bind]. same_prefix. reflexivity.
Qed.

(** A single padding stands for both dimensions. *)
Lemma avg_pool2d_out_cpu_padding_single (input : Tensor A)
    (kernel_size stride : list Z) (p : Z) (ceil_mode count_include_pad : bool)
    (divisor_override : option Z) :
  avg_pool2d_out_cpu input kernel_size stride [p] ceil_mode count_include_pad
    divisor_override =
  avg_pool2d_out_cpu input kernel_size stride [p; p] ceil_mode count_include_pad
    divisor_override.
Proof.
  unfold avg_pool2d_out_cpu, at_, TORCH_CHECK. decide_lengths.
  same_prefix. cbn [mbind result_bind]. same_prefix. reflexivity.
Qed.




Lemma avg_pool2d_backward_out_cpu_padding_single (gradOutput input : Tensor A)
    (kernel_size stride : list Z) (p : Z)
    (ceil_mode count_include_pad : bool) (divisor_override : option Z) :
  avg_pool2d_backward_out_cpu gradOutput input kernel_size stride [p] ceil_mode
    count_include_pad divisor_override =
  avg_pool2d_backward_out_cpu gradOutput input kernel_size stride [p; p] ceil_mode
    count_include_pad divisor_override.
Proof.
  unfold avg_pool2d_backward_out_cpu, at_, TORCH_CHECK. decide_lengths.
  same_prefix. cbn [mbind result_bind]. same_prefix.
  repeat (match goal with
          | |- context [safe_downcast_int ?v] =>
              destruct (safe_downcast_int v) eqn:?; cbn [mbind result_bind];
              [|reflexivity]
          end).
  reflexivity.
Qed.
End ArgumentLists.


Section ForwardChecked.
Import AveragePool.
Context {A : Type} `{!Inhabited A, !Runtime A, !Arith A}.

(** On arguments that pass every check, the forward entry point is the
    kernel run on fresh storage of the output shape, in the layout of
    the input. *)
Lemma avg_pool2d_out_cpu_checked (input : Tensor A)
    (kH kW dH dW padH padW : Z) (ceil_mode count_include_pad : bool)
    (divisor_override : option Z) (lead : list Z) (C IH IW : Z) :
  let OH := pooling_output_shape_pad_lr IH kH padH padH dH 1 ceil_mode in
  let OW := pooling_output_shape_pad_lr IW kW padW padW dW 1 ceil_mode in
  well_formed input →
  (length lead ≤ 1)%nat →
  sizes input = lead ++ [C; IH; IW] →
  0 < kH → 0 < kW → 0 < dH → 0 < dW →
  padH ≤ kH `quot` 2 → padW ≤ kW `quot` 2 →
  0 < C → 0 < IH → 0 < IW → 1 ≤ OH → 1 ≤ OW →
  divisor_nonzero divisor_override = true →
  avg_pool2d_out_cpu input [kH; kW] [dH; dW] [padH; padW]
    ceil_mode count_include_pad divisor_override =
  avg_pool2d_kernel_impl
    (mkTensor (lead ++ [C; OH; OW]) (suggest_memory_format input) (scalar_type input)
       (uninitialized <$> seq 0 (Z.to_nat (prod_sizes (lead ++ [C; OH; OW])))))
    input kW kH dW dH padW padH count_include_pad divisor_override.
Proof.
  intros OH OW Hwi Hl Hsi HkH HkW HdH HdW HpH HpW HC HIH HIW HOH HOW Hdiv.
  destruct (well_formed_low_rank input lead C IH IW Hwi Hsi Hl) as (Hfi & Hcl & Hpk).
  destruct (size_last3 input lead C IH IW Hsi) as (Hs3 & Hs2 & Hs1).
  unfold avg_pool2d_out_cpu, at_, TORCH_CHECK. decide_lengths.
  cbn [mbind result_bind]. rewrite Hdiv. cbn [mbind result_bind].
  destruct lead as [|N [|]]; simpl in Hl; [| |lia]; cbn [app] in *.
  - unfold dim. rewrite Hsi. cbn [length].
    change (bool_decide (Z.of_nat 3 = 4)) with false.
    change (bool_decide (Z.of_nat 3 = 3)) with true.
    cbn [mbind result_bind]. rewrite Hs3, Hs2, Hs1. cbn [mbind result_bind].
    rewrite !pooling_output_shape_ok by lia.
    cbn [mbind result_bind]. fold OH OW.
    pose proof (pool2d_shape_check_ok input [] kH kW dH dW padH padW C IH IW OH OW)
      as Hck. unfold dim in Hck. rewrite Hck by (done || lia).
    cbn [mbind result_bind].
    rewrite empty_ok by done.
    cbn [mbind result_bind]. by rewrite Hpk.
  - destruct (size_4d input _ _ _ _ Hsi) as (_ & _ & _ & _ & _ & _ & _ & Hs4).
    unfold dim. rewrite Hsi. cbn [length].
    change (bool_decide (Z.of_nat 4 = 4)) with true.
    change (bool_decide (Z.of_nat 4 = 3)) with false.
    rewrite Hs4.
    cbn [mbind result_bind]. rewrite Hs3, Hs2, Hs1. cbn [mbind result_bind].
    rewrite !pooling_output_shape_ok by lia.
    cbn [mbind result_bind]. fold OH OW.
    pose proof (pool2d_shape_check_ok input [N] kH kW dH dW padH padW C IH IW OH OW)
      as Hck. unfold dim in Hck. rewrite Hck by (done || lia).
    cbn [mbind result_bind].
    rewrite empty_ok.
    2: done.
    2: { intros Hf. destruct Hfi as [Hfi | Hfi]; congruence. }
    reflexivity.
Qed.

Lemma fresh_output_facts (sz : list Z) (fmt : MemoryFormat) (ty : ScalarType) :
  let t : Tensor A :=
    mkTensor sz fmt ty (uninitialized <$> seq 0 (Z.to_nat (prod_sizes sz))) in
  length (data_ptr t) = Z.to_nat (numel t).
Proof.
  intros t. unfold t, numel. cbn [sizes data_ptr].
  by rewrite length_fmap, length_seq.
Qed.
End ForwardChecked.


(** ** Tensors with the same elements *)

Section TensorExt.
Context {A : Type} `{!Inhabited A}.

Lemma prod_pos_all_pos (Xs : list Z) :
  Forall (λ X, 0 ≤ X) Xs → 0 < prod_sizes Xs → Forall (λ X, 0 < X) Xs.
Proof.
  unfold prod_sizes. induction 1 as [|X Xs HX HXs IH]; simpl; intros Hp; [done|].
  pose proof (prod_sizes_nonneg Xs HXs) as Hn. unfold prod_sizes in Hn.
  constructor; [nia|]. apply IH. nia.
Qed.

Lemma to_physical_logical (fmt : MemoryFormat) (c : list Z) :
  to_physical fmt (to_logical fmt c) = c.
Proof.
  destruct fmt; try done.
  - by destruct c as [|? [|? [|? [|? [|? ?]]]]].
  - by destruct c as [|? [|? [|? [|? [|? [|? ?]]]]]].
Qed.

Lemma to_physical_prod (fmt : MemoryFormat) (Xs : list Z) :
  prod_sizes (to_physical fmt Xs) = prod_sizes Xs.
Proof.
  unfold prod_sizes. destruct fmt; try done.
  - destruct Xs as [|? [|? [|? [|? [|? ?]]]]]; simpl; lia.
  - destruct Xs as [|? [|? [|? [|? [|? [|? ?]]]]]]; simpl; lia.
Qed.

Lemma to_physical_Forall (P : Z → Prop) (fmt : MemoryFormat) (Xs : list Z) :
  Forall P Xs → Forall P (to_physical fmt Xs).
Proof.
  intros H. destruct fmt; try done.
  - destruct Xs as [|? [|? [|? [|? [|? ?]]]]]; try done.
    repeat (apply Forall_cons in H as [? H]). by repeat constructor.
  - destruct Xs as [|? [|? [|? [|? [|? [|? ?]]]]]]; try done.
    repeat (apply Forall_cons in H as [? H]). by repeat constructor.
Qed.

Lemma to_logical_Forall2 (R : Z → Z → Prop) (fmt : MemoryFormat) (c Xs : list Z) :
  Forall2 R c (to_physical fmt Xs) → Forall2 R (to_logical fmt c) Xs.
Proof.
  intros H. destruct fmt; try done.
  - destruct Xs as [|X1 [|X2 [|X3 [|X4 [|X5 Xs]]]]];
      destruct c as [|c1 [|c2 [|c3 [|c4 [|c5 c]]]]]; simpl in *; try done;
      try (by apply Forall2_length in H).
    repeat (apply Forall2_cons in H as [? H]). by repeat constructor.
  - destruct Xs as [|X1 [|X2 [|X3 [|X4 [|X5 [|X6 Xs]]]]]];
      destruct c as [|c1 [|c2 [|c3 [|c4 [|c5 [|c6 c]]]]]]; simpl in *; try done;
      try (by apply Forall2_length in H).
    repeat (apply Forall2_cons in H as [? H]). by repeat constructor.
Qed.

(** Every cell of a dense tensor is the element of some coordinates. *)
Lemma cell_is_element (t : Tensor A) (i : nat) :
  Forall (λ s, 0 ≤ s) (sizes t) → (i < Z.to_nat (numel t))%nat →
  ∃ xs, Forall2 (λ x X, 0 ≤ x < X) xs (sizes t) ∧
        offset_of t xs = Z.of_nat i.
Proof.
  intros Hnn Hi. set (fmt := suggest_memory_format t).
  set (Ps := to_physical fmt (sizes t)).
  assert (prod_sizes Ps = numel t) as Hprod by apply to_physical_prod.
  assert (Forall (λ X, 0 < X) Ps) as Hpos.
  { apply prod_pos_all_pos; [by apply to_physical_Forall|lia]. }
  pose proof (data_index_init_bounds (Z.of_nat i) Ps ltac:(lia) Hpos) as [_ Hb].
  pose proof (ravel_from_init (Z.of_nat i) Ps ltac:(lia) Hpos) as Hr.
  rewrite data_index_init_inside in Hr by (done || lia).
  exists (to_logical fmt (data_index_init (Z.of_nat i) Ps).2). split.
  - by apply to_logical_Forall2.
  - unfold offset_of. fold fmt Ps. by rewrite to_physical_logical.
Qed.

(** Two dense tensors of one shape, layout and element type with the
    same element at every position are the same tensor. *)
Lemma tensor_ext (t1 t2 : Tensor A) :
  sizes t1 = sizes t2 →
  suggest_memory_format t1 = suggest_memory_format t2 →
  scalar_type t1 = scalar_type t2 →
  Forall (λ s, 0 ≤ s) (sizes t1) →
  length (data_ptr t1) = Z.to_nat (numel t1) →
  length (data_ptr t2) = Z.to_nat (numel t2) →
  (∀ xs, Forall2 (λ x X, 0 ≤ x < X) xs (sizes t1) → element t1 xs = element t2 xs) →
  t1 = t2.
Proof.
  intros Hs Hf Hd Hnn Hl1 Hl2 Hel.
  assert (numel t2 = numel t1) as Hn by (unfold numel; by rewrite Hs).
  assert (data_ptr t1 = data_ptr t2) as Hdata.
  { apply (list_eq_same_length _ _ (Z.to_nat (numel t1))); [by rewrite Hl2, Hn|done|].
    intros i x y Hi Hx Hy.
    destruct (cell_is_element t1 i Hnn Hi) as (xs & Hb & Ho).
    specialize (Hel xs Hb). unfold element, load in Hel.
    assert (offset_of t2 xs = offset_of t1 xs) as Ho2.
    { unfold offset_of. by rewrite Hs, Hf. }
    rewrite Ho2, Ho, Nat2Z.id in Hel.
    by rewrite (list_lookup_total_correct _ _ _ Hx),
      (list_lookup_total_correct _ _ _ Hy) in Hel. }
  destruct t1, t2; simpl in *; by subst.
Qed.
End TensorExt.


(** ** The windows of an accepted configuration *)

Section WindowFacts.
Import AveragePool.
Context {A : Type} `{!Inhabited A}.

Lemma offset_of_bounds3 (t : Tensor A) (C H W c h w : Z) :
  sizes t = [C; H; W] → suggest_memory_format t = Contiguous →
  0 ≤ c < C → 0 ≤ h < H → 0 ≤ w < W →
  0 ≤ offset_of t [c; h; w] < numel t.
Proof.
  intros Hs Hf Hc Hh Hw. unfold offset_of, numel. rewrite Hs, Hf. simpl.
  pose proof (ravel_from_bounds 0 [c; h; w] [C; H; W] ltac:(lia)
                ltac:(repeat constructor; lia)) as Hb.
  unfold ravel, prod_sizes in *. simpl in *. lia.
Qed.

Lemma div_rtn_floor (x y : Z) : 0 < y → div_rtn x y = x `div` y.
Proof.
  intros Hy. unfold div_rtn. cbv zeta.
  rewrite (bool_decide_eq_false_2 (y < 0)) by (clear -Hy; lia).
  destruct (decide (0 ≤ x)) as [Hx|Hx].
  - pose proof (Z.rem_bound_pos x y Hx Hy) as Hr.
    rewrite (bool_decide_eq_false_2 (x `rem` y < 0)).
    2: { generalize dependent (x `rem` y). clear. intros. lia. }
    rewrite andb_false_r. by apply Z.quot_div_nonneg.
  - assert (x ≤ 0) as Hx' by (clear -Hx; lia).
    pose proof (Z.rem_bound_pos_neg x y Hy Hx') as Hr.
    pose proof (Z.quot_rem' x y) as Hqr.
    set (q := x `quot` y) in *. set (r := x `rem` y) in *.
    clearbody q r.
    destruct (decide (r = 0)) as [H0|H0].
    + rewrite (bool_decide_eq_false_2 (r ≠ 0)) by tauto. cbn [andb].
      apply Z.div_unique_pos with 0; lia.
    + rewrite (bool_decide_eq_true_2 (r ≠ 0)) by done.
      rewrite (bool_decide_eq_true_2 (r < 0)) by lia. cbn [andb negb eqb].
      apply Z.div_unique_pos with (r + y); lia.
Qed.

(** The last window starts inside the input, and before the end of the
    right padding by a full kernel unless the output size was rounded
    up. *)
Lemma window_start_bound (I k pad d o : Z) (ceil_mode : bool) :
  0 < d → 0 < k → pad < k →
  0 ≤ o < pooling_output_shape_pad_lr I k pad pad d 1 ceil_mode →
  o * d - pad < I.
Proof.
  intros Hd Hk Hpad. unfold pooling_output_shape_pad_lr. cbv zeta.
  rewrite div_rtn_floor by done.
  set (X := I + pad + pad - 1 * (k - 1) - 1 + (if ceil_mode then d - 1 else 0)).
  pose proof (Z.div_mod X d ltac:(lia)) as Hdm.
  pose proof (Z.mod_pos_bound X d Hd) as Hm.
  destruct ceil_mode; cbn [andb].
  - case_bool_decide as Hlast; intros Ho; unfold X in *; nia.
  - intros Ho. unfold X in *. nia.
Qed.

(** With a padding that is not negative every window has a row and a
    column inside the input. *)
Lemma window_holds_cells (IH IW kH kW dH dW padH padW oh ow : Z) (ceil_mode : bool) :
  0 < IH → 0 < IW → 0 < kH → 0 < kW → 0 < dH → 0 < dW →
  0 ≤ padH ≤ kH `quot` 2 → 0 ≤ padW ≤ kW `quot` 2 →
  0 ≤ oh < pooling_output_shape_pad_lr IH kH padH padH dH 1 ceil_mode →
  0 ≤ ow < pooling_output_shape_pad_lr IW kW padW padW dW 1 ceil_mode →
  let w := pooling_window oh ow kW kH dW dH padW padH IH IW in
  ih0 w < ih1 w ∧ iw0 w < iw1 w ∧ 0 < pool_size w.
Proof.
  intros HIH HIW HkH HkW HdH HdW HpH HpW Hoh How w.
  assert (kH `quot` 2 < kH ∧ kW `quot` 2 < kW) as [HqH HqW].
  { split; apply Z.quot_lt; lia. }
  pose proof (window_start_bound IH kH padH dH oh ceil_mode HdH HkH ltac:(lia) Hoh) as Hh.
  pose proof (window_start_bound IW kW padW dW ow ceil_mode HdW HkW ltac:(lia) How) as Hw.
  assert (0 ≤ oh * dH ∧ 0 ≤ ow * dW) as [Hoh0 How0] by nia.
  unfold w, pooling_window. cbn [ih0 ih1 iw0 iw1 pool_size]. split_and!; [lia|lia|].
  apply Z.mul_pos_pos; lia.
Qed.

(** The extent of a window before it is clamped to the input is at most
    the kernel, so that with a kernel in the range of [int] the product
    [pool_size] is a value of [int64_t]. *)
Lemma pool_size_bound (IH IW kH kW dH dW padH padW oh ow : Z) (ceil_mode : bool) :
  0 < IH → 0 < IW → 0 < kH → 0 < kW → 0 < dH → 0 < dW →
  0 ≤ padH ≤ kH `quot` 2 → 0 ≤ padW ≤ kW `quot` 2 →
  0 ≤ oh < pooling_output_shape_pad_lr IH kH padH padH dH 1 ceil_mode →
  0 ≤ ow < pooling_output_shape_pad_lr IW kW padW padW dW 1 ceil_mode →
  0 < pool_size (pooling_window oh ow kW kH dW dH padW padH IH IW) ≤ kH * kW.
Proof.
  intros HIH HIW HkH HkW HdH HdW HpH HpW Hoh How.
  assert (kH `quot` 2 < kH ∧ kW `quot` 2 < kW) as [HqH HqW].
  { split; apply Z.quot_lt; lia. }
  pose proof (window_start_bound IH kH padH dH oh ceil_mode HdH HkH ltac:(lia) Hoh) as Hh.
  pose proof (window_start_bound IW kW padW dW ow ceil_mode HdW HkW ltac:(lia) How) as Hw.
  unfold pooling_window. cbn [pool_size].
  set (eh := Z.min (oh * dH - padH + kH) (IH + padH) - (oh * dH - padH)).
  set (ew := Z.min (ow * dW - padW + kW) (IW + padW) - (ow * dW - padW)).
  assert (0 < eh ≤ kH) as Heh by (unfold eh; lia).
  assert (0 < ew ≤ kW) as Hew by (unfold ew; lia).
  clearbody eh ew. split; [apply Z.mul_pos_pos; lia|].
  apply Z.mul_le_mono_nonneg; lia.
Qed.

(** The divisor of every window of such a configuration. *)
Lemma divide_factor_nonzero (IH IW kH kW dH dW padH padW oh ow : Z)
    (ceil_mode count_include_pad : bool) (divisor_override : option Z) :
  0 < IH → 0 < IW → 0 < kH → 0 < kW → 0 < dH → 0 < dW →
  0 ≤ padH ≤ kH `quot` 2 → 0 ≤ padW ≤ kW `quot` 2 →
  divisor_nonzero divisor_override = true →
  0 ≤ oh < pooling_output_shape_pad_lr IH kH padH padH dH 1 ceil_mode →
  0 ≤ ow < pooling_output_shape_pad_lr IW kW padW padW dW 1 ceil_mode →
  divide_factor (pooling_window oh ow kW kH dW dH padW padH IH IW)
    count_include_pad divisor_override ≠ 0.
Proof.
  intros HIH HIW HkH HkW HdH HdW HpH HpW Hdiv Hoh How.
  destruct (window_holds_cells IH IW kH kW dH dW padH padW oh ow ceil_mode)
    as (Hi & Hj & Hp); try done.
  cbv zeta in Hi, Hj, Hp.
  set (w := pooling_window oh ow kW kH dW dH padW padH IH IW) in *.
  destruct divisor_override as [d|].
  - unfold divide_factor. simpl in Hdiv. by apply bool_decide_eq_true in Hdiv.
  - unfold divide_factor. destruct count_include_pad; [lia|].
    assert (0 < (ih1 w - ih0 w) * (iw1 w - iw0 w)) by (apply Z.mul_pos_pos; lia).
    lia.
Qed.

(** A window that holds a cell after clamping has a divisor that is not
    zero, whatever the sign of the padding: the extent before clamping
    is at least the extent after. *)
Lemma nonempty_window_divisor (oh ow kW kH dW dH padW padH IH IW : Z)
    (count_include_pad : bool) (divisor_override : option Z) :
  divisor_nonzero divisor_override = true →
  window_empty (pooling_window oh ow kW kH dW dH padW padH IH IW) = false →
  divide_factor (pooling_window oh ow kW kH dW dH padW padH IH IW)
    count_include_pad divisor_override ≠ 0.
Proof.
  intros Hdiv Hne.
  destruct divisor_override as [d|].
  { unfold divide_factor. simpl in Hdiv. by apply bool_decide_eq_true in Hdiv. }
  unfold window_empty in Hne. apply orb_false_elim in Hne as [Hh Hw].
  apply bool_decide_eq_false in Hh. apply bool_decide_eq_false in Hw.
  unfold divide_factor, pooling_window in *. cbn [ih0 ih1 iw0 iw1 pool_size] in *.
  set (h0 := oh * dH - padH) in *. set (w0 := ow * dW - padW) in *.
  set (h1 := Z.min (h0 + kH) (IH + padH)) in *.
  set (w1 := Z.min (w0 + kW) (IW + padW)) in *.
  assert (0 < Z.min h1 IH - Z.max h0 0) as Hch by lia.
  assert (0 < Z.min w1 IW - Z.max w0 0) as Hcw by lia.
  assert (0 < h1 - h0) as Hph by lia.
  assert (0 < w1 - w0) as Hpw by lia.
  clearbody h1 w1 h0 w0.
  destruct count_include_pad.
  - assert (0 < (h1 - h0) * (w1 - w0)) by (apply Z.mul_pos_pos; lia). lia.
  - assert (0 < (Z.min h1 IH - Z.max h0 0) * (Z.min w1 IW - Z.max w0 0))
      by (apply Z.mul_pos_pos; lia). lia.
Qed.
End WindowFacts.


(** ** Pixel shuffle: the round trip and the shapes *)

Section PixelShuffleClaims.
Import PixelShuffle.
Context {A : Type} `{!Inhabited A, !Runtime A}.

(** C1, amended. For every well-formed tensor [x] of element type Float
    or Double, in the packed or the channels-last layout, of rank at
    least 3 with no empty channel, height or width dimension, and every
    factor [F > 0] whose square divides the channel count:
    [pixel_unshuffle(pixel_shuffle(x, F), F)] returns [x] itself, with
    its shape, layout, element type and every element. *)
Theorem pixel_shuffle_round_trip (x : Tensor A) (F : Z) (lead : list Z) (C H W : Z) :
  well_formed x →
  floating (scalar_type x) →
  packed_or_channels_last (suggest_memory_format x) →
  sizes x = lead ++ [C; H; W] →
  0 < F → C `rem` (F * F) = 0 →
  C ≠ 0 → H ≠ 0 → W ≠ 0 →
  pixel_shuffle x F ≫= (λ z, pixel_unshuffle z F) = Ok x.
Proof. apply pixel_unshuffle_pixel_shuffle. Qed.

(** C2, amended. For the same tensors, [pixel_shuffle(x, F)] returns a
    tensor of shape [..., C/F², H*F, W*F] when F² divides the channel
    count, and [pixel_unshuffle(x, F)] a tensor of shape
    [..., C*F², H/F, W/F] when [F] divides the height and the width; the
    leading dimensions, the layout and the element type are those of
    [x]. *)
Theorem pixel_shuffle_shapes (x : Tensor A) (F : Z) (lead : list Z) (C H W : Z) :
  well_formed x →
  floating (scalar_type x) →
  packed_or_channels_last (suggest_memory_format x) →
  sizes x = lead ++ [C; H; W] →
  0 < F → C ≠ 0 → H ≠ 0 → W ≠ 0 →
  (C `rem` (F * F) = 0 →
   ∃ z, pixel_shuffle x F = Ok z ∧
        sizes z = lead ++ [C `quot` (F * F); H * F; W * F] ∧
        suggest_memory_format z = suggest_memory_format x ∧
        scalar_type z = scalar_type x) ∧
  (H `rem` F = 0 → W `rem` F = 0 →
   ∃ z, pixel_unshuffle x F = Ok z ∧
        sizes z = lead ++ [C * F * F; H `quot` F; W `quot` F] ∧
        suggest_memory_format z = suggest_memory_format x ∧
        scalar_type z = scalar_type x).
Proof.
  intros Hwf Hty Hfmt Hs HF HC HH HW. split.
  - intros Hrem.
    destruct (pixel_shuffle_shape x F lead C H W) as (z & ? & ? & ? & ? & _); try done.
    by exists z.
  - intros HremH HremW.
    destruct (pixel_unshuffle_shape x F lead C H W) as (z & ? & ? & ? & ? & _); try done.
    by exists z.
Qed.
End PixelShuffleClaims.

Section PixelShuffleExamples.
Import PixelShuffle Instances.

(** A channels-last tensor of four channels, shuffled and unshuffled
    by 2, gradient mode off. *)
Lemma pixel_shuffle_round_trip_witness :
  let x : Tensor float :=
    mkTensor [1; 4; 1; 2] ChannelsLast Double [1; 2; 3; 4; 5; 6; 7; 8]%float in
  @pixel_shuffle float _ runtime_double x 2 ≫=
    (λ z, @pixel_unshuffle float _ runtime_double z 2) = Ok x.
Proof.
  intros x.
  apply (pixel_shuffle_round_trip (Runtime0:=runtime_double) x 2 [1] 4 1 2).
  - split_and!; [reflexivity|repeat constructor; lia|].
    split; [reflexivity|repeat constructor; lia].
  - by right.
  - by right.
  - reflexivity.
  - lia.
  - reflexivity.
  - lia.
  - lia.
  - lia.
Defined.

(** A packed batch of two 8x2x4 tensors, gradient mode on. *)
Lemma pixel_shuffle_shapes_witness :
  let x : Tensor Z :=
    mkTensor [2; 8; 2; 4] Contiguous Float (seqZ 0 128) in
  (∃ z, @pixel_shuffle Z _ runtime_Z x 2 = Ok z ∧
        sizes z = [2; 2; 4; 8] ∧
        suggest_memory_format z = Contiguous ∧ scalar_type z = Float) ∧
  (∃ z, @pixel_unshuffle Z _ runtime_Z x 2 = Ok z ∧
        sizes z = [2; 32; 1; 2] ∧
        suggest_memory_format z = Contiguous ∧ scalar_type z = Float).
Proof.
  intros x.
  destruct (pixel_shuffle_shapes (Runtime0:=runtime_Z) x 2 [2] 8 2 4) as [Hs Hu].
  - split_and!; [reflexivity|repeat constructor; lia|exact I].
  - by left.
  - by left.
  - reflexivity.
  - lia.
  - lia.
  - lia.
  - lia.
  - split; [apply Hs; reflexivity|apply Hu; reflexivity].
Defined.

(** A tensor of [int64] cells, rank 3, four channels: the factor 2 is
    positive and its square divides the channel count, and the round
    trip does not return the tensor. *)
Lemma pixel_shuffle_round_trip_long :
  let x : Tensor Z := mkTensor [4; 1; 1] Contiguous Long [1; 2; 3; 4] in
  well_formed x ∧ 3 ≤ dim x ∧ 0 < 2 ∧ 4 `rem` (2 * 2) = 0 ∧
  @pixel_shuffle Z _ runtime_Z x 2 ≫= (λ z, @pixel_unshuffle Z _ runtime_Z z 2) =
    Err (c10_NotImplemented "pixel_shuffle" Long).
Proof.
  intros x. split_and!; try done.
  split_and!; [reflexivity|repeat constructor; lia|exact I].
Qed.

(** A BFloat16 tensor of rank 3 with four channels, height and width 2:
    neither operator returns a tensor. *)
Lemma pixel_shuffle_shapes_bfloat16 :
  let x : Tensor Z :=
    mkTensor [4; 2; 2] Contiguous BFloat16 (seqZ 0 16) in
  well_formed x ∧ 3 ≤ dim x ∧ 0 < 2 ∧
  4 `rem` (2 * 2) = 0 ∧ 2 `rem` 2 = 0 ∧
  @pixel_shuffle Z _ runtime_Z x 2 = Err (c10_NotImplemented "pixel_shuffle" BFloat16) ∧
  @pixel_unshuffle Z _ runtime_Z x 2 = Err (c10_NotImplemented "pixel_unshuffle" BFloat16).
Proof.
  intros x. split_and!; try done.
  split_and!; [reflexivity|repeat constructor; lia|exact I].
Qed.
End PixelShuffleExamples.


(** ** Pixel shuffle: each operator is the backward pass of the other *)

Section BackwardPairing.
Import PixelShuffle.
Context {A : Type} `{!Inhabited A, !Runtime A}.

(** C3. On a gradient [g] of a supported element type, in either layout:
    the backward kernel of the shuffle is the forward kernel of the
    unshuffle (the body [cpu_pixel_shuffle_backward] and its
    channels-last form) and the backward kernel of the unshuffle is the
    forward kernel of the shuffle ([cpu_pixel_shuffle] and its
    channels-last form); and so the backward computation of each
    operator, asked for a gradient of the shape the other operator
    returns on [g], is the forward computation of the other operator on
    [g]. *)
Theorem pixel_shuffle_backward_is_unshuffle (out g : Tensor A) (F : Z)
    (lead : list Z) (c h w : Z) :
  floating (scalar_type g) →
  sizes g = lead ++ [c; h; w] → F ≠ 0 →
  pixel_shuffle_backward_kernel out g F = pixel_unshuffle_kernel out g F ∧
  pixel_unshuffle_backward_kernel out g F = pixel_shuffle_kernel out g F ∧
  pixel_shuffle_backward_cpu g (lead ++ [c * F * F; h `quot` F; w `quot` F]) F =
    pixel_unshuffle_cpu g F ∧
  pixel_unshuffle_backward_cpu g (lead ++ [(c `quot` F) `quot` F; h * F; w * F]) F =
    pixel_shuffle_cpu g F.
Proof.
  intros Hty Hs HF.
  assert (∀ out g : Tensor A, floating (scalar_type g) →
            pixel_shuffle_backward_kernel out g F = pixel_unshuffle_kernel out g F ∧
            pixel_unshuffle_backward_kernel out g F = pixel_shuffle_kernel out g F)
    as Hker.
  { intros out' g' Hty'.
    unfold pixel_shuffle_backward_kernel, pixel_unshuffle_kernel,
      pixel_unshuffle_backward_kernel, pixel_shuffle_kernel.
    destruct (suggest_memory_format g'); rewrite ?dispatch_floating by done; done. }
  destruct (Hker out g Hty) as [Hk1 Hk2].
  destruct (size_last3 g lead c h w Hs) as (Hs3 & Hs2 & Hs1).
  split_and!; [done|done|..].
  - unfold pixel_shuffle_backward_cpu, pixel_unshuffle_cpu, div64.
    rewrite Hs3, Hs2, Hs1, (leading_sizes_app g lead c h w Hs).
    rewrite bool_decide_eq_false_2 by done.
    cbn [mbind result_bind].
    destruct (empty [0] Contiguous (scalar_type g)) as [e0|?];
      cbn [mbind result_bind]; [|done].
    destruct (resize_ e0 _ _) as [gi|?]; cbn [mbind result_bind]; [|done].
    rewrite contiguous_same. cbn [mbind result_bind].
    apply Hker, Hty.
  - unfold pixel_unshuffle_backward_cpu, pixel_shuffle_cpu, div64.
    rewrite Hs3, Hs2, Hs1, (leading_sizes_app g lead c h w Hs).
    rewrite bool_decide_eq_false_2 by done.
    cbn [mbind result_bind].
    destruct (empty [0] Contiguous (scalar_type g)) as [e0|?];
      cbn [mbind result_bind]; [|done].
    destruct (resize_ e0 _ _) as [gi|?]; cbn [mbind result_bind]; [|done].
    rewrite contiguous_same. cbn [mbind result_bind].
    apply Hker, Hty.
Qed.
End BackwardPairing.

Section BackwardPairingWitness.
Import PixelShuffle Instances.

(** The gradient of a shuffle by 2 of a 4x1x1 input: a 1x2x2 tensor. *)
Lemma pixel_shuffle_backward_is_unshuffle_witness :
  let g : Tensor float := mkTensor [1; 2; 2] Contiguous Double [1; 2; 3; 4]%float in
  @pixel_shuffle_backward_cpu float _ runtime_double g [4; 1; 1] 2 =
    @pixel_unshuffle_cpu float _ runtime_double g 2.
Proof.
  intros g.
  refine (proj1 (proj2 (proj2
    (pixel_shuffle_backward_is_unshuffle (Runtime0:=runtime_double) g g 2 [] 1 2 2
       _ _ _))));
    [by right|reflexivity|lia].
Defined.
End BackwardPairingWitness.


(** ** The gradient of the average pooling *)

Section BackwardClaim.
Import AveragePool.
Context {A : Type} `{!Inhabited A, !Runtime A, !Arith A}.

End BackwardClaim.

Section BackwardClaimWitness.
Import AveragePool Instances.
#[local] Existing Instance runtime_Z.
#[local] Existing Instance arith_Long.

End BackwardClaimWitness.


(** ** Pooling with padding on the all-ones input *)

Section OnesWithPadding.
Import AveragePool Instances.
#[local] Existing Instance arith_Double.

(** C5. The 1x1x2x2 input of ones in [double], kernel 3, stride 1,
    padding 1, no divisor override: every output element, and so
    [output[0,0]], is [4/9] when the padding counts (window 3x3, four
    ones inside) and [1.0] when it does not (divisor 4). The result is
    the same for every number of threads and vector width, what fresh
    storage holds, and both rounding modes of the output size. *)
Theorem avg_pool2d_ones_with_padding (R : Runtime float) (ceil_mode : bool) :
  let ones : Tensor float := mkTensor [1; 1; 2; 2] Contiguous Double [1; 1; 1; 1]%float in
  let forward := @avg_pool2d_out_cpu float _ R arith_Double ones [3] [1] [1] ceil_mode in
  (∃ out, forward true None = Ok out ∧ sizes out = [1; 1; 2; 2] ∧
          element out [0; 0; 0; 0] = (4 / 9)%float ∧
          element out [0; 0; 0; 1] = (4 / 9)%float ∧
          element out [0; 0; 1; 0] = (4 / 9)%float ∧
          element out [0; 0; 1; 1] = (4 / 9)%float) ∧
  (∃ out, forward false None = Ok out ∧ sizes out = [1; 1; 2; 2] ∧
          element out [0; 0; 0; 0] = 1%float ∧
          element out [0; 0; 0; 1] = 1%float ∧
          element out [0; 0; 1; 0] = 1%float ∧
          element out [0; 0; 1; 1] = 1%float).
Proof.
  intros ones forward.
  assert (well_formed ones) as Hwf.
  { split_and!; [done|repeat constructor; lia|done]. }
  assert (pooling_output_shape_pad_lr 2 3 1 1 1 1 ceil_mode = 2) as HO
    by by destruct ceil_mode.
  assert (∀ cip, ∃ out, forward cip None = Ok out ∧ sizes out = [1; 1; 2; 2] ∧
            ∀ oh ow, 0 ≤ oh < 2 → 0 ≤ ow < 2 →
              element out [0; 0; oh; ow] =
              avg_pool_cell (A:=float) Double Double (λ ih iw, element ones [0; 0; ih; iw])
                (pooling_window oh ow 3 3 1 1 1 1 2 2) cip None) as Hall.
  { intros cip. unfold forward.
    rewrite avg_pool2d_out_cpu_kernel_single, avg_pool2d_out_cpu_stride_single,
      avg_pool2d_out_cpu_padding_single.
    rewrite (avg_pool2d_out_cpu_checked ones 3 3 1 1 1 1 ceil_mode cip None [1] 1 2 2);
      try done; try lia; try (rewrite HO; lia).
    rewrite HO.
    match goal with
    | |- context [avg_pool2d_kernel_impl ?o] => set (output := o)
    end.
    destruct (avg_pool2d_kernel_impl_packed_4d output ones 3 3 1 1 1 1 cip None
                1 1 2 2 2 2)
      as (out & -> & Hs & _ & _ & _ & Hel);
      try done; try (by right; left); try apply fresh_output_facts.
    exists out. split_and!; [done|by rewrite Hs|].
    intros oh ow Hoh How. by rewrite Hel. }
  split.
  - destruct (Hall true) as (out & -> & Hs & Hel). exists out.
    split_and!; [done|done|..]; rewrite Hel by lia; by vm_compute.
  - destruct (Hall false) as (out & -> & Hs & Hel). exists out.
    split_and!; [done|done|..]; rewrite Hel by lia; by vm_compute.
Qed.
End OnesWithPadding.


(** ** Windows that lie in the padding *)

Section EmptyWindows.
Import AveragePool.
Context {A : Type} `{!Inhabited A, !Runtime A, !Arith A}.

(** C6. On a valid pooling configuration (kernel and stride positive,
    padding of either sign at most half the kernel, all six in the range
    of [int], a non-zero divisor override if any, an output of the
    pooled shape), whatever the output storage holds before the call and
    whatever the padding policy and the divisor override are: the
    forward kernels set the output element of every position whose
    clamped window is empty to the zero of the element type. This is
    [cpu_avg_pool] for the packed layout (3-D and 4-D inputs, BFloat16
    included), [cpu_avg_pool_channels_last] for the channels-last
    layout, and its BFloat16 specialization. The kernels divide only at
    windows that are not empty, and there the divisor is not zero. *)
Theorem avg_pool2d_empty_window_zero (output input : Tensor A)
    (kW kH dW dH padW padH : Z) (ceil_mode count_include_pad : bool)
    (divisor_override : option Z) (lead : list Z) (C IH IW : Z) :
  let OH := pooling_output_shape_pad_lr IH kH padH padH dH 1 ceil_mode in
  let OW := pooling_output_shape_pad_lr IW kW padW padW dW 1 ceil_mode in
  well_formed input → (length lead ≤ 1)%nat →
  sizes input = lead ++ [C; IH; IW] → sizes output = lead ++ [C; OH; OW] →
  suggest_memory_format output = suggest_memory_format input →
  pooling_type (scalar_type input) →
  Forall int_range [kH; kW; dH; dW; padH; padW] →
  0 < kH → 0 < kW → 0 < dH → 0 < dW →
  padH ≤ kH `quot` 2 → padW ≤ kW `quot` 2 →
  0 < C → 0 < IH → 0 < IW → 1 ≤ OH → 1 ≤ OW →
  divisor_nonzero divisor_override = true →
  length (data_ptr output) = Z.to_nat (numel output) →
  ∃ out,
    avg_pool2d_kernel_impl output input kW kH dW dH padW padH
      count_include_pad divisor_override = Ok out ∧
    sizes out = sizes output ∧
    (∀ oh ow, 0 ≤ oh < OH → 0 ≤ ow < OW →
       window_empty (pooling_window oh ow kW kH dW dH padW padH IH IW) = false →
       divide_factor (pooling_window oh ow kW kH dW dH padW padH IH IW)
         count_include_pad divisor_override ≠ 0) ∧
    ∀ idx c oh ow,
      Forall2 (λ x X, 0 ≤ x < X) idx lead → 0 ≤ c < C → 0 ≤ oh < OH → 0 ≤ ow < OW →
      window_empty (pooling_window oh ow kW kH dW dH padW padH IH IW) = true →
      element out (idx ++ [c; oh; ow]) = zero (scalar_type input).
Proof.
  intros OH OW Hwf Hl Hsi Hso Hfo Hty Hints HkH HkW HdH HdW HpH HpW
    HC0 HIH HIW HOH1 HOW1 Hdiv Hlen.
  assert (0 ≤ OH ∧ 0 ≤ OW) as [HOH HOW] by lia.
  assert (∀ oh ow, 0 ≤ oh < OH → 0 ≤ ow < OW →
            window_empty (pooling_window oh ow kW kH dW dH padW padH IH IW) = false →
            divide_factor (pooling_window oh ow kW kH dW dH padW padH IH IW)
              count_include_pad divisor_override ≠ 0) as Hdivs.
  { intros oh ow _ _ Hne. by apply nonempty_window_divisor. }
  clearbody OH OW.
  destruct (well_formed_low_rank input lead C IH IW Hwf Hsi Hl) as (Hfi & Hcl & Hpk).
  assert (Forall (λ s, 0 ≤ s) lead ∧ 0 ≤ C) as [Hlead HC].
  { destruct Hwf as (_ & Hnn & _). rewrite Hsi in Hnn.
    apply Forall_app in Hnn as [? Hnn]. by apply Forall_cons in Hnn as [? _]. }
  destruct lead as [|N [|]]; simpl in Hl; [| |lia]; cbn [app] in Hsi, Hso.
  - specialize (Hpk eq_refl).
    destruct (avg_pool2d_kernel_impl_packed_3d output input kW kH dW dH padW padH
                count_include_pad divisor_override C IH IW OH OW)
      as (out & -> & Hs & _ & _ & _ & Hel); try done; [congruence|].
    exists out. split_and!; [done|done|exact Hdivs|].
    intros idx c oh ow Hidx Hc Hoh How Hempty.
    apply Forall2_nil_inv_r in Hidx as ->. cbn [app].
    rewrite Hel by done. unfold avg_pool_cell. by rewrite Hempty.
  - apply Forall_cons in Hlead as [HN _].
    destruct Hfi as [Hfi | Hfi].
    + destruct (avg_pool2d_kernel_impl_packed_4d output input kW kH dW dH padW padH
                  count_include_pad divisor_override N C IH IW OH OW)
        as (out & -> & Hs & _ & _ & _ & Hel); try done; [congruence|].
      exists out. split_and!; [done|done|exact Hdivs|].
      intros idx c oh ow Hidx Hc Hoh How Hempty.
      apply Forall2_cons_inv_r in Hidx as (n & idx' & Hn & Hidx & ->).
      apply Forall2_nil_inv_r in Hidx as ->. cbn [app].
      rewrite Hel by done. unfold avg_pool_cell. by rewrite Hempty.
    + destruct (avg_pool2d_kernel_impl_channels_last_empty output input
                  kW kH dW dH padW padH count_include_pad divisor_override
                  N C IH IW OH OW)
        as (out & -> & Hs & _ & _ & _ & Hel); try done; [congruence|].
      exists out. split_and!; [done|done|exact Hdivs|].
      intros idx c oh ow Hidx Hc Hoh How Hempty.
      apply Forall2_cons_inv_r in Hidx as (n & idx' & Hn & Hidx & ->).
      apply Forall2_nil_inv_r in Hidx as ->. cbn [app].
      by apply Hel.
Qed.
End EmptyWindows.

Section EmptyWindowsWitness.
Import AveragePool Instances.
#[local] Existing Instance runtime_Z.
#[local] Existing Instance arith_Long.

(** Kernel 1, stride 3, padding -1 on a 5x5 plane in channels-last
    layout, the output size rounded up to 2x2: the window of the output
    position (1, 1) would start at row 4, where the input shortened by
    the padding ends, and the cell that held 7 holds 0 afterwards. *)
Lemma avg_pool2d_empty_window_zero_witness :
  let output : Tensor Z := mkTensor [1; 1; 2; 2] ChannelsLast Long [7; 7; 7; 7] in
  let input : Tensor Z := mkTensor [1; 1; 5; 5] ChannelsLast Long (seqZ 1 25) in
  ∃ out,
    avg_pool2d_kernel_impl output input 1 1 3 3 (-1) (-1) false (Some 3) = Ok out ∧
    window_empty (pooling_window 1 1 1 1 3 3 (-1) (-1) 5 5) = true ∧
    element out [0; 0; 1; 1] = 0.
Proof.
  intros output input.
  destruct (avg_pool2d_empty_window_zero output input 1 1 3 3 (-1) (-1) true false
              (Some 3) [1] 1 5 5) as (out & Hk & _ & _ & Hel); [concrete..|].
  exists out. split_and!; [exact Hk|reflexivity|].
  apply (Hel [0] 0 1 1); concrete.
Defined.
End EmptyWindowsWitness.


(** ** Argument lists that are rejected *)

Section ArgumentChecks.
Import AveragePool.
Context {A : Type} `{!Inhabited A, !Runtime A, !Arith A}.

Lemma safe_downcast_int_cases (v : Z) :
  safe_downcast_int v = Ok v ∨
  safe_downcast_int v = Err (c10_Error "integer out of range" []).
Proof.
  unfold safe_downcast_int, TORCH_CHECK. case_bool_decide; [by left|by right].
Qed.

Lemma forward_arguments_rejected (kernel_size stride padding : list Z)
    (ceil_mode count_include_pad : bool) (divisor_override : option Z) :
  (length kernel_size ≠ 1 ∧ length kernel_size ≠ 2)%nat ∨
  (length stride ≠ 0 ∧ length stride ≠ 1 ∧ length stride ≠ 2)%nat ∨
  (length padding ≠ 1 ∧ length padding ≠ 2)%nat ∨
  divisor_override = Some 0 →
  ∃ msg, ∀ input : Tensor A,
    avg_pool2d_out_cpu input kernel_size stride padding ceil_mode count_include_pad
      divisor_override = Err (c10_Error msg []).
Proof.
  intros Hbad. unfold avg_pool2d_out_cpu, TORCH_CHECK.
  destruct (decide (length kernel_size = 1%nat ∨ length kernel_size = 2%nat)) as [Hk|Hk];
    [rewrite (bool_decide_eq_true_2 _ Hk)
    |rewrite (bool_decide_eq_false_2 _ Hk); eexists; intros; reflexivity].
  cbn [mbind result_bind].
  assert (∃ kH kW, at_ kernel_size 0 = Ok kH ∧
            (if bool_decide (length kernel_size = 1%nat) then Ok kH
             else at_ kernel_size 1) = Ok kW) as (kH & kW & -> & HkW).
  { destruct kernel_size as [|a [|b [|]]]; simpl in Hk; try lia; by eexists _, _. }
  cbn [mbind result_bind]. rewrite HkW. cbn [mbind result_bind].
  destruct (decide (stride = [] ∨ length stride = 1%nat ∨ length stride = 2%nat)) as [Hs|Hs];
    [rewrite (bool_decide_eq_true_2 _ Hs)
    |rewrite (bool_decide_eq_false_2 _ Hs); eexists; intros; reflexivity].
  cbn [mbind result_bind].
  assert (∃ dH dW, (if bool_decide (stride = []) then Ok kH else at_ stride 0) = Ok dH ∧
            (if bool_decide (stride = []) then Ok kW
             else if bool_decide (length stride = 1%nat) then Ok dH
                  else at_ stride 1) = Ok dW) as (dH & dW & -> & HdW).
  { destruct stride as [|a [|b [|]]]; by eexists _, _. }
  cbn [mbind result_bind]. rewrite HdW. cbn [mbind result_bind].
  destruct (decide (length padding = 1%nat ∨ length padding = 2%nat)) as [Hp|Hp];
    [rewrite (bool_decide_eq_true_2 _ Hp)
    |rewrite (bool_decide_eq_false_2 _ Hp); eexists; intros; reflexivity].
  cbn [mbind result_bind].
  assert (∃ padH padW, at_ padding 0 = Ok padH ∧
            (if bool_decide (length padding = 1%nat) then Ok padH
             else at_ padding 1) = Ok padW) as (padH & padW & -> & HpW).
  { destruct padding as [|a [|b [|]]]; simpl in Hp; try lia; by eexists _, _. }
  cbn [mbind result_bind]. rewrite HpW. cbn [mbind result_bind].
  destruct Hbad as [?|[Hbad|[?|Hd]]]; [lia| |lia|rewrite Hd; eexists; intros; reflexivity].
  exfalso. destruct Hs as [Hs|?]; [rewrite Hs in Hbad; simpl in Hbad|]; lia.
Qed.

Lemma backward_arguments_rejected (kernel_size stride padding : list Z)
    (ceil_mode count_include_pad : bool) (divisor_override : option Z) :
  (length kernel_size ≠ 1 ∧ length kernel_size ≠ 2)%nat ∨
  (length stride ≠ 0 ∧ length stride ≠ 1 ∧ length stride ≠ 2)%nat ∨
  (length padding ≠ 1 ∧ length padding ≠ 2)%nat ∨
  divisor_override = Some 0 →
  ∃ msg, ∀ gradOutput input : Tensor A,
    avg_pool2d_backward_out_cpu gradOutput input kernel_size stride padding ceil_mode
      count_include_pad divisor_override = Err (c10_Error msg []).
Proof.
  intros Hbad. unfold avg_pool2d_backward_out_cpu, TORCH_CHECK.
  destruct (decide (length kernel_size = 1%nat ∨ length kernel_size = 2%nat)) as [Hk|Hk];
    [rewrite (bool_decide_eq_true_2 _ Hk)
    |rewrite (bool_decide_eq_false_2 _ Hk); eexists; intros; reflexivity].
  cbn [mbind result_bind].
  assert (∀ (l : list Z) (i : nat), (i < length l)%nat →
            at_ l i ≫= safe_downcast_int = Ok (l !!! i) ∨
            at_ l i ≫= safe_downcast_int = Err (c10_Error "integer out of range" []))
    as Hat.
  { intros l i Hi. unfold at_.
    destruct (lookup_lt_is_Some_2 l i Hi) as [x Hx].
    rewrite Hx, (list_lookup_total_correct _ _ _ Hx). cbn [mbind result_bind].
    apply safe_downcast_int_cases. }
  destruct (Hat kernel_size 0%nat ltac:(lia)) as [-> | ->]; [|eexists; intros; reflexivity].
  cbn [mbind result_bind].
  assert ((∃ kW, (if bool_decide (length kernel_size = 1%nat)
                  then Ok (kernel_size !!! 0%nat)
                  else at_ kernel_size 1 ≫= safe_downcast_int) = Ok kW) ∨
          (if bool_decide (length kernel_size = 1%nat)
           then Ok (kernel_size !!! 0%nat)
           else at_ kernel_size 1 ≫= safe_downcast_int) =
            Err (c10_Error "integer out of range" [])) as [[kW ->] | ->];
    [|cbn [mbind result_bind]|eexists; intros; reflexivity].
  { case_bool_decide; [left; by eexists|].
    destruct (Hat kernel_size 1%nat ltac:(lia)) as [-> | ->]; [left; by eexists|by right]. }
  destruct (decide (stride = [] ∨ length stride = 1%nat ∨ length stride = 2%nat)) as [Hs|Hs];
    [rewrite (bool_decide_eq_true_2 _ Hs)
    |rewrite (bool_decide_eq_false_2 _ Hs); eexists; intros; reflexivity].
  cbn [mbind result_bind].
  assert (length stride = 0 ∨ length stride = 1 ∨ length stride = 2)%nat as Hs'.
  { destruct Hs as [Hs|[?|?]]; [rewrite Hs; simpl|..]; lia. }
  assert ((∃ dH, (if bool_decide (stride = []) then Ok (kernel_size !!! 0%nat)
                  else at_ stride 0 ≫= safe_downcast_int) = Ok dH) ∨
          (if bool_decide (stride = []) then Ok (kernel_size !!! 0%nat)
           else at_ stride 0 ≫= safe_downcast_int) =
            Err (c10_Error "integer out of range" [])) as [[dH ->] | ->];
    [|cbn [mbind result_bind]|eexists; intros; reflexivity].
  { case_bool_decide as Hse; [left; by eexists|].
    destruct (Hat stride 0%nat) as [-> | ->]; [|left; by eexists|by right].
    destruct stride; [done|simpl; lia]. }
  assert ((∃ dW, (if bool_decide (stride = []) then Ok kW
                  else if bool_decide (length stride = 1%nat) then Ok dH
                       else at_ stride 1 ≫= safe_downcast_int) = Ok dW) ∨
          (if bool_decide (stride = []) then Ok kW
           else if bool_decide (length stride = 1%nat) then Ok dH
                else at_ stride 1 ≫= safe_downcast_int) =
            Err (c10_Error "integer out of range" [])) as [[dW ->] | ->];
    [|cbn [mbind result_bind]|eexists; intros; reflexivity].
  { case_bool_decide as Hse; [left; by eexists|].
    case_bool_decide as Hs1; [left; by eexists|].
    destruct (Hat stride 1%nat) as [-> | ->]; [|left; by eexists|by right].
    destruct stride; [done|simpl in *; lia]. }
  destruct (decide (length padding = 1%nat ∨ length padding = 2%nat)) as [Hp|Hp];
    [rewrite (bool_decide_eq_true_2 _ Hp)
    |rewrite (bool_decide_eq_false_2 _ Hp); eexists; intros; reflexivity].
  cbn [mbind result_bind].
  destruct (Hat padding 0%nat ltac:(lia)) as [-> | ->]; [|eexists; intros; reflexivity].
  cbn [mbind result_bind].
  assert ((∃ padW, (if bool_decide (length padding = 1%nat)
                    then Ok (padding !!! 0%nat)
                    else at_ padding 1 ≫= safe_downcast_int) = Ok padW) ∨
          (if bool_decide (length padding = 1%nat)
           then Ok (padding !!! 0%nat)
           else at_ padding 1 ≫= safe_downcast_int) =
            Err (c10_Error "integer out of range" [])) as [[padW ->] | ->];
    [|cbn [mbind result_bind]|eexists; intros; reflexivity].
  { case_bool_decide; [left; by eexists|].
    destruct (Hat padding 1%nat ltac:(lia)) as [-> | ->]; [left; by eexists|by right]. }
  destruct Hbad as [?|[?|[?|Hd]]]; [lia|lia|lia|rewrite Hd; eexists; intros; reflexivity].
Qed.

(** C7, amended. A kernel or padding list whose length is not 1 or 2, a
    stride list whose length is not 0, 1 or 2, or a divisor override of
    zero makes both entry points fail with a [c10::Error] that does not
    depend on the tensors: the call fails before a tensor is looked at,
    and no output is produced. *)
Theorem avg_pool2d_arguments_rejected (kernel_size stride padding : list Z)
    (ceil_mode count_include_pad : bool) (divisor_override : option Z) :
  (length kernel_size ≠ 1 ∧ length kernel_size ≠ 2)%nat ∨
  (length stride ≠ 0 ∧ length stride ≠ 1 ∧ length stride ≠ 2)%nat ∨
  (length padding ≠ 1 ∧ length padding ≠ 2)%nat ∨
  divisor_override = Some 0 →
  ∃ msg_forward msg_backward, ∀ gradOutput input : Tensor A,
    avg_pool2d_out_cpu input kernel_size stride padding ceil_mode count_include_pad
      divisor_override = Err (c10_Error msg_forward []) ∧
    avg_pool2d_backward_out_cpu gradOutput input kernel_size stride padding ceil_mode
      count_include_pad divisor_override = Err (c10_Error msg_backward []).
Proof.
  intros Hbad.
  destruct (forward_arguments_rejected kernel_size stride padding ceil_mode
              count_include_pad divisor_override Hbad) as [mf Hf].
  destruct (backward_arguments_rejected kernel_size stride padding ceil_mode
              count_include_pad divisor_override Hbad) as [mb Hb].
  exists mf, mb. intros gradOutput input. by rewrite Hf, Hb.
Qed.
End ArgumentChecks.

Section ArgumentChecksExamples.
Import AveragePool Instances.
#[local] Existing Instance runtime_Z.
#[local] Existing Instance arith_Long.

(** A stride list of three entries and a divisor override of zero. *)
Lemma avg_pool2d_arguments_rejected_witness :
  ∃ msg_forward msg_backward, ∀ gradOutput input : Tensor Z,
    avg_pool2d_out_cpu input [2] [1; 1; 1] [0] false true (Some 0) =
      Err (c10_Error msg_forward []) ∧
    avg_pool2d_backward_out_cpu gradOutput input [2] [1; 1; 1] [0] false true (Some 0) =
      Err (c10_Error msg_backward []).
Proof.
  apply (avg_pool2d_arguments_rejected [2] [1; 1; 1] [0] false true (Some 0)).
  right. left. simpl. lia.
Defined.

(** A stride list of length 0, which is neither 1 nor 2, is not
    rejected: the forward pass of a 2x2 plane with kernel 2 returns the
    average of the plane. *)
Lemma avg_pool2d_omitted_stride_not_rejected :
  (length ([] : list Z) ≠ 1 ∧ length ([] : list Z) ≠ 2)%nat ∧
  avg_pool2d_out_cpu (mkTensor [1; 2; 2] Contiguous Long [1; 2; 3; 6])
    [2] [] [0] false true None =
    Ok (mkTensor [1; 1; 1] Contiguous Long [3]).
Proof. split; [simpl; lia|]. by vm_compute. Qed.
End ArgumentChecksExamples.


(** ** The guard of the convolution+elu fusion *)

Section FusionGuard.
Import GraphRewrite.

(** C8. When the pattern value [input_scale] of a match is bound to a
    constant of the graph that is a double or an int, the guard
    [filter_conv2d_elu] accepts the match exactly when the constant
    compares equal to 1.0 (a double) or is 1 (an int); the rewriter then
    replaces the matched subgraph in the first case and returns the
    graph as it was in the second. *)
Theorem conv_elu_fused_iff_identity_scale (replace : Graph → Match → Graph)
    (g : Graph) (m : Match) (vmap : gmap string Value) (pv v : Value) (c : IValue) :
  vmap !! "input_scale" = Some pv →
  values_map m !! pv = Some v →
  constant_of g !! v = Some c →
  (∃ d, c = IDouble d) ∨ (∃ z, c = IInt z) →
  let identity :=
    match c with
    | IDouble d => PrimFloat.eqb d 1%float
    | IInt z => bool_decide (z = 1)
    | _ => false
    end in
  filter_conv2d_elu g m vmap = Ok identity ∧
  rewrite_match filter_conv2d_elu replace g m vmap =
    Ok (if identity then replace g m else g) ∧
  (identity = false → rewrite_match filter_conv2d_elu replace g m vmap = Ok g).
Proof.
  intros Hvm Hmv Hc Hkind identity.
  assert (filter_conv2d_elu g m vmap = Ok identity) as Hf.
  { unfold filter_conv2d_elu, getIValue. rewrite Hvm, Hmv, Hc.
    by destruct Hkind as [[d ->] | [z ->]]. }
  unfold rewrite_match. rewrite Hf. cbn [mbind result_bind].
  split_and!; [done|done|]. by intros ->.
Qed.

(** A scale of 2.0: the guard rejects, the graph stays as it is. *)
Lemma conv_elu_fused_iff_identity_scale_witness :
  let g := mkGraph [mkNode "prim::Constant" [] 7%positive] {[ 7%positive := IDouble 2%float ]} in
  let m := mkMatch {[ 3%positive := 7%positive ]} in
  let vmap : gmap string Value := {[ "input_scale" := 3%positive ]} in
  rewrite_match filter_conv2d_elu (λ _ _, mkGraph [] ∅) g m vmap = Ok g.
Proof.
  intros g m vmap.
  refine (proj2 (proj2
    (conv_elu_fused_iff_identity_scale (λ _ _, mkGraph [] ∅) g m vmap 3%positive 7%positive
       (IDouble 2%float) _ _ _ _)) _);
    [reflexivity|reflexivity|reflexivity|left; by eexists|reflexivity].
Defined.
End FusionGuard.


(** ** The element types the operators dispatch on *)

Section Dispatch.
Import PixelShuffle AveragePool.
Context {A : Type} `{!Inhabited A, !Runtime A, !Arith A}.

Lemma fmap_not_ok {T U} (f : T → U) (m : result T) :
  is_Ok m = false → is_Ok (f <$> m) = false.
Proof. by destruct m. Qed.

Lemma pixel_shuffle_cpu_rejects (x : Tensor A) (F : Z) :
  ¬ floating (scalar_type x) → is_Ok (pixel_shuffle_cpu x F) = false.
Proof.
  intros Hty. unfold pixel_shuffle_cpu.
  repeat (apply bind_not_ok; intros ? ?).
  destruct (contiguous_dtype x _ _ ltac:(eassumption)) as [Hd _].
  apply kernels_reject_dtype. by rewrite Hd.
Qed.

Lemma pixel_unshuffle_cpu_rejects (x : Tensor A) (F : Z) :
  ¬ floating (scalar_type x) → is_Ok (pixel_unshuffle_cpu x F) = false.
Proof.
  intros Hty. unfold pixel_unshuffle_cpu.
  repeat (apply bind_not_ok; intros ? ?).
  destruct (contiguous_dtype x _ _ ltac:(eassumption)) as [Hd _].
  apply kernels_reject_dtype. by rewrite Hd.
Qed.

(** C10. An input whose element type is not Float or Double makes
    [pixel_shuffle] and [pixel_unshuffle] fail, and each of the four
    kernel dispatchers, forward and backward, fail: in a layout the
    dispatcher has a path for, with the not-implemented error of the
    dispatch macro. The pooling dispatch runs its kernels on Long and
    BFloat16 cells. *)
Theorem pixel_shuffle_floating_only (out x : Tensor A) (F : Z)
    (kW kH dW dH padW padH : Z) (count_include_pad : bool)
    (divisor_override : option Z) :
  ¬ floating (scalar_type x) →
  is_Ok (pixel_shuffle x F) = false ∧
  is_Ok (pixel_unshuffle x F) = false ∧
  (packed_or_channels_last (suggest_memory_format x) →
   ∃ n1 n2 n3 n4,
     pixel_shuffle_kernel out x F = Err (c10_NotImplemented n1 (scalar_type x)) ∧
     pixel_unshuffle_kernel out x F = Err (c10_NotImplemented n2 (scalar_type x)) ∧
     pixel_shuffle_backward_kernel out x F =
       Err (c10_NotImplemented n3 (scalar_type x)) ∧
     pixel_unshuffle_backward_kernel out x F =
       Err (c10_NotImplemented n4 (scalar_type x))) ∧
  (scalar_type x = Long ∨ scalar_type x = BFloat16 →
   avg_pool2d_kernel_impl out x kW kH dW dH padW padH count_include_pad
     divisor_override =
   match suggest_memory_format x with
   | Contiguous =>
       cpu_avg_pool (scalar_type x)
         (if bool_decide (scalar_type x = BFloat16) then Float else scalar_type x)
         out x kW kH dW dH padW padH count_include_pad divisor_override
   | ChannelsLast =>
       cpu_avg_pool_channels_last (scalar_type x) out x kW kH dW dH padW padH
         count_include_pad divisor_override
   | _ => AveragePool.unsupported_memory_format
   end).
Proof.
  intros Hty. split_and!.
  - unfold pixel_shuffle.
    repeat (apply bind_not_ok; intros ? ?).
    destruct GradMode_is_enabled.
    + apply fmap_not_ok. unfold PixelShuffleOp_apply, PixelShuffleOp_forward.
      cbv zeta. apply bind_not_ok. intros ? Hf. exfalso.
      unfold PixelShuffleOp__forward in Hf.
      pose proof (pixel_shuffle_cpu_rejects x F Hty) as Hr. by rewrite Hf in Hr.
    + by apply pixel_shuffle_cpu_rejects.
  - unfold pixel_unshuffle.
    repeat (apply bind_not_ok; intros ? ?).
    destruct GradMode_is_enabled.
    + apply fmap_not_ok. unfold PixelUnshuffleOp_apply, PixelUnshuffleOp_forward.
      cbv zeta. apply bind_not_ok. intros ? Hf. exfalso.
      unfold PixelUnshuffleOp__forward in Hf.
      pose proof (pixel_unshuffle_cpu_rejects x F Hty) as Hr. by rewrite Hf in Hr.
    + by apply pixel_unshuffle_cpu_rejects.
  - unfold pixel_shuffle_kernel, pixel_unshuffle_kernel,
      pixel_shuffle_backward_kernel, pixel_unshuffle_backward_kernel.
    intros [-> | ->]; rewrite !dispatch_not_floating by done; by eexists _, _, _, _.
  - intros Hlb.
    assert (pooling_type (scalar_type x)) as Hp.
    { unfold pooling_type. destruct Hlb; auto. }
    unfold avg_pool2d_kernel_impl.
    destruct (suggest_memory_format x); rewrite ?dispatch_pooling by done; try done.
    case_bool_decide as Hb; [by rewrite Hb|done].
Qed.
End Dispatch.

Section DispatchWitness.
Import PixelShuffle AveragePool Instances.

(** A tensor of [int64] cells is refused by the shuffle. *)
Lemma pixel_shuffle_floating_only_witness :
  let x : Tensor Z := mkTensor [1; 4; 2; 2] Contiguous Long (seqZ 0 16) in
  is_Ok (@pixel_shuffle Z _ runtime_Z x 2) = false.
Proof.
  intros x.
  refine (proj1 (@pixel_shuffle_floating_only Z _ runtime_Z arith_Long x x 2
                   1 1 1 1 0 0 true None _)).
  intros [Hf | Hf]; discriminate Hf.
Defined.
End DispatchWitness.


(** ** Pixel shuffle in logical coordinates *)

Section PixelShuffleElements.
Import PixelShuffle.
Context {A : Type} `{!Inhabited A, !Runtime A}.

Lemma ravel_from_app (q : Z) (xs ys Xs Ys : list Z) :
  length xs = length Xs →
  ravel_from q (xs ++ ys) (Xs ++ Ys) = ravel_from (ravel_from q xs Xs) ys Ys.
Proof.
  intros Hl. unfold ravel_from.
  assert (zip (xs ++ ys) (Xs ++ Ys) = zip xs Xs ++ zip ys Ys) as ->
    by by apply zip_with_app.
  by rewrite foldl_app.
Qed.

Lemma offset_of_lead (t : Tensor A) (lead idx : list Z) (C H W c h w : Z) :
  sizes t = lead ++ [C; H; W] → suggest_memory_format t = Contiguous →
  length idx = length lead →
  offset_of t (idx ++ [c; h; w]) = ((ravel idx lead * C + c) * H + h) * W + w.
Proof.
  intros Hs Hf Hl. unfold offset_of. rewrite Hs, Hf. cbn [to_physical].
  unfold ravel. rewrite ravel_from_app by done. unfold ravel_from. simpl. lia.
Qed.

Lemma ravel_lead_bounds (lead idx : list Z) :
  Forall2 (λ x X, 0 ≤ x < X) idx lead → 0 ≤ ravel idx lead < prod_sizes lead.
Proof.
  intros Hb. pose proof (ravel_from_bounds 0 idx lead ltac:(lia) Hb).
  unfold ravel. lia.
Qed.

Lemma well_formed_sizes (t : Tensor A) (lead : list Z) (C H W : Z) :
  well_formed t → sizes t = lead ++ [C; H; W] →
  Forall (λ s, 0 ≤ s) lead ∧ 0 ≤ C ∧ 0 ≤ H ∧ 0 ≤ W ∧
  (suggest_memory_format t = ChannelsLast → ∃ N, lead = [N] ∧ 0 < N).
Proof.
  intros (_ & Hnn & Hf) Hs. rewrite Hs in Hnn.
  apply Forall_app in Hnn as [Hlead Hnn].
  repeat (apply Forall_cons in Hnn as [? Hnn]).
  split_and!; try done.
  intros Hcl. rewrite Hcl, Hs in Hf. destruct Hf as [Hl Hpos].
  rewrite length_app in Hl. simpl in Hl.
  destruct lead as [|N [|]]; simpl in Hl; try lia.
  exists N. split; [done|]. by apply Forall_cons in Hpos as [? _].
Qed.

(** [pixel_shuffle]: the output element at channel [c] and position
    [(h*F + i, w*F + j)] is the input element at channel
    [c*F*F + i*F + j] and position [(h, w)]. *)
Lemma pixel_shuffle_elements (x : Tensor A) (F : Z) (lead : list Z) (sub H W : Z) :
  well_formed x → floating (scalar_type x) →
  packed_or_channels_last (suggest_memory_format x) →
  sizes x = lead ++ [sub * F * F; H; W] →
  0 < sub → 0 < H → 0 < W → 0 < F →
  ∃ z, pixel_shuffle x F = Ok z ∧
       sizes z = lead ++ [sub; H * F; W * F] ∧
       suggest_memory_format z = suggest_memory_format x ∧
       scalar_type z = scalar_type x ∧
       length (data_ptr z) = Z.to_nat (numel z) ∧
       ∀ idx c h i w j,
         Forall2 (λ x X, 0 ≤ x < X) idx lead →
         0 ≤ c < sub → 0 ≤ h < H → 0 ≤ i < F → 0 ≤ w < W → 0 ≤ j < F →
         element z (idx ++ [c; h * F + i; w * F + j]) =
         element x (idx ++ [c * F * F + i * F + j; h; w]).
Proof.
  intros Hwf Hty Hfmt Hs Hsub HH HW HF.
  destruct (well_formed_sizes x lead _ H W Hwf Hs) as (Hlead & _ & _ & _ & Hcl).
  rewrite (pixel_shuffle_checked x F lead (sub * F * F) H W); [|done|done|].
  2: { replace (sub * F * F) with (sub * (F * F)) by lia. apply Z.rem_mul. lia. }
  assert (numel x = prod_sizes (lead ++ [sub; H * F; W * F])) as Hnum.
  { unfold numel. rewrite Hs, !prod_sizes_last3. lia. }
  destruct Hfmt as [Hf | Hf].
  - destruct (pixel_shuffle_cpu_packed x F lead sub H W) as (out & -> & Hl & Hout);
      try done.
    eexists. split; [reflexivity|].
    cbn [sizes suggest_memory_format scalar_type data_ptr].
    split_and!; try done.
    { unfold numel. cbn [sizes]. by rewrite Hl, Hnum. }
    intros idx c h i w j Hidx Hc Hh Hi Hw Hj.
    pose proof (ravel_lead_bounds lead idx Hidx) as Hn.
    pose proof (Forall2_length _ _ _ Hidx) as Hlen.
    unfold element at 1. cbn [data_ptr].
    erewrite load_lookup.
    2: { rewrite <- (Hout (ravel idx lead) c h i w j) by done. f_equal. f_equal.
         unfold offset_of. cbn [sizes suggest_memory_format to_physical].
         unfold ravel at 1. rewrite ravel_from_app by done.
         change (ravel_from 0 idx lead) with (ravel idx lead).
         generalize (ravel idx lead). intros n'.
         unfold ravel, ravel_from. simpl. lia. }
    unfold element. f_equal.
    rewrite (offset_of_lead x lead idx (sub * F * F) H W) by done.
    generalize (ravel idx lead). intros n'.
    unfold ravel, ravel_from. simpl. lia.
  - destruct (Hcl Hf) as (N & -> & HN). cbn [app] in *.
    destruct (pixel_shuffle_cpu_channels_last x F N sub H W) as (out & -> & Hl & Hout);
      try done.
    eexists. split; [reflexivity|].
    cbn [sizes suggest_memory_format scalar_type data_ptr].
    split_and!; try done.
    { unfold numel. cbn [sizes]. by rewrite Hl, Hnum. }
    intros idx c h i w j Hidx Hc Hh Hi Hw Hj.
    apply Forall2_cons_inv_r in Hidx as (n & idx' & Hn & Hidx & ->).
    apply Forall2_nil_inv_r in Hidx as ->. cbn [app].
    unfold element at 1. cbn [data_ptr].
    erewrite load_lookup.
    2: { rewrite <- (Hout n c h i w j) by done. f_equal. f_equal.
         unfold offset_of, ravel, ravel_from. simpl. lia. }
    unfold element. f_equal.
    rewrite (offset_of_channels_last x N (sub * F * F) H W) by done.
    unfold ravel, ravel_from. simpl. lia.
Qed.

(** [pixel_unshuffle]: the output element at channel [c*F*F + i*F + j]
    and position [(h, w)] is the input element at channel [c] and
    position [(h*F + i, w*F + j)]. *)
Lemma pixel_unshuffle_elements (x : Tensor A) (F : Z) (lead : list Z) (C H W : Z) :
  well_formed x → floating (scalar_type x) →
  packed_or_channels_last (suggest_memory_format x) →
  sizes x = lead ++ [C; H * F; W * F] →
  0 < C → 0 < H → 0 < W → 0 < F →
  ∃ z, pixel_unshuffle x F = Ok z ∧
       sizes z = lead ++ [C * F * F; H; W] ∧
       suggest_memory_format z = suggest_memory_format x ∧
       scalar_type z = scalar_type x ∧
       length (data_ptr z) = Z.to_nat (numel z) ∧
       ∀ idx c h i w j,
         Forall2 (λ x X, 0 ≤ x < X) idx lead →
         0 ≤ c < C → 0 ≤ h < H → 0 ≤ i < F → 0 ≤ w < W → 0 ≤ j < F →
         element z (idx ++ [c * F * F + i * F + j; h; w]) =
         element x (idx ++ [c; h * F + i; w * F + j]).
Proof.
  intros Hwf Hty Hfmt Hs HC HH HW HF.
  destruct (well_formed_sizes x lead _ _ _ Hwf Hs) as (Hlead & _ & _ & _ & Hcl).
  rewrite (pixel_unshuffle_checked x F lead C (H * F) (W * F));
    [|done|done|by apply Z.rem_mul; lia|by apply Z.rem_mul; lia].
  assert (numel x = prod_sizes (lead ++ [C * F * F; H; W])) as Hnum.
  { unfold numel. rewrite Hs, !prod_sizes_last3. lia. }
  destruct Hfmt as [Hf | Hf].
  - destruct (pixel_unshuffle_cpu_packed x F lead C H W) as (out & -> & Hl & Hout);
      try done.
    eexists. split; [reflexivity|].
    cbn [sizes suggest_memory_format scalar_type data_ptr].
    split_and!; try done.
    { unfold numel. cbn [sizes]. by rewrite Hl, Hnum. }
    intros idx c h i w j Hidx Hc Hh Hi Hw Hj.
    pose proof (ravel_lead_bounds lead idx Hidx) as Hn.
    pose proof (Forall2_length _ _ _ Hidx) as Hlen.
    unfold element at 1. cbn [data_ptr].
    erewrite load_lookup.
    2: { rewrite <- (Hout (ravel idx lead) c h i w j) by done. f_equal. f_equal.
         unfold offset_of. cbn [sizes suggest_memory_format to_physical].
         unfold ravel at 1. rewrite ravel_from_app by done.
         change (ravel_from 0 idx lead) with (ravel idx lead).
         generalize (ravel idx lead). intros n'.
         unfold ravel, ravel_from. simpl. lia. }
    unfold element. f_equal.
    rewrite (offset_of_lead x lead idx C (H * F) (W * F)) by done.
    generalize (ravel idx lead). intros n'.
    unfold ravel, ravel_from. simpl. lia.
  - destruct (Hcl Hf) as (N & -> & HN). cbn [app] in *.
    destruct (pixel_unshuffle_cpu_channels_last x F N C H W)
      as (out & -> & Hl & Hout); try done.
    eexists. split; [reflexivity|].
    cbn [sizes suggest_memory_format scalar_type data_ptr].
    split_and!; try done.
    { unfold numel. cbn [sizes]. by rewrite Hl, Hnum. }
    intros idx c h i w j Hidx Hc Hh Hi Hw Hj.
    apply Forall2_cons_inv_r in Hidx as (n & idx' & Hn & Hidx & ->).
    apply Forall2_nil_inv_r in Hidx as ->. cbn [app].
    unfold element at 1. cbn [data_ptr].
    erewrite load_lookup.
    2: { rewrite <- (Hout n c h i w j) by done. f_equal. f_equal.
         unfold offset_of, ravel, ravel_from. simpl. lia. }
    unfold element. f_equal.
    rewrite (offset_of_channels_last x N C (H * F) (W * F)) by done.
    unfold ravel, ravel_from. simpl. lia.
Qed.
End PixelShuffleElements.


Section PixelShuffleMaps.
Import PixelShuffle.
Context {A : Type} `{!Inhabited A, !Runtime A}.

Lemma split_coord (k X F : Z) :
  0 < F → 0 ≤ k < X * F → ∃ h i, k = h * F + i ∧ 0 ≤ h < X ∧ 0 ≤ i < F.
Proof.
  intros HF Hk. exists (k `div` F), (k `mod` F).
  pose proof (Z.div_mod k F ltac:(lia)). pose proof (Z.mod_pos_bound k F HF).
  split_and!; try lia.
  - apply Z.div_pos; lia.
  - apply Z.div_lt_upper_bound; lia.
Qed.

Lemma rem_zero_multiple' (C D : Z) :
  0 ≤ C → C ≠ 0 → 0 < D → C `rem` D = 0 → ∃ sub, 0 < sub ∧ C = sub * D.
Proof. intros. apply rem_zero_multiple; lia. Qed.

(** The index maps of the two operators: [pixel_shuffle] moves the
    element of channel [c*F*F + i*F + j] at [(h, w)] to channel [c] at
    [(h*F + i, w*F + j)], and [pixel_unshuffle] moves it back, under any
    leading dimensions, in both layouts. *)
Theorem pixel_shuffle_index_map (x : Tensor A) (F : Z) (lead : list Z) (C H W : Z) :
  well_formed x → floating (scalar_type x) →
  packed_or_channels_last (suggest_memory_format x) →
  sizes x = lead ++ [C; H; W] →
  0 < F → C ≠ 0 → H ≠ 0 → W ≠ 0 →
  (C `rem` (F * F) = 0 →
   ∃ z, pixel_shuffle x F = Ok z ∧
     ∀ idx c h i w j,
       Forall2 (λ x X, 0 ≤ x < X) idx lead →
       0 ≤ c < C `quot` (F * F) → 0 ≤ h < H → 0 ≤ i < F → 0 ≤ w < W → 0 ≤ j < F →
       element z (idx ++ [c; h * F + i; w * F + j]) =
       element x (idx ++ [c * F * F + i * F + j; h; w])) ∧
  (H `rem` F = 0 → W `rem` F = 0 →
   ∃ z, pixel_unshuffle x F = Ok z ∧
     ∀ idx c h i w j,
       Forall2 (λ x X, 0 ≤ x < X) idx lead →
       0 ≤ c < C → 0 ≤ h < H `quot` F → 0 ≤ i < F → 0 ≤ w < W `quot` F → 0 ≤ j < F →
       element z (idx ++ [c * F * F + i * F + j; h; w]) =
       element x (idx ++ [c; h * F + i; w * F + j])).
Proof.
  intros Hwf Hty Hfmt Hs HF HC HH HW.
  destruct (well_formed_sizes x lead C H W Hwf Hs) as (_ & HC0 & HH0 & HW0 & _).
  split.
  - intros Hrem.
    destruct (rem_zero_multiple' C (F * F)) as (sub & Hsub & ->); [lia..|].
    rewrite Z.quot_mul by lia.
    replace (sub * (F * F)) with (sub * F * F) in Hs by lia.
    destruct (pixel_shuffle_elements x F lead sub H W)
      as (z & Hz & _ & _ & _ & _ & Hel); try done; try lia.
    exists z. split; [done|]. intros. by apply Hel.
  - intros HremH HremW.
    destruct (rem_zero_multiple' H F) as (H' & HH' & ->); [lia..|].
    destruct (rem_zero_multiple' W F) as (W' & HW' & ->); [lia..|].
    rewrite !Z.quot_mul by lia.
    destruct (pixel_unshuffle_elements x F lead C H' W')
      as (z & Hz & _ & _ & _ & _ & Hel); try done; try lia.
    exists z. split; [done|]. intros. by apply Hel.
Qed.

Lemma well_formed_intro (t : Tensor A) (lead : list Z) (C H W : Z) :
  sizes t = lead ++ [C; H; W] →
  length (data_ptr t) = Z.to_nat (numel t) →
  Forall (λ s, 0 ≤ s) lead → 0 < C → 0 < H → 0 < W →
  suggest_memory_format t = Contiguous ∨
  (suggest_memory_format t = ChannelsLast ∧ ∃ N, lead = [N] ∧ 0 < N) →
  well_formed t.
Proof.
  intros Hs Hl Hlead HC HH HW Hf. unfold well_formed. split_and!; [done| |].
  - rewrite Hs. apply Forall_app. split; [done|]. repeat constructor; lia.
  - destruct Hf as [-> | (-> & N & -> & HN)]; [done|].
    rewrite Hs. split; [done|]. repeat constructor; lia.
Qed.

(** Shuffling an unshuffled tensor gives the tensor back: shape, layout,
    element type and every element. *)
Lemma pixel_shuffle_pixel_unshuffle_cells (x : Tensor A) (F : Z) (lead : list Z)
    (C H W : Z) :
  well_formed x → floating (scalar_type x) →
  packed_or_channels_last (suggest_memory_format x) →
  sizes x = lead ++ [C; H; W] →
  0 < F → H `rem` F = 0 → W `rem` F = 0 →
  C ≠ 0 → H ≠ 0 → W ≠ 0 →
  pixel_unshuffle x F ≫= (λ z, pixel_shuffle z F) = Ok x.
Proof.
  intros Hwf Hty Hfmt Hs HF HremH HremW HC HH HW.
  destruct (well_formed_sizes x lead C H W Hwf Hs) as (Hlead & HC0 & HH0 & HW0 & Hcl).
  destruct (rem_zero_multiple' H F) as (H' & HH' & ->); [lia..|].
  destruct (rem_zero_multiple' W F) as (W' & HW' & ->); [lia..|].
  destruct (pixel_unshuffle_elements x F lead C H' W')
    as (u & -> & Hus & Huf & Hud & Hul & Huel); try done; try lia.
  cbn [mbind result_bind].
  assert (well_formed u) as Hwfu.
  { apply (well_formed_intro u lead (C * F * F) H' W'); try done; try nia.
    rewrite Huf. destruct Hfmt as [Hf | Hf]; [by left|right]. split; [done|].
    by apply Hcl. }
  destruct (pixel_shuffle_elements u F lead C H' W')
    as (s & -> & Hss & Hsf & Hsd & Hsl & Hsel); try done; try lia;
    [by rewrite Hud|by rewrite Huf|].
  f_equal. apply tensor_ext; try congruence.
  - rewrite Hss. apply Forall_app. split; [done|]. repeat constructor; nia.
  - by destruct Hwf.
  - intros xs Hxs. rewrite Hss in Hxs.
    apply Forall2_app_inv_r in Hxs as (idx & tl & Hidx & Htl & ->).
    apply Forall2_cons_inv_r in Htl as (c & tl1 & Hc & Htl & ->).
    apply Forall2_cons_inv_r in Htl as (hh & tl2 & Hhh & Htl & ->).
    apply Forall2_cons_inv_r in Htl as (ww & tl3 & Hww & Htl & ->).
    apply Forall2_nil_inv_r in Htl as ->.
    destruct (split_coord hh H' F HF Hhh) as (h & i & -> & Hh & Hi).
    destruct (split_coord ww W' F HF Hww) as (w & j & -> & Hw & Hj).
    rewrite Hsel, Huel by done. done.
Qed.

(** The round trip in the other order:
    [pixel_shuffle(pixel_unshuffle(x, F), F)] returns [x] itself. *)
Theorem pixel_shuffle_pixel_unshuffle (x : Tensor A) (F : Z) (lead : list Z) (C H W : Z) :
  well_formed x → floating (scalar_type x) →
  packed_or_channels_last (suggest_memory_format x) →
  sizes x = lead ++ [C; H; W] →
  0 < F → H `rem` F = 0 → W `rem` F = 0 →
  C ≠ 0 → H ≠ 0 → W ≠ 0 →
  pixel_unshuffle x F ≫= (λ z, pixel_shuffle z F) = Ok x.
Proof. apply pixel_shuffle_pixel_unshuffle_cells. Qed.
End PixelShuffleMaps.

Section PixelShuffleRuntime.
Import PixelShuffle.
Context {A : Type} `{!Inhabited A}.

(** The result of the two operators is the same for every number of
    threads, with gradient mode on or off, and whatever fresh storage
    holds: every cell of the output is written, by one thread. *)
Theorem pixel_shuffle_runtime_independent (R1 R2 : Runtime A)
    (x : Tensor A) (F : Z) (lead : list Z) (C H W : Z) :
  well_formed x → floating (scalar_type x) →
  packed_or_channels_last (suggest_memory_format x) →
  sizes x = lead ++ [C; H; W] →
  0 < F → C ≠ 0 → H ≠ 0 → W ≠ 0 →
  (C `rem` (F * F) = 0 →
   @pixel_shuffle A _ R1 x F = @pixel_shuffle A _ R2 x F) ∧
  (H `rem` F = 0 → W `rem` F = 0 →
   @pixel_unshuffle A _ R1 x F = @pixel_unshuffle A _ R2 x F).
Proof.
  intros Hwf Hty Hfmt Hs HF HC HH HW.
  destruct (well_formed_sizes x lead C H W Hwf Hs)
    as (Hlead & HC0 & HH0 & HW0 & _).
  split.
  - intros Hrem.
    destruct (rem_zero_multiple' C (F * F)) as (sub & Hsub & ->); [lia..|].
    replace (sub * (F * F)) with (sub * F * F) in Hs by lia.
    destruct (pixel_shuffle_elements (Runtime0:=R1) x F lead sub H W)
      as (z1 & -> & Hs1 & Hf1 & Hd1 & Hl1 & Hel1); try done; try lia.
    destruct (pixel_shuffle_elements (Runtime0:=R2) x F lead sub H W)
      as (z2 & -> & Hs2 & Hf2 & Hd2 & Hl2 & Hel2); try done; try lia.
    f_equal. apply tensor_ext; try congruence.
    { rewrite Hs1. apply Forall_app. split; [done|]. repeat constructor; nia. }
    intros xs Hxs. rewrite Hs1 in Hxs.
    apply Forall2_app_inv_r in Hxs as (idx & tl & Hidx & Htl & ->).
    apply Forall2_cons_inv_r in Htl as (c & tl1 & Hc & Htl & ->).
    apply Forall2_cons_inv_r in Htl as (hh & tl2 & Hhh & Htl & ->).
    apply Forall2_cons_inv_r in Htl as (ww & tl3 & Hww & Htl & ->).
    apply Forall2_nil_inv_r in Htl as ->.
    destruct (split_coord hh H F HF Hhh) as (h & i & -> & Hh & Hi).
    destruct (split_coord ww W F HF Hww) as (w & j & -> & Hw & Hj).
    by rewrite Hel1, Hel2.
  - intros HremH HremW.
    destruct (rem_zero_multiple' H F) as (H' & HH' & ->); [lia..|].
    destruct (rem_zero_multiple' W F) as (W' & HW' & ->); [lia..|].
    destruct (pixel_unshuffle_elements (Runtime0:=R1) x F lead C H' W')
      as (z1 & -> & Hs1 & Hf1 & Hd1 & Hl1 & Hel1); try done; try lia.
    destruct (pixel_unshuffle_elements (Runtime0:=R2) x F lead C H' W')
      as (z2 & -> & Hs2 & Hf2 & Hd2 & Hl2 & Hel2); try done; try lia.
    f_equal. apply tensor_ext; try congruence.
    { rewrite Hs1. apply Forall_app. split; [done|]. repeat constructor; nia. }
    intros xs Hxs. rewrite Hs1 in Hxs.
    apply Forall2_app_inv_r in Hxs as (idx & tl & Hidx & Htl & ->).
    apply Forall2_cons_inv_r in Htl as (cc & tl1 & Hcc & Htl & ->).
    apply Forall2_cons_inv_r in Htl as (h & tl2 & Hh & Htl & ->).
    apply Forall2_cons_inv_r in Htl as (w & tl3 & Hw & Htl & ->).
    apply Forall2_nil_inv_r in Htl as ->.
    assert (0 ≤ cc < C * (F * F)) as Hcc' by lia.
    destruct (split_coord cc C (F * F) ltac:(nia) Hcc')
      as (c & ij & -> & Hc & Hij).
    destruct (split_coord ij F F HF Hij) as (i & j & -> & Hi & Hj).
    replace (c * (F * F) + (i * F + j)) with (c * F * F + i * F + j) by lia.
    by rewrite Hel1, Hel2.
Qed.
End PixelShuffleRuntime.

Section PixelShuffleMapsExamples.
Import PixelShuffle Instances.

(** Four channels of one pixel become one channel of 2x2 pixels, and
    a 2x2 plane becomes four channels of one pixel. *)
Lemma pixel_shuffle_index_map_witness :
  let x : Tensor Z := mkTensor [1; 4; 1; 1] ChannelsLast Float [10; 11; 12; 13] in
  let y : Tensor Z := mkTensor [1; 2; 2] Contiguous Float [20; 21; 22; 23] in
  (∃ z, @pixel_shuffle Z _ runtime_Z x 2 = Ok z ∧
        element z [0; 0; 1; 0] = element x [0; 2; 0; 0]) ∧
  (∃ z, @pixel_unshuffle Z _ runtime_Z y 2 = Ok z ∧
        element z [3; 0; 0] = element y [0; 1; 1]).
Proof.
  intros x y. split.
  - destruct (pixel_shuffle_index_map (Runtime0:=runtime_Z) x 2 [1] 4 1 1)
      as [Hs _].
    + split_and!; [reflexivity|repeat constructor; lia|].
      split; [reflexivity|repeat constructor; lia].
    + by left.
    + by right.
    + reflexivity.
    + lia.
    + lia.
    + lia.
    + lia.
    + destruct (Hs eq_refl) as (z & Hz & Hel). exists z. split; [exact Hz|].
      refine (Hel [0] 0 0 1 0 0 _ _ _ _ _ _); [repeat constructor; lia|done..].
  - destruct (pixel_shuffle_index_map (Runtime0:=runtime_Z) y 2 [] 1 2 2)
      as [_ Hu].
    + split_and!; [reflexivity|repeat constructor; lia|exact I].
    + by left.
    + by left.
    + reflexivity.
    + lia.
    + lia.
    + lia.
    + lia.
    + destruct (Hu eq_refl eq_refl) as (z & Hz & Hel). exists z. split; [exact Hz|].
      refine (Hel [] 0 0 1 0 1 _ _ _ _ _ _); [constructor|done..].
Defined.

Lemma pixel_shuffle_pixel_unshuffle_witness :
  let x : Tensor float :=
    mkTensor [2; 1; 2; 4] Contiguous Float (PrimFloat.of_uint63 <$> [1; 2; 3; 4; 5; 6; 7; 8; 9; 10; 11; 12; 13; 14; 15; 16]%uint63) in
  @pixel_unshuffle float _ runtime_double x 2 ≫=
    (λ z, @pixel_shuffle float _ runtime_double z 2) = Ok x.
Proof.
  intros x.
  apply (pixel_shuffle_pixel_unshuffle (Runtime0:=runtime_double) x 2 [2] 1 2 4).
  - split_and!; [reflexivity|repeat constructor; lia|exact I].
  - by left.
  - by left.
  - reflexivity.
  - lia.
  - reflexivity.
  - reflexivity.
  - lia.
  - lia.
  - lia.
Defined.

(** Four threads with gradient mode on against three threads with
    gradient mode off. *)
Lemma pixel_shuffle_runtime_independent_witness :
  let x : Tensor Z := mkTensor [3; 4; 2; 2] Contiguous Double (seqZ 0 48) in
  @pixel_shuffle Z _ runtime_Z x 2 =
  @pixel_shuffle Z _
    {| num_threads := 3; vec_size := λ t, match t with BFloat16 => 4 | _ => 2 end%positive;
       bvec_is_two_fvec := eq_refl; GradMode_is_enabled := false;
       uninitialized := λ _, 0 |} x 2.
Proof.
  intros x.
  refine (proj1 (pixel_shuffle_runtime_independent runtime_Z _ x 2 [3] 4 2 2
                   _ _ _ _ _ _ _ _) _).
  - split_and!; [reflexivity|repeat constructor; lia|exact I].
  - by right.
  - by left.
  - reflexivity.
  - lia.
  - lia.
  - lia.
  - lia.
  - reflexivity.
Defined.
End PixelShuffleMapsExamples.


(** ** Pixel shuffle: the autograd wrappers, rejected arguments, empty planes *)

Section PixelShuffleAutograd.
Import PixelShuffle.
Context {A : Type} `{!Inhabited A, !Runtime A}.

Lemma backward_cpu_is_forward_cpu (g : Tensor A) (F : Z) (lead : list Z) (c h w : Z) :
  floating (scalar_type g) → sizes g = lead ++ [c; h; w] → F ≠ 0 →
  pixel_shuffle_backward_cpu g (lead ++ [c * F * F; h `quot` F; w `quot` F]) F =
    pixel_unshuffle_cpu g F ∧
  pixel_unshuffle_backward_cpu g (lead ++ [(c `quot` F) `quot` F; h * F; w * F]) F =
    pixel_shuffle_cpu g F.
Proof.
  intros Hty Hs HF.
  assert (∀ out g : Tensor A, floating (scalar_type g) →
            pixel_shuffle_backward_kernel out g F = pixel_unshuffle_kernel out g F ∧
            pixel_unshuffle_backward_kernel out g F = pixel_shuffle_kernel out g F)
    as Hker.
  { intros out' g' Hty'.
    unfold pixel_shuffle_backward_kernel, pixel_unshuffle_kernel,
      pixel_unshuffle_backward_kernel, pixel_shuffle_kernel.
    destruct (suggest_memory_format g'); rewrite ?dispatch_floating by done; done. }
  destruct (size_last3 g lead c h w Hs) as (Hs3 & Hs2 & Hs1).
  split.
  - unfold pixel_shuffle_backward_cpu, pixel_unshuffle_cpu, div64.
    rewrite Hs3, Hs2, Hs1, (leading_sizes_app g lead c h w Hs).
    rewrite bool_decide_eq_false_2 by done.
    cbn [mbind result_bind].
    destruct (empty [0] Contiguous (scalar_type g)) as [e0|?];
      cbn [mbind result_bind]; [|done].
    destruct (resize_ e0 _ _) as [gi|?]; cbn [mbind result_bind]; [|done].
    rewrite contiguous_same. cbn [mbind result_bind].
    apply Hker, Hty.
  - unfold pixel_unshuffle_backward_cpu, pixel_shuffle_cpu, div64.
    rewrite Hs3, Hs2, Hs1, (leading_sizes_app g lead c h w Hs).
    rewrite bool_decide_eq_false_2 by done.
    cbn [mbind result_bind].
    destruct (empty [0] Contiguous (scalar_type g)) as [e0|?];
      cbn [mbind result_bind]; [|done].
    destruct (resize_ e0 _ _) as [gi|?]; cbn [mbind result_bind]; [|done].
    rewrite contiguous_same. cbn [mbind result_bind].
    apply Hker, Hty.
Qed.

(** [PixelShuffleOp]: the context filled by [forward] makes [backward]
    run the backward computation with the saved factor and input
    shape, and the backward pass of the output of [forward] is the input
    of [forward]. *)
Theorem PixelShuffleOp_backward_of_forward (x : Tensor A) (F : Z)
    (lead : list Z) (C H W : Z) :
  well_formed x → floating (scalar_type x) →
  packed_or_channels_last (suggest_memory_format x) →
  sizes x = lead ++ [C; H; W] →
  0 < F → C `rem` (F * F) = 0 →
  C ≠ 0 → H ≠ 0 → W ≠ 0 →
  ∃ ctx z,
    PixelShuffleOp_apply x F = Ok (ctx, z) ∧
    (∀ g, PixelShuffleOp_backward ctx [g] =
            gi ← pixel_shuffle_backward_cpu g (sizes x) F; Ok [Some gi; None]) ∧
    PixelShuffleOp_backward ctx [z] = Ok [Some x; None].
Proof.
  intros Hwf Hty Hfmt Hs HF Hrem HC HH HW.
  destruct (well_formed_sizes x lead C H W Hwf Hs) as (Hlead & HC0 & HH0 & HW0 & _).
  pose proof (pixel_unshuffle_pixel_shuffle x F lead C H W Hwf Hty Hfmt Hs HF Hrem
                HC HH HW) as Hrt.
  destruct (rem_zero_multiple' C (F * F)) as (sub & Hsub & ->); [lia..|].
  replace (sub * (F * F)) with (sub * F * F) in * by lia.
  destruct (pixel_shuffle_elements x F lead sub H W)
    as (z & Hz & Hzs & Hzf & Hzd & _ & _); try done; try lia.
  rewrite Hz in Hrt. cbn [mbind result_bind] in Hrt.
  rewrite (pixel_shuffle_checked x F lead (sub * F * F) H W) in Hz by done.
  rewrite (pixel_unshuffle_checked z F lead sub (H * F) (W * F)) in Hrt;
    [|done|done|by apply Z.rem_mul; lia|by apply Z.rem_mul; lia].
  unfold PixelShuffleOp_apply, PixelShuffleOp_forward, PixelShuffleOp__forward.
  cbv zeta. rewrite Hz. cbn [mbind result_bind].
  eexists _, z. split; [reflexivity|].
  assert (∀ g, PixelShuffleOp_backward
                 {| saved_data :=
                      <["input_sizes" := IIntList (sizes x)]>
                        (<["upscale_factor" := IInt F]> ∅) |} [g] =
               gi ← pixel_shuffle_backward_cpu g (sizes x) F; Ok [Some gi; None])
    as Hback.
  { intros g. unfold PixelShuffleOp_backward. cbn [lookup list_lookup saved_data].
    rewrite (lookup_total_insert_ne (M:=gmap string) _ "input_sizes" "upscale_factor" _)
      by done.
    rewrite !lookup_total_insert. reflexivity. }
  split; [exact Hback|].
  rewrite Hback, Hs.
  destruct (backward_cpu_is_forward_cpu z F lead sub (H * F) (W * F))
    as [Hb _]; [by rewrite Hzd|done|lia|].
  rewrite !Z.quot_mul in Hb by lia. rewrite Hb, Hrt. reflexivity.
Qed.

(** The same for [PixelUnshuffleOp]. *)
Theorem PixelUnshuffleOp_backward_of_forward (x : Tensor A) (F : Z)
    (lead : list Z) (C H W : Z) :
  well_formed x → floating (scalar_type x) →
  packed_or_channels_last (suggest_memory_format x) →
  sizes x = lead ++ [C; H; W] →
  0 < F → H `rem` F = 0 → W `rem` F = 0 →
  C ≠ 0 → H ≠ 0 → W ≠ 0 →
  ∃ ctx z,
    PixelUnshuffleOp_apply x F = Ok (ctx, z) ∧
    (∀ g, PixelUnshuffleOp_backward ctx [g] =
            gi ← pixel_unshuffle_backward_cpu g (sizes x) F; Ok [Some gi; None]) ∧
    PixelUnshuffleOp_backward ctx [z] = Ok [Some x; None].
Proof.
  intros Hwf Hty Hfmt Hs HF HremH HremW HC HH HW.
  destruct (well_formed_sizes x lead C H W Hwf Hs) as (Hlead & HC0 & HH0 & HW0 & _).
  pose proof (pixel_shuffle_pixel_unshuffle_cells x F lead C H W Hwf Hty Hfmt Hs HF
                HremH HremW HC HH HW) as Hrt.
  destruct (rem_zero_multiple' H F) as (H' & HH' & ->); [lia..|].
  destruct (rem_zero_multiple' W F) as (W' & HW' & ->); [lia..|].
  destruct (pixel_unshuffle_elements x F lead C H' W')
    as (z & Hz & Hzs & Hzf & Hzd & _ & _); try done; try lia.
  rewrite Hz in Hrt. cbn [mbind result_bind] in Hrt.
  rewrite (pixel_unshuffle_checked x F lead C (H' * F) (W' * F)) in Hz by done.
  rewrite (pixel_shuffle_checked z F lead (C * F * F) H' W') in Hrt;
    [|done|done|].
  2: { replace (C * F * F) with (C * (F * F)) by lia. apply Z.rem_mul. lia. }
  unfold PixelUnshuffleOp_apply, PixelUnshuffleOp_forward, PixelUnshuffleOp__forward.
  cbv zeta. rewrite Hz. cbn [mbind result_bind].
  eexists _, z. split; [reflexivity|].
  assert (∀ g, PixelUnshuffleOp_backward
                 {| saved_data :=
                      <["input_sizes" := IIntList (sizes x)]>
                        (<["downscale_factor" := IInt F]> ∅) |} [g] =
               gi ← pixel_unshuffle_backward_cpu g (sizes x) F; Ok [Some gi; None])
    as Hback.
  { intros g. unfold PixelUnshuffleOp_backward. cbn [lookup list_lookup saved_data].
    rewrite (lookup_total_insert_ne (M:=gmap string) _ "input_sizes" "downscale_factor" _)
      by done.
    rewrite !lookup_total_insert. reflexivity. }
  split; [exact Hback|].
  rewrite Hback, Hs.
  destruct (backward_cpu_is_forward_cpu z F lead (C * F * F) H' W')
    as [_ Hb]; [by rewrite Hzd|done|lia|].
  replace (((C * F * F) `quot` F) `quot` F) with C in Hb.
  2: { rewrite Z.quot_mul by lia. by rewrite Z.quot_mul by lia. }
  rewrite Hb, Hrt. reflexivity.
Qed.
End PixelShuffleAutograd.

Section PixelShuffleRejects.
Import PixelShuffle.
Context {A : Type} `{!Inhabited A, !Runtime A}.

(** The checks of the two operators, in their order: fewer than three
    dimensions or a factor that is not positive is an error of both; a
    channel count that the square of the factor does not divide is an
    error of [pixel_shuffle] (for a factor whose square is a value of
    [int64_t]), and a height or width that the factor does not divide
    is an error of [pixel_unshuffle], which names the offending size and
    the divisor. The element type, the layout and the gradient mode play
    no part. *)
Theorem pixel_shuffle_rejects_arguments (x : Tensor A) (F : Z)
    (lead : list Z) (C H W : Z) :
  (dim x < 3 ∨ F ≤ 0 →
   ∃ m1 a1 m2 a2, pixel_shuffle x F = Err (c10_Error m1 a1) ∧
                  pixel_unshuffle x F = Err (c10_Error m2 a2)) ∧
  (sizes x = lead ++ [C; H; W] → 0 < F →
   (F * F < 2 ^ 63 → C `rem` (F * F) ≠ 0 →
    ∃ m, pixel_shuffle x F = Err (c10_Error m [C; F * F])) ∧
   (H `rem` F ≠ 0 →
    ∃ m, pixel_unshuffle x F = Err (c10_Error m [H; F])) ∧
   (H `rem` F = 0 → W `rem` F ≠ 0 →
    ∃ m, pixel_unshuffle x F = Err (c10_Error m [W; F]))).
Proof.
  split.
  - intros Hbad. unfold pixel_shuffle, pixel_unshuffle, TORCH_CHECK.
    destruct (decide (3 ≤ dim x)) as [Hd|Hd].
    + rewrite (bool_decide_eq_true_2 _ Hd). cbn [mbind result_bind].
      rewrite (bool_decide_eq_false_2 (0 < F)) by lia.
      by eexists _, _, _, _.
    + rewrite (bool_decide_eq_false_2 _ Hd). by eexists _, _, _, _.
  - intros Hs HF.
    destruct (size_last3 x lead C H W Hs) as (Hs3 & Hs2 & Hs1).
    assert (3 ≤ dim x) as Hd.
    { unfold dim. rewrite Hs, length_app. simpl. lia. }
    unfold pixel_shuffle, pixel_unshuffle, TORCH_CHECK, rem64.
    rewrite (bool_decide_eq_true_2 _ Hd), (bool_decide_eq_true_2 _ HF).
    cbn [mbind result_bind]. rewrite Hs3, Hs2, Hs1. cbn [mbind result_bind].
    rewrite (bool_decide_eq_false_2 (F * F = 0)) by nia.
    rewrite (bool_decide_eq_false_2 (F = 0)) by lia.
    cbn [mbind result_bind].
    split_and!.
    + intros _ Hr. rewrite (bool_decide_eq_false_2 _ Hr). by eexists.
    + intros Hr. rewrite (bool_decide_eq_false_2 _ Hr). by eexists.
    + intros Hr0 Hr. rewrite (bool_decide_eq_true_2 _ Hr0). cbn [mbind result_bind].
      rewrite (bool_decide_eq_false_2 _ Hr). by eexists.
Qed.

(** A packed tensor of a supported element type with an empty channel,
    height or width dimension passes the checks, and the kernels then
    divide the number of elements by [channels * height * width],
    which is zero. *)
Theorem pixel_shuffle_empty_plane (x : Tensor A) (F : Z) (lead : list Z) (C H W : Z) :
  floating (scalar_type x) →
  suggest_memory_format x = Contiguous →
  sizes x = lead ++ [C; H; W] →
  0 < F → C * H * W = 0 →
  (C `rem` (F * F) = 0 →
   pixel_shuffle x F = Err (UndefinedBehavior "integer division by zero")) ∧
  (H `rem` F = 0 → W `rem` F = 0 →
   pixel_unshuffle x F = Err (UndefinedBehavior "integer division by zero")).
Proof.
  intros Hty Hf Hs HF Hz.
  destruct (size_last3 x lead C H W Hs) as (Hs3 & Hs2 & Hs1).
  split.
  - intros Hrem. rewrite (pixel_shuffle_checked x F lead C H W) by done.
    unfold pixel_shuffle_cpu, div64.
    rewrite Hs3, Hs2, Hs1. cbn [mbind result_bind].
    rewrite (bool_decide_eq_false_2 (F = 0)) by lia. cbn [mbind result_bind].
    rewrite (leading_sizes_app x lead C H W Hs).
    unfold resize_. rewrite empty_ok by done.
    cbn [mbind result_bind scalar_type].
    rewrite contiguous_same. cbn [mbind result_bind].
    rewrite Hf, empty_ok by done. cbn [mbind result_bind].
    unfold pixel_shuffle_kernel. rewrite Hf, dispatch_floating by done.
    unfold cpu_pixel_shuffle, div64.
    rewrite Hs3, Hs2, Hs1. cbn [mbind result_bind].
    rewrite (bool_decide_eq_false_2 (F * F = 0)) by nia. cbn [mbind result_bind].
    by rewrite (bool_decide_eq_true_2 (C * H * W = 0)).
  - intros HremH HremW. rewrite (pixel_unshuffle_checked x F lead C H W) by done.
    unfold pixel_unshuffle_cpu, div64.
    rewrite Hs3, Hs2, Hs1. cbn [mbind result_bind].
    rewrite (bool_decide_eq_false_2 (F = 0)) by lia. cbn [mbind result_bind].
    rewrite (leading_sizes_app x lead C H W Hs).
    unfold resize_. rewrite empty_ok by done.
    cbn [mbind result_bind scalar_type].
    rewrite contiguous_same. cbn [mbind result_bind].
    rewrite Hf, empty_ok by done. cbn [mbind result_bind].
    unfold pixel_unshuffle_kernel. rewrite Hf, dispatch_floating by done.
    unfold cpu_pixel_shuffle_backward, div64.
    match goal with
    | |- context [size ?t (-3)] =>
        destruct (size_last3 t lead (C * F * F) (H `quot` F) (W `quot` F) eq_refl)
          as (Ho3 & Ho2 & Ho1)
    end.
    rewrite Ho3, Ho2, Ho1. cbn [mbind result_bind].
    rewrite (bool_decide_eq_false_2 (F * F = 0)) by nia. cbn [mbind result_bind].
    rewrite (bool_decide_eq_true_2 (C * F * F * (H `quot` F) * (W `quot` F) = 0));
      [done|].
    assert (C = 0 ∨ H = 0 ∨ W = 0) as [-> | [-> | ->]] by nia.
    + lia.
    + rewrite Z.quot_0_l by lia. lia.
    + rewrite Z.quot_0_l by lia. lia.
Qed.
End PixelShuffleRejects.

Section PixelShuffleAutogradExamples.
Import PixelShuffle Instances.

Lemma PixelShuffleOp_backward_of_forward_witness :
  let x : Tensor Z := mkTensor [1; 4; 1; 2] Contiguous Float (seqZ 0 8) in
  ∃ ctx z,
    @PixelShuffleOp_apply Z _ runtime_Z x 2 = Ok (ctx, z) ∧
    @PixelShuffleOp_backward Z _ runtime_Z ctx [z] = Ok [Some x; None].
Proof.
  intros x.
  destruct (PixelShuffleOp_backward_of_forward (Runtime0:=runtime_Z) x 2 [1] 4 1 2)
    as (ctx & z & Ha & _ & Hb).
  - split_and!; [reflexivity|repeat constructor; lia|exact I].
  - by left.
  - by left.
  - reflexivity.
  - lia.
  - reflexivity.
  - lia.
  - lia.
  - lia.
  - by exists ctx, z.
Defined.

Lemma PixelUnshuffleOp_backward_of_forward_witness :
  let x : Tensor Z := mkTensor [1; 1; 2; 4] ChannelsLast Double (seqZ 0 8) in
  ∃ ctx z,
    @PixelUnshuffleOp_apply Z _ runtime_Z x 2 = Ok (ctx, z) ∧
    @PixelUnshuffleOp_backward Z _ runtime_Z ctx [z] = Ok [Some x; None].
Proof.
  intros x.
  destruct (PixelUnshuffleOp_backward_of_forward (Runtime0:=runtime_Z) x 2 [1] 1 2 4)
    as (ctx & z & Ha & _ & Hb).
  - split_and!; [reflexivity|repeat constructor; lia|].
    split; [reflexivity|repeat constructor; lia].
  - by right.
  - by right.
  - reflexivity.
  - lia.
  - reflexivity.
  - reflexivity.
  - lia.
  - lia.
  - lia.
  - by exists ctx, z.
Defined.

(** Four channels of height zero. *)
Lemma pixel_shuffle_empty_plane_witness :
  let x : Tensor float := mkTensor [1; 4; 0; 2] Contiguous Double [] in
  @pixel_shuffle float _ runtime_double x 2 =
    Err (UndefinedBehavior "integer division by zero").
Proof.
  intros x.
  refine (proj1 (pixel_shuffle_empty_plane (Runtime0:=runtime_double) x 2 [1] 4 0 2
                   _ _ _ _ _) _);
    [by right|reflexivity|reflexivity|lia|lia|reflexivity].
Defined.

(** A matrix, and twelve channels under a factor of two. *)
Lemma pixel_shuffle_rejects_arguments_witness :
  let x : Tensor Z := mkTensor [2; 2] Contiguous Float [1; 2; 3; 4] in
  let y : Tensor Z := mkTensor [6; 1; 1] Contiguous Float (seqZ 0 6) in
  (∃ m1 a1 m2 a2, @pixel_shuffle Z _ runtime_Z x 2 = Err (c10_Error m1 a1) ∧
                  @pixel_unshuffle Z _ runtime_Z x 2 = Err (c10_Error m2 a2)) ∧
  (∃ m, @pixel_shuffle Z _ runtime_Z y 2 = Err (c10_Error m [6; 4])).
Proof.
  intros x y. split.
  - refine (proj1 (pixel_shuffle_rejects_arguments (Runtime0:=runtime_Z) x 2 [] 0 0 0) _).
    left. unfold dim. simpl. lia.
  - refine (proj1 (proj2 (pixel_shuffle_rejects_arguments (Runtime0:=runtime_Z) y 2
                            [] 6 1 1) _ _) _ _); [reflexivity|lia|done|done].
Defined.
End PixelShuffleAutogradExamples.


(** ** The windows of an accepted configuration *)

Section Windows.
Import AveragePool.

(** On a configuration that passes the shape checks with a padding that
    is not negative and kernel, stride and padding in the range of
    [int], the window of every output position holds an input cell, its
    size before clamping is positive, at most the kernel area and below
    2^62 (a value of [int64_t]), and the divisor of the average is not
    zero: positive when it is computed, and the override otherwise. *)
Theorem pooling_windows_nonempty (IH IW kH kW dH dW padH padW oh ow : Z)
    (ceil_mode count_include_pad : bool) (divisor_override : option Z) :
  Forall int_range [kH; kW; dH; dW; padH; padW] →
  0 < IH → 0 < IW → 0 < kH → 0 < kW → 0 < dH → 0 < dW →
  0 ≤ padH ≤ kH `quot` 2 → 0 ≤ padW ≤ kW `quot` 2 →
  divisor_nonzero divisor_override = true →
  0 ≤ oh < pooling_output_shape_pad_lr IH kH padH padH dH 1 ceil_mode →
  0 ≤ ow < pooling_output_shape_pad_lr IW kW padW padW dW 1 ceil_mode →
  let w := pooling_window oh ow kW kH dW dH padW padH IH IW in
  window_empty w = false ∧
  0 < pool_size w ≤ kH * kW ∧ kH * kW < 2 ^ 62 ∧
  divide_factor w count_include_pad divisor_override ≠ 0 ∧
  0 < divide_factor w count_include_pad None.
Proof.
  intros Hints HIH HIW HkH HkW HdH HdW HpH HpW Hdiv Hoh How w.
  destruct (window_holds_cells IH IW kH kW dH dW padH padW oh ow ceil_mode)
    as (Hi & Hj & Hp); try done.
  fold w in Hi, Hj, Hp.
  pose proof (pool_size_bound IH IW kH kW dH dW padH padW oh ow ceil_mode
                HIH HIW HkH HkW HdH HdW HpH HpW Hoh How) as Hps.
  fold w in Hps.
  assert (kH * kW < 2 ^ 62) as Harea.
  { apply Forall_cons in Hints as [HrH Hints]. apply Forall_cons in Hints as [HrW _].
    unfold int_range in HrH, HrW.
    assert (kH * kW ≤ 2147483647 * 2147483647) by (apply Z.mul_le_mono_nonneg; lia).
    lia. }
  assert (0 < divide_factor w count_include_pad None) as Hpos.
  { unfold divide_factor. destruct count_include_pad; [done|]. apply Z.mul_pos_pos; lia. }
  split_and!; [|lia|lia|done| |done].
  - unfold window_empty. by rewrite !bool_decide_eq_false_2 by lia.
  - by apply (divide_factor_nonzero IH IW kH kW dH dW padH padW oh ow ceil_mode).
Qed.

Lemma pooling_windows_nonempty_witness :
  let w := pooling_window 1 1 3 3 2 2 1 1 5 5 in
  window_empty w = false ∧ 0 < pool_size w ≤ 3 * 3 ∧ 3 * 3 < 2 ^ 62 ∧
  divide_factor w false (Some 7) ≠ 0 ∧ 0 < divide_factor w false None.
Proof.
  refine (pooling_windows_nonempty 5 5 3 3 2 2 1 1 1 1 true false (Some 7)
            _ _ _ _ _ _ _ _ _ _ _ _); concrete.
Defined.
End Windows.


(** ** The pooling entry points on accepted arguments *)

Section PoolingEntry.
Import AveragePool.
Context {A : Type} `{!Inhabited A, !Runtime A, !Arith A}.

(** The accumulation type of the packed forward kernel. *)
Lemma forward_elements (input : Tensor A)
    (kH kW dH dW padH padW : Z) (ceil_mode count_include_pad : bool)
    (divisor_override : option Z) (lead : list Z) (C IH IW : Z) :
  let OH := pooling_output_shape_pad_lr IH kH padH padH dH 1 ceil_mode in
  let OW := pooling_output_shape_pad_lr IW kW padW padW dW 1 ceil_mode in
  well_formed input → (length lead ≤ 1)%nat →
  sizes input = lead ++ [C; IH; IW] → pooling_type (scalar_type input) →
  0 < kH → 0 < kW → 0 < dH → 0 < dW →
  padH ≤ kH `quot` 2 → padW ≤ kW `quot` 2 →
  0 < C → 0 < IH → 0 < IW → 1 ≤ OH → 1 ≤ OW →
  divisor_nonzero divisor_override = true →
  ∃ out,
    avg_pool2d_out_cpu input [kH; kW] [dH; dW] [padH; padW]
      ceil_mode count_include_pad divisor_override = Ok out ∧
    sizes out = lead ++ [C; OH; OW] ∧
    suggest_memory_format out = suggest_memory_format input ∧
    scalar_type out = scalar_type input ∧
    length (data_ptr out) = Z.to_nat (numel out) ∧
    ∀ idx c oh ow,
      Forall2 (λ x X, 0 ≤ x < X) idx lead → 0 ≤ c < C → 0 ≤ oh < OH → 0 ≤ ow < OW →
      (window_empty (pooling_window oh ow kW kH dW dH padW padH IH IW) = true →
       element out (idx ++ [c; oh; ow]) = zero (scalar_type input)) ∧
      (suggest_memory_format input = Contiguous →
       element out (idx ++ [c; oh; ow]) =
       avg_pool_cell (scalar_type input)
         (if bool_decide (scalar_type input = BFloat16) then Float
          else scalar_type input)
         (λ ih iw, element input (idx ++ [c; ih; iw]))
         (pooling_window oh ow kW kH dW dH padW padH IH IW)
         count_include_pad divisor_override).
Proof.
  intros OH OW Hwf Hl Hsi Hty HkH HkW HdH HdW HpH HpW HC HIH HIW HOH HOW Hdiv.
  rewrite (avg_pool2d_out_cpu_checked input kH kW dH dW padH padW ceil_mode
             count_include_pad divisor_override lead C IH IW) by done.
  fold OH OW.
  destruct (well_formed_low_rank input lead C IH IW Hwf Hsi Hl) as (Hfi & Hcl & Hpk).
  assert (Forall (λ s, 0 ≤ s) lead) as Hlead.
  { destruct Hwf as (_ & Hnn & _). rewrite Hsi in Hnn.
    by apply Forall_app in Hnn as [? _]. }
  pose proof (fresh_output_facts (lead ++ [C; OH; OW]) (suggest_memory_format input)
                (scalar_type input)) as Hfresh. cbv zeta in Hfresh.
  set (output := mkTensor _ _ _ _) in *.
  assert (numel output = prod_sizes (lead ++ [C; OH; OW])) as Hnum by done.
  destruct lead as [|N [|]]; simpl in Hl; [| |lia]; cbn [app] in *.
  - specialize (Hpk eq_refl).
    destruct (avg_pool2d_kernel_impl_packed_3d output input kW kH dW dH padW padH
                count_include_pad divisor_override C IH IW OH OW)
      as (out & -> & Hs & Hf & Hd & Hlen & Hel); try done; try lia.
    exists out. split_and!; try done.
    { rewrite Hlen. unfold numel. by rewrite Hs. }
    intros idx c oh ow Hidx Hc Hoh How.
    apply Forall2_nil_inv_r in Hidx as ->. cbn [app].
    rewrite Hel by done. split; [|done].
    intros Hempty. unfold avg_pool_cell. by rewrite Hempty.
  - apply Forall_cons in Hlead as [HN _].
    destruct Hfi as [Hfi | Hfi].
    + destruct (avg_pool2d_kernel_impl_packed_4d output input kW kH dW dH padW padH
                  count_include_pad divisor_override N C IH IW OH OW)
        as (out & -> & Hs & Hf & Hd & Hlen & Hel); try done; try lia.
      exists out. split_and!; try done.
      { rewrite Hlen. unfold numel. by rewrite Hs. }
      intros idx c oh ow Hidx Hc Hoh How.
      apply Forall2_cons_inv_r in Hidx as (n & idx' & Hn & Hidx & ->).
      apply Forall2_nil_inv_r in Hidx as ->. cbn [app].
      rewrite Hel by done. split; [|done].
      intros Hempty. unfold avg_pool_cell. by rewrite Hempty.
    + destruct (avg_pool2d_kernel_impl_channels_last_empty output input
                  kW kH dW dH padW padH count_include_pad divisor_override
                  N C IH IW OH OW)
        as (out & -> & Hs & Hf & Hd & Hlen & Hel); try done; try lia.
      exists out. split_and!; try done.
      { rewrite Hlen. unfold numel. by rewrite Hs. }
      intros idx c oh ow Hidx Hc Hoh How.
      apply Forall2_cons_inv_r in Hidx as (n & idx' & Hn & Hidx & ->).
      apply Forall2_nil_inv_r in Hidx as ->. cbn [app].
      split; [by apply Hel|]. intros Hcon. congruence.
Qed.

Lemma backward_elements (gradOutput input : Tensor A)
    (kH kW dH dW padH padW : Z) (ceil_mode count_include_pad : bool)
    (divisor_override : option Z) (lead : list Z) (C IH IW : Z) :
  let OH := pooling_output_shape_pad_lr IH kH padH padH dH 1 ceil_mode in
  let OW := pooling_output_shape_pad_lr IW kW padW padW dW 1 ceil_mode in
  well_formed input → well_formed gradOutput →
  (length lead ≤ 1)%nat →
  sizes input = lead ++ [C; IH; IW] → sizes gradOutput = lead ++ [C; OH; OW] →
  scalar_type gradOutput = scalar_type input → pooling_type (scalar_type input) →
  Forall int_range [kH; kW; dH; dW; padH; padW] →
  0 < kH → 0 < kW → 0 < dH → 0 < dW →
  padH ≤ kH `quot` 2 → padW ≤ kW `quot` 2 →
  0 < C → 0 < IH → 0 < IW → 1 ≤ OH → 1 ≤ OW →
  divisor_nonzero divisor_override = true →
  ∃ gradInput,
    avg_pool2d_backward_out_cpu gradOutput input [kH; kW] [dH; dW] [padH; padW]
      ceil_mode count_include_pad divisor_override = Ok gradInput ∧
    sizes gradInput = sizes input ∧
    suggest_memory_format gradInput = suggest_memory_format input ∧
    scalar_type gradInput = scalar_type input ∧
    length (data_ptr gradInput) = Z.to_nat (numel gradInput) ∧
    ∀ idx c ih iw,
      Forall2 (λ x X, 0 ≤ x < X) idx lead → 0 ≤ c < C → 0 ≤ ih < IH → 0 ≤ iw < IW →
      element gradInput (idx ++ [c; ih; iw]) =
        grad_input_sum (scalar_type input)
          (λ oh ow, element gradOutput (idx ++ [c; oh; ow]))
          kW kH dW dH padW padH count_include_pad divisor_override
          IH IW OH OW ih iw.
Proof.
  intros OH OW Hwi Hwg Hl Hsi Hsg Hty Hpt Hints HkH HkW HdH HdW HpH HpW
    HC HIH HIW HOH HOW Hdiv.
  rewrite (avg_pool2d_backward_out_cpu_checked gradOutput input kH kW dH dW padH padW
             ceil_mode count_include_pad divisor_override lead C IH IW) by done.
  destruct (well_formed_low_rank input lead C IH IW Hwi Hsi Hl) as (Hfi & Hcl & Hpk).
  destruct (well_formed_low_rank gradOutput lead C OH OW Hwg Hsg Hl) as (Hfg & Hclg & Hpkg).
  fold OH OW in Hsg.
  destruct (zeroed_empty_facts (sizes input) (suggest_memory_format input)
              (scalar_type input) (zero (scalar_type input)))
    as (Hz1 & Hz2 & Hz3 & Hz4 & Hz5).
  set (z := zero_ _ _) in *.
  assert (pooling_type (scalar_type gradOutput)) as Hpg by by rewrite Hty.
  assert (numel z = numel input) as Hnz by (unfold numel; by rewrite Hz1).
  destruct lead as [|N [|]]; simpl in Hl; [| |lia]; cbn [app] in Hsi, Hsg.
  - assert (sizes z = [C; IH; IW]) as Hzs by congruence.
    assert (suggest_memory_format z = Contiguous) as Hzf
      by (rewrite Hz2; by apply Hpk).
    destruct (avg_pool2d_backward_kernel_impl_3d z gradOutput kW kH dW dH padW padH
                count_include_pad divisor_override C IH IW OH OW
                Hzs Hsg Hzf (Hpkg eq_refl) Hz4 Hpg)
      as (gi & -> & Hg1 & Hg2 & Hg3 & Hg4 & Hg5).
    exists gi. split_and!; try congruence.
    { rewrite Hg4. unfold numel. by rewrite Hg1. }
    intros idx c ih iw Hidx Hc Hih Hiw.
    apply Forall2_nil_inv_r in Hidx as ->. cbn [app].
    rewrite Hg5 by done. rewrite Hz5, Hty.
    + apply window_loops_sum.
    + by apply (offset_of_bounds3 z C IH IW).
  - assert (0 ≤ N) as HN.
    { destruct Hwi as (_ & Hnn & _). rewrite Hsi in Hnn.
      by apply Forall_cons in Hnn as [? _]. }
    assert (sizes z = [N; C; IH; IW]) as Hzs by congruence.
    assert (packed_or_channels_last (suggest_memory_format z)) as Hzf
      by by rewrite Hz2.
    destruct (avg_pool2d_backward_kernel_impl_4d z gradOutput kW kH dW dH padW padH
                count_include_pad divisor_override N C IH IW OH OW
                Hzs Hsg Hzf Hfg Hz4 Hpg ltac:(lia))
      as (gi & -> & Hg1 & Hg2 & Hg3 & Hg4 & Hg5).
    exists gi. split_and!; try congruence.
    { rewrite Hg4. unfold numel. by rewrite Hg1. }
    intros idx c ih iw Hidx Hc Hih Hiw.
    apply Forall2_cons_inv_r in Hidx as (n & idx' & Hn & Hidx & ->).
    apply Forall2_nil_inv_r in Hidx as ->. cbn [app].
    rewrite Hg5 by done. rewrite Hz5, Hty.
    + apply window_loops_sum.
    + by apply (offset_of_bounds z N C IH IW).
Qed.
End PoolingEntry.


(** ** The stride defaults *)

Section StrideDefaults.
Import AveragePool.
Context {A : Type} `{!Inhabited A, !Runtime A, !Arith A}.

End StrideDefaults.

Section StrideDefaultsWitness.
Import AveragePool Instances.
#[local] Existing Instance runtime_Z.
#[local] Existing Instance arith_Long.

End StrideDefaultsWitness.


Section PoolingForward.
Import AveragePool.
Context {A : Type} `{!Inhabited A, !Runtime A, !Arith A}.

(** The forward entry point on an accepted configuration with kernel,
    stride and padding in the range of [int]: the result has the output
    shape of the pooling formula and the layout and element type of the
    input; the divisor of every window that holds a cell is not zero;
    on a packed input each element is the sum over its window divided
    by the divisor of the window, the sum formed in [float] for
    BFloat16 cells. *)
Theorem avg_pool2d_forward_average (input : Tensor A)
    (kH kW dH dW padH padW : Z) (ceil_mode count_include_pad : bool)
    (divisor_override : option Z) (lead : list Z) (C IH IW : Z) :
  let OH := pooling_output_shape_pad_lr IH kH padH padH dH 1 ceil_mode in
  let OW := pooling_output_shape_pad_lr IW kW padW padW dW 1 ceil_mode in
  well_formed input → (length lead ≤ 1)%nat →
  sizes input = lead ++ [C; IH; IW] → pooling_type (scalar_type input) →
  Forall int_range [kH; kW; dH; dW; padH; padW] →
  0 < kH → 0 < kW → 0 < dH → 0 < dW →
  padH ≤ kH `quot` 2 → padW ≤ kW `quot` 2 →
  0 < C → 0 < IH → 0 < IW → 1 ≤ OH → 1 ≤ OW →
  divisor_nonzero divisor_override = true →
  ∃ out,
    avg_pool2d_out_cpu input [kH; kW] [dH; dW] [padH; padW]
      ceil_mode count_include_pad divisor_override = Ok out ∧
    sizes out = lead ++ [C; OH; OW] ∧
    suggest_memory_format out = suggest_memory_format input ∧
    scalar_type out = scalar_type input ∧
    (∀ oh ow, 0 ≤ oh < OH → 0 ≤ ow < OW →
       window_empty (pooling_window oh ow kW kH dW dH padW padH IH IW) = false →
       divide_factor (pooling_window oh ow kW kH dW dH padW padH IH IW)
         count_include_pad divisor_override ≠ 0) ∧
    (suggest_memory_format input = Contiguous →
     ∀ idx c oh ow,
       Forall2 (λ x X, 0 ≤ x < X) idx lead → 0 ≤ c < C → 0 ≤ oh < OH → 0 ≤ ow < OW →
       element out (idx ++ [c; oh; ow]) =
       avg_pool_cell (scalar_type input)
         (if bool_decide (scalar_type input = BFloat16) then Float
          else scalar_type input)
         (λ ih iw, element input (idx ++ [c; ih; iw]))
         (pooling_window oh ow kW kH dW dH padW padH IH IW)
         count_include_pad divisor_override).
Proof.
  intros OH OW Hwf Hl Hsi Hty Hints HkH HkW HdH HdW HpH HpW HC HIH HIW HOH HOW Hdiv.
  destruct (forward_elements input kH kW dH dW padH padW ceil_mode count_include_pad
              divisor_override lead C IH IW)
    as (out & Ho & Hs & Hf & Hd & _ & Hel); try done.
  exists out. split_and!; try done.
  - intros oh ow _ _ Hne. by apply nonempty_window_divisor.
  - intros Hpk idx c oh ow Hidx Hc Hoh How.
    by apply Hel.
Qed.

(** Through the entry point too, in both layouts and for kernel,
    stride and padding in the range of [int], an output element whose
    window holds no input cell is zero. Such windows arise with a
    negative padding when the output size is rounded up. *)
Theorem avg_pool2d_out_cpu_empty_window_zero (input : Tensor A)
    (kH kW dH dW padH padW : Z) (ceil_mode count_include_pad : bool)
    (divisor_override : option Z) (lead : list Z) (C IH IW : Z) :
  let OH := pooling_output_shape_pad_lr IH kH padH padH dH 1 ceil_mode in
  let OW := pooling_output_shape_pad_lr IW kW padW padW dW 1 ceil_mode in
  well_formed input → (length lead ≤ 1)%nat →
  sizes input = lead ++ [C; IH; IW] → pooling_type (scalar_type input) →
  Forall int_range [kH; kW; dH; dW; padH; padW] →
  0 < kH → 0 < kW → 0 < dH → 0 < dW →
  padH ≤ kH `quot` 2 → padW ≤ kW `quot` 2 →
  0 < C → 0 < IH → 0 < IW → 1 ≤ OH → 1 ≤ OW →
  divisor_nonzero divisor_override = true →
  ∃ out,
    avg_pool2d_out_cpu input [kH; kW] [dH; dW] [padH; padW]
      ceil_mode count_include_pad divisor_override = Ok out ∧
    ∀ idx c oh ow,
      Forall2 (λ x X, 0 ≤ x < X) idx lead → 0 ≤ c < C → 0 ≤ oh < OH → 0 ≤ ow < OW →
      window_empty (pooling_window oh ow kW kH dW dH padW padH IH IW) = true →
      element out (idx ++ [c; oh; ow]) = zero (scalar_type input).
Proof.
  intros OH OW Hwf Hl Hsi Hty Hints HkH HkW HdH HdW HpH HpW HC HIH HIW HOH HOW Hdiv.
  destruct (forward_elements input kH kW dH dW padH padW ceil_mode count_include_pad
              divisor_override lead C IH IW)
    as (out & Ho & _ & _ & _ & _ & Hel); try done.
  exists out. split; [done|].
  intros idx c oh ow Hidx Hc Hoh How Hempty.
  by apply Hel.
Qed.
End PoolingForward.

Section PoolingInvariance.
Import AveragePool.
Context {A : Type} `{!Inhabited A, !Arith A}.

Lemma entry_coords (lead : list Z) (C H W : Z) (xs : list Z) :
  Forall2 (λ x X, 0 ≤ x < X) xs (lead ++ [C; H; W]) →
  ∃ idx c h w, xs = idx ++ [c; h; w] ∧ Forall2 (λ x X, 0 ≤ x < X) idx lead ∧
               0 ≤ c < C ∧ 0 ≤ h < H ∧ 0 ≤ w < W.
Proof.
  intros Hxs.
  apply Forall2_app_inv_r in Hxs as (idx & tl & Hidx & Htl & ->).
  apply Forall2_cons_inv_r in Htl as (c & tl1 & Hc & Htl & ->).
  apply Forall2_cons_inv_r in Htl as (h & tl2 & Hh & Htl & ->).
  apply Forall2_cons_inv_r in Htl as (w & tl3 & Hw & Htl & ->).
  apply Forall2_nil_inv_r in Htl as ->.
  by exists idx, c, h, w.
Qed.
End PoolingInvariance.

Section PoolingEntryExamples.
Import AveragePool Instances.
#[local] Existing Instance arith_Long.

(** A 2x2 plane of [int64] cells under one 2x2 window. *)
Lemma avg_pool2d_forward_average_witness :
  let x : Tensor Z := mkTensor [1; 2; 2] Contiguous Long [1; 2; 3; 6] in
  ∃ out, @avg_pool2d_out_cpu Z _ runtime_Z _ x [2; 2] [2; 2] [0; 0] false true None
           = Ok out ∧
         sizes out = [1; 1; 1] ∧ element out [0; 0; 0] = 3.
Proof.
  intros x.
  destruct (avg_pool2d_forward_average (Runtime0:=runtime_Z) x 2 2 2 2 0 0 false true
              None [] 1 2 2) as (out & Ho & Hs & _ & _ & _ & Hel); [concrete..|].
  exists out. split_and!; [exact Ho|exact Hs|].
  etrans; [refine (Hel eq_refl [] 0 0 0 _ _ _ _); concrete|reflexivity].
Defined.

(** Kernel 1, stride 3, padding -1 on a 5x5 plane with the output size
    rounded up: the output is 2x2 and the window of its position (1, 1)
    starts at row 4 and ends at row 4. *)
Lemma avg_pool2d_out_cpu_empty_window_zero_witness :
  let x : Tensor Z := mkTensor [1; 1; 5; 5] ChannelsLast Long (seqZ 1 25) in
  ∃ out, @avg_pool2d_out_cpu Z _ runtime_Z _ x [1; 1] [3; 3] [-1; -1] true false None
           = Ok out ∧
         element out [0; 0; 1; 1] = 0.
Proof.
  intros x.
  destruct (avg_pool2d_out_cpu_empty_window_zero (Runtime0:=runtime_Z) x 1 1 3 3
              (-1) (-1) true false None [1] 1 5 5) as (out & Ho & Hel); [concrete..|].
  exists out. split; [exact Ho|].
  refine (Hel [0] 0 1 1 _ _ _ _ _); concrete.
Defined.
End PoolingEntryExamples.


(** ** What only the backward entry point checks *)

Section BackwardOnly.
Import AveragePool.
Context {A : Type} `{!Inhabited A, !Runtime A, !Arith A}.

(** A gradient of another element type than the input is refused after
    the shape checks, before the kernel runs. *)
Theorem avg_pool2d_backward_dtype_mismatch (gradOutput input : Tensor A)
    (kH kW dH dW padH padW : Z) (ceil_mode count_include_pad : bool)
    (divisor_override : option Z) (lead : list Z) (C IH IW : Z) :
  let OH := pooling_output_shape_pad_lr IH kH padH padH dH 1 ceil_mode in
  let OW := pooling_output_shape_pad_lr IW kW padW padW dW 1 ceil_mode in
  well_formed input →
  (length lead ≤ 1)%nat →
  sizes input = lead ++ [C; IH; IW] → sizes gradOutput = lead ++ [C; OH; OW] →
  scalar_type input ≠ scalar_type gradOutput →
  Forall int_range [kH; kW; dH; dW; padH; padW] →
  0 < kH → 0 < kW → 0 < dH → 0 < dW →
  padH ≤ kH `quot` 2 → padW ≤ kW `quot` 2 →
  0 < C → 0 < IH → 0 < IW → 1 ≤ OH → 1 ≤ OW →
  divisor_nonzero divisor_override = true →
  avg_pool2d_backward_out_cpu gradOutput input [kH; kW] [dH; dW] [padH; padW]
    ceil_mode count_include_pad divisor_override =
  Err (c10_Error "expected dtype {} for `gradOutput` but got dtype {}" []).
Proof.
  intros OH OW Hwi Hl Hsi Hsg Hty Hints HkH HkW HdH HdW HpH HpW HC HIH HIW HOH HOW Hdiv.
  destruct (well_formed_low_rank input lead C IH IW Hwi Hsi Hl) as (Hfi & Hcl & Hpk).
  apply Forall_cons in Hints as [HikH Hints]. apply Forall_cons in Hints as [HikW Hints].
  apply Forall_cons in Hints as [HidH Hints]. apply Forall_cons in Hints as [HidW Hints].
  apply Forall_cons in Hints as [HipH Hints]. apply Forall_cons in Hints as [HipW _].
  destruct (size_last3 input lead C IH IW Hsi) as (Hs3 & Hs2 & Hs1).
  unfold avg_pool2d_backward_out_cpu, at_, TORCH_CHECK. decide_lengths.
  cbn [mbind result_bind].
  rewrite !safe_downcast_int_ok by done.
  cbn [mbind result_bind]. rewrite Hdiv. cbn [mbind result_bind].
  rewrite Hs3, Hs2, Hs1.
  assert (∃ nbatch, (if bool_decide (dim input = 4) then size input (-4) else Ok 1)
                    = Ok nbatch) as [nbatch ->].
  { case_bool_decide as Hd; [|by eexists].
    unfold size. cbv zeta. rewrite (bool_decide_eq_true_2 (-4 < 0)) by lia.
    rewrite bool_decide_eq_true_2 by lia. by eexists. }
  cbn [mbind result_bind].
  rewrite !pooling_output_shape_ok by lia.
  cbn [mbind result_bind]. fold OH OW.
  rewrite (avg_pool2d_backward_shape_check_ok input gradOutput lead) by (done || lia).
  cbn [mbind result_bind].
  rewrite empty_ok.
  2: { intros Hf. rewrite Hsi, length_app, (Hcl Hf). done. }
  2: { intros Hf. destruct Hfi as [Hfi | Hfi]; congruence. }
  cbn [fmap result_fmap mbind result_bind].
  by rewrite bool_decide_eq_false_2 by done.
Qed.

(** The backward entry point narrows its arguments to [int]: when the
    three lists have accepted lengths and one of their elements is
    outside the range of [int], the call is refused for that reason,
    whatever the tensors and the other arguments are. *)
Theorem avg_pool2d_backward_int_range (gradOutput input : Tensor A)
    (kernel_size stride padding : list Z) (ceil_mode count_include_pad : bool)
    (divisor_override : option Z) :
  (length kernel_size = 1 ∨ length kernel_size = 2)%nat →
  (length stride ≤ 2)%nat →
  (length padding = 1 ∨ length padding = 2)%nat →
  Exists (λ v, ¬ int_range v) (kernel_size ++ stride ++ padding) →
  avg_pool2d_backward_out_cpu gradOutput input kernel_size stride padding
    ceil_mode count_include_pad divisor_override =
  Err (c10_Error "integer out of range" []).
Proof.
  intros Hk Hs Hp Hex.
  destruct kernel_size as [|kH [|kW [|]]]; simpl in Hk; try lia;
    destruct stride as [|dH [|dW [|]]]; simpl in Hs; try lia;
    destruct padding as [|pH [|pW [|]]]; simpl in Hp; try lia;
    unfold avg_pool2d_backward_out_cpu, at_, TORCH_CHECK; decide_lengths;
    cbn [lookup list_lookup mbind result_bind];
    unfold safe_downcast_int, TORCH_CHECK;
    repeat match goal with
           | |- context [bool_decide (-2147483648 ≤ ?v ≤ 2147483647)] =>
               let Hv := fresh "Hv" in
               destruct (decide (-2147483648 ≤ v ≤ 2147483647)) as [Hv|Hv];
               [ rewrite (bool_decide_eq_true_2 (-2147483648 ≤ v ≤ 2147483647) Hv);
                 cbn [mbind result_bind]
               | by rewrite (bool_decide_eq_false_2 (-2147483648 ≤ v ≤ 2147483647) Hv) ]
           end;
    exfalso; cbn [app] in Hex;
    repeat (apply Exists_cons in Hex as [Hex|Hex]; [by unfold int_range in Hex|]);
    by apply Exists_nil in Hex.
Qed.

(** The loops of the kernel over the windows, from any start value. *)
Lemma window_loops_from (scalar_t : ScalarType) (g : Z → Z → A)
    (kW kH dW dH padW padH : Z) (count_include_pad : bool)
    (divisor_override : option Z) (IH IW OH OW ih iw : Z) (v0 : A) :
  irange 0 OH
    (λ oh, irange 0 OW
       (λ ow acc,
          let w := pooling_window oh ow kW kH dW dH padW padH IH IW in
          if window_contains w ih iw
          then add scalar_t acc
                 (div scalar_t (g oh ow)
                    (divide_factor w count_include_pad divisor_override))
          else acc))
    v0 =
  foldl (λ acc p,
           add scalar_t acc
             (div scalar_t (g p.1 p.2)
                (divide_factor
                   (pooling_window p.1 p.2 kW kH dW dH padW padH IH IW)
                   count_include_pad divisor_override)))
        v0
        (filter (λ p, window_contains
                        (pooling_window p.1 p.2 kW kH dW dH padW padH IH IW)
                        ih iw = true)
           (raster OH OW)).
Proof.
  unfold raster.
  rewrite filter_bind, foldl_bind, irange_foldl.
  apply foldl_ext. intros acc oh.
  rewrite filter_bind, foldl_bind, irange_foldl.
  apply foldl_ext. intros acc' ow.
  rewrite filter_cons, filter_nil. cbn [fst snd].
  destruct (window_contains _ _ _); simpl; done.
Qed.

(** The backward kernels add to what [grad_input] holds: on a valid
    configuration (kernel and stride positive, padding not negative and
    at most half the kernel, all in the range of [int], a non-zero
    divisor override if any, a gradient of the pooled shape) each
    element ends as its old value plus, in raster order, the shares of
    the windows that contain its position, and no window has a zero
    divisor. The zero start of the gradient is the work of the entry
    point. *)
Theorem avg_pool2d_backward_kernel_accumulates (grad_input grad_output : Tensor A)
    (kW kH dW dH padW padH : Z) (ceil_mode count_include_pad : bool)
    (divisor_override : option Z) (N C IH IW : Z) :
  let OH := pooling_output_shape_pad_lr IH kH padH padH dH 1 ceil_mode in
  let OW := pooling_output_shape_pad_lr IW kW padW padW dW 1 ceil_mode in
  sizes grad_input = [N; C; IH; IW] → sizes grad_output = [N; C; OH; OW] →
  packed_or_channels_last (suggest_memory_format grad_input) →
  packed_or_channels_last (suggest_memory_format grad_output) →
  length (data_ptr grad_input) = Z.to_nat (numel grad_input) →
  pooling_type (scalar_type grad_output) →
  Forall int_range [kH; kW; dH; dW; padH; padW] →
  0 < kH → 0 < kW → 0 < dH → 0 < dW →
  0 ≤ padH ≤ kH `quot` 2 → 0 ≤ padW ≤ kW `quot` 2 →
  0 < C → 0 < IH → 0 < IW → 1 ≤ OH → 1 ≤ OW →
  divisor_nonzero divisor_override = true →
  ∃ gi,
    avg_pool2d_backward_kernel_impl grad_input grad_output
      kW kH dW dH padW padH count_include_pad divisor_override = Ok gi ∧
    sizes gi = sizes grad_input ∧
    suggest_memory_format gi = suggest_memory_format grad_input ∧
    (∀ oh ow, 0 ≤ oh < OH → 0 ≤ ow < OW →
       divide_factor (pooling_window oh ow kW kH dW dH padW padH IH IW)
         count_include_pad divisor_override ≠ 0) ∧
    ∀ n c ih iw, 0 ≤ n < N → 0 ≤ c < C → 0 ≤ ih < IH → 0 ≤ iw < IW →
      element gi [n; c; ih; iw] =
      foldl (λ acc p,
               add (scalar_type grad_output) acc
                 (div (scalar_type grad_output) (element grad_output [n; c; p.1; p.2])
                    (divide_factor
                       (pooling_window p.1 p.2 kW kH dW dH padW padH IH IW)
                       count_include_pad divisor_override)))
            (element grad_input [n; c; ih; iw])
            (filter (λ p, window_contains
                            (pooling_window p.1 p.2 kW kH dW dH padW padH IH IW)
                            ih iw = true)
               (raster OH OW)).
Proof.
  intros OH OW Hsi Hso Hfi Hfo Hlen Hty Hints HkH HkW HdH HdW HpH HpW
    HC HIH HIW HOH HOW Hdiv.
  destruct (avg_pool2d_backward_kernel_impl_4d grad_input grad_output
              kW kH dW dH padW padH count_include_pad divisor_override
              N C IH IW OH OW Hsi Hso Hfi Hfo Hlen Hty ltac:(lia))
    as (gi & Hk & Hs & Hf & _ & _ & Hel).
  exists gi. split_and!; try done.
  - intros oh ow Hoh How.
    by apply (divide_factor_nonzero IH IW kH kW dH dW padH padW oh ow ceil_mode).
  - intros n c ih iw Hn Hc Hih Hiw.
    rewrite Hel by done.
    apply (window_loops_from (scalar_type grad_output)
             (λ oh ow, element grad_output [n; c; oh; ow])).
Qed.
End BackwardOnly.

Section BackwardOnlyExamples.
Import AveragePool Instances.
#[local] Existing Instance arith_Long.

Lemma avg_pool2d_backward_dtype_mismatch_witness :
  let x : Tensor Z := mkTensor [1; 1; 2; 2] Contiguous Long [1; 2; 3; 4] in
  let g : Tensor Z := mkTensor [1; 1; 1; 1] Contiguous Float [7] in
  @avg_pool2d_backward_out_cpu Z _ runtime_Z _ g x [2; 2] [2; 2] [0; 0] false true None =
    Err (c10_Error "expected dtype {} for `gradOutput` but got dtype {}" []).
Proof.
  intros x g.
  refine (avg_pool2d_backward_dtype_mismatch (Runtime0:=runtime_Z) g x 2 2 2 2 0 0
            false true None [1] 1 2 2 _ _ _ _ _ _ _ _ _ _ _ _ _ _ _ _ _ _);
    concrete.
Defined.

(** A stride of 2^32 in the second place. *)
Lemma avg_pool2d_backward_int_range_witness :
  let g : Tensor Z := mkTensor [1; 1; 2; 2] Contiguous Long [1; 2; 3; 4] in
  @avg_pool2d_backward_out_cpu Z _ runtime_Z _ g g [2] [1; 4294967296] [0] false true
    None = Err (c10_Error "integer out of range" []).
Proof.
  intros g.
  refine (avg_pool2d_backward_int_range (Runtime0:=runtime_Z) g g [2] [1; 4294967296]
            [0] false true None _ _ _ _).
  - by left.
  - simpl. lia.
  - by left.
  - cbn [app]. do 2 apply Exists_cons_tl. apply Exists_cons_hd.
    unfold int_range. lia.
Defined.

(** A gradient tensor that holds 100 in every cell before the kernel
    runs, kernel 3 and stride 2 on a 6x6 plane: the position (2, 2) lies
    in all four windows and ends at 100 + 9/9 + 18/9 + 27/9 + 36/9, the
    position (5, 5) lies in none and keeps 100. *)
Lemma avg_pool2d_backward_kernel_accumulates_witness :
  let gi0 : Tensor Z := mkTensor [1; 1; 6; 6] Contiguous Long (replicate 36 100) in
  let g : Tensor Z := mkTensor [1; 1; 2; 2] ChannelsLast Long [9; 18; 27; 36] in
  ∃ gi, @avg_pool2d_backward_kernel_impl Z _ runtime_Z _ gi0 g 3 3 2 2 0 0 true None
          = Ok gi ∧
        element gi [0; 0; 2; 2] = 110 ∧ element gi [0; 0; 5; 5] = 100.
Proof.
  intros gi0 g.
  destruct (avg_pool2d_backward_kernel_accumulates (Runtime0:=runtime_Z) gi0 g
              3 3 2 2 0 0 false true None 1 1 6 6) as (gi & Hk & _ & _ & _ & Hel);
    [concrete..|].
  exists gi. split_and!; [exact Hk|..].
  - etrans; [refine (Hel 0 0 2 2 _ _ _ _); concrete|reflexivity].
  - etrans; [refine (Hel 0 0 5 5 _ _ _ _); concrete|reflexivity].
Defined.
End BackwardOnlyExamples.

(** ** The guard of the convolution+elu fusion on other scales *)

Section FusionGuardErrors.
Import GraphRewrite.

(** When [input_scale] is bound to a value that is not a constant, or
    to a constant that is neither a double nor an int, the guard does
    not answer: it raises, and so does the rewriter, which neither
    replaces the subgraph nor returns the graph. *)
Theorem filter_conv2d_elu_raises (replace : Graph → Match → Graph)
    (g : Graph) (m : Match) (vmap : gmap string Value) (pv v : Value) :
  vmap !! "input_scale" = Some pv →
  values_map m !! pv = Some v →
  (constant_of g !! v = None →
   filter_conv2d_elu g m vmap = Err (c10_Error "bad optional access" []) ∧
   rewrite_match filter_conv2d_elu replace g m vmap =
     Err (c10_Error "bad optional access" [])) ∧
  (∀ c, constant_of g !! v = Some c → isDouble c = false → (∀ z, c ≠ IInt z) →
   filter_conv2d_elu g m vmap = Err (c10_Error "isInt() INTERNAL ASSERT FAILED" []) ∧
   rewrite_match filter_conv2d_elu replace g m vmap =
     Err (c10_Error "isInt() INTERNAL ASSERT FAILED" [])).
Proof.
  intros Hvm Hmv. unfold rewrite_match, filter_conv2d_elu, getIValue.
  rewrite Hvm, Hmv. cbn [mbind result_bind]. split.
  - intros ->. done.
  - intros c -> Hd Hi. cbn [mbind result_bind value]. rewrite Hd.
    destruct c; try done. by destruct (Hi z).
Qed.

(** The scale bound to the output of a node that is not a constant, and
    to the constant [true]. *)
Lemma filter_conv2d_elu_raises_witness :
  let vmap : gmap string Value := {[ "input_scale" := 3%positive ]} in
  let m := mkMatch {[ 3%positive := 7%positive ]} in
  filter_conv2d_elu (mkGraph [mkNode "aten::mul" [] 7%positive] ∅) m vmap =
    Err (c10_Error "bad optional access" []) ∧
  filter_conv2d_elu
    (mkGraph [mkNode "prim::Constant" [] 7%positive] {[ 7%positive := IBool true ]})
    m vmap = Err (c10_Error "isInt() INTERNAL ASSERT FAILED" []).
Proof.
  intros vmap m. split.
  - refine (proj1 (proj1 (filter_conv2d_elu_raises (λ g _, g)
              (mkGraph [mkNode "aten::mul" [] 7%positive] ∅) m vmap 3%positive 7%positive
              _ _) _)); reflexivity.
  - refine (proj1 (proj2 (filter_conv2d_elu_raises (λ g _, g)
              (mkGraph [mkNode "prim::Constant" [] 7%positive]
                 {[ 7%positive := IBool true ]}) m vmap 3%positive 7%positive
              _ _) (IBool true) _ _ _)); try reflexivity. intros z Hz. discriminate Hz.
Defined.
End FusionGuardErrors.


(** ** Average pooling, forward, channels last: every cell *)

Section BlockUpdates.
Context {A : Type} `{!Inhabited A}.

Lemma block_update_refl (base size : Z) (o : list A) :
  block_update base size (λ _ v, v) o o.
Proof. by split_and!. Qed.

Lemma block_update_ext (base size : Z) (u1 u2 : Z → A → A) (o o' : list A) :
  (∀ d, 0 ≤ d < size → u1 d (load o (base + d)) = u2 d (load o (base + d))) →
  block_update base size u1 o o' → block_update base size u2 o o'.
Proof.
  intros He (Hl & Hu & Hf). split_and!; [done| |done].
  intros d Hd. by rewrite Hu, He.
Qed.

Lemma block_update_trans (base size : Z) (u1 u2 : Z → A → A) (o o1 o2 : list A) :
  block_update base size u1 o o1 → block_update base size u2 o1 o2 →
  block_update base size (λ d v, u2 d (u1 d v)) o o2.
Proof.
  intros (Hl1 & Hu1 & Hf1) (Hl2 & Hu2 & Hf2). split_and!.
  - congruence.
  - intros d Hd. by rewrite Hu2, Hu1.
  - intros q Hq Ho. by rewrite Hf2, Hf1.
Qed.

(** Two adjacent blocks updated one after the other. *)
Lemma block_update_app (base s1 s2 : Z) (upd : Z → A → A) (o o1 o2 : list A) :
  0 ≤ base → 0 ≤ s1 → 0 ≤ s2 →
  block_update base s1 upd o o1 →
  block_update (base + s1) s2 (λ k, upd (s1 + k)) o1 o2 →
  block_update base (s1 + s2) upd o o2.
Proof.
  intros Hb H1 H2 (Hl1 & Hu1 & Hf1) (Hl2 & Hu2 & Hf2). split_and!.
  - congruence.
  - intros d Hd. destruct (decide (d < s1)) as [Hlt|Hge].
    + rewrite Hf2 by lia. apply Hu1. lia.
    + replace (base + d) with (base + s1 + (d - s1)) by lia.
      rewrite Hu2 by lia. rewrite Hf1 by lia. f_equal. lia.
  - intros q Hq Ho. rewrite Hf2 by lia. apply Hf1; lia.
Qed.

Lemma block_update_store (p : Z) (v : A) (upd : Z → A → A) (o : list A) :
  0 ≤ p < Z.of_nat (length o) → v = upd 0 (load o p) →
  block_update p 1 upd o (store o p v).
Proof.
  intros Hp Hv. split_and!.
  - apply store_length.
  - intros d Hd. replace d with 0 by lia. rewrite Z.add_0_r.
    by rewrite load_store_eq.
  - intros q Hq Ho. apply load_store_ne; lia.
Qed.

Lemma block_update_Vec_store (lanes : positive) (p : Z) (v : list A)
    (upd : Z → A → A) (o : list A) :
  length v = Pos.to_nat lanes →
  0 ≤ p → p + Z.pos lanes ≤ Z.of_nat (length o) →
  (∀ k : nat, (k < Pos.to_nat lanes)%nat →
     v !!! k = upd (Z.of_nat k) (load o (p + Z.of_nat k))) →
  block_update p (Z.pos lanes) upd o (Vec_store v o p).
Proof.
  intros Hlv Hp Hl Hv. split_and!.
  - unfold Vec_store. apply length_inserts.
  - intros d Hd. rewrite load_Vec_store by lia.
    replace (p + d - p) with d by lia.
    rewrite Hv by lia. by rewrite Z2Nat.id by lia.
  - intros q Hq Ho. apply load_Vec_store_ne; lia.
Qed.

(** A loop of block updates is the block update by the loop on each
    cell. *)
Lemma block_update_irange (base size : Z) (g : Z → Z → A → A) (b e : Z)
    (body : Z → list A → list A) (o : list A) :
  (∀ j o', b ≤ j < e → length o' = length o →
     block_update base size (g j) o' (body j o')) →
  block_update base size (λ d v, irange b e (λ j, g j d) v) o (irange b e body o).
Proof.
  intros Hbody. destruct (decide (b ≤ e)) as [Hbe|Hbe].
  2: { rewrite irange_empty by lia.
       apply (block_update_ext _ _ (λ _ v, v)); [|apply block_update_refl].
       intros. by rewrite irange_empty by lia. }
  apply (irange_ind
    (λ j o', block_update base size (λ d v, irange b j (λ j, g j d) v) o o')
    b e body o Hbe).
  - apply (block_update_ext _ _ (λ _ v, v)); [|apply block_update_refl].
    intros. by rewrite irange_empty by lia.
  - intros j o' Hj Ho'.
    pose proof (Hbody j o' Hj (proj1 Ho')) as Hstep.
    pose proof (block_update_trans _ _ _ _ _ _ _ Ho' Hstep) as Ht.
    eapply block_update_ext; [|exact Ht].
    intros d Hd. cbv beta. by rewrite irange_snoc by lia.
Qed.

(** A vectorized pass whose vector body updates the lanes it covers and
    whose scalar body updates its cell updates every cell of the block
    once. *)
Lemma vec_pass_pointwise (lanes : positive) (size base : Z)
    (vbody sbody : Z → list A → list A) (upd : Z → A → A) (o : list A) :
  0 ≤ size → 0 ≤ base →
  (∀ d o', 0 ≤ d → d + Z.pos lanes ≤ size → length o' = length o →
     block_update (base + d) (Z.pos lanes) (λ k, upd (d + k)) o' (vbody d o')) →
  (∀ d o', 0 ≤ d < size → length o' = length o →
     block_update (base + d) 1 (λ k, upd (d + k)) o' (sbody d o')) →
  block_update base size upd o (AveragePool.vec_pass lanes size vbody sbody o).
Proof.
  intros Hs Hb Hv Hsc. unfold AveragePool.vec_pass.
  destruct (vec_pass_bounds lanes size Hs) as [Hl Hcnt].
  set (len := size - size `rem` Z.pos lanes) in *.
  set (n := Z.to_nat (len `quot` Z.pos lanes)) in *.
  clearbody n len.
  pose proof (strided_loop_ind
    (λ k o', block_update base (Z.of_nat k * Z.pos lanes) upd o o')
    n 0 (Z.pos lanes) vbody o) as H1.
  cbv beta in H1.
  assert (block_update base len upd o (strided_loop n 0 (Z.pos lanes) vbody o)) as Hv1.
  { rewrite <- Hcnt. apply H1.
    - split_and!; [done|intros; lia|done].
    - intros k o' Hk Ho'.
      replace (Z.of_nat (S k) * Z.pos lanes)
        with (Z.of_nat k * Z.pos lanes + Z.pos lanes) by lia.
      apply (block_update_app _ _ _ _ _ o'); [lia|lia|lia|done|].
      rewrite Z.add_0_l. apply Hv; [lia|nia|apply Ho']. }
  replace size with (len + (size - len)) at 1 by lia.
  pose proof (irange_ind
    (λ j o', block_update base j upd o o')
    len size sbody (strided_loop n 0 (Z.pos lanes) vbody o)) as H2.
  replace (len + (size - len)) with size by lia.
  apply H2; [lia|done|].
  intros j o' Hj Ho'.
  apply (block_update_app _ _ _ _ _ o'); [lia|lia|lia|done|].
  apply Hsc; [lia|apply Ho'].
Qed.
End BlockUpdates.

Section ChannelsLastForward.
Context {A : Type} `{!Inhabited A, !Runtime A, !Arith A}.
Import AveragePool.

(** The invariant of the channels-last kernels: the blocks of the
    positions already visited hold their values. *)
Lemma block_step_val (N OH OW C : Z) (val : Z → Z → Z → Z → A)
    (o o' : list A) (j n0 oh0 ow0 : Z) :
  0 < N → 0 < OH → 0 < OW → 0 ≤ C →
  0 ≤ j < N * OH * OW →
  0 ≤ n0 < N → 0 ≤ oh0 < OH → 0 ≤ ow0 < OW →
  j = ravel [n0; oh0; ow0] [N; OH; OW] →
  length o = Z.to_nat (N * OH * OW * C) →
  block_update (j * C) C (λ c _, val n0 oh0 ow0 c) o o' →
  (∀ n oh ow c, 0 ≤ n < N → 0 ≤ oh < OH → 0 ≤ ow < OW → 0 ≤ c < C →
     ravel [n; oh; ow] [N; OH; OW] < j →
     load o (ravel [n; oh; ow; c] [N; OH; OW; C]) = val n oh ow c) →
  length o' = Z.to_nat (N * OH * OW * C) ∧
  (∀ n oh ow c, 0 ≤ n < N → 0 ≤ oh < OH → 0 ≤ ow < OW → 0 ≤ c < C →
     ravel [n; oh; ow] [N; OH; OW] < j + 1 →
     load o' (ravel [n; oh; ow; c] [N; OH; OW; C]) = val n oh ow c).
Proof.
  intros HN HOH HOW HC Hj Hn0 Hoh0 How0 Hjr Hlen (Hl & Hu & Hf) IH.
  split; [congruence|].
  intros n oh ow c Hn Hoh How Hc Hlt.
  rewrite ravel4_split.
  pose proof (ravel_from_bounds 0 [n; oh; ow] [N; OH; OW] ltac:(lia)
                ltac:(repeat constructor; lia)) as Hb.
  destruct (decide (ravel [n; oh; ow] [N; OH; OW] = j)) as [Heq|Hne].
  - rewrite Heq. rewrite Hjr in Heq.
    apply ravel3_inj in Heq as (-> & -> & ->); try done.
    by apply Hu.
  - rewrite Hf.
    + rewrite <- ravel4_split. apply IH; try done. lia.
    + unfold ravel in *. nia.
    + left. unfold ravel in *. nia.
Qed.

Lemma lookup_total_fmap_lt (f : A → A) (l : list A) (k : nat) :
  (k < length l)%nat → (f <$> l) !!! k = f (l !!! k).
Proof.
  intros Hk. apply list_lookup_total_correct.
  by rewrite list_lookup_fmap, (list_lookup_lookup_total_lt l k Hk).
Qed.

(** Pass I of the kernels. *)
Lemma pass_zero (lanes : positive) (size base : Z) (z : A) (o : list A) :
  0 ≤ size → 0 ≤ base → base + size ≤ Z.of_nat (length o) →
  block_update base size (λ _ _, z) o
    (vec_pass lanes size
       (λ d o, Vec_store (Vec_broadcast z lanes) o (base + d))
       (λ d o, store o (base + d) z) o).
Proof.
  intros Hs Hb Hl. apply vec_pass_pointwise; [done|done| |].
  - intros d o' Hd Hdl Hlo. apply block_update_Vec_store.
    + apply length_replicate.
    + lia.
    + lia.
    + intros k Hk. unfold Vec_broadcast. by rewrite lookup_total_replicate_2.
  - intros d o' Hd Hlo. apply block_update_store; [lia|done].
Qed.

(** Pass II of the generic kernel for one input position. *)
Lemma pass_add (scalar_t : ScalarType) (lanes : positive) (size base in_ : Z)
    (input_data o : list A) :
  0 ≤ size → 0 ≤ base → base + size ≤ Z.of_nat (length o) →
  block_update base size (λ d v, add scalar_t v (load input_data (in_ + d))) o
    (vec_pass lanes size
       (λ d2 output_data,
          Vec_store
            (zip_with (add scalar_t)
               (Vec_loadu output_data (base + d2) lanes)
               (Vec_loadu input_data (in_ + d2) lanes))
            output_data (base + d2))
       (λ d2 output_data,
          store output_data (base + d2)
            (add scalar_t (load output_data (base + d2))
               (load input_data (in_ + d2))))
       o).
Proof.
  intros Hs Hb Hl. apply vec_pass_pointwise; [done|done| |].
  - intros d o' Hd Hdl Hlo. apply block_update_Vec_store.
    + rewrite length_zip_with, !Vec_loadu_length. lia.
    + lia.
    + lia.
    + intros k Hk.
      rewrite zip_with_lookup_total by (rewrite Vec_loadu_length; lia).
      rewrite !Vec_loadu_lookup by done. do 2 f_equal. lia.
  - intros d o' Hd Hlo. apply block_update_store; [lia|].
    by rewrite !Z.add_0_r.
Qed.

(** Pass III of the generic kernel. *)
Lemma pass_div (scalar_t : ScalarType) (lanes : positive) (size base factor : Z)
    (o : list A) :
  0 ≤ size → 0 ≤ base → base + size ≤ Z.of_nat (length o) →
  block_update base size (λ _ v, div scalar_t v factor) o
    (vec_pass lanes size
       (λ d3 output_data,
          Vec_store
            ((λ x, div scalar_t x factor) <$> Vec_loadu output_data (base + d3) lanes)
            output_data (base + d3))
       (λ d3 output_data,
          store output_data (base + d3)
            (div scalar_t (load output_data (base + d3)) factor))
       o).
Proof.
  intros Hs Hb Hl. apply vec_pass_pointwise; [done|done| |].
  - intros d o' Hd Hdl Hlo. apply block_update_Vec_store.
    + by rewrite length_fmap, Vec_loadu_length.
    + lia.
    + lia.
    + intros k Hk.
      rewrite lookup_total_fmap_lt by (rewrite Vec_loadu_length; lia).
      by rewrite Vec_loadu_lookup by done.
  - intros d o' Hd Hlo. by apply block_update_store; [lia|].
Qed.

(** The generic channels-last kernel: every cell of the output. *)
Lemma cpu_avg_pool_channels_last_generic_spec (scalar_t : ScalarType)
    (output_ input_ : Tensor A) (kW kH dW dH padW padH : Z)
    (count_include_pad : bool) (divisor_override : option Z)
    (N C IH IW OH OW : Z) :
  suggest_memory_format input_ = ChannelsLast →
  suggest_memory_format output_ = ChannelsLast →
  sizes input_ = [N; C; IH; IW] → sizes output_ = [N; C; OH; OW] →
  0 ≤ N → 0 ≤ C → 0 ≤ OH → 0 ≤ OW →
  length (data_ptr output_) = Z.to_nat (N * OH * OW * C) →
  ∃ out,
    cpu_avg_pool_channels_last_generic scalar_t output_ input_
      kW kH dW dH padW padH count_include_pad divisor_override =
      Ok (with_data output_ out) ∧
    length out = length (data_ptr output_) ∧
    ∀ n oh ow c, 0 ≤ n < N → 0 ≤ oh < OH → 0 ≤ ow < OW → 0 ≤ c < C →
      load out (ravel [n; oh; ow; c] [N; OH; OW; C]) =
      if window_empty (pooling_window oh ow kW kH dW dH padW padH IH IW)
      then zero scalar_t
      else div scalar_t
             (irange (ih0 (pooling_window oh ow kW kH dW dH padW padH IH IW))
                (ih1 (pooling_window oh ow kW kH dW dH padW padH IH IW))
                (λ ih, irange (iw0 (pooling_window oh ow kW kH dW dH padW padH IH IW))
                   (iw1 (pooling_window oh ow kW kH dW dH padW padH IH IW))
                   (λ iw sum,
                      add scalar_t sum
                        (load (data_ptr input_)
                           (n * IH * IW * C + ih * IW * C + iw * C + c))))
                (zero scalar_t))
             (divide_factor (pooling_window oh ow kW kH dW dH padW padH IH IW)
                count_include_pad divisor_override).
Proof.
  intros Hfi Hfo Hsi Hso HN HC HOH HOW Hlen.
  destruct (size_4d input_ _ _ _ _ Hsi) as (Hi0 & Hi1 & Hi2 & Hi3 & _).
  destruct (size_4d output_ _ _ _ _ Hso) as (_ & _ & Ho2 & Ho3 & _).
  unfold cpu_avg_pool_channels_last_generic, dim.
  rewrite Hsi. cbn [length TORCH_CHECK]. rewrite bool_decide_eq_true_2 by done.
  cbn [mbind result_bind].
  rewrite (contiguous_id input_), (contiguous_id output_) by done.
  cbn [mbind result_bind]. rewrite Hi0, Hi1, Hi2, Hi3, Ho2, Ho3.
  cbn [mbind result_bind]. rewrite (is_contiguous_true output_) by done.
  cbn [negb].
  set (body := λ (i : Z) (xs : list Z) (output_data : list A), _).
  eexists. split; [reflexivity|].
  set (val := λ n oh ow c,
         if window_empty (pooling_window oh ow kW kH dW dH padW padH IH IW)
         then zero scalar_t
         else div scalar_t
                (irange (ih0 (pooling_window oh ow kW kH dW dH padW padH IH IW))
                   (ih1 (pooling_window oh ow kW kH dW dH padW padH IH IW))
                   (λ ih, irange (iw0 (pooling_window oh ow kW kH dW dH padW padH IH IW))
                      (iw1 (pooling_window oh ow kW kH dW dH padW padH IH IW))
                      (λ iw sum,
                         add scalar_t sum
                           (load (data_ptr input_)
                              (n * IH * IW * C + ih * IW * C + iw * C + c))))
                   (zero scalar_t))
                (divide_factor (pooling_window oh ow kW kH dW dH padW padH IH IW)
                   count_include_pad divisor_override)).
  pose proof (parallel_for_ind
    (λ j o, length o = Z.to_nat (N * OH * OW * C) ∧
            ∀ n oh ow c, 0 ≤ n < N → 0 ≤ oh < OH → 0 ≤ ow < OW → 0 ≤ c < C →
              ravel [n; oh; ow] [N; OH; OW] < j →
              load o (ravel [n; oh; ow; c] [N; OH; OW; C]) = val n oh ow c)
    0 (N * OH * OW) (indexed_chunk [N; OH; OW] body) (data_ptr output_)) as Hinv.
  destruct Hinv as [Hl Hz].
  - nia.
  - split; [done|]. intros n oh ow c ? ? ? ? Hr.
    pose proof (ravel_from_bounds 0 [n; oh; ow] [N; OH; OW] ltac:(lia)
                  ltac:(repeat constructor; lia)). unfold ravel in Hr. lia.
  - intros b' e' st Hb' Hlt He' HP.
    destruct (prod3_pos N OH OW) as (HN' & HOH' & HOW'); [lia..|].
    apply indexed_chunk_ind; [lia|lia|repeat constructor; lia|done|].
    intros j o Hj [Hlo IHj].
    destruct (coords3 N OH OW j) as (n0 & oh0 & ow0 & -> & ? & ? & ? & Hjr);
      [lia..|].
    apply (block_step_val N OH OW C val o (body j [n0; oh0; ow0] o) j n0 oh0 ow0);
      try done; try lia.
    assert (j * C + C ≤ Z.of_nat (length o)) as Hblock.
    { clear -Hlo HC Hj He' Hb'.
      pose proof (Z.mul_le_mono_nonneg_r (j + 1) (N * OH * OW) C HC ltac:(lia)).
      assert (0 ≤ N * OH * OW * C) by (apply Z.mul_nonneg_nonneg; lia).
      rewrite Hlo, Z2Nat.id; lia. }
    assert (0 ≤ j * C) as Hbase by (apply Z.mul_nonneg_nonneg; lia).
    unfold body, val. cbv zeta.
    pose proof (pass_zero (vec_size scalar_t) C (j * C) (zero scalar_t) o
                  HC Hbase Hblock) as HI.
    set (o1 := vec_pass _ _ _ _ o) in *.
    destruct (window_empty _) eqn:Hemp; [exact HI|].
    set (w := pooling_window oh0 ow0 kW kH dW dH padW padH IH IW) in *.
    assert (block_update (j * C) C
              (λ d v, irange (ih0 w) (ih1 w)
                 (λ ih, irange (iw0 w) (iw1 w)
                    (λ iw sum,
                       add scalar_t sum
                         (load (data_ptr input_)
                            (n0 * IH * IW * C + ih * IW * C + iw * C + d)))) v)
              o1
              (irange (ih0 w) (ih1 w)
                 (λ ih, irange (iw0 w) (iw1 w)
                    (λ iw output_data,
                       vec_pass (vec_size scalar_t) C
                         (λ d2 output_data,
                            Vec_store
                              (zip_with (add scalar_t)
                                 (Vec_loadu output_data (j * C + d2) (vec_size scalar_t))
                                 (Vec_loadu (data_ptr input_)
                                    (n0 * IH * IW * C + ih * IW * C + iw * C + d2)
                                    (vec_size scalar_t)))
                              output_data (j * C + d2))
                         (λ d2 output_data,
                            store output_data (j * C + d2)
                              (add scalar_t (load output_data (j * C + d2))
                                 (load (data_ptr input_)
                                    (n0 * IH * IW * C + ih * IW * C + iw * C + d2))))
                         output_data))
                 o1)) as HII.
    { apply (block_update_irange (j * C) C
               (λ ih d v, irange (iw0 w) (iw1 w)
                  (λ iw sum,
                     add scalar_t sum
                       (load (data_ptr input_)
                          (n0 * IH * IW * C + ih * IW * C + iw * C + d))) v)).
      intros ih o' Hih Hlo'.
      apply (block_update_irange (j * C) C
               (λ iw d v,
                  add scalar_t v
                    (load (data_ptr input_)
                       (n0 * IH * IW * C + ih * IW * C + iw * C + d)))).
      intros iw o'' Hiw Hlo''.
      apply pass_add; [done|done|].
      rewrite Hlo'', Hlo'. destruct HI as [-> _]. done. }
    set (o2 := irange _ _ _ o1) in *.
    pose proof (pass_div scalar_t (vec_size scalar_t) C (j * C)
                  (divide_factor w count_include_pad divisor_override) o2
                  HC Hbase) as HIII.
    specialize (HIII ltac:(destruct HII as [-> _]; destruct HI as [-> _]; done)).
    pose proof (block_update_trans _ _ _ _ _ _ _
                  (block_update_trans _ _ _ _ _ _ _ HI HII) HIII) as Hall.
    exact Hall.
  - split; [by rewrite Hl|].
    intros n oh ow c ? ? ? ?. apply Hz; try done.
    pose proof (ravel_from_bounds 0 [n; oh; ow] [N; OH; OW] ltac:(lia)
                  ltac:(repeat constructor; lia)) as Hb.
    unfold ravel, prod_sizes in *. simpl in Hb. lia.
Qed.

(** A loop of stores over a block. *)
Lemma irange_pointwise (size base : Z) (sbody : Z → list A → list A)
    (upd : Z → A → A) (o : list A) :
  0 ≤ size → 0 ≤ base →
  (∀ d o', 0 ≤ d < size → length o' = length o →
     block_update (base + d) 1 (λ k, upd (d + k)) o' (sbody d o')) →
  block_update base size upd o (irange 0 size sbody o).
Proof.
  intros Hs Hb Hsc.
  apply (irange_ind (λ j o', block_update base j upd o o') 0 size sbody o Hs).
  - split_and!; [done|intros; lia|done].
  - intros j o' Hj Ho'.
    apply (block_update_app _ _ _ _ _ o'); [lia|lia|lia|done|].
    apply Hsc; [lia|apply Ho'].
Qed.

(** Pass II of the BFloat16 kernel for one input position: the cells are
    converted to [float] and added to the buffer of sums, two vectors of
    floats for one vector of BFloat16 cells. *)
Lemma pass_add_BFloat16 (size in_ : Z) (input_data sum : list A) :
  0 ≤ size → size ≤ Z.of_nat (length sum) →
  block_update 0 size
    (λ d v, add Float v (cast BFloat16 Float (load input_data (in_ + d)))) sum
    (vec_pass (vec_size BFloat16) size
       (λ d2 sum,
          let data_bvec := Vec_loadu input_data (in_ + d2) (vec_size BFloat16) in
          let data_fvec0 :=
            cast BFloat16 Float <$> take (Pos.to_nat (vec_size Float)) data_bvec in
          let data_fvec1 :=
            cast BFloat16 Float <$> drop (Pos.to_nat (vec_size Float)) data_bvec in
          let sum_fvec0 :=
            zip_with (add Float) (Vec_loadu sum d2 (vec_size Float)) data_fvec0 in
          let sum_fvec1 :=
            zip_with (add Float)
              (Vec_loadu sum (d2 + Z.pos (vec_size Float)) (vec_size Float))
              data_fvec1 in
          let sum := Vec_store sum_fvec0 sum d2 in
          Vec_store sum_fvec1 sum (d2 + Z.pos (vec_size Float)))
       (λ d2 sum,
          store sum d2
            (add Float (load sum d2)
               (cast BFloat16 Float (load input_data (in_ + d2)))))
       sum).
Proof.
  intros Hs Hl.
  pose proof bvec_is_two_fvec as Hbf.
  assert (Z.pos (vec_size BFloat16) = Z.pos (vec_size Float) + Z.pos (vec_size Float))
    as HbZ by (rewrite Hbf; lia).
  assert (Pos.to_nat (vec_size BFloat16) =
          (Pos.to_nat (vec_size Float) + Pos.to_nat (vec_size Float))%nat)
    as Hbn by (rewrite Hbf; lia).
  set (fV := vec_size Float) in *. set (bV := vec_size BFloat16) in *.
  apply (vec_pass_pointwise bV size 0); [done|done| |].
  - intros d o' Hd Hdl Hlo. cbv zeta. rewrite Z.add_0_l, HbZ.
    set (data_bvec := Vec_loadu input_data (in_ + d) bV).
    assert (length data_bvec = Pos.to_nat bV) as Hdl' by apply Vec_loadu_length.
    eapply block_update_app with (s1 := Z.pos fV) (s2 := Z.pos fV); [lia|lia|lia| |].
    2: { apply block_update_Vec_store.
         - rewrite length_zip_with, Vec_loadu_length, length_fmap, length_drop. lia.
         - lia.
         - unfold Vec_store. rewrite length_inserts. lia.
         - intros k Hk.
           rewrite zip_with_lookup_total
             by (rewrite ?Vec_loadu_length, ?length_fmap, ?length_drop; lia).
           rewrite lookup_total_fmap_lt by (rewrite length_drop; lia).
           rewrite lookup_total_drop.
           unfold data_bvec. rewrite !Vec_loadu_lookup by lia.
           rewrite load_Vec_store_ne.
           + do 3 f_equal. lia.
           + lia.
           + lia.
           + right. rewrite length_zip_with, Vec_loadu_length, length_fmap, length_take.
             lia. }
    apply block_update_Vec_store.
    + rewrite length_zip_with, Vec_loadu_length, length_fmap, length_take. lia.
    + lia.
    + lia.
    + intros k Hk.
      rewrite zip_with_lookup_total
        by (rewrite ?Vec_loadu_length, ?length_fmap, ?length_take; lia).
      rewrite lookup_total_fmap_lt by (rewrite length_take; lia).
      rewrite lookup_total_take_lt by done.
      unfold data_bvec. rewrite !Vec_loadu_lookup by lia.
      do 3 f_equal. lia.
  - intros d o' Hd Hlo. rewrite Z.add_0_l.
    apply block_update_store; [lia|]. by rewrite !Z.add_0_r.
Qed.

(** Pass III of the BFloat16 kernel: the sums are divided in [float] and
    converted to the cells of the output. *)
Lemma pass_div_BFloat16 (size base factor : Z) (sum o : list A) :
  0 ≤ size → 0 ≤ base → base + size ≤ Z.of_nat (length o) →
  block_update base size
    (λ d _, cast Float BFloat16 (div Float (load sum d) factor)) o
    (vec_pass (vec_size BFloat16) size
       (λ d3 output_data,
          let out_fvec0 :=
            (λ x, div Float x factor) <$> Vec_loadu sum d3 (vec_size Float) in
          let out_fvec1 :=
            (λ x, div Float x factor) <$>
              Vec_loadu sum (d3 + Z.pos (vec_size Float)) (vec_size Float) in
          let out_bvec := cast Float BFloat16 <$> (out_fvec0 ++ out_fvec1) in
          Vec_store out_bvec output_data (base + d3))
       (λ d3 output_data,
          store output_data (base + d3)
            (cast Float BFloat16 (div Float (load sum d3) factor)))
       o).
Proof.
  intros Hs Hb Hl.
  pose proof bvec_is_two_fvec as Hbf.
  assert (Pos.to_nat (vec_size BFloat16) =
          (Pos.to_nat (vec_size Float) + Pos.to_nat (vec_size Float))%nat)
    as Hbn by (rewrite Hbf; lia).
  set (fV := vec_size Float) in *. set (bV := vec_size BFloat16) in *.
  apply vec_pass_pointwise; [done|done| |].
  - intros d o' Hd Hdl Hlo. cbv zeta. apply block_update_Vec_store.
    + rewrite length_fmap, length_app, !length_fmap, !Vec_loadu_length. lia.
    + lia.
    + lia.
    + intros k Hk.
      rewrite lookup_total_fmap_lt
        by (rewrite length_app, !length_fmap, !Vec_loadu_length; lia).
      f_equal.
      destruct (decide (k < Pos.to_nat fV)%nat) as [Hlt|Hge].
      * rewrite lookup_total_app_l by (rewrite length_fmap, Vec_loadu_length; lia).
        rewrite lookup_total_fmap_lt by (rewrite Vec_loadu_length; lia).
        by rewrite Vec_loadu_lookup by done.
      * rewrite lookup_total_app_r by (rewrite length_fmap, Vec_loadu_length; lia).
        rewrite length_fmap, Vec_loadu_length.
        rewrite lookup_total_fmap_lt by (rewrite Vec_loadu_length; lia).
        rewrite Vec_loadu_lookup by lia. do 2 f_equal. lia.
  - intros d o' Hd Hlo. apply block_update_store; [lia|].
    by rewrite !Z.add_0_r.
Qed.

(** The BFloat16 channels-last kernel: every cell of the output. *)
Lemma cpu_avg_pool_channels_last_BFloat16_spec
    (output_ input_ : Tensor A) (kW kH dW dH padW padH : Z)
    (count_include_pad : bool) (divisor_override : option Z)
    (N C IH IW OH OW : Z) :
  suggest_memory_format input_ = ChannelsLast →
  suggest_memory_format output_ = ChannelsLast →
  sizes input_ = [N; C; IH; IW] → sizes output_ = [N; C; OH; OW] →
  0 ≤ N → 0 ≤ C → 0 ≤ OH → 0 ≤ OW →
  length (data_ptr output_) = Z.to_nat (N * OH * OW * C) →
  ∃ out,
    cpu_avg_pool_channels_last_BFloat16 output_ input_
      kW kH dW dH padW padH count_include_pad divisor_override =
      Ok (with_data output_ out) ∧
    length out = length (data_ptr output_) ∧
    ∀ n oh ow c, 0 ≤ n < N → 0 ≤ oh < OH → 0 ≤ ow < OW → 0 ≤ c < C →
      load out (ravel [n; oh; ow; c] [N; OH; OW; C]) =
      if window_empty (pooling_window oh ow kW kH dW dH padW padH IH IW)
      then zero BFloat16
      else cast Float BFloat16
             (div Float
                (window_sum BFloat16 Float
                   (λ ih iw, load (data_ptr input_)
                               (n * IH * IW * C + ih * IW * C + iw * C + c))
                   (pooling_window oh ow kW kH dW dH padW padH IH IW))
                (divide_factor (pooling_window oh ow kW kH dW dH padW padH IH IW)
                   count_include_pad divisor_override)).
Proof.
  intros Hfi Hfo Hsi Hso HN HC HOH HOW Hlen.
  destruct (size_4d input_ _ _ _ _ Hsi) as (Hi0 & Hi1 & Hi2 & Hi3 & _).
  destruct (size_4d output_ _ _ _ _ Hso) as (_ & _ & Ho2 & Ho3 & _).
  unfold cpu_avg_pool_channels_last_BFloat16, dim.
  rewrite Hsi. cbn [length TORCH_CHECK]. rewrite bool_decide_eq_true_2 by done.
  cbn [mbind result_bind].
  rewrite (contiguous_id input_), (contiguous_id output_) by done.
  cbn [mbind result_bind]. rewrite Hi0, Hi1, Hi2, Hi3, Ho2, Ho3.
  cbn [mbind result_bind]. rewrite (is_contiguous_true output_) by done.
  cbn [negb].
  set (body := λ (i : Z) (xs : list Z) (st : list A * list A), _).
  set (sum_arr := uninitialized <$> seq 0 (Z.to_nat C)).
  eexists. split; [reflexivity|].
  set (val := λ n oh ow c,
         if window_empty (pooling_window oh ow kW kH dW dH padW padH IH IW)
         then zero BFloat16
         else cast Float BFloat16
                (div Float
                   (window_sum BFloat16 Float
                      (λ ih iw, load (data_ptr input_)
                                  (n * IH * IW * C + ih * IW * C + iw * C + c))
                      (pooling_window oh ow kW kH dW dH padW padH IH IW))
                   (divide_factor (pooling_window oh ow kW kH dW dH padW padH IH IW)
                      count_include_pad divisor_override))).
  pose proof (parallel_for_ind
    (λ j o, length o = Z.to_nat (N * OH * OW * C) ∧
            ∀ n oh ow c, 0 ≤ n < N → 0 ≤ oh < OH → 0 ≤ ow < OW → 0 ≤ c < C →
              ravel [n; oh; ow] [N; OH; OW] < j →
              load o (ravel [n; oh; ow; c] [N; OH; OW; C]) = val n oh ow c)
    0 (N * OH * OW)
    (λ begin end_ output_data,
       (indexed_chunk [N; OH; OW] body begin end_ (output_data, sum_arr)).1)
    (data_ptr output_)) as Hinv.
  destruct Hinv as [Hl Hz].
  - nia.
  - split; [done|]. intros n oh ow c ? ? ? ? Hr.
    pose proof (ravel_from_bounds 0 [n; oh; ow] [N; OH; OW] ltac:(lia)
                  ltac:(repeat constructor; lia)). unfold ravel in Hr. lia.
  - intros b' e' st Hb' Hlt He' HP.
    destruct (prod3_pos N OH OW) as (HN' & HOH' & HOW'); [lia..|].
    pose proof (indexed_chunk_ind
             (λ j (st : list A * list A),
                (length st.1 = Z.to_nat (N * OH * OW * C) ∧
                 ∀ n oh ow c, 0 ≤ n < N → 0 ≤ oh < OH → 0 ≤ ow < OW → 0 ≤ c < C →
                   ravel [n; oh; ow] [N; OH; OW] < j →
                   load st.1 (ravel [n; oh; ow; c] [N; OH; OW; C]) = val n oh ow c) ∧
                length st.2 = Z.to_nat C)
             [N; OH; OW] body b' e' (st, sum_arr)) as Hchunk.
    apply Hchunk; [lia|lia|repeat constructor; lia| |].
    { split; [done|]. cbn [snd]. unfold sum_arr. by rewrite length_fmap, length_seq. }
    clear Hchunk.
    intros j [o sum] Hj [[Hlo IHj] Hls]. cbn [fst snd] in Hlo, IHj, Hls.
    destruct (coords3 N OH OW j) as (n0 & oh0 & ow0 & -> & ? & ? & ? & Hjr);
      [lia..|].
    assert (j * C + C ≤ Z.of_nat (length o)) as Hblock.
    { clear -Hlo HC Hj He' Hb'.
      pose proof (Z.mul_le_mono_nonneg_r (j + 1) (N * OH * OW) C HC ltac:(lia)).
      assert (0 ≤ N * OH * OW * C) by (apply Z.mul_nonneg_nonneg; lia).
      rewrite Hlo, Z2Nat.id; lia. }
    assert (0 ≤ j * C) as Hbase by (apply Z.mul_nonneg_nonneg; lia).
    assert (C ≤ Z.of_nat (length sum)) as Hsum by lia.
    unfold body. cbv zeta. cbv beta iota.
    pose proof (pass_zero (vec_size Float) C 0 (zero Float) sum
                  HC ltac:(lia) ltac:(lia)) as HI.
    change (λ (d : Z) (o : list A),
              Vec_store (Vec_broadcast (zero Float) (vec_size Float)) o (0 + d))
      with (λ (d : Z) (o : list A),
              Vec_store (Vec_broadcast (zero Float) (vec_size Float)) o d) in HI.
    change (λ (d : Z) (o : list A), store o (0 + d) (zero Float))
      with (λ (d : Z) (o : list A), store o d (zero Float)) in HI.
    set (sum1 := vec_pass _ _ _ _ sum) in *.
    destruct (window_empty _) eqn:Hemp; cbn [fst snd].
    + (* the block is zeroed cell by cell *)
      split; [|by destruct HI as [-> _]].
      apply (block_step_val N OH OW C val o _ j n0 oh0 ow0); try done; try lia.
      unfold val. rewrite Hemp.
      apply irange_pointwise; [done|done|].
      intros d o' Hd Hlo'. by apply block_update_store; [lia|].
    + set (w := pooling_window oh0 ow0 kW kH dW dH padW padH IH IW) in *.
      assert (block_update 0 C
                (λ d v, irange (ih0 w) (ih1 w)
                   (λ ih, irange (iw0 w) (iw1 w)
                      (λ iw sum,
                         add Float sum
                           (cast BFloat16 Float
                              (load (data_ptr input_)
                                 (n0 * IH * IW * C + ih * IW * C + iw * C + d))))) v)
                sum1
                (irange (ih0 w) (ih1 w)
                   (λ ih, irange (iw0 w) (iw1 w)
                      (λ iw sum,
                         vec_pass (vec_size BFloat16) C
                           (λ d2 sum,
                              Vec_store
                                (zip_with (add Float)
                                   (Vec_loadu sum (d2 + Z.pos (vec_size Float))
                                      (vec_size Float))
                                   (cast BFloat16 Float <$>
                                      drop (Pos.to_nat (vec_size Float))
                                        (Vec_loadu (data_ptr input_)
                                           (n0 * IH * IW * C + ih * IW * C +
                                            iw * C + d2)
                                           (vec_size BFloat16))))
                                (Vec_store
                                   (zip_with (add Float)
                                      (Vec_loadu sum d2 (vec_size Float))
                                      (cast BFloat16 Float <$>
                                         take (Pos.to_nat (vec_size Float))
                                           (Vec_loadu (data_ptr input_)
                                              (n0 * IH * IW * C + ih * IW * C +
                                               iw * C + d2)
                                              (vec_size BFloat16))))
                                   sum d2)
                                (d2 + Z.pos (vec_size Float)))
                           (λ d2 sum,
                              store sum d2
                                (add Float (load sum d2)
                                   (cast BFloat16 Float
                                      (load (data_ptr input_)
                                         (n0 * IH * IW * C + ih * IW * C +
                                          iw * C + d2)))))
                           sum))
                   sum1)) as HII.
      { apply (block_update_irange 0 C
                 (λ ih d v, irange (iw0 w) (iw1 w)
                    (λ iw sum,
                       add Float sum
                         (cast BFloat16 Float
                            (load (data_ptr input_)
                               (n0 * IH * IW * C + ih * IW * C + iw * C + d)))) v)).
        intros ih o' Hih Hlo'.
        apply (block_update_irange 0 C
                 (λ iw d v,
                    add Float v
                      (cast BFloat16 Float
                         (load (data_ptr input_)
                            (n0 * IH * IW * C + ih * IW * C + iw * C + d))))).
        intros iw o'' Hiw Hlo''.
        apply pass_add_BFloat16; [done|].
        rewrite Hlo'', Hlo'. destruct HI as [-> _]. done. }
      set (sum2 := irange _ _ _ sum1) in *.
      split; [|destruct HII as [-> _]; by destruct HI as [-> _]].
      apply (block_step_val N OH OW C val o _ j n0 oh0 ow0); try done; try lia.
      pose proof (pass_div_BFloat16 C (j * C)
                    (divide_factor w count_include_pad divisor_override) sum2 o
                    HC Hbase Hblock) as HIII.
      eapply block_update_ext; [|exact HIII].
      intros d Hd. cbv beta. unfold val. fold w. rewrite Hemp.
      do 2 f_equal. unfold window_sum.
      destruct HII as (_ & HuII & _). destruct HI as (_ & HuI & _).
      specialize (HuII d Hd). specialize (HuI d Hd).
      rewrite Z.add_0_l in HuII, HuI. by rewrite HuII, HuI.
  - split; [by rewrite Hl|].
    intros n oh ow c ? ? ? ?. apply Hz; try done.
    pose proof (ravel_from_bounds 0 [n; oh; ow] [N; OH; OW] ltac:(lia)
                  ltac:(repeat constructor; lia)) as Hb.
    unfold ravel, prod_sizes in *. simpl in Hb. lia.
Qed.

(** Channels-last layout, generic and BFloat16 kernels: every element
    of the result. *)
Lemma avg_pool2d_kernel_impl_channels_last (output input : Tensor A)
    (kW kH dW dH padW padH : Z) (count_include_pad : bool)
    (divisor_override : option Z) (N C IH IW OH OW : Z) :
  sizes input = [N; C; IH; IW] → sizes output = [N; C; OH; OW] →
  suggest_memory_format input = ChannelsLast →
  suggest_memory_format output = ChannelsLast →
  pooling_type (scalar_type input) →
  0 ≤ N → 0 ≤ C → 0 ≤ OH → 0 ≤ OW →
  length (data_ptr output) = Z.to_nat (numel output) →
  ∃ out,
    avg_pool2d_kernel_impl output input kW kH dW dH padW padH
      count_include_pad divisor_override = Ok out ∧
    sizes out = sizes output ∧
    suggest_memory_format out = suggest_memory_format output ∧
    scalar_type out = scalar_type output ∧
    length (data_ptr out) = Z.to_nat (numel output) ∧
    ∀ n c oh ow, 0 ≤ n < N → 0 ≤ c < C → 0 ≤ oh < OH → 0 ≤ ow < OW →
      element out [n; c; oh; ow] =
      avg_pool_cell_channels_last (scalar_type input)
        (λ ih iw, element input [n; c; ih; iw])
        (pooling_window oh ow kW kH dW dH padW padH IH IW)
        count_include_pad divisor_override.
Proof.
  intros Hsi Hso Hfi Hfo Hty HN HC HOH HOW Hlen.
  pose proof (numel_4d output _ _ _ _ Hso) as Hnum.
  assert (length (data_ptr output) = Z.to_nat (N * OH * OW * C)) as Hlen'.
  { rewrite Hlen, Hnum. f_equal. lia. }
  unfold avg_pool2d_kernel_impl.
  rewrite Hfi, dispatch_pooling by done.
  unfold cpu_avg_pool_channels_last.
  assert (∃ out,
    (if bool_decide (scalar_type input = BFloat16)
     then cpu_avg_pool_channels_last_BFloat16 output input kW kH dW dH padW padH
            count_include_pad divisor_override
     else cpu_avg_pool_channels_last_generic (scalar_type input) output input
            kW kH dW dH padW padH count_include_pad divisor_override) =
      Ok (with_data output out) ∧
    length out = length (data_ptr output) ∧
    ∀ n oh ow c, 0 ≤ n < N → 0 ≤ oh < OH → 0 ≤ ow < OW → 0 ≤ c < C →
      load out (ravel [n; oh; ow; c] [N; OH; OW; C]) =
      avg_pool_cell_channels_last (scalar_type input)
        (λ ih iw, load (data_ptr input) (n * IH * IW * C + ih * IW * C + iw * C + c))
        (pooling_window oh ow kW kH dW dH padW padH IH IW)
        count_include_pad divisor_override) as (out & -> & Hol & Hcells).
  { unfold avg_pool_cell_channels_last. case_bool_decide as Hb.
    - rewrite Hb. by apply cpu_avg_pool_channels_last_BFloat16_spec.
    - by apply cpu_avg_pool_channels_last_generic_spec. }
  eexists. split; [reflexivity|].
  cbn [with_data sizes suggest_memory_format scalar_type data_ptr].
  split_and!; try done; [congruence|].
  intros n c oh ow Hn Hc Hoh How.
  rewrite element_with_data, (offset_of_channels_last output N C OH OW) by done.
  replace (n * OH * OW * C + oh * OW * C + ow * C + c)
    with (ravel [n; oh; ow; c] [N; OH; OW; C])
    by (unfold ravel, ravel_from; simpl; lia).
  rewrite Hcells by done.
  unfold avg_pool_cell_channels_last, window_sum, element.
  destruct (window_empty _); [done|].
  case_bool_decide.
  - do 2 f_equal. apply irange_ext. intros ih acc Hih.
    apply irange_ext. intros iw acc' Hiw.
    by rewrite (offset_of_channels_last input N C IH IW).
  - f_equal. apply irange_ext. intros ih acc Hih.
    apply irange_ext. intros iw acc' Hiw.
    by rewrite (offset_of_channels_last input N C IH IW).
Qed.

(** The forward entry point on an accepted channels-last input. *)
Lemma forward_elements_channels_last (input : Tensor A)
    (kH kW dH dW padH padW : Z) (ceil_mode count_include_pad : bool)
    (divisor_override : option Z) (N C IH IW : Z) :
  let OH := pooling_output_shape_pad_lr IH kH padH padH dH 1 ceil_mode in
  let OW := pooling_output_shape_pad_lr IW kW padW padW dW 1 ceil_mode in
  well_formed input → suggest_memory_format input = ChannelsLast →
  sizes input = [N; C; IH; IW] → pooling_type (scalar_type input) →
  0 < kH → 0 < kW → 0 < dH → 0 < dW →
  padH ≤ kH `quot` 2 → padW ≤ kW `quot` 2 →
  1 ≤ OH → 1 ≤ OW →
  divisor_nonzero divisor_override = true →
  ∃ out,
    avg_pool2d_out_cpu input [kH; kW] [dH; dW] [padH; padW]
      ceil_mode count_include_pad divisor_override = Ok out ∧
    sizes out = [N; C; OH; OW] ∧
    suggest_memory_format out = ChannelsLast ∧
    scalar_type out = scalar_type input ∧
    length (data_ptr out) = Z.to_nat (numel out) ∧
    ∀ n c oh ow, 0 ≤ n < N → 0 ≤ c < C → 0 ≤ oh < OH → 0 ≤ ow < OW →
      element out [n; c; oh; ow] =
      avg_pool_cell_channels_last (scalar_type input)
        (λ ih iw, element input [n; c; ih; iw])
        (pooling_window oh ow kW kH dW dH padW padH IH IW)
        count_include_pad divisor_override.
Proof.
  intros OH OW Hwf Hfi Hsi Hty HkH HkW HdH HdW HpH HpW HOH HOW Hdiv.
  assert (0 < N ∧ 0 < C ∧ 0 < IH ∧ 0 < IW) as (HN & HC & HIH & HIW).
  { destruct Hwf as (_ & _ & Hcl). rewrite Hfi, Hsi in Hcl.
    destruct Hcl as [_ Hpos].
    apply Forall_cons in Hpos as [? Hpos]. apply Forall_cons in Hpos as [? Hpos].
    apply Forall_cons in Hpos as [? Hpos]. apply Forall_cons in Hpos as [? _].
    done. }
  rewrite (avg_pool2d_out_cpu_checked input kH kW dH dW padH padW ceil_mode
             count_include_pad divisor_override [N] C IH IW) by done.
  fold OH OW. rewrite Hfi.
  pose proof (fresh_output_facts ([N] ++ [C; OH; OW]) ChannelsLast
                (scalar_type input)) as Hfresh. cbv zeta in Hfresh.
  set (output := mkTensor _ _ _ _) in *.
  destruct (avg_pool2d_kernel_impl_channels_last output input
              kW kH dW dH padW padH count_include_pad divisor_override
              N C IH IW OH OW)
    as (out & -> & Hs & Hf & Hd & Hlen & Hel); try done; try lia.
  exists out. split_and!; try done.
  rewrite Hlen. unfold numel. by rewrite Hs.
Qed.
End ChannelsLastForward.

Section ChannelsLastAverage.
Import AveragePool.
Context {A : Type} `{!Inhabited A, !Runtime A, !Arith A}.

(** On an accepted channels-last input, with kernel, stride and padding
    in the range of [int], the forward pass returns a channels-last
    tensor of the pooled shape; the divisor of every window that holds a
    cell is not zero; each element is zero when
    its window holds no cell, and otherwise the sum of the cells of its
    window, added to zero row by row in the element type, divided by
    the divisor of the window; for BFloat16 cells the sum is formed and
    divided in [float] and then converted. *)
Theorem avg_pool2d_forward_average_channels_last (input : Tensor A)
    (kH kW dH dW padH padW : Z) (ceil_mode count_include_pad : bool)
    (divisor_override : option Z) (N C IH IW : Z) :
  let OH := pooling_output_shape_pad_lr IH kH padH padH dH 1 ceil_mode in
  let OW := pooling_output_shape_pad_lr IW kW padW padW dW 1 ceil_mode in
  well_formed input → suggest_memory_format input = ChannelsLast →
  sizes input = [N; C; IH; IW] → pooling_type (scalar_type input) →
  Forall int_range [kH; kW; dH; dW; padH; padW] →
  0 < kH → 0 < kW → 0 < dH → 0 < dW →
  padH ≤ kH `quot` 2 → padW ≤ kW `quot` 2 →
  1 ≤ OH → 1 ≤ OW →
  divisor_nonzero divisor_override = true →
  ∃ out,
    avg_pool2d_out_cpu input [kH; kW] [dH; dW] [padH; padW]
      ceil_mode count_include_pad divisor_override = Ok out ∧
    sizes out = [N; C; OH; OW] ∧
    suggest_memory_format out = ChannelsLast ∧
    scalar_type out = scalar_type input ∧
    (∀ oh ow, 0 ≤ oh < OH → 0 ≤ ow < OW →
       window_empty (pooling_window oh ow kW kH dW dH padW padH IH IW) = false →
       divide_factor (pooling_window oh ow kW kH dW dH padW padH IH IW)
         count_include_pad divisor_override ≠ 0) ∧
    ∀ n c oh ow, 0 ≤ n < N → 0 ≤ c < C → 0 ≤ oh < OH → 0 ≤ ow < OW →
      element out [n; c; oh; ow] =
      avg_pool_cell_channels_last (scalar_type input)
        (λ ih iw, element input [n; c; ih; iw])
        (pooling_window oh ow kW kH dW dH padW padH IH IW)
        count_include_pad divisor_override.
Proof.
  intros OH OW Hwf Hfi Hsi Hty Hints HkH HkW HdH HdW HpH HpW HOH HOW Hdiv.
  destruct (forward_elements_channels_last input kH kW dH dW padH padW ceil_mode
              count_include_pad divisor_override N C IH IW)
    as (out & Ho & Hs & Hf & Hd & _ & Hel); try done.
  exists out. split_and!; try done.
  intros oh ow _ _ Hne. by apply nonempty_window_divisor.
Qed.
End ChannelsLastAverage.

Section PoolingInvariance.
Import AveragePool.
Context {A : Type} `{!Inhabited A, !Arith A}.

(** Two runs of the forward pass on an accepted input whose cells are
    given by the same expressions return the same tensor. *)
Lemma forward_results_equal (R1 R2 : Runtime A) (input : Tensor A)
    (kH kW dH dW padH padW : Z) (ceil_mode cip1 cip2 : bool)
    (dov1 dov2 : option Z) (lead : list Z) (C IH IW : Z) :
  let OH := pooling_output_shape_pad_lr IH kH padH padH dH 1 ceil_mode in
  let OW := pooling_output_shape_pad_lr IW kW padW padW dW 1 ceil_mode in
  well_formed input → (length lead ≤ 1)%nat →
  sizes input = lead ++ [C; IH; IW] → pooling_type (scalar_type input) →
  0 < kH → 0 < kW → 0 < dH → 0 < dW →
  padH ≤ kH `quot` 2 → padW ≤ kW `quot` 2 →
  0 < C → 0 < IH → 0 < IW → 1 ≤ OH → 1 ≤ OW →
  divisor_nonzero dov1 = true → divisor_nonzero dov2 = true →
  (∀ w, divide_factor w cip1 dov1 = divide_factor w cip2 dov2) →
  @avg_pool2d_out_cpu A _ R1 _ input [kH; kW] [dH; dW] [padH; padW]
    ceil_mode cip1 dov1 =
  @avg_pool2d_out_cpu A _ R2 _ input [kH; kW] [dH; dW] [padH; padW]
    ceil_mode cip2 dov2.
Proof.
  intros OH OW Hwi Hl Hsi Hpt HkH HkW HdH HdW HpH HpW HC HIH HIW HOH HOW
    Hdiv1 Hdiv2 Hfac.
  assert (Forall (λ s, 0 ≤ s) (sizes input)) as Hnn by by destruct Hwi as (_ & ? & _).
  assert (Forall (λ s, 0 ≤ s) lead) as Hlead.
  { rewrite Hsi in Hnn. by apply Forall_app in Hnn as [? _]. }
  destruct (well_formed_low_rank input lead C IH IW Hwi Hsi Hl) as (Hfi & Hcl & Hpk).
  destruct Hfi as [Hfi | Hfi].
  - destruct (forward_elements (Runtime0:=R1) input kH kW dH dW padH padW
                ceil_mode cip1 dov1 lead C IH IW Hwi Hl Hsi Hpt
                HkH HkW HdH HdW HpH HpW HC HIH HIW HOH HOW Hdiv1)
      as (o1 & -> & Hs1 & Hf1 & Hd1 & Hl1 & Hel1).
    destruct (forward_elements (Runtime0:=R2) input kH kW dH dW padH padW
                ceil_mode cip2 dov2 lead C IH IW Hwi Hl Hsi Hpt
                HkH HkW HdH HdW HpH HpW HC HIH HIW HOH HOW Hdiv2)
      as (o2 & -> & Hs2 & Hf2 & Hd2 & Hl2 & Hel2).
    f_equal. apply tensor_ext; try congruence.
    { rewrite Hs1. apply Forall_app. split; [done|]. fold OH OW.
      repeat constructor; lia. }
    intros xs Hxs. rewrite Hs1 in Hxs.
    destruct (entry_coords lead C OH OW xs Hxs) as (idx & c & h & w & -> & ? & ? & ? & ?).
    destruct (Hel1 idx c h w) as [_ ->]; try done.
    destruct (Hel2 idx c h w) as [_ ->]; try done.
    unfold avg_pool_cell. by rewrite Hfac.
  - specialize (Hcl Hfi).
    destruct lead as [|N [|]]; simpl in Hcl; [lia| |lia]. cbn [app] in Hsi.
    destruct (forward_elements_channels_last (Runtime0:=R1) input kH kW dH dW padH padW
                ceil_mode cip1 dov1 N C IH IW Hwi Hfi Hsi Hpt
                HkH HkW HdH HdW HpH HpW HOH HOW Hdiv1)
      as (o1 & -> & Hs1 & Hf1 & Hd1 & Hl1 & Hel1).
    destruct (forward_elements_channels_last (Runtime0:=R2) input kH kW dH dW padH padW
                ceil_mode cip2 dov2 N C IH IW Hwi Hfi Hsi Hpt
                HkH HkW HdH HdW HpH HpW HOH HOW Hdiv2)
      as (o2 & -> & Hs2 & Hf2 & Hd2 & Hl2 & Hel2).
    f_equal. apply tensor_ext; try congruence.
    { rewrite Hs1. apply Forall_cons in Hlead as [? _]. fold OH OW.
      repeat constructor; lia. }
    intros xs Hxs. rewrite Hs1 in Hxs.
    destruct (entry_coords [N] C OH OW xs Hxs) as (idx & c & h & w & -> & Hidx & ? & ? & ?).
    apply Forall2_cons_inv_r in Hidx as (n & idx' & Hn & Hidx & ->).
    apply Forall2_nil_inv_r in Hidx as ->. cbn [app].
    rewrite Hel1, Hel2 by done.
    unfold avg_pool_cell_channels_last. by rewrite Hfac.
Qed.

(** The gradient is the same tensor for every number of threads and
    vector width, and whatever fresh storage holds; so is the result of
    the forward pass, on a packed and on a channels-last input. *)
Theorem avg_pool2d_runtime_independent (R1 R2 : Runtime A)
    (gradOutput input : Tensor A)
    (kH kW dH dW padH padW : Z) (ceil_mode count_include_pad : bool)
    (divisor_override : option Z) (lead : list Z) (C IH IW : Z) :
  let OH := pooling_output_shape_pad_lr IH kH padH padH dH 1 ceil_mode in
  let OW := pooling_output_shape_pad_lr IW kW padW padW dW 1 ceil_mode in
  well_formed input → well_formed gradOutput →
  (length lead ≤ 1)%nat →
  sizes input = lead ++ [C; IH; IW] → sizes gradOutput = lead ++ [C; OH; OW] →
  scalar_type gradOutput = scalar_type input → pooling_type (scalar_type input) →
  Forall int_range [kH; kW; dH; dW; padH; padW] →
  0 < kH → 0 < kW → 0 < dH → 0 < dW →
  padH ≤ kH `quot` 2 → padW ≤ kW `quot` 2 →
  0 < C → 0 < IH → 0 < IW → 1 ≤ OH → 1 ≤ OW →
  divisor_nonzero divisor_override = true →
  @avg_pool2d_backward_out_cpu A _ R1 _ gradOutput input [kH; kW] [dH; dW]
    [padH; padW] ceil_mode count_include_pad divisor_override =
  @avg_pool2d_backward_out_cpu A _ R2 _ gradOutput input [kH; kW] [dH; dW]
    [padH; padW] ceil_mode count_include_pad divisor_override ∧
  @avg_pool2d_out_cpu A _ R1 _ input [kH; kW] [dH; dW] [padH; padW]
    ceil_mode count_include_pad divisor_override =
  @avg_pool2d_out_cpu A _ R2 _ input [kH; kW] [dH; dW] [padH; padW]
    ceil_mode count_include_pad divisor_override.
Proof.
  intros OH OW Hwi Hwg Hl Hsi Hsg Hty Hpt Hints HkH HkW HdH HdW HpH HpW
    HC HIH HIW HOH HOW Hdiv.
  assert (Forall (λ s, 0 ≤ s) (sizes input)) as Hnn by by destruct Hwi as (_ & ? & _).
  assert (Forall (λ s, 0 ≤ s) lead) as Hlead.
  { rewrite Hsi in Hnn. by apply Forall_app in Hnn as [? _]. }
  split.
  - destruct (backward_elements (Runtime0:=R1) gradOutput input kH kW dH dW padH padW
                ceil_mode count_include_pad divisor_override lead C IH IW)
      as (g1 & -> & Hs1 & Hf1 & Hd1 & Hl1 & Hel1); try done.
    destruct (backward_elements (Runtime0:=R2) gradOutput input kH kW dH dW padH padW
                ceil_mode count_include_pad divisor_override lead C IH IW)
      as (g2 & -> & Hs2 & Hf2 & Hd2 & Hl2 & Hel2); try done.
    f_equal. apply tensor_ext; try congruence.
    intros xs Hxs. rewrite Hs1, Hsi in Hxs.
    destruct (entry_coords lead C IH IW xs Hxs) as (idx & c & h & w & -> & ? & ? & ? & ?).
    by rewrite Hel1, Hel2.
  - by apply (forward_results_equal R1 R2 input kH kW dH dW padH padW ceil_mode
                count_include_pad count_include_pad divisor_override divisor_override
                lead C IH IW).
Qed.

(** With a divisor override, [count_include_pad] has no effect on the
    gradient, nor on the result of the forward pass, in both
    layouts. *)
Theorem avg_pool2d_override_ignores_count_include_pad (R : Runtime A)
    (gradOutput input : Tensor A)
    (kH kW dH dW padH padW : Z) (ceil_mode : bool)
    (d : Z) (lead : list Z) (C IH IW : Z) :
  let OH := pooling_output_shape_pad_lr IH kH padH padH dH 1 ceil_mode in
  let OW := pooling_output_shape_pad_lr IW kW padW padW dW 1 ceil_mode in
  well_formed input → well_formed gradOutput →
  (length lead ≤ 1)%nat →
  sizes input = lead ++ [C; IH; IW] → sizes gradOutput = lead ++ [C; OH; OW] →
  scalar_type gradOutput = scalar_type input → pooling_type (scalar_type input) →
  Forall int_range [kH; kW; dH; dW; padH; padW] →
  0 < kH → 0 < kW → 0 < dH → 0 < dW →
  padH ≤ kH `quot` 2 → padW ≤ kW `quot` 2 →
  0 < C → 0 < IH → 0 < IW → 1 ≤ OH → 1 ≤ OW →
  d ≠ 0 →
  avg_pool2d_backward_out_cpu gradOutput input [kH; kW] [dH; dW]
    [padH; padW] ceil_mode true (Some d) =
  avg_pool2d_backward_out_cpu gradOutput input [kH; kW] [dH; dW]
    [padH; padW] ceil_mode false (Some d) ∧
  avg_pool2d_out_cpu input [kH; kW] [dH; dW] [padH; padW] ceil_mode true (Some d) =
  avg_pool2d_out_cpu input [kH; kW] [dH; dW] [padH; padW] ceil_mode false (Some d).
Proof.
  intros OH OW Hwi Hwg Hl Hsi Hsg Hty Hpt Hints HkH HkW HdH HdW HpH HpW
    HC HIH HIW HOH HOW Hd.
  assert (divisor_nonzero (Some d) = true) as Hdiv
    by (by apply bool_decide_eq_true_2).
  assert (Forall (λ s, 0 ≤ s) (sizes input)) as Hnn by by destruct Hwi as (_ & ? & _).
  assert (Forall (λ s, 0 ≤ s) lead) as Hlead.
  { rewrite Hsi in Hnn. by apply Forall_app in Hnn as [? _]. }
  split.
  - destruct (backward_elements gradOutput input kH kW dH dW padH padW
                ceil_mode true (Some d) lead C IH IW)
      as (g1 & -> & Hs1 & Hf1 & Hd1 & Hl1 & Hel1); try done.
    destruct (backward_elements gradOutput input kH kW dH dW padH padW
                ceil_mode false (Some d) lead C IH IW)
      as (g2 & -> & Hs2 & Hf2 & Hd2 & Hl2 & Hel2); try done.
    f_equal. apply tensor_ext; try congruence.
    intros xs Hxs. rewrite Hs1, Hsi in Hxs.
    destruct (entry_coords lead C IH IW xs Hxs) as (idx & c & h & w & -> & ? & ? & ? & ?).
    by rewrite Hel1, Hel2.
  - by apply (forward_results_equal R R input kH kW dH dW padH padW ceil_mode
                true false (Some d) (Some d) lead C IH IW).
Qed.
End PoolingInvariance.

Section LayoutsAgree.
Import AveragePool.
Context {A : Type} `{!Inhabited A, !Runtime A, !Arith A}.

(** A packed and a channels-last tensor that hold the same elements are
    pooled to the same elements, for kernel, stride and padding in the
    range of [int], when adding to zero and converting a type to itself
    change nothing in the arithmetic of the element type. *)
Theorem avg_pool2d_layouts_agree (x y : Tensor A)
    (kH kW dH dW padH padW : Z) (ceil_mode count_include_pad : bool)
    (divisor_override : option Z) (N C IH IW : Z) :
  let OH := pooling_output_shape_pad_lr IH kH padH padH dH 1 ceil_mode in
  let OW := pooling_output_shape_pad_lr IW kW padW padW dW 1 ceil_mode in
  well_formed x → well_formed y →
  suggest_memory_format x = Contiguous → suggest_memory_format y = ChannelsLast →
  sizes x = [N; C; IH; IW] → sizes y = [N; C; IH; IW] →
  scalar_type y = scalar_type x → pooling_type (scalar_type x) →
  Forall int_range [kH; kW; dH; dW; padH; padW] →
  (∀ n c ih iw, 0 ≤ n < N → 0 ≤ c < C → 0 ≤ ih < IH → 0 ≤ iw < IW →
     element y [n; c; ih; iw] = element x [n; c; ih; iw]) →
  (∀ v, add (scalar_type x) (zero (scalar_type x)) v = v) →
  (∀ v, cast (scalar_type x) (scalar_type x) v = v) →
  0 < kH → 0 < kW → 0 < dH → 0 < dW →
  padH ≤ kH `quot` 2 → padW ≤ kW `quot` 2 →
  1 ≤ OH → 1 ≤ OW →
  divisor_nonzero divisor_override = true →
  ∃ ox oy,
    avg_pool2d_out_cpu x [kH; kW] [dH; dW] [padH; padW]
      ceil_mode count_include_pad divisor_override = Ok ox ∧
    avg_pool2d_out_cpu y [kH; kW] [dH; dW] [padH; padW]
      ceil_mode count_include_pad divisor_override = Ok oy ∧
    sizes oy = sizes ox ∧ scalar_type oy = scalar_type ox ∧
    ∀ n c oh ow, 0 ≤ n < N → 0 ≤ c < C → 0 ≤ oh < OH → 0 ≤ ow < OW →
      element oy [n; c; oh; ow] = element ox [n; c; oh; ow].
Proof.
  intros OH OW Hwx Hwy Hfx Hfy Hsx Hsy Hty Hpt Hints Hxy Hadd Hcast
    HkH HkW HdH HdW HpH HpW HOH HOW Hdiv.
  assert (0 < N ∧ 0 < C ∧ 0 < IH ∧ 0 < IW) as (HN & HC & HIH & HIW).
  { destruct Hwy as (_ & _ & Hcl). rewrite Hfy, Hsy in Hcl.
    destruct Hcl as [_ Hpos].
    apply Forall_cons in Hpos as [? Hpos]. apply Forall_cons in Hpos as [? Hpos].
    apply Forall_cons in Hpos as [? Hpos]. apply Forall_cons in Hpos as [? _].
    done. }
  assert (pooling_type (scalar_type y)) as Hpty by by rewrite Hty.
  destruct (forward_elements x kH kW dH dW padH padW ceil_mode count_include_pad
              divisor_override [N] C IH IW Hwx ltac:(simpl; lia) Hsx Hpt
              HkH HkW HdH HdW HpH HpW HC HIH HIW HOH HOW Hdiv)
    as (ox & Hox & Hs1 & Hf1 & Hd1 & Hl1 & Hel1).
  destruct (forward_elements_channels_last y kH kW dH dW padH padW ceil_mode
              count_include_pad divisor_override N C IH IW Hwy Hfy Hsy Hpty
              HkH HkW HdH HdW HpH HpW HOH HOW Hdiv)
    as (oy & Hoy & Hs2 & Hf2 & Hd2 & Hl2 & Hel2).
  exists ox, oy. split_and!; [done|done|by rewrite Hs1, Hs2|congruence|].
  intros n c oh ow Hn Hc Hoh How.
  destruct (Hel1 [n] c oh ow ltac:(repeat constructor; lia) Hc Hoh How) as [_ Hx].
  cbn [app] in Hx. rewrite (Hx Hfx), (Hel2 n c oh ow Hn Hc Hoh How), Hty.
  pose proof (pooling_window_clamped oh ow kW kH dW dH padW padH IH IW) as Hw.
  cbv zeta in Hw.
  unfold avg_pool_cell_channels_last, avg_pool_cell, window_sum.
  set (w := pooling_window oh ow kW kH dW dH padW padH IH IW) in *.
  destruct (window_empty w); [done|].
  rewrite Hadd. case_bool_decide as Hb.
  - rewrite Hb. do 2 f_equal. apply irange_ext. intros ih acc Hih.
    apply irange_ext. intros iw acc' Hiw.
    rewrite Hxy by lia. done.
  - rewrite Hcast. f_equal. apply irange_ext. intros ih acc Hih.
    apply irange_ext. intros iw acc' Hiw.
    rewrite Hcast, Hxy by lia. done.
Qed.
End LayoutsAgree.

Section ChannelsLastExamples.
Import AveragePool Instances.
#[local] Existing Instance arith_Long.

(** Two channels on a 2x2 plane under one 2x2 window: the channels are
    averaged apart. *)
Lemma avg_pool2d_forward_average_channels_last_witness :
  let x : Tensor Z :=
    mkTensor [1; 2; 2; 2] ChannelsLast Long [1; 50; 2; 60; 3; 70; 6; 80] in
  ∃ out, @avg_pool2d_out_cpu Z _ runtime_Z _ x [2; 2] [2; 2] [0; 0] false true None
           = Ok out ∧
         sizes out = [1; 2; 1; 1] ∧
         element out [0; 0; 0; 0] = 3 ∧ element out [0; 1; 0; 0] = 65.
Proof.
  intros x.
  destruct (avg_pool2d_forward_average_channels_last (Runtime0:=runtime_Z) x
              2 2 2 2 0 0 false true None 1 2 2 2)
    as (out & Ho & Hs & _ & _ & _ & Hel); [concrete..|].
  exists out. split_and!; [exact Ho|exact Hs|..].
  - etrans; [refine (Hel 0 0 0 0 _ _ _ _); concrete|reflexivity].
  - etrans; [refine (Hel 0 1 0 0 _ _ _ _); concrete|reflexivity].
Defined.

(** Four threads and four lanes against one thread and one lane, on a
    channels-last input and a packed gradient. *)
Lemma avg_pool2d_runtime_independent_witness :
  let x : Tensor Z := mkTensor [1; 1; 3; 3] ChannelsLast Long (seqZ 1 9) in
  let g : Tensor Z := mkTensor [1; 1; 2; 2] Contiguous Long [10; 20; 30; 40] in
  let R : Runtime Z :=
    {| num_threads := 1; vec_size := λ t, match t with BFloat16 => 2 | _ => 1 end%positive;
       bvec_is_two_fvec := eq_refl; GradMode_is_enabled := false;
       uninitialized := λ _, 42 |} in
  @avg_pool2d_backward_out_cpu Z _ runtime_Z _ g x [2; 2] [1; 1] [0; 0] false true None =
  @avg_pool2d_backward_out_cpu Z _ R _ g x [2; 2] [1; 1] [0; 0] false true None ∧
  @avg_pool2d_out_cpu Z _ runtime_Z _ x [2; 2] [1; 1] [0; 0] false true None =
  @avg_pool2d_out_cpu Z _ R _ x [2; 2] [1; 1] [0; 0] false true None.
Proof.
  intros x g R.
  refine (avg_pool2d_runtime_independent runtime_Z R g x 2 2 1 1 0 0 false true
            None [1] 1 3 3 _ _ _ _ _ _ _ _ _ _ _ _ _ _ _ _ _ _ _ _);
    concrete.
Defined.

Lemma avg_pool2d_override_ignores_count_include_pad_witness :
  let x : Tensor Z := mkTensor [1; 1; 3; 3] ChannelsLast Long (seqZ 1 9) in
  let g : Tensor Z := mkTensor [1; 1; 3; 3] Contiguous Long (seqZ 10 9) in
  @avg_pool2d_backward_out_cpu Z _ runtime_Z _ g x [3; 3] [1; 1] [1; 1] false true
    (Some 5) =
  @avg_pool2d_backward_out_cpu Z _ runtime_Z _ g x [3; 3] [1; 1] [1; 1] false false
    (Some 5) ∧
  @avg_pool2d_out_cpu Z _ runtime_Z _ x [3; 3] [1; 1] [1; 1] false true (Some 5) =
  @avg_pool2d_out_cpu Z _ runtime_Z _ x [3; 3] [1; 1] [1; 1] false false (Some 5).
Proof.
  intros x g.
  refine (avg_pool2d_override_ignores_count_include_pad runtime_Z g x
            3 3 1 1 1 1 false 5 [1] 1 3 3
            _ _ _ _ _ _ _ _ _ _ _ _ _ _ _ _ _ _ _ _);
    concrete.
Defined.

(** The same 2x2 planes of two channels, packed and channels last. *)
Lemma avg_pool2d_layouts_agree_witness :
  let x : Tensor Z :=
    mkTensor [1; 2; 2; 2] Contiguous Long [1; 2; 3; 6; 50; 60; 70; 80] in
  let y : Tensor Z :=
    mkTensor [1; 2; 2; 2] ChannelsLast Long [1; 50; 2; 60; 3; 70; 6; 80] in
  ∃ ox oy,
    @avg_pool2d_out_cpu Z _ runtime_Z _ x [2; 2] [2; 2] [0; 0] false true None = Ok ox ∧
    @avg_pool2d_out_cpu Z _ runtime_Z _ y [2; 2] [2; 2] [0; 0] false true None = Ok oy ∧
    element oy [0; 1; 0; 0] = element ox [0; 1; 0; 0].
Proof.
  intros x y.
  destruct (avg_pool2d_layouts_agree (Runtime0:=runtime_Z) x y
              2 2 2 2 0 0 false true None 1 2 2 2)
    as (ox & oy & Hox & Hoy & _ & _ & Hel); try concrete.
  - intros n c ih iw Hn Hc Hih Hiw.
    assert (n = 0) as -> by lia.
    assert (c = 0 ∨ c = 1) as [-> | ->] by lia;
      (assert (ih = 0 ∨ ih = 1) as [-> | ->] by lia);
      (assert (iw = 0 ∨ iw = 1) as [-> | ->] by lia); reflexivity.
  - exists ox, oy. split_and!; [exact Hox|exact Hoy|].
    refine (Hel 0 1 0 0 _ _ _ _); concrete.
Defined.
End ChannelsLastExamples.


(** ** Average pooling: a kernel of one cell, and constant planes *)

Section UnitKernel.
Import AveragePool.
Context {A : Type} `{!Inhabited A, !Runtime A, !Arith A}.

Lemma irange_one {St} (b : Z) (body : Z → St → St) (st : St) :
  irange b (b + 1) body st = body b st.
Proof. by rewrite irange_snoc, irange_empty by lia. Qed.

Lemma unit_output_shape (I : Z) (ceil_mode : bool) :
  0 < I → pooling_output_shape_pad_lr I 1 0 0 1 1 ceil_mode = I.
Proof.
  intros HI. unfold pooling_output_shape_pad_lr. cbv zeta.
  rewrite div_rtn_floor by done. rewrite Z.div_1_r.
  destruct ceil_mode; cbn [andb].
  - rewrite bool_decide_eq_false_2 by lia. lia.
  - lia.
Qed.

Lemma unit_window (oh ow IH IW : Z) :
  0 ≤ oh < IH → 0 ≤ ow < IW →
  pooling_window oh ow 1 1 1 1 0 0 IH IW = mkWindow oh (oh + 1) ow (ow + 1) 1.
Proof.
  intros Hoh How. unfold pooling_window. cbv zeta.
  rewrite !Z.mul_1_r, !Z.sub_0_r, !Z.add_0_r.
  rewrite (Z.min_l (oh + 1) IH), (Z.min_l (ow + 1) IW) by lia.
  f_equal; lia.
Qed.

(** Pooling with a kernel of one cell, stride one and no padding returns
    its input, in both layouts and whatever [ceil_mode] and
    [count_include_pad] are, when adding to zero, dividing by one and
    converting a type to itself change nothing in the arithmetic of the
    element type. *)
Theorem avg_pool2d_unit_kernel_identity (input : Tensor A)
    (ceil_mode count_include_pad : bool) (lead : list Z) (C IH IW : Z) :
  well_formed input → (length lead ≤ 1)%nat →
  sizes input = lead ++ [C; IH; IW] →
  pooling_type (scalar_type input) → scalar_type input ≠ BFloat16 →
  (∀ v, add (scalar_type input) (zero (scalar_type input)) v = v) →
  (∀ v, div (scalar_type input) v 1 = v) →
  (∀ v, cast (scalar_type input) (scalar_type input) v = v) →
  0 < C → 0 < IH → 0 < IW →
  avg_pool2d_out_cpu input [1; 1] [1; 1] [0; 0] ceil_mode count_include_pad None =
  Ok input.
Proof.
  intros Hwf Hl Hsi Hpt Hnb Hadd Hdiv Hcast HC HIH HIW.
  pose proof (unit_output_shape IH ceil_mode HIH) as HOH.
  pose proof (unit_output_shape IW ceil_mode HIW) as HOW.
  assert (Forall (λ s, 0 ≤ s) (sizes input)) as Hnn by by destruct Hwf as (_ & ? & _).
  assert (length (data_ptr input) = Z.to_nat (numel input)) as Hlen
    by by destruct Hwf as (? & _).
  assert (∀ oh ow, 0 ≤ oh < IH → 0 ≤ ow < IW →
            divide_factor (mkWindow oh (oh + 1) ow (ow + 1) 1) count_include_pad None = 1)
    as Hfactor.
  { intros oh ow _ _. unfold divide_factor. cbn [ih0 ih1 iw0 iw1 pool_size].
    destruct count_include_pad; lia. }
  assert (∀ oh ow, window_empty (mkWindow oh (oh + 1) ow (ow + 1) 1) = false) as Hne.
  { intros oh ow. unfold window_empty. cbn [ih0 ih1 iw0 iw1].
    by rewrite !bool_decide_eq_false_2 by lia. }
  destruct (well_formed_low_rank input lead C IH IW Hwf Hsi Hl) as (Hfi & Hcl & Hpk).
  destruct Hfi as [Hfi | Hfi].
  - destruct (forward_elements input 1 1 1 1 0 0 ceil_mode count_include_pad None
                lead C IH IW Hwf Hl Hsi Hpt)
      as (out & -> & Hs & Hf & Hd & Hlo & Hel); [done..|lia|lia|done|].
    rewrite HOH, HOW in Hs, Hel.
    f_equal. apply tensor_ext; try congruence.
    intros xs Hxs. rewrite Hs in Hxs.
    destruct (entry_coords lead C IH IW xs Hxs) as (idx & c & h & w & -> & ? & ? & ? & ?).
    destruct (Hel idx c h w) as [_ ->]; try done.
    rewrite bool_decide_eq_false_2 by done.
    rewrite unit_window by done.
    unfold avg_pool_cell, window_sum. rewrite Hne, Hfactor by done.
    cbn [ih0 ih1 iw0 iw1]. rewrite !irange_one.
    by rewrite !Hadd, !Hcast, Hdiv.
  - specialize (Hcl Hfi).
    destruct lead as [|N [|]]; simpl in Hcl; [lia| |lia]. cbn [app] in *.
    destruct (forward_elements_channels_last input 1 1 1 1 0 0 ceil_mode
                count_include_pad None N C IH IW Hwf Hfi Hsi Hpt)
      as (out & -> & Hs & Hf & Hd & Hlo & Hel); [done..|lia|lia|done|].
    rewrite HOH, HOW in Hs, Hel.
    f_equal. apply tensor_ext; try congruence.
    intros xs Hxs. rewrite Hs in Hxs.
    destruct (entry_coords [N] C IH IW xs Hxs) as (idx & c & h & w & -> & Hidx & ? & ? & ?).
    apply Forall2_cons_inv_r in Hidx as (n & idx' & Hn & Hidx & ->).
    apply Forall2_nil_inv_r in Hidx as ->. cbn [app].
    rewrite Hel by done.
    rewrite unit_window by done.
    unfold avg_pool_cell_channels_last. rewrite Hne, Hfactor by done.
    rewrite bool_decide_eq_false_2 by done.
    cbn [ih0 ih1 iw0 iw1]. rewrite !irange_one.
    by rewrite Hadd, Hdiv.
Qed.

(** The backward pass of that pooling returns the gradient it is given,
    when the gradient has the layout of the input. *)
Theorem avg_pool2d_backward_unit_kernel_identity (gradOutput input : Tensor A)
    (ceil_mode count_include_pad : bool) (lead : list Z) (C IH IW : Z) :
  well_formed input → well_formed gradOutput → (length lead ≤ 1)%nat →
  sizes input = lead ++ [C; IH; IW] → sizes gradOutput = lead ++ [C; IH; IW] →
  scalar_type gradOutput = scalar_type input →
  suggest_memory_format gradOutput = suggest_memory_format input →
  pooling_type (scalar_type input) →
  (∀ v, add (scalar_type input) (zero (scalar_type input)) v = v) →
  (∀ v, div (scalar_type input) v 1 = v) →
  0 < C → 0 < IH → 0 < IW →
  avg_pool2d_backward_out_cpu gradOutput input [1; 1] [1; 1] [0; 0]
    ceil_mode count_include_pad None = Ok gradOutput.
Proof.
  intros Hwf Hwg Hl Hsi Hsg Hty Hfmt Hpt Hadd Hdiv HC HIH HIW.
  pose proof (unit_output_shape IH ceil_mode HIH) as HOH.
  pose proof (unit_output_shape IW ceil_mode HIW) as HOW.
  assert (Forall (λ s, 0 ≤ s) (sizes input)) as Hnn by by destruct Hwf as (_ & ? & _).
  assert (length (data_ptr gradOutput) = Z.to_nat (numel gradOutput)) as Hlen
    by by destruct Hwg as (? & _).
  destruct (backward_elements gradOutput input 1 1 1 1 0 0 ceil_mode count_include_pad
              None lead C IH IW Hwf Hwg Hl Hsi)
    as (gi & -> & Hs & Hf & Hd & Hlo & Hel);
    [by rewrite HOH, HOW|done|done|repeat constructor; by unfold int_range
    |done..|lia|lia|done|].
  rewrite HOH, HOW in Hel.
  f_equal. apply tensor_ext; try congruence.
  intros xs Hxs. rewrite Hs, Hsi in Hxs.
  destruct (entry_coords lead C IH IW xs Hxs) as (idx & c & ih & iw & -> & ? & ? & ? & ?).
  rewrite Hel by done. rewrite <- window_loops_sum.
  rewrite (irange_single 0 IH ih).
  2: { intros oh v Hoh Hne. apply irange_noop. intros ow v' How. cbv zeta.
       rewrite unit_window by done. unfold window_contains. cbn [ih0 ih1 iw0 iw1].
       by rewrite bool_decide_eq_false_2 by lia. }
  rewrite bool_decide_eq_true_2 by lia.
  rewrite (irange_single 0 IW iw).
  2: { intros ow v How Hne. cbv zeta.
       rewrite unit_window by done. unfold window_contains. cbn [ih0 ih1 iw0 iw1].
       by rewrite bool_decide_eq_false_2 by lia. }
  rewrite bool_decide_eq_true_2 by lia. cbv zeta.
  rewrite unit_window by done. unfold window_contains. cbn [ih0 ih1 iw0 iw1].
  rewrite bool_decide_eq_true_2 by lia.
  assert (divide_factor (mkWindow ih (ih + 1) iw (iw + 1) 1) count_include_pad None = 1)
    as ->.
  { unfold divide_factor. cbn [ih0 ih1 iw0 iw1 pool_size].
    destruct count_include_pad; lia. }
  by rewrite Hdiv, Hadd.
Qed.
End UnitKernel.

Section ConstantPlanes.
Import AveragePool Instances.
#[local] Existing Instance arith_Long.
Context `{!Runtime Z}.



End ConstantPlanes.

Section UnitKernelExamples.
Import AveragePool Instances.
#[local] Existing Instance arith_Long.

Lemma avg_pool2d_unit_kernel_identity_witness :
  let x : Tensor Z := mkTensor [1; 2; 2; 3] ChannelsLast Long (seqZ 1 12) in
  @avg_pool2d_out_cpu Z _ runtime_Z _ x [1; 1] [1; 1] [0; 0] true false None = Ok x.
Proof.
  intros x.
  refine (avg_pool2d_unit_kernel_identity (Runtime0:=runtime_Z) x true false
            [1] 2 2 3 _ _ _ _ _ _ _ _ _ _ _); try concrete.
  - intros v. apply Z.quot_1_r.
Defined.


Lemma avg_pool2d_backward_unit_kernel_identity_witness :
  let x : Tensor Z := mkTensor [2; 2; 3] Contiguous Long (seqZ 1 12) in
  let g : Tensor Z := mkTensor [2; 2; 3] Contiguous Long (seqZ 101 12) in
  @avg_pool2d_backward_out_cpu Z _ runtime_Z _ g x [1; 1] [1; 1] [0; 0] false true None
    = Ok g.
Proof.
  intros x g.
  refine (avg_pool2d_backward_unit_kernel_identity (Runtime0:=runtime_Z) g x false true
            [] 2 2 3 _ _ _ _ _ _ _ _ _ _ _ _ _); try concrete.
  - intros v. apply Z.quot_1_r.
Defined.
End UnitKernelExamples.
